(** * The sudoers lexer and its include stack (plugins/sudoers/toke.l)

    A shallow embedding of the flex scanner [sudoerslex], of the include
    machinery behind it ([expand_include], [read_dir_files], [switch_dir],
    [push_include], [pop_include]) and of the line reader [sudoers_input].

    Conventions.
    - A C string is a [list ascii] without the terminating NUL; reading the
      byte at index [strlen] yields NUL ([char_at]).
    - A flex pattern is a [regex]; the scanner picks the longest match among
      the rules active in the current start condition, the earliest rule on
      a tie ([yy_match]).
    - Memory allocation is taken to succeed: the out-of-memory exits of the
      source are not represented. *)

From Stdlib Require Import Ascii String ZArith Lia Bool.
From stdpp Require Import base list sorting.

Local Open Scope list_scope.
Local Open Scope nat_scope.

(** ** Characters and C strings *)

Module CStr.

Definition cstring := list ascii.

Definition str (s : string) : cstring := list_ascii_of_string s.

Definition NUL : ascii := ascii_of_nat 0.
Definition TAB : ascii := ascii_of_nat 9.
Definition LF : ascii := ascii_of_nat 10.
Definition VT : ascii := ascii_of_nat 11.
Definition FF : ascii := ascii_of_nat 12.
Definition CR : ascii := ascii_of_nat 13.
Definition SP : ascii := ascii_of_nat 32.
Definition BSLASH : ascii := ascii_of_nat 92.
Definition DQUOTE : ascii := ascii_of_nat 34.

(** [s[i]] for a NUL-terminated string. *)
Definition char_at (s : cstring) (i : nat) : ascii := nth i s NUL.

(** The value of a byte as [unsigned char]. *)
Definition uchar (c : ascii) : Z := Z.of_nat (nat_of_ascii c).

(** [strcmp(3)]: the difference of the first two bytes that differ, taken
    as [unsigned char]; the end of a string reads as NUL, and a NUL ends the
    comparison. *)
Fixpoint strcmp (a b : cstring) : Z :=
  match a, b with
  | [], [] => 0
  | [], y :: _ => (0 - uchar y)%Z
  | x :: _, [] => uchar x
  | x :: a', y :: b' =>
      if Ascii.eqb x y then (if Ascii.eqb x NUL then 0%Z else strcmp a' b')
      else (uchar x - uchar y)%Z
  end.

(** [strchr(s, c) != NULL] for a non-NUL [c]. *)
Definition has_char (c : ascii) (s : cstring) : bool :=
  existsb (Ascii.eqb c) s.

(** [strrchr(s, c)]: the index of the last occurrence of [c]. *)
Fixpoint strrchr (s : cstring) (c : ascii) : option nat :=
  match s with
  | [] => None
  | x :: s' =>
      match strrchr s' c with
      | Some i => Some (S i)
      | None => if Ascii.eqb x c then Some 0 else None
      end
  end.

(** [memchr(s, c, n)] over the first [n] bytes of a buffer. *)
Fixpoint memchr (s : list ascii) (c : ascii) : option nat :=
  match s with
  | [] => None
  | x :: s' =>
      if Ascii.eqb x c then Some 0
      else match memchr s' c with Some i => Some (S i) | None => None end
  end.

(** <ctype.h> in the C locale. *)
Definition in_range (lo hi : nat) (c : ascii) : bool :=
  (lo <=? nat_of_ascii c) && (nat_of_ascii c <=? hi).
Definition isdigit (c : ascii) : bool := in_range 48 57 c.
Definition isupper (c : ascii) : bool := in_range 65 90 c.
Definition islower (c : ascii) : bool := in_range 97 122 c.
Definition isalpha (c : ascii) : bool := isupper c || islower c.
Definition isalnum (c : ascii) : bool := isalpha c || isdigit c.
Definition isxdigit (c : ascii) : bool :=
  isdigit c || in_range 65 70 c || in_range 97 102 c.
Definition isblank (c : ascii) : bool := Ascii.eqb c SP || Ascii.eqb c TAB.
Definition isspace (c : ascii) : bool := isblank c || in_range 10 13 c.

Definition one_of (set : cstring) (c : ascii) : bool := existsb (Ascii.eqb c) set.
Definition none_of (set : cstring) (c : ascii) : bool := negb (one_of set c).

End CStr.
Import CStr.

(** ** Regular expressions and longest match, as flex uses them *)

Module Flex.

Inductive regex : Type :=
| Empty
| Eps
| Cls (p : ascii -> bool)
| Cat (r1 r2 : regex)
| Alt (r1 r2 : regex)
| Star (r : regex).

(** The language of a pattern. *)
Inductive matches : regex -> list ascii -> Prop :=
| MEps : matches Eps []
| MCls p c : p c = true -> matches (Cls p) [c]
| MCat r1 r2 s1 s2 :
    matches r1 s1 -> matches r2 s2 -> matches (Cat r1 r2) (s1 ++ s2)
| MAltL r1 r2 s : matches r1 s -> matches (Alt r1 r2) s
| MAltR r1 r2 s : matches r2 s -> matches (Alt r1 r2) s
| MStar0 r : matches (Star r) []
| MStarS r s1 s2 :
    matches r s1 -> matches (Star r) s2 -> matches (Star r) (s1 ++ s2).

(** Pattern syntax of the scanner file. *)
Definition chr (c : ascii) : regex := Cls (Ascii.eqb c).
Definition any_of (set : cstring) : regex := Cls (one_of set).
Definition not_of (set : cstring) : regex := Cls (none_of set).
(** [.] matches every byte but a newline. *)
Definition dot : regex := Cls (fun c => negb (Ascii.eqb c LF)).
Definition opt (r : regex) : regex := Alt r Eps.
Definition plus (r : regex) : regex := Cat r (Star r).
Fixpoint lit (s : cstring) : regex :=
  match s with
  | [] => Eps
  | c :: s' => Cat (chr c) (lit s')
  end.
(** [r{n}] and [r{n,m}]. *)
Fixpoint rep (n : nat) (r : regex) : regex :=
  match n with
  | 0 => Eps
  | S n' => Cat r (rep n' r)
  end.
Fixpoint upto (n : nat) (r : regex) : regex :=
  match n with
  | 0 => Eps
  | S n' => opt (Cat r (upto n' r))
  end.
Definition rep_range (n m : nat) (r : regex) : regex :=
  Cat (rep n r) (upto (m - n) r).

Fixpoint nullable (r : regex) : bool :=
  match r with
  | Empty => false
  | Eps => true
  | Cls _ => false
  | Cat r1 r2 => nullable r1 && nullable r2
  | Alt r1 r2 => nullable r1 || nullable r2
  | Star _ => true
  end.

Definition cat (r1 r2 : regex) : regex :=
  match r1, r2 with
  | Empty, _ => Empty
  | _, Empty => Empty
  | Eps, _ => r2
  | _, Eps => r1
  | _, _ => Cat r1 r2
  end.

Definition alt (r1 r2 : regex) : regex :=
  match r1, r2 with
  | Empty, _ => r2
  | _, Empty => r1
  | Eps, Eps => Eps
  | _, _ => Alt r1 r2
  end.

(** Brzozowski derivative. *)
Fixpoint deriv (c : ascii) (r : regex) : regex :=
  match r with
  | Empty => Empty
  | Eps => Empty
  | Cls p => if p c then Eps else Empty
  | Cat r1 r2 =>
      if nullable r1 then alt (cat (deriv c r1) r2) (deriv c r2)
      else cat (deriv c r1) r2
  | Alt r1 r2 => alt (deriv c r1) (deriv c r2)
  | Star r1 => cat (deriv c r1) (Star r1)
  end.

(** No further byte can extend a match. *)
Definition exhausted (r : regex) : bool :=
  match r with
  | Empty | Eps => true
  | _ => false
  end.

(** [scan_re r s n best]: [n] bytes were consumed to reach [r]; [best] is
    the length of the longest match seen so far, [0] standing for none.
    The scan stops as soon as no further byte can extend a match. *)
Fixpoint scan_re (r : regex) (s : list ascii) (n best : nat) : nat :=
  match s with
  | [] => best
  | c :: s' =>
      let r' := deriv c r in
      let best' := if nullable r' then S n else best in
      if exhausted r' then best' else scan_re r' s' (S n) best'
  end.

(** Length of the longest non-empty prefix of [s] matching [r]; [0] if none. *)
Definition longest (r : regex) (s : list ascii) : nat := scan_re r s 0 0.

End Flex.

(** ** The line reader: [sudoers_input] *)

Module Input.

(** The stream behind [sudoersin]: the bytes not read yet, and the end-of-file
    and error indicators of stdio. *)
Record FILE : Type := mkFILE {
  f_name : cstring;
  f_data : list ascii;
  f_eof : bool;
  f_error : bool
}.

(** [struct sudolinebuf]; [buf] holds the [len] bytes of the line that was
    read last. *)
Record sudolinebuf_t : Type := mkLinebuf {
  buf : list ascii;
  size : nat;
  len : nat;
  off : nat;
  toke_start : nat;
  toke_end : nat
}.

(** [memset(&sudolinebuf, 0, sizeof(sudolinebuf))]. *)
Definition linebuf_zero : sudolinebuf_t := mkLinebuf [] 0 0 0 0 0.

(** The bytes of [s] up to and including the first newline, and the rest. *)
Fixpoint split_line (s : list ascii) : list ascii * list ascii :=
  match s with
  | [] => ([], [])
  | c :: s' =>
      if Ascii.eqb c LF then ([c], s')
      else let '(l, r) := split_line s' in (c :: l, r)
  end.

(** [getdelim(&buf, &size, '\n', fp)]: [None] is the return value -1. A
    line that reaches the end of the stream sets its end-of-file indicator. *)
Definition getdelim (lb : sudolinebuf_t) (fp : FILE)
  : option nat * sudolinebuf_t * FILE :=
  if f_error fp then (None, lb, fp)
  else match f_data fp with
       | [] => (None, lb, mkFILE (f_name fp) [] true (f_error fp))
       | _ =>
           let '(l, r) := split_line (f_data fp) in
           let n := length l in
           let hit_eof := negb (Ascii.eqb (List.last l NUL) LF) in
           (Some n,
            mkLinebuf l (Nat.max (size lb) (n + 1)) (len lb) (off lb)
              (toke_start lb) (toke_end lb),
            mkFILE (f_name fp) r (f_eof fp || hit_eof) (f_error fp))
       end.

Inductive input_result : Type :=
| Input (bytes : list ascii) (lb : sudolinebuf_t) (fp : FILE)
| FatalError (msg : string).

(** The tail of [sudoers_input]: copy at most [max_size] bytes to flex. *)
Definition deliver (max_size avail : nat) (lb : sudolinebuf_t) (fp : FILE)
  : input_result :=
  let avail := if max_size <? avail then max_size else avail in
  Input (firstn avail (skipn (off lb) (buf lb)))
    (mkLinebuf (buf lb) (size lb) (len lb) (off lb + avail)
       (toke_start lb) (toke_end lb))
    fp.

(** [sudoers_input(buf, max_size)]; the result [Input [] _ _] is the
    return value 0, end of file. *)
Definition sudoers_input (max_size : nat) (lb : sudolinebuf_t) (fp : FILE)
  : input_result :=
  let avail := len lb - off lb in
  if avail =? 0 then
    (* int ch = getc(sudoersin); if (ch == EOF) goto sudoers_eof; *)
    match f_error fp, f_data fp with
    | true, _ => FatalError "input in flex scanner failed"
    | false, [] => Input [] lb (mkFILE (f_name fp) [] true false)
    | false, _ =>
        match getdelim lb fp with
        | (None, lb1, fp1) =>
            if f_eof fp1 then Input [] lb1 fp1
            else FatalError "input in flex scanner failed"
        | (Some avail, lb1, fp1) =>
            (* getdelim() can return embedded NULs, truncate if we find one. *)
            let '(line, avail) :=
              match memchr (firstn avail (buf lb1)) NUL with
              | Some i => (firstn i (buf lb1) ++ [LF], i + 1)
              | None => (buf lb1, avail)
              end in
            (* Add trailing newline if it is missing. *)
            let '(line, sz, avail) :=
              if negb (Ascii.eqb (char_at line (avail - 1)) LF) then
                (firstn avail line ++ [LF],
                 if size lb1 <=? avail + 2 then avail + 2 else size lb1,
                 avail + 1)
              else (line, size lb1, avail) in
            deliver max_size avail (mkLinebuf line sz avail 0 0 0) fp1
        end
    end
  else deliver max_size avail lb fp.

(** Everything flex gets to see of a stream: the concatenation of the
    successive results of [YY_INPUT] up to end of file. *)
Fixpoint slurp (fuel max_size : nat) (lb : sudolinebuf_t) (fp : FILE)
  : list ascii :=
  match fuel with
  | 0 => []
  | S k =>
      match sudoers_input max_size lb fp with
      | Input [] _ _ => []
      | Input bytes lb' fp' => bytes ++ slurp k max_size lb' fp'
      | FatalError _ => []
      end
  end.

(** [YY_READ_BUF_SIZE]. *)
Definition YY_READ_BUF_SIZE : nat := 8 * 1024.

Definition stream_chars (fp : FILE) : list ascii :=
  slurp (length (f_data fp) + 2) YY_READ_BUF_SIZE linebuf_zero fp.

End Input.
Import Input.

(** ** The state of the scanner *)

Module Lexer.

(** Start conditions ([%s] inclusive, [%x] exclusive). *)
Inductive start_cond : Type :=
| INITIAL | GOTDEFS | GOTCMND | GOTREGEX | STARTDEFS | INDEFS | INSTR
| WANTDIGEST | GOTINC | EXPECTPATH.

Definition start_cond_eqb (a b : start_cond) : bool :=
  match a, b with
  | INITIAL, INITIAL | GOTDEFS, GOTDEFS | GOTCMND, GOTCMND
  | GOTREGEX, GOTREGEX | STARTDEFS, STARTDEFS | INDEFS, INDEFS
  | INSTR, INSTR | WANTDIGEST, WANTDIGEST | GOTINC, GOTINC
  | EXPECTPATH, EXPECTPATH => true
  | _, _ => false
  end.

(** [%s] start conditions also run the rules that name no start condition. *)
Definition inclusive (sc : start_cond) : bool :=
  match sc with
  | INITIAL | GOTDEFS | WANTDIGEST | EXPECTPATH => true
  | _ => false
  end.

(** The tokens of gram.h that the scanner returns; [CHAR c] is a literal
    character token and [END] the 0 of [yyterminate()]. *)
Inductive token : Type :=
| END | CHAR (c : ascii)
| COMMAND | ALIAS | DEFVAR | NTWKADDR | NETGROUP | USERGROUP | WORD | DIGEST
| INCLUDE | INCLUDEDIR
| DEFAULTS | DEFAULTS_HOST | DEFAULTS_USER | DEFAULTS_RUNAS | DEFAULTS_CMND
| NOPASSWD | PASSWD | NOEXEC | EXEC | SETENV | NOSETENV
| LOG_INPUT | NOLOG_INPUT | LOG_OUTPUT | NOLOG_OUTPUT | MAIL | NOMAIL
| FOLLOWLNK | NOFOLLOWLNK | INTERCEPT | NOINTERCEPT
| ALL | HOSTALIAS | CMNDALIAS | USERALIAS | RUNASALIAS | ERROR | NOMATCH
| CHROOT | CWD | TYPE | ROLE | APPARMOR_PROFILE | PRIVS | LIMITPRIVS
| CMND_TIMEOUT | NOTBEFORE | NOTAFTER
| SHA224_TOK | SHA256_TOK | SHA384_TOK | SHA512_TOK.

Inductive digest_kind : Type :=
| SUDO_DIGEST_SHA224 | SUDO_DIGEST_SHA256 | SUDO_DIGEST_SHA384
| SUDO_DIGEST_SHA512.

(** A [char *] of [sudoerslval]: NULL, a live string, or a pointer whose
    string was passed to [free]. *)
Inductive strptr : Type :=
| SNull
| SStr (s : cstring)
| SFreed.

(** [sudoerslval]: the members the scanner writes. The C union overlays
    [string] and [command.cmnd]; they are kept apart here. *)
Record yystype : Type := mkLval {
  lv_string : strptr;
  lv_cmnd : option cstring;
  lv_args : option cstring
}.

(** [sudoers_errstr]. *)
Inductive errstr : Type :=
| Msg (m : string)
| Strerror
| RegexError (m : string).

(** [YY_BUFFER_STATE]: the characters flex has still to scan from the
    stream of the buffer, and whether the next one starts a line. *)
Record yy_buffer : Type := mkBuffer {
  yy_chars : list ascii;
  yy_at_bol : bool;
  yy_input_file : FILE
}.

(** [struct include_stack]; [is_more] is the SLIST of pending paths of
    an include directory, head first. *)
Record include_stack : Type := mkFrame {
  is_line : sudolinebuf_t;
  is_bs : option yy_buffer;
  is_path : cstring;
  is_more : list cstring;
  is_lineno : Z;
  is_keepopen : bool
}.

(** A slot of [istack] that [reallocarray] returned and nothing wrote yet. *)
Definition frame_uninit : include_stack :=
  mkFrame linebuf_zero None [] [] 0 false.

Inductive warning : Type :=
| WTooManyLevels (path : cstring)
| WBadType (path : cstring)
| WWrongOwner (path : cstring) (uid : Z)
| WWorldWritable (path : cstring)
| WGroupWritable (path : cstring) (gid : Z)
| WOpendir (path : cstring)
| WOverflow (func : string).

(** The globals of toke.l together with what flex keeps. [warned] collects
    the calls of [sudo_warn]/[sudo_warnx], [nerrors] counts the calls of
    [sudoerserror], [closed] lists the streams given to [fclose]. *)
Record lexer : Type := mkLexer {
  yy_start : start_cond;
  yy_current_buffer : option yy_buffer;
  prev_state : start_cond;
  continued : bool;
  sawspace : bool;
  digest_type : option digest_kind;
  sudolineno : Z;
  sudoers : cstring;
  sudoers_errstr : option errstr;
  sudolinebuf : sudolinebuf_t;
  sudoerslval : yystype;
  istack : list include_stack;
  istacksize : nat;
  idepth : nat;
  keepopen : bool;
  warned : list warning;
  nerrors : nat;
  closed : list FILE
}.

Definition set_yy_start v l := mkLexer v (yy_current_buffer l) (prev_state l) (continued l) (sawspace l) (digest_type l) (sudolineno l) (sudoers l) (sudoers_errstr l) (sudolinebuf l) (sudoerslval l) (istack l) (istacksize l) (idepth l) (keepopen l) (warned l) (nerrors l) (closed l).
Definition set_buffer v l := mkLexer (yy_start l) v (prev_state l) (continued l) (sawspace l) (digest_type l) (sudolineno l) (sudoers l) (sudoers_errstr l) (sudolinebuf l) (sudoerslval l) (istack l) (istacksize l) (idepth l) (keepopen l) (warned l) (nerrors l) (closed l).
Definition set_prev_state v l := mkLexer (yy_start l) (yy_current_buffer l) v (continued l) (sawspace l) (digest_type l) (sudolineno l) (sudoers l) (sudoers_errstr l) (sudolinebuf l) (sudoerslval l) (istack l) (istacksize l) (idepth l) (keepopen l) (warned l) (nerrors l) (closed l).
Definition set_continued v l := mkLexer (yy_start l) (yy_current_buffer l) (prev_state l) v (sawspace l) (digest_type l) (sudolineno l) (sudoers l) (sudoers_errstr l) (sudolinebuf l) (sudoerslval l) (istack l) (istacksize l) (idepth l) (keepopen l) (warned l) (nerrors l) (closed l).
Definition set_sawspace v l := mkLexer (yy_start l) (yy_current_buffer l) (prev_state l) (continued l) v (digest_type l) (sudolineno l) (sudoers l) (sudoers_errstr l) (sudolinebuf l) (sudoerslval l) (istack l) (istacksize l) (idepth l) (keepopen l) (warned l) (nerrors l) (closed l).
Definition set_digest_type v l := mkLexer (yy_start l) (yy_current_buffer l) (prev_state l) (continued l) (sawspace l) v (sudolineno l) (sudoers l) (sudoers_errstr l) (sudolinebuf l) (sudoerslval l) (istack l) (istacksize l) (idepth l) (keepopen l) (warned l) (nerrors l) (closed l).
Definition set_sudolineno v l := mkLexer (yy_start l) (yy_current_buffer l) (prev_state l) (continued l) (sawspace l) (digest_type l) v (sudoers l) (sudoers_errstr l) (sudolinebuf l) (sudoerslval l) (istack l) (istacksize l) (idepth l) (keepopen l) (warned l) (nerrors l) (closed l).
Definition set_sudoers v l := mkLexer (yy_start l) (yy_current_buffer l) (prev_state l) (continued l) (sawspace l) (digest_type l) (sudolineno l) v (sudoers_errstr l) (sudolinebuf l) (sudoerslval l) (istack l) (istacksize l) (idepth l) (keepopen l) (warned l) (nerrors l) (closed l).
Definition set_errstr v l := mkLexer (yy_start l) (yy_current_buffer l) (prev_state l) (continued l) (sawspace l) (digest_type l) (sudolineno l) (sudoers l) v (sudolinebuf l) (sudoerslval l) (istack l) (istacksize l) (idepth l) (keepopen l) (warned l) (nerrors l) (closed l).
Definition set_sudolinebuf v l := mkLexer (yy_start l) (yy_current_buffer l) (prev_state l) (continued l) (sawspace l) (digest_type l) (sudolineno l) (sudoers l) (sudoers_errstr l) v (sudoerslval l) (istack l) (istacksize l) (idepth l) (keepopen l) (warned l) (nerrors l) (closed l).
Definition set_lval v l := mkLexer (yy_start l) (yy_current_buffer l) (prev_state l) (continued l) (sawspace l) (digest_type l) (sudolineno l) (sudoers l) (sudoers_errstr l) (sudolinebuf l) v (istack l) (istacksize l) (idepth l) (keepopen l) (warned l) (nerrors l) (closed l).
Definition set_istack v l := mkLexer (yy_start l) (yy_current_buffer l) (prev_state l) (continued l) (sawspace l) (digest_type l) (sudolineno l) (sudoers l) (sudoers_errstr l) (sudolinebuf l) (sudoerslval l) v (istacksize l) (idepth l) (keepopen l) (warned l) (nerrors l) (closed l).
Definition set_istacksize v l := mkLexer (yy_start l) (yy_current_buffer l) (prev_state l) (continued l) (sawspace l) (digest_type l) (sudolineno l) (sudoers l) (sudoers_errstr l) (sudolinebuf l) (sudoerslval l) (istack l) v (idepth l) (keepopen l) (warned l) (nerrors l) (closed l).
Definition set_idepth v l := mkLexer (yy_start l) (yy_current_buffer l) (prev_state l) (continued l) (sawspace l) (digest_type l) (sudolineno l) (sudoers l) (sudoers_errstr l) (sudolinebuf l) (sudoerslval l) (istack l) (istacksize l) v (keepopen l) (warned l) (nerrors l) (closed l).
Definition set_keepopen v l := mkLexer (yy_start l) (yy_current_buffer l) (prev_state l) (continued l) (sawspace l) (digest_type l) (sudolineno l) (sudoers l) (sudoers_errstr l) (sudolinebuf l) (sudoerslval l) (istack l) (istacksize l) (idepth l) v (warned l) (nerrors l) (closed l).
Definition set_warned v l := mkLexer (yy_start l) (yy_current_buffer l) (prev_state l) (continued l) (sawspace l) (digest_type l) (sudolineno l) (sudoers l) (sudoers_errstr l) (sudolinebuf l) (sudoerslval l) (istack l) (istacksize l) (idepth l) (keepopen l) v (nerrors l) (closed l).
Definition set_nerrors v l := mkLexer (yy_start l) (yy_current_buffer l) (prev_state l) (continued l) (sawspace l) (digest_type l) (sudolineno l) (sudoers l) (sudoers_errstr l) (sudolinebuf l) (sudoerslval l) (istack l) (istacksize l) (idepth l) (keepopen l) (warned l) v (closed l).
Definition set_closed v l := mkLexer (yy_start l) (yy_current_buffer l) (prev_state l) (continued l) (sawspace l) (digest_type l) (sudolineno l) (sudoers l) (sudoers_errstr l) (sudolinebuf l) (sudoerslval l) (istack l) (istacksize l) (idepth l) (keepopen l) (warned l) (nerrors l) v.

(** [sudo_warnx(...)], [sudoerserror(NULL)], [fclose(fp)]. *)
Definition sudo_warn (w : warning) (l : lexer) : lexer := set_warned (warned l ++ [w]) l.
Definition sudoerserror (l : lexer) : lexer := set_nerrors (S (nerrors l)) l.
Definition fclose (fp : FILE) (l : lexer) : lexer := set_closed (closed l ++ [fp]) l.

(** [sudo_secure_dir] of lib/util/secure_path.c reports one of these. *)
Inductive secure_status : Type :=
| SUDO_PATH_SECURE
| SUDO_PATH_MISSING
| SUDO_PATH_BAD_TYPE
| SUDO_PATH_WRONG_OWNER
| SUDO_PATH_WORLD_WRITABLE
| SUDO_PATH_GROUP_WRITABLE.

(** [opendir]/[readdir] on a directory: [ENOENT], another failure, or the
    names in the order [readdir] hands them out. *)
Inductive dir_listing : Type :=
| DirENOENT
| DirFailure
| DirEntries (names : list cstring).

(** What the scanner consumes from the rest of sudo and from the system:
    configuration globals, the file system, and the helpers of toke_util.c,
    lib/util and the parser that are called but not defined in toke.l. *)
Record env : Type := mkEnv {
  sudoers_warnings : bool;
  sudoers_strict : bool;
  sudoers_uid : Z;
  sudoers_gid : Z;
  user_shost : cstring;
  have_selinux : bool;
  have_apparmor : bool;
  have_priv_set : bool;
  (* status, st_uid and st_gid of the directory *)
  sudo_secure_dir : cstring -> Z -> Z -> secure_status * Z * Z;
  (* path, doedit, keepopen in; stream and keepopen out *)
  open_sudoers : cstring -> bool -> bool -> option FILE * bool;
  opendir : cstring -> dir_listing;
  (* stat(path, &sb) == 0 && S_ISREG(sb.st_mode) *)
  stat_isreg : cstring -> bool;
  ipv6_valid : cstring -> bool;
  sudo_regex_compile : cstring -> option string;
  sudo_digest_getlen : option digest_kind -> nat;
  (* the text [fill_txt] and [fill_cmnd] store for a token: escapes collapsed *)
  fill_text : cstring -> cstring;
  fill_cmnd_text : cstring -> cstring;
  (* feof(sudoersin) as stdio reports it when the comment rule asks *)
  feof_sudoersin : lexer -> bool
}.

End Lexer.
Import Lexer.

(** ** The include stack *)

Module Include.

Definition MAX_SUDOERS_DEPTH : nat := 128.
Definition SUDOERS_STACK_INCREMENT : nat := 16.

(** [istack[i]], and the assignment to it. *)
Definition frame_at (l : lexer) (i : nat) : include_stack :=
  default frame_uninit (istack l !! i).
Definition set_frame (i : nat) (f : include_stack) (l : lexer) : lexer :=
  set_istack (<[i := f]> (istack l)) l.
Definition set_more (i : nat) (more : list cstring) (l : lexer) : lexer :=
  let f := frame_at l i in
  set_frame i (mkFrame (is_line f) (is_bs f) (is_path f) more (is_lineno f)
                 (is_keepopen f)) l.

(** [sudoers_create_buffer(fp, YY_BUF_SIZE)]: a new buffer starts a line. *)
Definition sudoers_create_buffer (fp : FILE) : yy_buffer :=
  mkBuffer (stream_chars fp) true fp.

(** [pl_compare]: compare two paths in reverse order. *)
Definition pl_compare (p1 p2 : cstring) : Z := strcmp p2 p1.

(** [qsort(3)]: the array in an order in which [compar] never puts a later
    element before an earlier one. The C library does not say how elements
    that compare equal are arranged; this is a merge sort. *)
Definition in_order (compar : cstring -> cstring -> Z) (x y : cstring) : Prop :=
  (compar x y <= 0)%Z.

#[export] Instance in_order_dec compar x y : Decision (in_order compar x y) :=
  Z_le_dec (compar x y) 0.

Definition qsort (compar : cstring -> cstring -> Z) (a : list cstring)
  : list cstring :=
  merge_sort (in_order compar) a.

(** The [readdir] loop of [read_dir_files]: the paths of the regular files
    whose names do not end in '~' or contain a '.'. *)
Fixpoint read_dir_loop (e : env) (dirpath : cstring) (names : list cstring)
  : list cstring :=
  match names with
  | [] => []
  | d_name :: rest =>
      let namelen := length d_name in
      if (namelen =? 0)
         || Ascii.eqb (char_at d_name (namelen - 1)) "~"
         || has_char "." d_name
      then read_dir_loop e dirpath rest
      else
        let path := dirpath ++ str "/" ++ d_name in
        if negb (stat_isreg e path) then read_dir_loop e dirpath rest
        else path :: read_dir_loop e dirpath rest
  end.

(** [read_dir_files(dirpath, &paths)]: the number of files, or -1. *)
Definition read_dir_files (e : env) (dirpath : cstring) (l : lexer)
  : Z * list cstring * lexer :=
  match opendir e dirpath with
  | DirENOENT => (0%Z, [], l)
  | DirFailure => ((-1)%Z, [], sudoerserror (sudo_warn (WOpendir dirpath) l))
  | DirEntries names =>
      let paths := read_dir_loop e dirpath names in
      (Z.of_nat (length paths), paths, l)
  end.

(** [switch_dir(&istack[i], dirpath)]. *)
Definition switch_dir (e : env) (i : nat) (dirpath : cstring) (l : lexer)
  : Z * lexer :=
  let '(count, paths, l1) := read_dir_files e dirpath l in
  if (0 <? count)%Z then
    (* Sort the list as an array in reverse order. *)
    let paths := qsort pl_compare paths in
    (* Build up the list in sorted order. *)
    let more :=
      fold_left (fun more p => p :: more) paths (is_more (frame_at l1 i)) in
    (count, set_more i more l1)
  else (count, l1).

(** [init_lexer]. *)
Fixpoint init_lexer_loop (fuel : nat) (l : lexer) : lexer :=
  match fuel, idepth l with
  | S k, S d =>
      let f := frame_at l d in
      let l1 := set_more d [] (set_idepth d l) in
      let l2 :=
        match is_bs f with
        | Some b =>
            if (0 <? d) && negb (is_keepopen f)
            then fclose (yy_input_file b) l1 else l1
        | None => l1
        end in
      init_lexer_loop k l2
  | _, _ => l
  end.

Definition init_lexer (l : lexer) : lexer :=
  let l1 := init_lexer_loop (idepth l) l in
  mkLexer INITIAL (yy_current_buffer l1) INITIAL false false None 1%Z
    (sudoers l1) (sudoers_errstr l1) linebuf_zero (sudoerslval l1)
    [] 0 0 false (warned l1) (nerrors l1) (closed l1).

(** The first loop of [expand_include]: find the "%h" escapes. [opath] is
    the whole argument; [cp] and [ep] index into it. *)
Fixpoint scan_host_escapes (fuel : nat) (e : env) (opath : cstring)
    (cp ep : nat) (subst : bool) (len : nat) : bool * nat :=
  match fuel with
  | 0 => (subst, len)
  | S k =>
      if cp <? ep then
        if Ascii.eqb (char_at opath cp) "%"
           && Ascii.eqb (char_at opath (cp + 1)) "h"
        then scan_host_escapes k e opath (cp + 2) ep true
               (len + length (user_shost e))
        else scan_host_escapes k e opath (cp + 1) ep subst len
      else (subst, len)
  end.

(** The second loop: copy, substituting the host name; [None] is the jump
    to [oflow]. [pp] is the text written so far. *)
Fixpoint subst_host_escapes (fuel : nat) (e : env) (opath : cstring)
    (cp ep : nat) (pp : cstring) (len : nat) : option cstring :=
  match fuel with
  | 0 => Some pp
  | S k =>
      if cp <? ep then
        if Ascii.eqb (char_at opath cp) "%"
           && Ascii.eqb (char_at opath (cp + 1)) "h"
        then
          let n := length (user_shost e) in
          if len + 1 <=? n then None
          else subst_host_escapes k e opath (cp + 2) ep
                 (pp ++ user_shost e) (len - n)
        else if len <? 1 then None
        else subst_host_escapes k e opath (cp + 1) ep
               (pp ++ [char_at opath cp]) (len - 1)
      else Some pp
  end.

(** [expand_include(opath)]: [None] is the NULL result. *)
Definition expand_include (e : env) (opath : cstring) (l : lexer)
  : option cstring * lexer :=
  (* Strip double quotes if present. *)
  let olen := length opath in
  let quoted :=
    (1 <? olen) && Ascii.eqb (char_at opath 0) DQUOTE
    && Ascii.eqb (char_at opath (olen - 1)) DQUOTE in
  let start := if quoted then 1 else 0 in
  let olen := if quoted then olen - 2 else olen in
  if olen =? 0 then (None, l)
  else
    (* Relative paths are located in the same dir as the sudoers file. *)
    let dirlen :=
      if negb (Ascii.eqb (char_at opath start) "/") then
        match strrchr (sudoers l) "/" with
        | Some dirend => dirend + 1
        | None => 0
        end
      else 0 in
    let ep := start + olen in
    let '(subst, len) := scan_host_escapes olen e opath start ep false olen in
    let dir := firstn dirlen (sudoers l) in
    if subst then
      match subst_host_escapes olen e opath start ep dir len with
      | Some path => (Some path, l)
      | None =>
          (None, sudoerserror (sudo_warn (WOverflow "expand_include") l))
      end
    else (Some (dir ++ firstn len (skipn start opath)), l).

(** The outcome of the stack-growing step of [push_include]. *)
Inductive grow_result : Type :=
| Grown (l : lexer)
| TooDeep (l : lexer).

(** The loop shared by [push_include] and [pop_include]: take paths off
    the head of the pending list until [open_sudoers(path, false, &keepopen)]
    returns a stream. Yields the opened path and stream if any, what is left
    of the list, and [keepopen]. *)
Fixpoint open_next (e : env) (more : list cstring) (ko : bool)
  : option (cstring * FILE) * list cstring * bool :=
  match more with
  | [] => (None, [], ko)
  | path :: rest =>
      match open_sudoers e path false ko with
      | (Some fp, ko') => (Some (path, fp), rest, ko')
      | (None, ko') => open_next e rest ko'
      end
  end.

(** The end of [push_include]: push the old (current) file and open the
    new one. *)
Definition push_frame (path : cstring) (fp : FILE) (l : lexer) : lexer :=
  let f := frame_at l (idepth l) in
  let l1 :=
    set_frame (idepth l)
      (mkFrame (sudolinebuf l) (yy_current_buffer l) (sudoers l) (is_more f)
         (sudolineno l) (keepopen l)) l in
  set_sudolinebuf linebuf_zero
    (set_buffer (Some (sudoers_create_buffer fp))
       (set_sudoers path
          (set_sudolineno 1%Z (set_idepth (idepth l + 1) l1)))).

(** [push_include(opath, isdir)]. *)
Definition push_include (e : env) (opath : cstring) (isdir : bool) (l : lexer)
  : bool * lexer :=
  match expand_include e opath l with
  | (None, l1) => (false, l1)
  | (Some path, l1) =>
      (* push current state onto stack *)
      let grown :=
        if istacksize l1 <=? idepth l1 then
          if MAX_SUDOERS_DEPTH <? idepth l1 then
            let l2 :=
              if sudoers_warnings e then sudo_warn (WTooManyLevels path) l1
              else l1 in
            TooDeep (sudoerserror l2)
          else
            Grown
              (set_istack
                 (istack l1 ++ replicate SUDOERS_STACK_INCREMENT frame_uninit)
                 (set_istacksize (istacksize l1 + SUDOERS_STACK_INCREMENT) l1))
        else Grown l1 in
      match grown with
      | TooDeep l2 => (false, l2)
      | Grown l2 =>
          (* SLIST_INIT(&istack[idepth].more); *)
          let l3 := set_more (idepth l2) [] l2 in
          if isdir then
            let '(status, st_uid, st_gid) :=
              sudo_secure_dir e path (sudoers_uid e) (sudoers_gid e) in
            match status with
            | SUDO_PATH_SECURE =>
                let '(count, l4) := switch_dir e (idepth l3) path l3 in
                if (count <=? 0)%Z then
                  (* switch_dir() called sudoerserror() for us *)
                  ((count =? 0)%Z, l4)
                else
                  (* Parse the first dir entry we can open, leave the rest
                     for later. *)
                  match open_next e (is_more (frame_at l4 (idepth l4)))
                          (keepopen l4) with
                  | (None, rest, ko) =>
                      (* Unable to open any files in include dir, not an
                         error. *)
                      (true, set_keepopen ko (set_more (idepth l4) rest l4))
                  | (Some (p, fp), rest, ko) =>
                      (true,
                       push_frame p fp
                         (set_keepopen ko (set_more (idepth l4) rest l4)))
                  end
            | _ =>
                let l4 :=
                  if sudoers_warnings e then
                    match status with
                    | SUDO_PATH_BAD_TYPE => sudo_warn (WBadType path) l3
                    | SUDO_PATH_WRONG_OWNER =>
                        sudo_warn (WWrongOwner path st_uid) l3
                    | SUDO_PATH_WORLD_WRITABLE =>
                        sudo_warn (WWorldWritable path) l3
                    | SUDO_PATH_GROUP_WRITABLE =>
                        sudo_warn (WGroupWritable path st_gid) l3
                    | _ => l3
                    end
                  else l3 in
                (* A missing or insecure include dir is not a fatal error. *)
                (true, l4)
            end
          else
            match open_sudoers e path true (keepopen l3) with
            | (None, ko) =>
                (* The error was already printed by open_sudoers() *)
                (false, sudoerserror (set_keepopen ko l3))
            | (Some fp, ko) => (true, push_frame path fp (set_keepopen ko l3))
            end
      end
  end.

(** [pop_include()]. *)
Definition pop_include (e : env) (l : lexer) : bool * lexer :=
  match idepth l, yy_current_buffer l with
  | 0, _ => (false, l)
  | _, None => (false, l)
  | S d, Some b =>
      let l1 := if keepopen l then l else fclose (yy_input_file b) l in
      (* sudoers_delete_buffer(YY_CURRENT_BUFFER); *)
      let l2 := set_buffer None l1 in
      (* If we are in an include dir, move to the next file. *)
      match open_next e (is_more (frame_at l2 d)) (keepopen l2) with
      | (Some (path, fp), rest, ko) =>
          let lb := sudolinebuf l2 in
          (true,
           set_buffer (Some (sudoers_create_buffer fp))
             (set_sudolineno 1%Z
                (set_sudoers path
                   (set_sudolinebuf (mkLinebuf (buf lb) (size lb) 0 0 0 0)
                      (set_keepopen ko (set_more d rest l2))))))
      | (None, rest, ko) =>
          (* If no path list, just pop the last dir on the stack. *)
          let l3 := set_keepopen ko (set_more d rest l2) in
          let f := frame_at l3 d in
          (true,
           set_keepopen (is_keepopen f)
             (set_sudolineno (is_lineno f)
                (set_sudoers (is_path f)
                   (set_sudolinebuf (is_line f)
                      (set_buffer (is_bs f) (set_idepth d l3))))))
      end
  end.

End Include.

(** ** The scanner: patterns, rules and actions of toke.l *)

Module Toke.
Import Flex Include.

(** *** Named patterns *)

Definition digit : regex := Cls isdigit.
Definition blank : regex := Cls isblank.
Definition backslash : regex := chr BSLASH.
Definition in_chars (lo hi : ascii) : regex :=
  Cls (in_range (nat_of_ascii lo) (nat_of_ascii hi)).
(** [(\r\n|\n)] *)
Definition eol : regex := Alt (lit [CR; LF]) (chr LF).

(** HEX16 [[0-9A-Fa-f]{1,4}] *)
Definition HEX16 : regex := rep_range 1 4 (Cls isxdigit).
(** OCTET [(1?[0-9]{1,2})|(2[0-4][0-9])|(25[0-5])] *)
Definition OCTET : regex :=
  Alt (Cat (opt (chr "1")) (rep_range 1 2 digit))
    (Alt (Cat (chr "2") (Cat (in_chars "0" "4") digit))
       (Cat (lit (str "25")) (in_chars "0" "5"))).
(** IPV4ADDR [{OCTET}(\.{OCTET}){3}] *)
Definition IPV4ADDR : regex := Cat OCTET (rep 3 (Cat (chr ".") OCTET)).
(** IPV6ADDR [({HEX16}?:){2,7}{HEX16}?|({HEX16}?:){2,6}:{IPV4ADDR}] *)
Definition IPV6ADDR : regex :=
  Alt (Cat (rep_range 2 7 (Cat (opt HEX16) (chr ":"))) (opt HEX16))
    (Cat (rep_range 2 6 (Cat (opt HEX16) (chr ":")))
       (Cat (chr ":") IPV4ADDR)).
(** WORD [([^#>!=:,\(\) \t\r\n\\Q]|\\[^\t\n])+], Q the double quote *)
Definition WORD_re : regex :=
  plus (Alt (not_of (str "#>!=:,() " ++ [TAB; CR; LF; BSLASH; DQUOTE]))
          (Cat backslash (not_of [TAB; LF]))).
(** ID [#-?[0-9]+] *)
Definition ID : regex := Cat (chr "#") (Cat (opt (chr "-")) (plus digit)).
(** PATH [\/(\\[\,:= \t#]|[^\,:=\\ \t\r\n#])+] *)
Definition PATH : regex :=
  Cat (chr "/")
    (plus (Alt (Cat backslash (any_of (str ",:= #" ++ [TAB])))
             (not_of (str ",:= #" ++ [BSLASH; TAB; CR; LF])))).
(** REGEX [\^([^#\r\n\$]|\\[#\$])*\$] *)
Definition REGEX : regex :=
  Cat (chr "^")
    (Cat (Star (Alt (not_of (str "#$" ++ [CR; LF]))
                  (Cat backslash (any_of (str "#$")))))
       (chr "$")).
(** ENVAR [([^#!=, \t\r\n\\Q]|\\[^\r\n])([^#=, \t\r\n\\Q]|\\[^\r\n])*] *)
Definition ENVAR : regex :=
  Cat (Alt (not_of (str "#!=, " ++ [TAB; CR; LF; BSLASH; DQUOTE]))
         (Cat backslash (not_of [CR; LF])))
    (Star (Alt (not_of (str "#=, " ++ [TAB; CR; LF; BSLASH; DQUOTE]))
             (Cat backslash (not_of [CR; LF])))).
(** DEFVAR [[a-z_]+] *)
Definition DEFVAR_re : regex :=
  plus (Cls (fun c => islower c || Ascii.eqb c "_")).

(** The patterns of some rules, named for the statements below. *)

(** [\\[[:blank:]]*\r?\n], the line continuation of every start condition *)
Definition continuation_re : regex :=
  Cat backslash (Cat (Star blank) (Cat (opt (chr CR)) (chr LF))).

(** [#include[[:blank:]]+.*(\r\n|\n)?] and the same for [#includedir] *)
Definition hash_directive_re (directive : string) : regex :=
  Cat (lit (str directive)) (Cat (plus blank) (Cat (Star dot) (opt eol))).

(** The character after the '#' of a comment, and after its "#-". *)
Definition comment_start (c : ascii) : bool :=
  negb (one_of [CR; LF; "-"%char] c || isdigit c).
Definition comment_dash_next (c : ascii) : bool :=
  negb (one_of [CR; LF] c || isdigit c).

(** [#(BODY)?(\r\n|\n)?] with BODY one of [-[^\r\n0-9].*] and
    [[^\r\n0-9-].*] *)
Definition comment_re : regex :=
  Cat (chr "#")
    (Cat (opt (Alt (Cat (chr "-") (Cat (Cls comment_dash_next) (Star dot)))
                 (Cat (Cls comment_start) (Star dot))))
       (opt eol)).

(** *** Rules *)

(** One constructor per rule of the file, in the order of the file. *)
Inductive rule_id : Type :=
| R_gotdefs_comma | R_gotdefs_blank | R_startdefs_defvar
| R_indefs_comma | R_indefs_eq | R_indefs_pluseq | R_indefs_minuseq
| R_indefs_beginstr | R_indefs_envar
| R_instr_continuation | R_instr_endstr | R_instr_backslash | R_instr_body
| R_gotcmnd_glob | R_gotcmnd_special | R_gotcmnd_end | R_gotcmnd_arg
| R_gotregex_quoted | R_gotregex_eol | R_gotregex_dollar | R_gotregex_body
| R_wantdigest_hex | R_wantdigest_base64
| R_at_include | R_at_includedir | R_hash_include | R_hash_includedir
| R_defaults | R_alias_decl
| R_tag (t : token)
| R_empty_group | R_netgroup | R_usergroup
| R_ipv4 | R_ipv4_cidr | R_ipv6 | R_ipv6_cidr
| R_all | R_timeout | R_notbefore | R_notafter | R_cwd | R_chroot
| R_role | R_type | R_apparmor_profile | R_privs | R_limitprivs
| R_alias | R_gotdefs_command
| R_sha (d : digest_kind)
| R_sudoedit | R_expectpath | R_path | R_regex | R_beginstr | R_word
| R_gotinc_path | R_gotinc_beginstr
| R_lparen | R_rparen | R_comma | R_eq | R_colon
| R_bang | R_newline | R_blank | R_continuation | R_comment | R_nomatch.

(** The start conditions in front of a rule: none, a list, or [<*>]. *)
Inductive scope : Type :=
| Unqualified
| In (scs : list start_cond)
| Everywhere.

Definition active (sc : start_cond) (s : scope) : bool :=
  match s with
  | Unqualified => inclusive sc
  | In scs => existsb (start_cond_eqb sc) scs
  | Everywhere => true
  end.

(** A rule: its start conditions, whether it begins with [^], its pattern. *)
Record rule : Type := mkRule {
  r_id : rule_id;
  r_scope : scope;
  r_bol : bool;
  r_pat : regex
}.

(** [KEYWORD[[:blank:]]*:] *)
Definition tag_rule (kw : string) (t : token) : rule :=
  mkRule (R_tag t) Unqualified false
    (Cat (lit (str kw)) (Cat (Star blank) (chr ":"))).

Definition keyword (id : rule_id) (sc : scope) (kw : string) : rule :=
  mkRule id sc false (lit (str kw)).

(** The rules, first to last; on a tie in length the earlier rule wins. *)
Definition rules : list rule :=
  [ (* <GOTDEFS>[[:blank:]]*,[[:blank:]]* *)
    mkRule R_gotdefs_comma (In [GOTDEFS]) false
      (Cat (Star blank) (Cat (chr ",") (Star blank)));
    (* <GOTDEFS>[[:blank:]]+ *)
    mkRule R_gotdefs_blank (In [GOTDEFS]) false (plus blank);
    (* <STARTDEFS>{DEFVAR} *)
    mkRule R_startdefs_defvar (In [STARTDEFS]) false DEFVAR_re;
    (* <INDEFS>{ , = \+= -= Q {ENVAR} } *)
    mkRule R_indefs_comma (In [INDEFS]) false (chr ",");
    mkRule R_indefs_eq (In [INDEFS]) false (chr "=");
    mkRule R_indefs_pluseq (In [INDEFS]) false (lit (str "+="));
    mkRule R_indefs_minuseq (In [INDEFS]) false (lit (str "-="));
    mkRule R_indefs_beginstr (In [INDEFS]) false (chr DQUOTE);
    mkRule R_indefs_envar (In [INDEFS]) false ENVAR;
    (* <INSTR>\\[[:blank:]]*\r?\n[[:blank:]]* *)
    mkRule R_instr_continuation (In [INSTR]) false
      (Cat backslash
         (Cat (Star blank) (Cat (opt (chr CR)) (Cat (chr LF) (Star blank)))));
    (* <INSTR>Q *)
    mkRule R_instr_endstr (In [INSTR]) false (chr DQUOTE);
    (* <INSTR>\\ *)
    mkRule R_instr_backslash (In [INSTR]) false backslash;
    (* <INSTR>([^Q\r\n\\]|\\Q)+ *)
    mkRule R_instr_body (In [INSTR]) false
      (plus (Alt (not_of [DQUOTE; CR; LF; BSLASH])
               (Cat backslash (chr DQUOTE))));
    (* <GOTCMND>\\[\*\?\[\]\!^] *)
    mkRule R_gotcmnd_glob (In [GOTCMND]) false
      (Cat backslash (any_of (str "*?[]!^")));
    (* <GOTCMND>\\[:\\,= \t#] *)
    mkRule R_gotcmnd_special (In [GOTCMND]) false
      (Cat backslash (any_of (str ":" ++ [BSLASH] ++ str ",= " ++ [TAB]
                               ++ str "#")));
    (* <GOTCMND>[#:\,=\r\n] *)
    mkRule R_gotcmnd_end (In [GOTCMND]) false
      (any_of (str "#:,=" ++ [CR; LF]));
    (* <GOTCMND>[^#\\:, \t\r\n]+ *)
    mkRule R_gotcmnd_arg (In [GOTCMND]) false
      (plus (not_of (str "#" ++ [BSLASH] ++ str ":, " ++ [TAB; CR; LF])));
    (* <GOTREGEX>\\[^\r\n] *)
    mkRule R_gotregex_quoted (In [GOTREGEX]) false
      (Cat backslash (not_of [CR; LF]));
    (* <GOTREGEX>[#\r\n] *)
    mkRule R_gotregex_eol (In [GOTREGEX]) false (any_of (str "#" ++ [CR; LF]));
    (* <GOTREGEX>\$ *)
    mkRule R_gotregex_dollar (In [GOTREGEX]) false (chr "$");
    (* <GOTREGEX>[^#\\\r\n$]+ *)
    mkRule R_gotregex_body (In [GOTREGEX]) false
      (plus (not_of (str "#" ++ [BSLASH; CR; LF] ++ str "$")));
    (* <WANTDIGEST>[[:xdigit:]]+ *)
    mkRule R_wantdigest_hex (In [WANTDIGEST]) false (plus (Cls isxdigit));
    (* <WANTDIGEST>[A-Za-z0-9\+/=]+ *)
    mkRule R_wantdigest_base64 (In [WANTDIGEST]) false
      (plus (Cls (fun c => isalnum c || one_of (str "+/=") c)));
    (* <INITIAL>@include, <INITIAL>@includedir *)
    keyword R_at_include (In [INITIAL]) "@include";
    keyword R_at_includedir (In [INITIAL]) "@includedir";
    (* <INITIAL>^#include[[:blank:]]+.*(\r\n|\n)? *)
    mkRule R_hash_include (In [INITIAL]) true (hash_directive_re "#include");
    (* <INITIAL>^#includedir[[:blank:]]+.*(\r\n|\n)? *)
    mkRule R_hash_includedir (In [INITIAL]) true
      (hash_directive_re "#includedir");
    (* <INITIAL>^[[:blank:]]*Defaults([:@>\!][[:blank:]]*\!*Q?({ID}|{WORD}))? *)
    mkRule R_defaults (In [INITIAL]) true
      (Cat (Star blank)
         (Cat (lit (str "Defaults"))
            (opt (Cat (any_of (str ":@>!"))
                    (Cat (Star blank)
                       (Cat (Star (chr "!"))
                          (Cat (opt (chr DQUOTE)) (Alt ID WORD_re))))))));
    (* <INITIAL>^[[:blank:]]*(Host|Cmnd|Cmd|User|Runas)_Alias *)
    mkRule R_alias_decl (In [INITIAL]) true
      (Cat (Star blank)
         (Cat (Alt (lit (str "Host"))
                 (Alt (lit (str "Cmnd"))
                    (Alt (lit (str "Cmd"))
                       (Alt (lit (str "User")) (lit (str "Runas"))))))
            (lit (str "_Alias"))));
    tag_rule "NOPASSWD" NOPASSWD;
    tag_rule "PASSWD" PASSWD;
    tag_rule "NOEXEC" NOEXEC;
    tag_rule "EXEC" EXEC;
    tag_rule "INTERCEPT" INTERCEPT;
    tag_rule "NOINTERCEPT" NOINTERCEPT;
    tag_rule "SETENV" SETENV;
    tag_rule "NOSETENV" NOSETENV;
    tag_rule "LOG_OUTPUT" LOG_OUTPUT;
    tag_rule "NOLOG_OUTPUT" NOLOG_OUTPUT;
    tag_rule "LOG_INPUT" LOG_INPUT;
    tag_rule "NOLOG_INPUT" NOLOG_INPUT;
    tag_rule "MAIL" MAIL;
    tag_rule "NOMAIL" NOMAIL;
    tag_rule "FOLLOW" FOLLOWLNK;
    tag_rule "NOFOLLOW" NOFOLLOWLNK;
    (* <INITIAL,GOTDEFS>(\+|\%|\%:) *)
    mkRule R_empty_group (In [INITIAL; GOTDEFS]) false
      (Alt (chr "+") (Alt (chr "%") (lit (str "%:"))));
    (* \+{WORD} *)
    mkRule R_netgroup Unqualified false (Cat (chr "+") WORD_re);
    (* \%:?({WORD}|{ID}) *)
    mkRule R_usergroup Unqualified false
      (Cat (chr "%") (Cat (opt (chr ":")) (Alt WORD_re ID)));
    (* {IPV4ADDR}(\/{IPV4ADDR})? *)
    mkRule R_ipv4 Unqualified false
      (Cat IPV4ADDR (opt (Cat (chr "/") IPV4ADDR)));
    (* {IPV4ADDR}\/([12]?[0-9]|3[0-2]) *)
    mkRule R_ipv4_cidr Unqualified false
      (Cat IPV4ADDR
         (Cat (chr "/")
            (Alt (Cat (opt (any_of (str "12"))) digit)
               (Cat (chr "3") (in_chars "0" "2")))));
    (* {IPV6ADDR}(\/{IPV6ADDR})? *)
    mkRule R_ipv6 Unqualified false
      (Cat IPV6ADDR (opt (Cat (chr "/") IPV6ADDR)));
    (* {IPV6ADDR}\/([0-9]|[1-9][0-9]|1[01][0-9]|12[0-8]) *)
    mkRule R_ipv6_cidr Unqualified false
      (Cat IPV6ADDR
         (Cat (chr "/")
            (Alt digit
               (Alt (Cat (in_chars "1" "9") digit)
                  (Alt (Cat (chr "1") (Cat (any_of (str "01")) digit))
                     (Cat (lit (str "12")) (in_chars "0" "8")))))));
    keyword R_all Unqualified "ALL";
    keyword R_timeout (In [INITIAL]) "TIMEOUT";
    keyword R_notbefore (In [INITIAL]) "NOTBEFORE";
    keyword R_notafter (In [INITIAL]) "NOTAFTER";
    keyword R_cwd (In [INITIAL]) "CWD";
    keyword R_chroot (In [INITIAL]) "CHROOT";
    keyword R_role (In [INITIAL]) "ROLE";
    keyword R_type (In [INITIAL]) "TYPE";
    keyword R_apparmor_profile (In [INITIAL]) "APPARMOR_PROFILE";
    keyword R_privs (In [INITIAL]) "PRIVS";
    keyword R_limitprivs (In [INITIAL]) "LIMITPRIVS";
    (* [[:upper:]][[:upper:][:digit:]_]* *)
    mkRule R_alias Unqualified false
      (Cat (Cls isupper)
         (Star (Cls (fun c => isupper c || isdigit c || Ascii.eqb c "_"))));
    (* <GOTDEFS>({PATH}|{REGEX}|sudoedit) *)
    mkRule R_gotdefs_command (In [GOTDEFS]) false
      (Alt PATH (Alt REGEX (lit (str "sudoedit"))));
    keyword (R_sha SUDO_DIGEST_SHA224) Unqualified "sha224";
    keyword (R_sha SUDO_DIGEST_SHA256) Unqualified "sha256";
    keyword (R_sha SUDO_DIGEST_SHA384) Unqualified "sha384";
    keyword (R_sha SUDO_DIGEST_SHA512) Unqualified "sha512";
    keyword R_sudoedit Unqualified "sudoedit";
    (* <EXPECTPATH>({PATH}|{WORD}) *)
    mkRule R_expectpath (In [EXPECTPATH]) false (Alt PATH WORD_re);
    mkRule R_path Unqualified false PATH;
    mkRule R_regex Unqualified false REGEX;
    (* <INITIAL,GOTDEFS>Q *)
    mkRule R_beginstr (In [INITIAL; GOTDEFS]) false (chr DQUOTE);
    (* <INITIAL,GOTDEFS>({ID}|{WORD}) *)
    mkRule R_word (In [INITIAL; GOTDEFS]) false (Alt ID WORD_re);
    (* <GOTINC>[^Q[:space:]]([^[:space:]]|\\[[:blank:]])* *)
    mkRule R_gotinc_path (In [GOTINC]) false
      (Cat (Cls (fun c => negb (Ascii.eqb c DQUOTE || isspace c)))
         (Star (Alt (Cls (fun c => negb (isspace c))) (Cat backslash blank))));
    (* <GOTINC>Q *)
    mkRule R_gotinc_beginstr (In [GOTINC]) false (chr DQUOTE);
    mkRule R_lparen Unqualified false (chr "(");
    mkRule R_rparen Unqualified false (chr ")");
    mkRule R_comma Unqualified false (chr ",");
    mkRule R_eq Unqualified false (chr "=");
    mkRule R_colon Unqualified false (chr ":");
    (* <*>!+ *)
    mkRule R_bang Everywhere false (plus (chr "!"));
    (* <*>\r?\n *)
    mkRule R_newline Everywhere false (Cat (opt (chr CR)) (chr LF));
    (* <*>[[:blank:]]+ *)
    mkRule R_blank Everywhere false (plus blank);
    (* <*>\\[[:blank:]]*\r?\n *)
    mkRule R_continuation Everywhere false continuation_re;
    (* <INITIAL,STARTDEFS,INDEFS>#(BODY)?(\r\n|\n)? with BODY one of
       -[^\r\n0-9].* and [^\r\n0-9-].* *)
    mkRule R_comment (In [INITIAL; STARTDEFS; INDEFS]) false comment_re;
    (* <*>. *)
    mkRule R_nomatch Everywhere false dot ].

(** The length of the longest match of a rule on the input [s]; [0] when
    the rule is not active in start condition [sc], is anchored to a line
    start that is not there, or does not match. *)
Definition match_length (sc : start_cond) (bol : bool) (s : list ascii)
    (r : rule) : nat :=
  if active sc (r_scope r) && (negb (r_bol r) || bol)
  then longest (r_pat r) s else 0.

(** The choice among the matches of the rules, first rule first: a later
    rule replaces the choice so far only with a longer match. *)
Fixpoint yy_best (cands : list (rule_id * nat)) (best : option (rule_id * nat))
  : option (rule_id * nat) :=
  match cands with
  | [] => best
  | (id, n) :: cands' =>
      yy_best cands'
        (if (0 <? n) && match best with
                        | None => true
                        | Some (_, m) => m <? n
                        end
         then Some (id, n) else best)
  end.

(** The rule flex runs on input [s] in start condition [sc]: the longest
    match, the first rule among equals. *)
Definition yy_match (sc : start_cond) (bol : bool) (s : list ascii)
  : option (rule_id * nat) :=
  yy_best (map (fun r => (r_id r, match_length sc bol s r)) rules) None.

(** *** What an action may do *)

Definition BEGIN (sc : start_cond) (l : lexer) : lexer := set_yy_start sc l.

Definition map_buffer (f : yy_buffer -> yy_buffer) (l : lexer) : lexer :=
  set_buffer (option_map f (yy_current_buffer l)) l.

Definition set_toke (ts te : nat) (l : lexer) : lexer :=
  let lb := sudolinebuf l in
  set_sudolinebuf (mkLinebuf (buf lb) (size lb) (len lb) (off lb) ts te) l.

(** [sudoersless(n)]: keep the first [n] characters of the match and give
    the others back to the input, to be scanned again. *)
Definition sudoersless (n : nat) (yytext : cstring) (l : lexer) : lexer :=
  map_buffer
    (fun b => mkBuffer (skipn n yytext ++ yy_chars b) (yy_at_bol b)
                (yy_input_file b))
    (set_toke (toke_start (sudolinebuf l)) (toke_start (sudolinebuf l) + n) l).

Definition yy_set_bol (at_bol : bool) (l : lexer) : lexer :=
  map_buffer (fun b => mkBuffer (yy_chars b) at_bol (yy_input_file b)) l.

Definition set_string (p : strptr) (l : lexer) : lexer :=
  set_lval (mkLval p (lv_cmnd (sudoerslval l)) (lv_args (sudoerslval l))) l.

(** [free(sudoerslval.string)]. *)
Definition free_string (l : lexer) : lexer :=
  match lv_string (sudoerslval l) with
  | SStr _ => set_string SFreed l
  | _ => l
  end.

Definition error (m : string) (l : lexer) : option token * lexer :=
  (Some ERROR, set_errstr (Some (Msg m)) l).

(** [fill(src, len)] of toke_util.c: store the text of a token. *)
Definition fill (e : env) (src : cstring) (l : lexer) : lexer :=
  set_string (SStr (fill_text e src)) l.

(** [append(src, len)] of toke_util.c: add to the string being built. *)
Definition append (e : env) (src : cstring) (l : lexer) : lexer :=
  match lv_string (sudoerslval l) with
  | SNull => set_string (SStr (fill_text e src)) l
  | SStr old => set_string (SStr (old ++ fill_text e src)) l
  | SFreed => l
  end.

(** [fill_cmnd(src, len)] of toke_util.c: store a command, without
    arguments yet. *)
Definition fill_cmnd (e : env) (src : cstring) (l : lexer) : lexer :=
  set_lval (mkLval (lv_string (sudoerslval l)) (Some (fill_cmnd_text e src))
              None) l.

(** Modelled from the spec: [fill_args(s, len, addspace)] of toke_util.c,
    which is not part of the sources at hand. Runs of argument characters
    are accumulated as the argument text of the command; a space separates
    a run from the text before it when whitespace was seen in between. *)
Definition fill_args (s : cstring) (n : nat) (addspace : bool) (l : lexer)
  : lexer :=
  let v := sudoerslval l in
  let args :=
    match lv_args v with
    | None => firstn n s
    | Some a => a ++ (if addspace then [SP] else []) ++ firstn n s
    end in
  set_lval (mkLval (lv_string v) (lv_cmnd v) (Some args)) l.

(** The index of the first non-blank character at or after [n]. *)
Fixpoint skip_blanks (fuel : nat) (s : cstring) (n : nat) : nat :=
  match fuel with
  | 0 => n
  | S k => if isblank (char_at s n) then skip_blanks k s (S n) else n
  end.

Fixpoint drop_blanks (s : cstring) : cstring :=
  match s with
  | c :: s' => if isblank c then drop_blanks s' else s
  | [] => []
  end.

(** The check that opens every rule that may not follow a continuation. *)
Definition unless_continued (l : lexer) (k : option token * lexer)
  : option token * lexer :=
  if continued l then error "invalid line continuation" l else k.

(** [got_alias:] *)
Definition got_alias (e : env) (yytext : cstring) (l : lexer)
  : option token * lexer :=
  (Some ALIAS, fill e yytext l).

(** [BEGINSTR]: the opening double quote. *)
Definition begin_string (prev : start_cond) (l : lexer) : lexer :=
  BEGIN INSTR (set_prev_state prev (set_string SNull l)).

(** *** Actions *)

(** The action of a rule on the matched text [yytext]. [Some t] is
    [return t]; [None] is an action that ends without returning, after
    which flex scans on; [yyterminate()] is [Some END]. *)
Definition action (e : env) (r : rule_id) (yytext : cstring) (l : lexer)
  : option token * lexer :=
  let yyleng := length yytext in
  match r with
  | R_gotdefs_comma => (Some (CHAR ","), l)
  | R_gotdefs_blank => (None, BEGIN STARTDEFS l)
  | R_startdefs_defvar => (Some DEFVAR, fill e yytext (BEGIN INDEFS l))
  | R_indefs_comma => (Some (CHAR ","), BEGIN STARTDEFS l)
  | R_indefs_eq => (Some (CHAR "="), l)
  | R_indefs_pluseq => (Some (CHAR "+"), l)
  | R_indefs_minuseq => (Some (CHAR "-"), l)
  | R_indefs_beginstr => (None, begin_string (yy_start l) l)
  | R_indefs_envar => (Some WORD, fill e yytext l)
  | R_instr_continuation =>
      (* Line continuation char followed by newline. *)
      (None, set_continued true (set_sudolineno (sudolineno l + 1)%Z l))
  | R_instr_endstr =>
      let l1 := BEGIN (prev_state l) l in
      match lv_string (sudoerslval l1) with
      | SNull => error "empty string" l1
      | SFreed => (Some WORD, l1)
      | SStr string =>
          if start_cond_eqb (prev_state l1) INITIAL
             || start_cond_eqb (prev_state l1) GOTDEFS
          then
            if Ascii.eqb (char_at string 0) "%" then
              if Ascii.eqb (char_at string 1) NUL
                 || (Ascii.eqb (char_at string 1) ":"
                     && Ascii.eqb (char_at string 2) NUL)
              then error "empty group" (free_string l1)
              else (Some USERGROUP, l1)
            else if Ascii.eqb (char_at string 0) "+" then
              if Ascii.eqb (char_at string 1) NUL
              then error "empty netgroup" (free_string l1)
              else (Some NETGROUP, l1)
            else (Some WORD, l1)
          else (Some WORD, l1)
      end
  | R_instr_backslash => (None, append e yytext l)
  | R_instr_body => (None, append e yytext l)
  | R_gotcmnd_glob =>
      (* quoted fnmatch glob char, pass verbatim *)
      (None, set_sawspace false (fill_args yytext 2 (sawspace l) l))
  | R_gotcmnd_special =>
      (* quoted sudoers special char, strip backslash *)
      (None, set_sawspace false (fill_args (skipn 1 yytext) 1 (sawspace l) l))
  | R_gotcmnd_end =>
      (* end of command line args *)
      (Some COMMAND, yy_set_bol false (sudoersless 0 yytext (BEGIN INITIAL l)))
  | R_gotcmnd_arg =>
      (* a command line arg *)
      match lv_args (sudoerslval l) with
      | None =>
          if Ascii.eqb (char_at yytext 0) "^"
          then (None, yy_set_bol false (sudoersless 0 yytext (BEGIN GOTREGEX l)))
          else (None, set_sawspace false (fill_args yytext yyleng (sawspace l) l))
      | Some _ =>
          (None, set_sawspace false (fill_args yytext yyleng (sawspace l) l))
      end
  | R_gotregex_quoted =>
      (* quoted character, pass verbatim *)
      (None, fill_args yytext 2 false l)
  | R_gotregex_eol =>
      (* Let the parser attempt to recover. *)
      error "unterminated regular expression"
        (BEGIN INITIAL (yy_set_bol false (sudoersless 0 yytext l)))
  | R_gotregex_dollar =>
      let l1 := set_continued false (BEGIN INITIAL (fill_args (str "$") 1 false l)) in
      if sudoers_strict e then
        match sudo_regex_compile e yytext with
        | Some m => (Some ERROR, set_errstr (Some (RegexError m)) l1)
        | None => (Some COMMAND, l1)
        end
      else (Some COMMAND, l1)
  | R_gotregex_body =>
      (* remove whitespace after line continuation *)
      let text := if continued l then drop_blanks yytext else yytext in
      let l1 := if continued l then set_continued false l else l in
      if length text =? 0 then (None, l1)
      else (None, fill_args text (length text) false l1)
  | R_wantdigest_hex =>
      (* Only return DIGEST if the length is correct. *)
      let digest_len := sudo_digest_getlen e (digest_type l) in
      if yyleng =? digest_len * 2 then
        (Some DIGEST, BEGIN INITIAL (fill e yytext l))
      else (None, sudoersless yyleng yytext (BEGIN INITIAL l))
  | R_wantdigest_base64 =>
      (* Only return DIGEST if the length is correct. *)
      let digest_len := sudo_digest_getlen e (digest_type l) in
      let len :=
        if Ascii.eqb (char_at yytext (yyleng - 1)) "="
        then 4 * ((digest_len + 2) / 3)     (* use padding *)
        else (4 * digest_len + 2) / 3 in    (* no padding *)
      if yyleng =? len then
        (Some DIGEST, BEGIN INITIAL (fill e yytext l))
      else (None, sudoersless yyleng yytext (BEGIN INITIAL l))
  | R_at_include => unless_continued l (Some INCLUDE, BEGIN GOTINC l)
  | R_at_includedir => unless_continued l (Some INCLUDEDIR, BEGIN GOTINC l)
  | R_hash_include =>
      (* only consume #include *)
      unless_continued l
        (Some INCLUDE,
         BEGIN GOTINC
           (yy_set_bol false (sudoersless (length (str "#include")) yytext l)))
  | R_hash_includedir =>
      (* only consume #includedir *)
      unless_continued l
        (Some INCLUDEDIR,
         BEGIN GOTINC
           (yy_set_bol false
              (sudoersless (length (str "#includedir")) yytext l)))
  | R_defaults =>
      unless_continued l
        (let n := skip_blanks yyleng yytext 0 + length (str "Defaults") in
         let deftype := char_at yytext n in
         let n :=
           if Ascii.eqb deftype NUL then S n
           else skip_blanks yyleng yytext (S n) in
         let l1 := BEGIN GOTDEFS l in
         if Ascii.eqb deftype ":" then
           (Some DEFAULTS_USER, sudoersless n yytext l1)
         else if Ascii.eqb deftype ">" then
           (Some DEFAULTS_RUNAS, sudoersless n yytext l1)
         else if Ascii.eqb deftype "@" then
           (Some DEFAULTS_HOST, sudoersless n yytext l1)
         else if Ascii.eqb deftype "!" then
           (Some DEFAULTS_CMND, sudoersless n yytext l1)
         else (Some DEFAULTS, l1))
  | R_alias_decl =>
      unless_continued l
        (let c := char_at yytext (skip_blanks yyleng yytext 0) in
         if Ascii.eqb c "H" then (Some HOSTALIAS, l)
         else if Ascii.eqb c "C" then (Some CMNDALIAS, l)
         else if Ascii.eqb c "U" then (Some USERALIAS, l)
         else if Ascii.eqb c "R" then (Some RUNASALIAS, l)
         else (None, l))
  | R_tag t => (Some t, l)
  | R_empty_group =>
      if Ascii.eqb (char_at yytext 0) "+" then error "empty netgroup" l
      else error "empty group" l
  | R_netgroup => (Some NETGROUP, fill e yytext l)
  | R_usergroup => (Some USERGROUP, fill e yytext l)
  | R_ipv4 | R_ipv4_cidr => (Some NTWKADDR, fill e yytext l)
  | R_ipv6 | R_ipv6_cidr =>
      if negb (ipv6_valid e yytext) then error "invalid IPv6 address" l
      else (Some NTWKADDR, fill e yytext l)
  | R_all => (Some ALL, l)
  | R_timeout => (Some CMND_TIMEOUT, l)
  | R_notbefore => (Some NOTBEFORE, l)
  | R_notafter => (Some NOTAFTER, l)
  | R_cwd => (Some CWD, BEGIN EXPECTPATH (set_prev_state (yy_start l) l))
  | R_chroot => (Some CHROOT, BEGIN EXPECTPATH (set_prev_state (yy_start l) l))
  | R_role => if have_selinux e then (Some ROLE, l) else got_alias e yytext l
  | R_type => if have_selinux e then (Some TYPE, l) else got_alias e yytext l
  | R_apparmor_profile =>
      if have_apparmor e then (Some APPARMOR_PROFILE, l)
      else got_alias e yytext l
  | R_privs => if have_priv_set e then (Some PRIVS, l) else got_alias e yytext l
  | R_limitprivs =>
      if have_priv_set e then (Some LIMITPRIVS, l) else got_alias e yytext l
  | R_alias => got_alias e yytext l
  | R_gotdefs_command =>
      (* no command args allowed for Defaults!/path *)
      (Some COMMAND, fill_cmnd e yytext l)
  | R_sha d =>
      (Some match d with
            | SUDO_DIGEST_SHA224 => SHA224_TOK
            | SUDO_DIGEST_SHA256 => SHA256_TOK
            | SUDO_DIGEST_SHA384 => SHA384_TOK
            | SUDO_DIGEST_SHA512 => SHA512_TOK
            end,
       BEGIN WANTDIGEST (set_digest_type (Some d) l))
  | R_sudoedit => (None, fill_cmnd e yytext (BEGIN GOTCMND l))
  | R_expectpath => (Some WORD, fill e yytext (BEGIN (prev_state l) l))
  | R_path =>
      (* directories can't have args... *)
      if Ascii.eqb (char_at yytext (yyleng - 1)) "/"
      then (Some COMMAND, fill_cmnd e yytext l)
      else (None, fill_cmnd e yytext (BEGIN GOTCMND l))
  | R_regex =>
      match (if sudoers_strict e then sudo_regex_compile e yytext else None) with
      | Some m => (Some ERROR, set_errstr (Some (RegexError m)) l)
      | None => (None, fill_cmnd e yytext (BEGIN GOTCMND l))
      end
  | R_beginstr => (None, begin_string (yy_start l) l)
  | R_word => (Some WORD, fill e yytext l)
  | R_gotinc_path =>
      (* include file/directory *)
      (Some WORD, BEGIN INITIAL (fill e yytext l))
  | R_gotinc_beginstr => (None, begin_string INITIAL l)
  | R_lparen => (Some (CHAR "("), l)
  | R_rparen => (Some (CHAR ")"), l)
  | R_comma => (Some (CHAR ","), l)
  | R_eq => (Some (CHAR "="), l)
  | R_colon => (Some (CHAR ":"), l)
  | R_bang => if Nat.odd yyleng then (Some (CHAR "!"), l) else (None, l)
  | R_newline =>
      if start_cond_eqb (yy_start l) INSTR then
        (* throw away old string; re-scan after changing state *)
        error "unexpected line break in string"
          (sudoersless 0 yytext (BEGIN INITIAL (free_string l)))
      else
        (Some (CHAR LF),
         set_continued false
           (set_sudolineno (sudolineno l + 1)%Z (BEGIN INITIAL l)))
  | R_blank =>
      (* throw away space/tabs, but remember for fill_args *)
      (None, set_sawspace true l)
  | R_continuation =>
      (* throw away EOL after \ *)
      (None,
       set_continued true
         (set_sudolineno (sudolineno l + 1)%Z (set_sawspace true l)))
  | R_comment =>
      (* comment, not uid/gid *)
      if Ascii.eqb (char_at yytext (yyleng - 1)) LF then
        (* comment ending in a newline *)
        (Some (CHAR LF),
         set_continued false
           (set_sudolineno (sudolineno l + 1)%Z (BEGIN INITIAL l)))
      else if negb (feof_sudoersin e l) then
        (Some ERROR, set_errstr (Some Strerror) l)
      else (Some (CHAR LF), l)
  | R_nomatch => (Some NOMATCH, l)
  end.

(** *** The scanner function *)

(** One run of the scanning loop of [sudoerslex]: at the end of the buffer
    the [<<EOF>>] rule; else match a rule, make the match the current token
    ([YY_RULE_SETUP], [YY_USER_ACTION]) and run the action. *)
Definition yylex_step (e : env) (l : lexer) : option token * lexer :=
  match yy_current_buffer l with
  | Some (mkBuffer (c :: s) at_bol fp) =>
      match yy_match (yy_start l) at_bol (c :: s) with
      | Some (r, n) =>
          let yytext := firstn n (c :: s) in
          let b :=
            mkBuffer (skipn n (c :: s))
              (Ascii.eqb (char_at yytext (n - 1)) LF) fp in
          let lb := sudolinebuf l in
          action e r yytext
            (set_toke (toke_end lb) (toke_end lb + n)
               (set_buffer (Some b) l))
      | None => (None, set_buffer (Some (mkBuffer s at_bol fp)) l)
      end
  | _ =>
      (* <*><<EOF>> *)
      let '(popped, l1) := pop_include e l in
      if popped then (None, l1) else (Some END, l1)
  end.

(** [sudoerslex()]: scan until an action returns. *)
Fixpoint sudoerslex (fuel : nat) (e : env) (l : lexer)
  : option (token * lexer) :=
  match fuel with
  | 0 => None
  | S k =>
      match yylex_step e l with
      | (Some t, l1) => Some (t, l1)
      | (None, l1) => sudoerslex k e l1
      end
  end.

End Toke.

(** ** Vocabulary of the properties *)

Module Spec.
Import Flex Include Toke.

(** The stack array has [istacksize] slots and [idepth] indexes into it. *)
Definition stack_ok (l : lexer) : Prop :=
  length (istack l) = istacksize l /\ idepth l <= istacksize l.

(** The unread input of the current buffer. *)
Definition pending (l : lexer) : list ascii :=
  match yy_current_buffer l with
  | Some b => yy_chars b
  | None => []
  end.

Definition at_bol (l : lexer) : bool :=
  match yy_current_buffer l with
  | Some b => yy_at_bol b
  | None => false
  end.

(** [n] include directives, each found in the file that the one before
    opened: the result of every [push_include], oldest first. *)
Fixpoint nest (n : nat) (e : env) (opath : cstring) (l : lexer)
  : list bool * lexer :=
  match n with
  | 0 => ([], l)
  | S k =>
      let '(ok, l1) := push_include e opath false l in
      let '(oks, l2) := nest k e opath l1 in
      (ok :: oks, l2)
  end.

(** The files that become the current source while an include directory is
    read: [push_include] opens the first, and each end of file runs
    [pop_include], which opens the next until the frame is popped. *)
Fixpoint eof_walk (fuel : nat) (e : env) (depth : nat) (l : lexer)
  : list cstring :=
  match fuel with
  | 0 => []
  | S k =>
      let '(ok, l1) := pop_include e l in
      if ok && (idepth l1 =? depth) then sudoers l1 :: eof_walk k e depth l1
      else []
  end.

Definition includedir_files (e : env) (opath : cstring) (l : lexer)
  : list cstring :=
  let '(ok, l1) := push_include e opath true l in
  if ok && (idepth l1 =? idepth l + 1) then
    sudoers l1
    :: eof_walk (S (length (is_more (frame_at l1 (idepth l))))) e (idepth l1) l1
  else [].

(** A directory entry that [read_dir_files] keeps. *)
Definition kept_name (d_name : cstring) : Prop :=
  d_name <> [] /\ List.last d_name NUL <> "~"%char /\ ~ List.In "."%char d_name.

(** Lexical order of C strings, as [strcmp] decides it. *)
Definition str_lt (a b : cstring) : Prop := (strcmp a b < 0)%Z.
Definition str_le (a b : cstring) : Prop := (strcmp a b <= 0)%Z.

#[export] Instance str_le_dec a b : Decision (str_le a b) :=
  Z_le_dec (strcmp a b) 0.

(** The names of a directory in ascending lexical order. *)
Definition lexical_order (names : list cstring) : list cstring :=
  merge_sort str_le names.

(** The path [read_dir_files] builds for an entry. *)
Definition dir_path (dirpath d_name : cstring) : cstring :=
  dirpath ++ str "/" ++ d_name.

(** [open_sudoers] opens [path], whatever [keepopen] is. *)
Definition opens (e : env) (path : cstring) : Prop :=
  forall ko, exists fp ko', open_sudoers e path false ko = (Some fp, ko').

(** The argument of an include directive without the double quotes
    around it. *)
Definition unquoted (opath : cstring) : cstring :=
  match opath with
  | q :: rest =>
      match rest with
      | [] => opath
      | _ =>
          if Ascii.eqb q DQUOTE && Ascii.eqb (List.last rest NUL) DQUOTE
          then removelast rest else opath
      end
  | [] => []
  end.

(** A C string holds no NUL. *)
Definition nul_free (s : cstring) : Prop := ~ List.In NUL s.

(** Equality of C strings, and the first character of one. *)
Fixpoint cstring_eqb (a b : cstring) : bool :=
  match a, b with
  | [], [] => true
  | x :: a', y :: b' => Ascii.eqb x y && cstring_eqb a' b'
  | _, _ => false
  end.

Definition begins_with (c : ascii) (s : cstring) : bool :=
  match s with
  | x :: _ => Ascii.eqb x c
  | [] => false
  end.

(** The closing quote as the specification words it: the token for the
    accumulated string [acc] ([None] when nothing was accumulated), and the
    error message when the token is ERROR. *)
Definition closed_string (prev : start_cond) (acc : option cstring)
  : token * option string :=
  match acc with
  | None => (ERROR, Some "empty string"%string)
  | Some s =>
      if start_cond_eqb prev INITIAL || start_cond_eqb prev GOTDEFS then
        if begins_with "%" s then
          if cstring_eqb s (str "%") || cstring_eqb s (str "%:")
          then (ERROR, Some "empty group"%string)
          else (USERGROUP, None)
        else if begins_with "+" s then
          if cstring_eqb s (str "+")
          then (ERROR, Some "empty netgroup"%string)
          else (NETGROUP, None)
        else (WORD, None)
      else (WORD, None)
  end.

(** [sudoerslval.string] holds the accumulated string [acc]: NULL when
    nothing was appended, else a C string, which is not empty. *)
Definition accumulated (p : strptr) (acc : option cstring) : Prop :=
  match p, acc with
  | SNull, None => True
  | SStr s, Some s' => s = s' /\ s <> [] /\ nul_free s
  | _, _ => False
  end.

(** The argument text after a run [s] was added to [args]. *)
Definition args_plus (args : option cstring) (space : bool) (s : cstring)
  : option cstring :=
  match args with
  | None => Some s
  | Some a => Some (a ++ (if space then [SP] else []) ++ s)
  end.

(** The characters of command arguments: glob characters keep their
    backslash, the special characters of sudoers lose it. *)
Definition glob_char (c : ascii) : Prop := List.In c (str "*?[]!^").
Definition special_char (c : ascii) : Prop :=
  List.In c (str ":" ++ [BSLASH] ++ str ",= " ++ [TAB] ++ str "#").

(** The characters that cannot stand in a run of argument characters. *)
Definition not_arg_char (c : ascii) : Prop :=
  List.In c (str "#" ++ [BSLASH] ++ str ":, " ++ [TAB; CR; LF]).

(** [s] goes on with blanks and a line break: together with a backslash in
    front this is a line continuation. *)
Definition line_continues (s : cstring) : Prop :=
  exists blanks tail,
    Forall (fun c => isblank c = true) blanks
    /\ (s = blanks ++ LF :: tail \/ s = blanks ++ CR :: LF :: tail).

(** The character [c], followed by [rest], ends the arguments of a command:
    '#', ':', ',' and LF always, '=' when no argument character follows it,
    CR when no LF follows it. *)
Definition ends_arguments (c : ascii) (rest : cstring) : Prop :=
  List.In c (str "#:," ++ [LF])
  \/ (c = "="%char
      /\ match rest with [] => True | d :: _ => not_arg_char d end)
  \/ (c = CR /\ match rest with [] => True | d :: _ => d <> LF end).

(** The text between the '#' of a comment and the line break: it has no
    LF; it is empty, or a lone CR before the LF, or begins with a character
    that is not CR, a digit or '-', or begins with '-' and a character that
    is not CR or a digit. *)
Definition comment_body (b : cstring) : bool :=
  match b with
  | [] => true
  | c :: b' =>
      if Ascii.eqb c "-"
      then match b' with
           | d :: _ => comment_dash_next d
           | [] => false
           end
      else comment_start c
  end.

Definition comment_text (body : cstring) : Prop :=
  Forall (fun c => c <> LF) body
  /\ (comment_body body = true \/ body = [CR]).

(** The text after the '#' of an include directive at a line start:
    include or includedir and a blank. *)
Definition include_directive (body : cstring) : Prop :=
  exists b t, isblank b = true
    /\ (body = str "include" ++ b :: t \/ body = str "includedir" ++ b :: t).

(** The text after the '#' of a user or group ID: digits, after a '-' or
    not. *)
Definition id_text (t : cstring) : Prop :=
  exists d rest, isdigit d = true
    /\ (t = d :: rest \/ t = "-"%char :: d :: rest).

(** [ceil(a / b)]. *)
Definition ceil_div (a b : nat) : nat := (a + b - 1) / b.

(** The digest sizes in bytes: SHA-224 28, SHA-256 32, SHA-384 48,
    SHA-512 64. *)
Definition sha_digest_len (d : option digest_kind) : nat :=
  match d with
  | Some SUDO_DIGEST_SHA224 => 28
  | Some SUDO_DIGEST_SHA256 => 32
  | Some SUDO_DIGEST_SHA384 => 48
  | Some SUDO_DIGEST_SHA512 => 64
  | None => 0
  end.

(** A line of the stream as [sudoers_input] hands it on: cut at the first
    NUL, and ended by a newline. *)
Definition normal_line (line : list ascii) : list ascii :=
  match memchr line NUL with
  | Some i => firstn i line ++ [LF]
  | None =>
      if Ascii.eqb (List.last line NUL) LF then line else line ++ [LF]
  end.

(** *** A small system to run the scanner on *)

(** Every file opens and is empty, /etc/sudoers.d is group writable, and
    the helpers of toke_util.c store the text as it stands. *)
Definition sample_env : env :=
  mkEnv true false 0 0 (str "host") false false false
    (fun _ _ _ => (SUDO_PATH_GROUP_WRITABLE, 0%Z, 1%Z))
    (fun path _ ko => (Some (mkFILE path [] false false), ko))
    (fun _ => DirENOENT)
    (fun _ => true)
    (fun _ => true)
    (fun _ => None)
    sha_digest_len
    (fun s => s)
    (fun s => s)
    (fun _ => false).

(** The scanner in start condition [sc] in front of the text [s]. *)
Definition scanning (sc : start_cond) (bol : bool) (s : cstring) : lexer :=
  mkLexer sc (Some (mkBuffer s bol (mkFILE (str "/etc/sudoers") [] false false)))
    INITIAL false false None 1%Z (str "/etc/sudoers") None linebuf_zero
    (mkLval SNull None None) [] 0 0 false [] 0 [].

(** As [sample_env], but /etc/sudoers.d is secure and [readdir] lists
    zeta, alpha and mid, in this order. *)
Definition sample_dir_env : env :=
  mkEnv true false 0 0 (str "host") false false false
    (fun _ _ _ => (SUDO_PATH_SECURE, 0%Z, 0%Z))
    (fun path _ ko => (Some (mkFILE path [] false false), ko))
    (fun _ => DirEntries [str "zeta"; str "alpha"; str "mid"])
    (fun _ => true)
    (fun _ => true)
    (fun _ => None)
    sha_digest_len
    (fun s => s)
    (fun s => s)
    (fun _ => false).

(** The lexer at include depth 144, where the stack array is full. *)
Definition at_depth_144 : lexer :=
  snd (nest 144 sample_env (str "/etc/sudoers.d/local")
         (init_lexer (scanning INITIAL true []))).

(** The tokens [sudoerslex] returns up to the end of the input. *)
Fixpoint tokens (n : nat) (e : env) (l : lexer) : list token :=
  match n with
  | 0 => []
  | S k =>
      match sudoerslex (2 * length (pending l) + 2) e l with
      | Some (END, _) | None => []
      | Some (t, l1) => t :: tokens k e l1
      end
  end.

End Spec.
(** ** Vocabulary of further properties *)

Module Props.
Import Flex Include Toke Spec.

(** The text of a stream as the scanner is to see it: every line as
    [normal_line] leaves it. [fuel] bounds the number of lines. *)
Fixpoint normal_lines (fuel : nat) (data : list ascii) : list ascii :=
  match fuel with
  | 0 => []
  | S k =>
      match data with
      | [] => []
      | _ =>
          let '(line, rest) := split_line data in
          normal_line line ++ normal_lines k rest
      end
  end.

Definition normalized (data : list ascii) : list ascii :=
  normal_lines (length data) data.

(** The text [s] with every "%h" replaced by the host name. *)
Fixpoint host_expand (host s : cstring) : cstring :=
  match s with
  | [] => []
  | c :: s' =>
      match s' with
      | d :: s'' =>
          if Ascii.eqb c "%" && Ascii.eqb d "h"
          then host ++ host_expand host s''
          else c :: host_expand host s'
      | [] => [c]
      end
  end.

(** The number of "%h" escapes of [s], read from the left. *)
Fixpoint host_escapes (s : cstring) : nat :=
  match s with
  | [] => 0
  | c :: s' =>
      match s' with
      | d :: s'' =>
          if Ascii.eqb c "%" && Ascii.eqb d "h"
          then S (host_escapes s'')
          else host_escapes s'
      | [] => 0
      end
  end.

(** The loops of [expand_include] walk [opath] from [cp] to [ep]: the text
    between the two is [t], and [post] follows it. *)
Definition window (opath post : cstring) (ep cp : nat) (t : cstring) : Prop :=
  ep = cp + length t
  /\ forall i, char_at opath (cp + i) = nth i (t ++ post) NUL.

(** The directory part of the path of the sudoers file, with its last
    '/'; empty when the path has none. *)
Definition sudoers_dir (path : cstring) : cstring :=
  match strrchr path "/" with
  | Some dirend => firstn (dirend + 1) path
  | None => []
  end.

(** The stream of the buffer saved in slot [d] of the include stack, if
    the slot was not marked to keep it open. *)
Definition saved_stream (l : lexer) (d : nat) : option FILE :=
  match is_bs (frame_at l d) with
  | Some b =>
      if is_keepopen (frame_at l d) then None else Some (yy_input_file b)
  | None => None
  end.

(** [open_sudoers] does not open [path], whatever [keepopen] is. *)
Definition unopened (e : env) (path : cstring) : Prop :=
  forall ko, fst (open_sudoers e path false ko) = None.

(** Rule number [k] of [rs] wins with a match of [n] bytes, [len] giving
    the match of every rule: the rules before it match less, the rules
    after it no more. *)
Fixpoint winner_at (len : rule -> nat) (k n : nat) (rs : list rule) : Prop :=
  match rs, k with
  | r :: rs', 0 => len r = n /\ Forall (fun r' => len r' <= n) rs'
  | r :: rs', S k' => len r < n /\ winner_at len k' n rs'
  | [], _ => False
  end.

(** The length of the longest prefix of [s] whose bytes are all in [p]. *)
Fixpoint span (p : ascii -> bool) (s : list ascii) : nat :=
  match s with
  | c :: s' => if p c then S (span p s') else 0
  | [] => 0
  end.

(** The bytes of [<GOTCMND>[^#\\:, \t\r\n]+], and a run of them that the
    rule matches whole: it is followed by a byte that is not one of
    them, and does not begin with '=' (which alone ends the arguments) or
    with '^' (which begins a regular expression). *)
Definition arg_char : ascii -> bool :=
  none_of (str "#" ++ [BSLASH] ++ str ":, " ++ [TAB; CR; LF]).

Definition arg_run (a rest : cstring) : Prop :=
  a <> [] /\ forallb arg_char a = true
  /\ negb (one_of (str "=^") (char_at a 0)) = true
  /\ arg_char (char_at rest 0) = false.

(** The start conditions in which no rule but [<*>!+] matches a '!'. *)
Definition bang_states : list start_cond :=
  [INITIAL; GOTDEFS; STARTDEFS; INDEFS; WANTDIGEST; EXPECTPATH].

(** The start conditions in which [<*>\\[[:blank:]]*\r?\n] takes a line
    continuation: all but INSTR, which has a rule of its own for it. *)
Definition continuation_states : list start_cond :=
  [INITIAL; GOTDEFS; GOTCMND; GOTREGEX; STARTDEFS; INDEFS; WANTDIGEST;
   GOTINC; EXPECTPATH].

(** The bytes that can occur in a text matched by a pattern. *)
Fixpoint alphabet (r : regex) (c : ascii) : bool :=
  match r with
  | Empty | Eps => false
  | Cls p => p c
  | Cat r1 r2 | Alt r1 r2 => alphabet r1 c || alphabet r2 c
  | Star r1 => alphabet r1 c
  end.

(** The bytes of a quoted string that stand for themselves. *)
Definition plain_char : ascii -> bool :=
  none_of [DQUOTE; CR; LF; BSLASH].

(** A directory entry that names a configuration file: a regular file
    whose name is not empty, does not end in '~' and holds no '.'. *)
Definition config_file (e : env) (dirpath d_name : cstring) : bool :=
  negb (length d_name =? 0)
  && negb (Ascii.eqb (List.last d_name NUL) "~")
  && negb (existsb (Ascii.eqb ".") d_name)
  && stat_isreg e (dir_path dirpath d_name).

(** The configuration files among the entries of a directory, in the order
    of the listing. *)
Definition config_files (e : env) (dirpath : cstring) (names : list cstring)
  : list cstring :=
  List.filter (config_file e dirpath) names.

(** As [sample_dir_env], but [readdir] lists the directory itself and its
    parent, a backup file, a dotted name and the subdirectory sub among
    the files zeta, alpha and mid. *)
Definition sample_mixed_env : env :=
  mkEnv true false 0 0 (str "host") false false false
    (fun _ _ _ => (SUDO_PATH_SECURE, 0%Z, 0%Z))
    (fun path _ ko => (Some (mkFILE path [] false false), ko))
    (fun _ => DirEntries [str "."; str ".."; str "zeta"; str "local~";
                          str "alpha"; str "site.bak"; str "sub"; str "mid"])
    (fun path => negb (cstring_eqb path (str "/etc/sudoers.d/sub")))
    (fun _ => true)
    (fun _ => None)
    sha_digest_len
    (fun s => s)
    (fun s => s)
    (fun _ => false).

(** As [sample_dir_env], but no file opens; the directory lists a backup
    file, a dotted name and two plain names. *)
Definition sample_closed_env : env :=
  mkEnv true false 0 0 (str "host") false false false
    (fun _ _ _ => (SUDO_PATH_SECURE, 0%Z, 0%Z))
    (fun _ _ ko => (None, ko))
    (fun _ => DirEntries [str "local~"; str "site.bak"; str "zeta"; str "alpha"])
    (fun _ => true)
    (fun _ => true)
    (fun _ => None)
    sha_digest_len
    (fun s => s)
    (fun s => s)
    (fun _ => false).

(** As [sample_closed_env], but [opendir] fails. *)
Definition sample_nodir_env : env :=
  mkEnv false false 0 0 (str "host") false false false
    (fun _ _ _ => (SUDO_PATH_SECURE, 0%Z, 0%Z))
    (fun _ _ ko => (None, ko))
    (fun _ => DirFailure)
    (fun _ => true)
    (fun _ => true)
    (fun _ => None)
    sha_digest_len
    (fun s => s)
    (fun s => s)
    (fun _ => false).

End Props.
Import Props.

(** ** Authentication of the invoking user (plugins/sudoers/check.c)

    [check_user] and the functions around it talk to the time stamp file,
    the authentication back end, the password database and the terminal.
    Every such call is recorded, in order, in a trace of events; what a call
    returns is read from the record [auth_env], as a function of the events
    that came before it for the calls whose answer depends on what was done
    so far. *)

Module Check.

Local Open Scope Z_scope.

(** Flag values of sudoers.h. *)
Definition VALIDATE_SUCCESS : Z := 0x002.
Definition FLAG_CHECK_USER : Z := 0x010.
Definition FLAG_NO_USER_INPUT : Z := 0x100.
Definition MODE_LIST : Z := 0x00000080.
Definition MODE_CHECK : Z := 0x00000100.
Definition MODE_NONINTERACTIVE : Z := 0x00800000.
Definition MODE_IGNORE_TICKET : Z := 0x01000000.
Definition MODE_UPDATE_TICKET : Z := 0x02000000.
Definition MODE_POLICY_INTERCEPTED : Z := 0x04000000.

(** [ISSET(t, f)] as a condition: [((t) & (f)) != 0]. *)
Definition ISSET (t f : Z) : bool := negb (Z.land t f =? 0).

(** [true] and [false] as [int]. *)
Definition TRUE : Z := 1.
Definition FALSE : Z := 0.
Definition ROOT_UID : Z := 0.

Record passwd : Type := mkPasswd {
  pw_name : option cstring;
  pw_uid : Z;
  pw_shell : cstring
}.

Record group : Type := mkGroup { gr_name : cstring }.

(** The status of a time stamp file; check.c tells TS_FATAL, TS_CURRENT and
    TS_ERROR from the rest. *)
Inductive ts_status : Type :=
  TS_CURRENT | TS_OLD | TS_MISSING | TS_ERROR | TS_FATAL.

Definition ts_status_eqb (a b : ts_status) : bool :=
  match a, b with
  | TS_CURRENT, TS_CURRENT | TS_OLD, TS_OLD | TS_MISSING, TS_MISSING
  | TS_ERROR, TS_ERROR | TS_FATAL, TS_FATAL => true
  | _, _ => false
  end.

(** The handle [timestamp_open] returns. *)
Definition ts_cookie : Type := nat.

(** [struct getpass_closure]. *)
Record getpass_closure : Type := mkClosure {
  tstat : ts_status;
  lectured : bool;
  cookie : option ts_cookie;
  auth_pw : option passwd
}.

Definition set_tstat (v : ts_status) (c : getpass_closure) : getpass_closure :=
  mkClosure v (lectured c) (cookie c) (auth_pw c).
Definition set_lectured_flag (v : bool) (c : getpass_closure)
  : getpass_closure :=
  mkClosure (tstat c) v (cookie c) (auth_pw c).
Definition set_cookie (v : option ts_cookie) (c : getpass_closure)
  : getpass_closure :=
  mkClosure (tstat c) (lectured c) v (auth_pw c).

(** [struct sudo_conv_callback], as far as check.c reads it back. *)
Record sudo_conv_callback : Type := mkCallback {
  cb_closure : option getpass_closure
}.

(** The values of [def_lecture]. *)
Inductive lecture_mode : Type := never | once | always.

(** What [open], [fstat] and [read] make of the lecture file: [open] fails;
    [fstat] fails; the file is not a regular one; or it is read in chunks
    until [read] returns 0 ([true]) or -1 ([false]). *)
Inductive lecture_file : Type :=
| OpenFails
| StatFails
| NotRegular
| Regular (chunks : list cstring) (to_end : bool).

(** What the conversation function does with the callback it was given
    while it waits for a password. *)
Inductive callback_call : Type :=
| On_suspend (signo : Z)
| On_resume (signo : Z)
| Lecture.

(** The calls that leave check.c; debug output, [memset], [fcntl] and
    [free] are left out. *)
Inductive event : Type :=
| E_timestamp_open (name : cstring) (sid : Z)
| E_timestamp_lock (c : ts_cookie) (pw : option passwd)
| E_timestamp_status (c : ts_cookie) (pw : option passwd)
| E_timestamp_update (c : option ts_cookie) (pw : option passwd)
| E_timestamp_close (c : option ts_cookie)
| E_sudo_auth_init (pw : passwd) (mode : Z)
| E_sudo_auth_approval (pw : option passwd) (validated : Z) (exempt : bool)
| E_sudo_auth_cleanup (pw : option passwd) (force_fail : bool)
| E_verify_user (pw : passwd) (prompt : cstring) (validated : Z)
| E_set_lectured
| E_log_auth_failure (validated : Z) (tries : Z)
| E_log_warning (msg : string)
| E_sudo_pw_addref (pw : passwd)
| E_sudo_pw_delref (pw : passwd)
| E_sudo_conv (msg : cstring)
| E_open (path : cstring)
| E_close
| E_setusershell
| E_endusershell.

Definition trace : Type := list event.

(** The settings, the invoking user and the functions that check.c calls
    but does not define. *)
Record auth_env : Type := mkAuthEnv {
  sudo_mode : Z;
  def_intercept_authenticate : bool;
  def_authenticate : bool;
  def_exempt_group : option cstring;
  def_rootpw : bool;
  def_runaspw : bool;
  def_targetpw : bool;
  def_runas_default : cstring;
  def_noninteractive_auth : bool;
  def_passprompt : cstring;
  def_runas_check_shell : bool;
  def_lecture : lecture_mode;
  def_lecture_file : option cstring;
  user_name : cstring;
  user_uid : Z;
  user_sid : Z;
  user_prompt : option cstring;
  sudo_user_pw : passwd;
  runas_pw : passwd;
  runas_gr : option group;
  (* HAVE_SELINUX, HAVE_APPARMOR, HAVE_PRIV_SET and what they guard *)
  with_selinux : bool;
  user_role : option cstring;
  user_type : option cstring;
  with_apparmor : bool;
  user_apparmor_profile : option cstring;
  with_priv_set : bool;
  runas_privs : option cstring;
  runas_limitprivs : option cstring;
  (* timestamp.c *)
  timestamp_open : trace -> cstring -> Z -> option ts_cookie;
  timestamp_lock : trace -> ts_cookie -> option passwd -> bool;
  timestamp_status : trace -> ts_cookie -> option passwd -> ts_status;
  (* auth/sudo_auth.c: [verify_user] answers with the callbacks it makes
     and the value it returns *)
  sudo_auth_init : trace -> passwd -> Z -> Z;
  sudo_auth_approval : trace -> option passwd -> Z -> bool -> Z;
  verify_user : trace -> passwd -> cstring -> Z -> list callback_call * Z;
  (* prompt.c, pwutil.c *)
  expand_prompt : cstring -> option cstring -> option cstring;
  user_in_group : passwd -> cstring -> bool;
  sudo_getpwuid : Z -> option passwd;
  sudo_getpwnam : cstring -> option passwd;
  (* the lecture status and the lecture file *)
  already_lectured : bool;
  read_lecture_file : cstring -> lecture_file;
  (* the entries of /etc/shells, as [getusershell] returns them *)
  usershells : list cstring
}.

(** *** Code that leaves a trace *)

Definition M (A : Type) : Type := trace -> A * trace.

Definition ret {A : Type} (a : A) : M A := fun t => (a, t).

Definition bind {A B : Type} (m : M A) (f : A -> M B) : M B :=
  fun t => let (a, t') := m t in f a t'.

(** A call: recorded, and answered from what happened before it. *)
Definition call {A : Type} (ev : event) (answer : trace -> A) : M A :=
  fun t => (answer t, t ++ [ev]).

Definition emit (ev : event) : M unit := call ev (fun _ => tt).

Declare Scope check_scope.
Delimit Scope check_scope with check.
Notation "x <- m ;; k" := (bind m (fun x => k))
  (at level 100, m at next level, k at level 200, right associativity)
  : check_scope.
Notation "m ;; k" := (bind m (fun _ => k))
  (at level 100, k at level 200, right associativity) : check_scope.
Local Open Scope check_scope.

(** The text of the default sudo lecture. *)
Definition default_lecture : cstring :=
  [LF] ++
  str "We trust you have received the usual lecture from the local System"
  ++ [LF] ++
  str "Administrator. It usually boils down to these three things:"
  ++ [LF; LF] ++
  str "    #1) Respect the privacy of others." ++ [LF] ++
  str "    #2) Think before you type." ++ [LF] ++
  str "    #3) With great power comes great responsibility." ++ [LF; LF].

(** *** The callbacks of the password prompt *)

(** [getpass_suspend]: called when getpass is suspended so we can drop the
    lock. *)
Definition getpass_suspend (e : auth_env) (signo : Z)
  (closure : getpass_closure) : M (Z * getpass_closure) :=
  emit (E_timestamp_close (cookie closure)) ;;
  ret (0, set_cookie None closure).

(** [getpass_resume]: called when getpass is resumed so we can reacquire
    the lock. *)
Definition getpass_resume (e : auth_env) (signo : Z)
  (closure : getpass_closure) : M (Z * getpass_closure) :=
  c <- call (E_timestamp_open (user_name e) (user_sid e))
         (fun t => timestamp_open e t (user_name e) (user_sid e)) ;;
  let closure := set_cookie c closure in
  match c with
  | None => ret (-1, closure)
  | Some ck =>
      locked <- call (E_timestamp_lock ck (auth_pw closure))
                  (fun t => timestamp_lock e t ck (auth_pw closure)) ;;
      if negb locked then ret (-1, closure) else ret (0, closure)
  end.

(** The read loop of [display_lecture]: every chunk goes to the
    conversation function. *)
Fixpoint show_chunks (chunks : list cstring) : M unit :=
  match chunks with
  | [] => ret tt
  | buf :: more => emit (E_sudo_conv buf) ;; show_chunks more
  end.

(** [display_lecture]: display sudo lecture (standard or custom). The
    closure is changed through the callback; the callback comes back with
    the closure as the function leaves it. *)
Definition display_lecture (e : auth_env)
  (callback : option sudo_conv_callback) : M (option sudo_conv_callback) :=
  match callback with
  | None => ret callback
  | Some cb =>
      match cb_closure cb with
      | None => ret callback
      | Some closure =>
          if lectured closure then ret callback
          else if match def_lecture e with
                  | never => true
                  | once => already_lectured e
                  | always => false
                  end
          then ret callback
          else
            let done := Some (mkCallback (Some (set_lectured_flag true closure))) in
            let standard := emit (E_sudo_conv default_lecture) ;; ret done in
            match def_lecture_file e with
            | None => standard
            | Some path =>
                emit (E_open path) ;;
                match read_lecture_file e path with
                | Regular chunks to_end =>
                    show_chunks chunks ;;
                    if to_end then emit E_close ;; ret done
                    else
                      emit (E_log_warning "error reading lecture file %s") ;;
                      emit E_close ;; standard
                | NotRegular =>
                    emit (E_log_warning
                            "ignoring lecture file %s: not a regular file") ;;
                    emit E_close ;; standard
                | StatFails =>
                    emit (E_log_warning "unable to open %s") ;;
                    emit E_close ;; standard
                | OpenFails =>
                    emit (E_log_warning "unable to open %s") ;; standard
                end
            end
      end
  end.

(** One callback made by the conversation function. *)
Definition run_callback (e : auth_env) (c : callback_call)
  (closure : getpass_closure) : M getpass_closure :=
  match c with
  | On_suspend signo =>
      r <- getpass_suspend e signo closure ;; ret (snd r)
  | On_resume signo =>
      r <- getpass_resume e signo closure ;; ret (snd r)
  | Lecture =>
      cb <- display_lecture e (Some (mkCallback (Some closure))) ;;
      match cb with
      | Some (mkCallback (Some closure')) => ret closure'
      | _ => ret closure
      end
  end.

Fixpoint run_callbacks (e : auth_env) (cs : list callback_call)
  (closure : getpass_closure) : M getpass_closure :=
  match cs with
  | [] => ret closure
  | c :: more =>
      closure' <- run_callback e c closure ;; run_callbacks e more closure'
  end.

(** *** The checks *)

(** [user_is_exempt]: checks if the user is exempt from supplying a
    password. *)
Definition user_is_exempt (e : auth_env) : bool :=
  match def_exempt_group e with
  | Some grp => if user_in_group e (sudo_user_pw e) grp then true else false
  | None => false
  end.

(** [get_authpw]: get passwd entry for the user we are going to
    authenticate as. *)
Definition get_authpw (e : auth_env) (mode : Z) : M (option passwd) :=
  if ISSET mode (Z.lor MODE_CHECK MODE_LIST) then
    (* In list mode we always prompt for the user's password. *)
    emit (E_sudo_pw_addref (sudo_user_pw e)) ;; ret (Some (sudo_user_pw e))
  else if def_rootpw e then
    match sudo_getpwuid e ROOT_UID with
    | None => emit (E_log_warning "unknown uid %u") ;; ret None
    | Some pw => ret (Some pw)
    end
  else if def_runaspw e then
    match sudo_getpwnam e (def_runas_default e) with
    | None => emit (E_log_warning "unknown user %s") ;; ret None
    | Some pw => ret (Some pw)
    end
  else if def_targetpw e then
    match pw_name (runas_pw e) with
    | None =>
        (* This should never be NULL as we fake up the passwd struct *)
        emit (E_log_warning "unknown uid %u") ;; ret None
    | Some _ => emit (E_sudo_pw_addref (runas_pw e)) ;; ret (Some (runas_pw e))
    end
  else
    emit (E_sudo_pw_addref (sudo_user_pw e)) ;; ret (Some (sudo_user_pw e)).

(** The loop of [check_user_shell] over the entries of /etc/shells: [true]
    is returned from inside the loop. *)
Fixpoint shell_listed (shells : list cstring) (pw_shell : cstring) : bool :=
  match shells with
  | [] => false
  | shell :: more =>
      if strcmp shell pw_shell =? 0 then true else shell_listed more pw_shell
  end.

(** [check_user_shell]: returns true if the specified shell is allowed by
    /etc/shells, else false. *)
Definition check_user_shell (e : auth_env) (pw : passwd) : M bool :=
  if negb (def_runas_check_shell e) then ret true
  else
    emit E_setusershell ;;
    if shell_listed (usershells e) (pw_shell pw) then ret true
    else emit E_endusershell ;; ret false.

(** The first part of [check_user_interactive]: open, lock and read time
    stamp file if we are using it. *)
Definition open_ticket (e : auth_env) (mode : Z) (closure : getpass_closure)
  : M getpass_closure :=
  if negb (ISSET mode MODE_IGNORE_TICKET) then
    (* Open time stamp file and check its status. *)
    c <- call (E_timestamp_open (user_name e) (user_sid e))
           (fun t => timestamp_open e t (user_name e) (user_sid e)) ;;
    let closure := set_cookie c closure in
    match c with
    | Some ck =>
        locked <- call (E_timestamp_lock ck (auth_pw closure))
                    (fun t => timestamp_lock e t ck (auth_pw closure)) ;;
        if locked then
          st <- call (E_timestamp_status ck (auth_pw closure))
                  (fun t => timestamp_status e t ck (auth_pw closure)) ;;
          ret (set_tstat st closure)
        else ret closure
    | None => ret closure
    end
  else ret closure.

(** The [default] case of the switch of [check_user_interactive], which
    the case TS_CURRENT falls through to. *)
Definition prompt_user (e : auth_env) (validated mode : Z)
  (closure : getpass_closure) : M (Z * getpass_closure) :=
  if ISSET mode MODE_NONINTERACTIVE && negb (def_noninteractive_auth e)
  then
    emit (E_log_auth_failure (Z.lor validated FLAG_NO_USER_INPUT) 0) ;;
    ret (-1, closure)
  else
    match auth_pw closure with
    | None => ret (-1, closure)   (* [check_user] passes no NULL here *)
    | Some pw =>
        (* Expand any escapes in the prompt. *)
        match expand_prompt e
                (match user_prompt e with
                 | Some p => p
                 | None => def_passprompt e
                 end) (pw_name pw) with
        | None => ret (-1, closure)
        | Some prompt =>
            answer <- call (E_verify_user pw prompt validated)
                        (fun t => verify_user e t pw prompt validated) ;;
            closure <- run_callbacks e (fst answer) closure ;;
            let r := snd answer in
            (if (r =? TRUE) && lectured closure
             then emit E_set_lectured   (* lecture error not fatal *)
             else ret tt) ;;
            ret (r, closure)
        end
    end.

(** [check_user_interactive]: returns true if the user successfully
    authenticates, false if not or -1 on fatal error. *)
Definition check_user_interactive (e : auth_env) (validated mode : Z)
  (closure : getpass_closure) : M (Z * getpass_closure) :=
  closure <- open_ticket e mode closure ;;
  match tstat closure with
  | TS_FATAL =>
      (* Fatal error (usually setuid failure), unsafe to proceed. *)
      ret (-1, closure)
  | TS_CURRENT =>
      (* Time stamp file is valid and current. *)
      if negb (ISSET validated FLAG_CHECK_USER) then ret (TRUE, closure)
      else prompt_user e validated mode closure
  | _ => prompt_user e validated mode closure
  end.

(** The user runs the command as themself, and nothing asks for a change
    of security context. *)
Definition running_as_self (e : auth_env) : bool :=
  ((user_uid e =? 0)
   || ((user_uid e =? pw_uid (runas_pw e))
       && match runas_gr e with
          | None => true
          | Some gr => user_in_group e (sudo_user_pw e) (gr_name gr)
          end))
  && (negb (with_selinux e)
      || (match user_role e with None => true | Some _ => false end
          && match user_type e with None => true | Some _ => false end))
  && (negb (with_apparmor e)
      || match user_apparmor_profile e with None => true | Some _ => false end)
  && (negb (with_priv_set e)
      || (match runas_privs e with None => true | Some _ => false end
          && match runas_limitprivs e with
             | None => true
             | Some _ => false
             end)).

(** The part of [check_user] from the label [done] on. *)
Definition check_user_done (e : auth_env) (validated mode : Z) (r : Z)
  (exempt : bool) (closure : getpass_closure) : M Z :=
  r <- (if r =? TRUE then
          (* The approval function may disallow a user
             post-authentication. *)
          r <- call (E_sudo_auth_approval (auth_pw closure) validated exempt)
                 (fun t =>
                    sudo_auth_approval e t (auth_pw closure) validated
                      exempt) ;;
          (* Only update time stamp if user validated and was approved. *)
          (if (r =? TRUE) && ISSET validated VALIDATE_SUCCESS
              && ISSET mode MODE_UPDATE_TICKET
              && negb (ts_status_eqb (tstat closure) TS_ERROR)
           then emit (E_timestamp_update (cookie closure) (auth_pw closure))
           else ret tt) ;;
          ret r
        else ret r) ;;
  emit (E_timestamp_close (cookie closure)) ;;
  emit (E_sudo_auth_cleanup (auth_pw closure)
          (negb (ISSET validated VALIDATE_SUCCESS))) ;;
  match auth_pw closure with
  | Some pw => emit (E_sudo_pw_delref pw)
  | None => ret tt
  end ;;
  ret r.

(** [check_user]: returns true if the user successfully authenticates,
    false if not or -1 on error. *)
Definition check_user (e : auth_env) (validated mode : Z) : M Z :=
  (* In intercept mode, only check the user if configured to do so. *)
  if ISSET (sudo_mode e) MODE_POLICY_INTERCEPTED
     && negb (def_intercept_authenticate e)
  then ret TRUE
  else
    (* Init authentication system regardless of whether we need a
       password. *)
    pw <- get_authpw e mode ;;
    let closure := mkClosure TS_ERROR false None pw in
    match pw with
    | None => check_user_done e validated mode (-1) false closure
    | Some auth =>
        init <- call (E_sudo_auth_init auth mode)
                  (fun t => sudo_auth_init e t auth mode) ;;
        if init =? -1 then
          check_user_done e validated mode (-1) false closure
        else if negb (def_authenticate e) || user_is_exempt e then
          (* Don't prompt for the root passwd or if the user is exempt. *)
          check_user_done e validated mode TRUE true closure
        else if running_as_self e then
          (* If the user is not changing uid/gid, no need for a password. *)
          check_user_done e validated mode TRUE false closure
        else
          r <- check_user_interactive e validated mode closure ;;
          check_user_done e validated mode (fst r) false (snd r)
    end.

(** A system for the examples: the user alice (uid 1000) runs a command as
    root; the time stamp file opens and locks and is out of date; the
    password prompt shows the lecture and accepts the password; /etc/shells
    lists /bin/sh and /bin/bash. *)
Definition alice : passwd :=
  mkPasswd (Some (str "alice")) 1000 (str "/bin/bash").
Definition root : passwd := mkPasswd (Some (str "root")) 0 (str "/bin/sh").

Definition sample_auth_env : auth_env :=
  mkAuthEnv 0 false true None false false false (str "root") false
    (str "Password: ") true once None
    (str "alice") 1000 42 None alice root None
    false None None false None false None None
    (fun _ _ _ => Some 7%nat) (fun _ _ _ => true) (fun _ _ _ => TS_OLD)
    (fun _ _ _ => 0) (fun _ _ _ _ => TRUE)
    (fun _ _ _ _ => ([Lecture], TRUE))
    (fun p _ => Some p) (fun _ _ => false)
    (fun _ => Some root) (fun _ => Some root)
    false (fun _ => OpenFails)
    [str "/bin/sh"; str "/bin/bash"].

(** As [sample_auth_env], but the prompt is suspended and resumed once
    before the password is accepted. *)
Definition sample_suspend_env : auth_env :=
  mkAuthEnv 0 false true None false false false (str "root") false
    (str "Password: ") true once None
    (str "alice") 1000 42 None alice root None
    false None None false None false None None
    (fun t _ _ => Some (length t)) (fun _ _ _ => true) (fun _ _ _ => TS_OLD)
    (fun _ _ _ => 0) (fun _ _ _ _ => TRUE)
    (fun _ _ _ _ => ([On_suspend 20; On_resume 18], TRUE))
    (fun p _ => Some p) (fun _ _ => false)
    (fun _ => Some root) (fun _ => Some root)
    false (fun _ => OpenFails)
    [str "/bin/sh"; str "/bin/bash"].

(** As [sample_auth_env], but alice is in the exempt group wheel. *)
Definition sample_exempt_env : auth_env :=
  mkAuthEnv 0 false true (Some (str "wheel")) false false false (str "root")
    false (str "Password: ") true once None
    (str "alice") 1000 42 None alice root None
    false None None false None false None None
    (fun _ _ _ => Some 7%nat) (fun _ _ _ => true) (fun _ _ _ => TS_OLD)
    (fun _ _ _ => 0) (fun _ _ _ _ => TRUE)
    (fun _ _ _ _ => ([Lecture], TRUE))
    (fun p _ => Some p) (fun _ _ => true)
    (fun _ => Some root) (fun _ => Some root)
    false (fun _ => OpenFails)
    [str "/bin/sh"; str "/bin/bash"].

End Check.

(** Vocabulary for the properties of check.c. *)
Module CheckSpec.
Import Check.

(** [emits P m]: started after any trace, [m] adds events to it, all of
    which satisfy [P]. *)
Definition emits {A : Type} (P : event -> Prop) (m : M A) : Prop :=
  forall t, exists mid, snd (m t) = t ++ mid /\ Forall P mid.

(** [check_user] answers at once: an intercepted command, and
    [intercept_authenticate] is off. *)
Definition intercept_shortcut (e : auth_env) : bool :=
  ISSET (sudo_mode e) MODE_POLICY_INTERCEPTED
  && negb (def_intercept_authenticate e).

(** The lecture is due: not given yet through this closure, and asked for
    by [def_lecture]. *)
Definition lecture_due (e : auth_env) (closure : getpass_closure) : bool :=
  negb (lectured closure)
  && match def_lecture e with
     | never => false
     | once => negb (already_lectured e)
     | always => true
     end.

(** The events of the password prompt and of what it calls back; the
    events of [get_authpw]; the events after the label [done]. *)
Definition prompt_event (ev : event) : Prop :=
  match ev with
  | E_timestamp_open _ _ | E_timestamp_lock _ _ | E_timestamp_status _ _
  | E_timestamp_close _ | E_verify_user _ _ _ | E_set_lectured
  | E_log_auth_failure _ _ | E_log_warning _ | E_sudo_conv _ | E_open _
  | E_close => True
  | _ => False
  end.

Definition authpw_event (ev : event) : Prop :=
  match ev with
  | E_log_warning _ | E_sudo_pw_addref _ => True
  | _ => False
  end.

(** No password is asked for and nothing is shown to the user. *)
Definition silent (ev : event) : Prop :=
  match ev with
  | E_verify_user _ _ _ | E_sudo_conv _ | E_set_lectured => False
  | _ => True
  end.

(** Neither the approval nor an update of the time stamp. *)
Definition before_done (ev : event) : Prop :=
  match ev with
  | E_sudo_auth_approval _ _ _ | E_timestamp_update _ _
  | E_sudo_auth_cleanup _ _ | E_sudo_pw_delref _ => False
  | _ => True
  end.

(** What [check_user] does from the label [done] on, for the passwd
    entry [pw], the cookie [ck] and the flags [validated]: the approval if
    [approve], then the update of the time stamp if [update], then the
    close, the cleanup and the release of the entry. *)
Definition done_events (pw : option passwd) (ck : option ts_cookie)
  (validated : Z) (exempt approve update : bool) : trace :=
  (if approve then [E_sudo_auth_approval pw validated exempt] else [])
  ++ (if update then [E_timestamp_update ck pw] else [])
  ++ [E_timestamp_close ck;
      E_sudo_auth_cleanup pw (negb (ISSET validated VALIDATE_SUCCESS))]
  ++ match pw with
     | Some p => [E_sudo_pw_delref p]
     | None => []
     end.

(** The time stamp cookies that are open after the events [evs], which
    follow the trace [t], when the cookies [held] were open before them:
    [timestamp_open] adds the cookie it returns, [timestamp_close] takes
    its argument away. *)
Fixpoint open_cookies (e : auth_env) (t evs : trace) (held : list ts_cookie)
  : list ts_cookie :=
  match evs with
  | [] => held
  | ev :: more =>
      open_cookies e (t ++ [ev]) more
        match ev with
        | E_timestamp_open name sid =>
            match timestamp_open e t name sid with
            | Some ck => ck :: held
            | None => held
            end
        | E_timestamp_close (Some ck) => List.remove Nat.eq_dec ck held
        | _ => held
        end
  end.

(** The cookie a closure holds. *)
Definition held_of (closure : getpass_closure) : list ts_cookie :=
  match cookie closure with
  | Some ck => [ck]
  | None => []
  end.

(** The prompt resumes only after it was suspended: no [on_resume] without
    an [on_suspend] since the start or since the [on_resume] before it. *)
Fixpoint resumes_suspended (suspended : bool) (cs : list callback_call)
  : bool :=
  match cs with
  | [] => true
  | On_suspend _ :: more => resumes_suspended true more
  | On_resume _ :: more => suspended && resumes_suspended false more
  | Lecture :: more => resumes_suspended suspended more
  end.

(** Neither [timestamp_open] nor [timestamp_close]. *)
Definition keeps_cookies (ev : event) : Prop :=
  match ev with
  | E_timestamp_open _ _ | E_timestamp_close _ => False
  | _ => True
  end.

End CheckSpec.
Import Flex Include Toke Spec.

(** * Properties *)

(** ** C strings *)

Module CStrFacts.

Lemma uchar_inj x y : uchar x = uchar y -> x = y.
Proof.
  unfold uchar. intros H. apply Nat2Z.inj in H.
  rewrite <- (ascii_nat_embedding x), <- (ascii_nat_embedding y). now f_equal.
Qed.

Lemma uchar_nonneg x : (0 <= uchar x)%Z.
Proof. unfold uchar. lia. Qed.

Lemma uchar_zero x : uchar x = 0%Z -> x = NUL.
Proof. intros H. apply uchar_inj. rewrite H. reflexivity. Qed.

Lemma char_at_last (s : cstring) :
  s <> [] -> char_at s (length s - 1) = List.last s NUL.
Proof.
  unfold char_at. induction s as [|c [|d s] IH]; intros H; try easy.
  replace (length (c :: d :: s) - 1) with (S (length (d :: s) - 1))
    by (simpl; lia).
  change (List.last (c :: d :: s) NUL) with (List.last (d :: s) NUL).
  simpl nth. apply IH. discriminate.
Qed.

Lemma strcmp_flip a b : strcmp b a = (- strcmp a b)%Z.
Proof.
  revert b. induction a as [|x a IH]; intros [|y b]; simpl; try lia.
  rewrite (Ascii.eqb_sym y x).
  destruct (Ascii.eqb_spec x y) as [->|]; [|lia].
  destruct (Ascii.eqb y NUL); [lia | apply IH].
Qed.

Lemma strcmp_app p a b :
  nul_free p -> strcmp (p ++ a) (p ++ b) = strcmp a b.
Proof.
  unfold nul_free. induction p as [|x p IH]; simpl; auto. intros Hp.
  rewrite Ascii.eqb_refl.
  destruct (Ascii.eqb_spec x NUL) as [->|]; [exfalso; auto|]. auto.
Qed.

(** Two strings without NUL that compare equal are the same string. *)
Lemma strcmp_zero a b :
  nul_free a -> nul_free b -> strcmp a b = 0%Z -> a = b.
Proof.
  unfold nul_free. revert b.
  induction a as [|x a IH]; intros [|y b] Ha Hb; simpl; auto.
  - intros H. exfalso. apply Hb. left. apply uchar_zero. lia.
  - intros H. exfalso. apply Ha. left. now apply uchar_zero.
  - destruct (Ascii.eqb_spec x y) as [->|Hne].
    + destruct (Ascii.eqb_spec y NUL) as [->|]; [exfalso; apply Ha; now left|].
      intros H. f_equal. apply IH; auto; intros Hin; [apply Ha | apply Hb]; now right.
    + intros H. exfalso. apply Hne, uchar_inj. lia.
Qed.

Lemma strcmp_le_trans a b c :
  (strcmp a b <= 0)%Z -> (strcmp b c <= 0)%Z -> (strcmp a c <= 0)%Z.
Proof.
  revert b c. induction a as [|x a IH]; intros [|y b] [|z c]; simpl;
    try (pose proof (uchar_nonneg x)); try (pose proof (uchar_nonneg y));
    try (pose proof (uchar_nonneg z)); try lia.
  - destruct (Ascii.eqb_spec x z) as [->|Hxz]; [|lia].
    intros H1 H2. assert (z = NUL) as -> by (apply uchar_zero; lia).
    simpl. lia.
  - destruct (Ascii.eqb_spec x y) as [->|Hxy]; [lia|].
    assert (uchar x <> uchar y) by (intros E; now apply Hxy, uchar_inj). lia.
  - destruct (Ascii.eqb_spec x y) as [->|Hxy];
      destruct (Ascii.eqb_spec y z) as [->|Hyz].
    + destruct (Ascii.eqb z NUL); [lia | apply IH].
    + intros _ Hb. exact Hb.
    + destruct (Ascii.eqb_spec x z); [contradiction|]. intros Ha _. exact Ha.
    + assert (uchar x <> uchar y) by (intros E; now apply Hxy, uchar_inj).
      assert (uchar y <> uchar z) by (intros E; now apply Hyz, uchar_inj).
      destruct (Ascii.eqb_spec x z) as [->|Hxz]; lia.
Qed.

(** The order in which [pl_compare] lets [qsort] arrange paths: descending. *)
#[export] Instance in_order_pl_compare_trans : Transitive (in_order pl_compare).
Proof.
  intros a b c. unfold in_order, pl_compare. intros H1 H2.
  exact (strcmp_le_trans _ _ _ H2 H1).
Qed.

#[export] Instance in_order_pl_compare_total : Total (in_order pl_compare).
Proof.
  intros a b. unfold in_order, pl_compare.
  rewrite (strcmp_flip b a). lia.
Qed.

End CStrFacts.
Import CStrFacts.

(** ** Patterns: derivatives and the longest match *)

Module FlexFacts.

Lemma matches_Empty s : ~ matches Empty s.
Proof. inversion 1. Qed.

Lemma matches_Eps s : matches Eps s <-> s = [].
Proof. split; [inversion 1; auto | intros ->; constructor]. Qed.

Lemma matches_Cls p s : matches (Cls p) s <-> exists c, s = [c] /\ p c = true.
Proof.
  split; [inversion 1; eauto | intros (c & -> & H); now constructor].
Qed.

Lemma matches_Cat r1 r2 s :
  matches (Cat r1 r2) s <->
  exists s1 s2, s = s1 ++ s2 /\ matches r1 s1 /\ matches r2 s2.
Proof.
  split; [inversion 1; eauto | intros (s1 & s2 & -> & H1 & H2)].
  now constructor.
Qed.

Lemma matches_Alt r1 r2 s :
  matches (Alt r1 r2) s <-> matches r1 s \/ matches r2 s.
Proof.
  split; [inversion 1; auto | intros [H|H]; [apply MAltL | apply MAltR]; auto].
Qed.

Lemma matches_Star_inv r0 s0 :
  matches r0 s0 -> forall r c s, r0 = Star r -> s0 = c :: s ->
  exists s1 s2, s = s1 ++ s2 /\ matches r (c :: s1) /\ matches (Star r) s2.
Proof.
  induction 1 as [| | | | | |r' s1 s2 H1 _ H2 IH2]; intros rx cx t Hr Hs;
    try discriminate.
  injection Hr as ->. destruct s1 as [|d s1].
  - simpl in Hs. subst s2. now apply IH2.
  - simpl in Hs. injection Hs as -> <-. eauto.
Qed.

Lemma matches_Star_cons r c s :
  matches (Star r) (c :: s) ->
  exists s1 s2, s = s1 ++ s2 /\ matches r (c :: s1) /\ matches (Star r) s2.
Proof. intros H. exact (matches_Star_inv _ _ H r c s eq_refl eq_refl). Qed.

Lemma matches_cat r1 r2 s : matches (cat r1 r2) s <-> matches (Cat r1 r2) s.
Proof.
  assert (HE1 : forall r, ~ matches (Cat Empty r) s).
  { intros r H. apply matches_Cat in H as (s1 & s2 & _ & H1 & _).
    exact (matches_Empty _ H1). }
  assert (HE2 : forall r, ~ matches (Cat r Empty) s).
  { intros r H. apply matches_Cat in H as (s1 & s2 & _ & _ & H2).
    exact (matches_Empty _ H2). }
  assert (He1 : forall r, matches r s <-> matches (Cat Eps r) s).
  { intros r. rewrite matches_Cat. split.
    - intros H. exists [], s. repeat split; [constructor | exact H].
    - intros (s1 & s2 & -> & H1 & H2). apply matches_Eps in H1. now subst. }
  assert (He2 : forall r, matches r s <-> matches (Cat r Eps) s).
  { intros r. rewrite matches_Cat. split.
    - intros H. exists s, []. rewrite app_nil_r.
      repeat split; [exact H | constructor].
    - intros (s1 & s2 & -> & H1 & H2). apply matches_Eps in H2. subst.
      now rewrite app_nil_r. }
  unfold cat; destruct r1, r2;
    first [ reflexivity
          | apply He1
          | apply He2
          | split; intros H; exfalso;
            first [exact (matches_Empty _ H) | exact (HE1 _ H)
                  | exact (HE2 _ H)] ].
Qed.

Lemma matches_alt r1 r2 s : matches (alt r1 r2) s <-> matches (Alt r1 r2) s.
Proof.
  rewrite matches_Alt. unfold alt.
  destruct r1, r2; rewrite ?matches_Alt;
    split; try (intros H; exact H); try tauto;
    try (intros [H|H]; first [exact H | exfalso; exact (matches_Empty _ H)]).
Qed.

Lemma nullable_matches r : nullable r = true <-> matches r [].
Proof.
  induction r as [| |p|r1 IH1 r2 IH2|r1 IH1 r2 IH2|r IH]; simpl.
  - split; [discriminate | intros H; exfalso; exact (matches_Empty _ H)].
  - split; [constructor | reflexivity].
  - split; [discriminate | intros H]. apply matches_Cls in H as (c & H & _).
    discriminate.
  - rewrite andb_true_iff, IH1, IH2, matches_Cat. split.
    + intros [H1 H2]. exists [], []. auto.
    + intros (s1 & s2 & E & H1 & H2). symmetry in E.
      apply app_eq_nil in E as [-> ->]. auto.
  - rewrite orb_true_iff, IH1, IH2, matches_Alt. reflexivity.
  - split; [constructor | reflexivity].
Qed.

(** The derivative of a pattern matches what is left of a match after its
    first byte. *)
Lemma deriv_matches c r : forall s, matches (deriv c r) s <-> matches r (c :: s).
Proof.
  induction r as [| |p|r1 IH1 r2 IH2|r1 IH1 r2 IH2|r IH]; intros s; simpl.
  - split; intros H; exfalso; exact (matches_Empty _ H).
  - split; intros H; [exfalso; exact (matches_Empty _ H)|].
    apply matches_Eps in H. discriminate.
  - rewrite matches_Cls. destruct (p c) eqn:Hp.
    + rewrite matches_Eps. split; [intros ->; eauto|].
      intros (d & [= -> ->] & _). reflexivity.
    + split; [intros H; exfalso; exact (matches_Empty _ H)|].
      intros (d & [= -> ->] & H). congruence.
  - assert (Hcat : matches (cat (deriv c r1) r2) s <->
                   exists s1 s2, s = s1 ++ s2 /\ matches r1 (c :: s1)
                                 /\ matches r2 s2).
    { rewrite matches_cat, matches_Cat. split;
        intros (s1 & s2 & -> & H1 & H2); exists s1, s2;
        (split; [reflexivity|]); split; auto; now apply IH1. }
    rewrite matches_Cat.
    destruct (nullable r1) eqn:Hn.
    + rewrite matches_alt, matches_Alt, Hcat, IH2. split.
      * intros [(s1 & s2 & -> & H1 & H2) | H].
        -- exists (c :: s1), s2. auto.
        -- exists [], (c :: s). repeat split; auto.
           now apply nullable_matches.
      * intros (s1 & s2 & E & H1 & H2). destruct s1 as [|d s1].
        -- simpl in E. subst s2. auto.
        -- simpl in E. injection E as -> ->. left. eauto.
    + rewrite Hcat. split.
      * intros (s1 & s2 & -> & H1 & H2). exists (c :: s1), s2. auto.
      * intros (s1 & s2 & E & H1 & H2). destruct s1 as [|d s1].
        -- apply nullable_matches in H1. congruence.
        -- simpl in E. injection E as -> ->. eauto.
  - rewrite matches_alt, !matches_Alt, IH1, IH2. reflexivity.
  - rewrite matches_cat, matches_Cat. split.
    + intros (s1 & s2 & -> & H1 & H2). apply IH in H1.
      change (c :: s1 ++ s2) with ((c :: s1) ++ s2). now constructor.
    + intros H. apply matches_Star_cons in H as (s1 & s2 & -> & H1 & H2).
      exists s1, s2. repeat split; auto. now apply IH.
Qed.

Lemma exhausted_matches r s : exhausted r = true -> matches r s -> s = [].
Proof.
  destruct r; try discriminate; intros _ H.
  - exfalso. exact (matches_Empty _ H).
  - now apply matches_Eps.
Qed.

Lemma scan_re_ge r s : forall n best, best <= n -> best <= scan_re r s n best.
Proof.
  revert r. induction s as [|c s IH]; intros r n best Hle; simpl; auto.
  destruct (nullable (deriv c r)), (exhausted (deriv c r)); auto;
    (etransitivity; [|apply IH]); lia.
Qed.

(** What [scan_re] adds to [best] is the length of a matching prefix. *)
Lemma scan_re_sound r s : forall n best,
  scan_re r s n best = best \/
  exists m, 0 < m <= length s /\ scan_re r s n best = n + m
            /\ matches r (firstn m s).
Proof.
  revert r. induction s as [|c s IH]; intros r n best; simpl; auto.
  set (r' := deriv c r).
  assert (Hhere : nullable r' = true ->
                  exists m, 0 < m <= S (length s) /\ S n = n + m
                            /\ matches r (firstn m (c :: s))).
  { intros Hn. exists 1. repeat split; try lia. simpl.
    apply deriv_matches, nullable_matches, Hn. }
  assert (Hrec : forall best',
             scan_re r' s (S n) best' = best' \/
             exists m, 0 < m <= S (length s)
                       /\ scan_re r' s (S n) best' = n + m
                       /\ matches r (firstn m (c :: s))).
  { intros best'. destruct (IH r' (S n) best') as [E | (m & Hm & E & Hmatch)];
      [auto | right].
    exists (S m). repeat split; try lia. simpl. now apply deriv_matches. }
  destruct (nullable r') eqn:Hn, (exhausted r') eqn:He; auto.
  - destruct (Hrec (S n)) as [E | H]; [|auto]. rewrite E. auto.
Qed.

Lemma longest_sound r s :
  0 < longest r s ->
  longest r s <= length s /\ matches r (firstn (longest r s) s).
Proof.
  unfold longest. intros Hpos.
  destruct (scan_re_sound r s 0 0) as [E | (m & Hm & E & Hmatch)]; [lia|].
  rewrite E. simpl. split; [lia | exact Hmatch].
Qed.

(** No matching prefix is longer than what [scan_re] finds. *)
Lemma scan_re_complete r s : forall n best m,
  0 < m <= length s -> matches r (firstn m s) -> best <= n ->
  n + m <= scan_re r s n best.
Proof.
  revert r. induction s as [|c s IH]; intros r n best m Hm Hmatch Hle;
    simpl in *; [lia|].
  destruct m as [|m]; [lia|]. simpl in Hmatch.
  apply deriv_matches in Hmatch.
  destruct m as [|m].
  - simpl in Hmatch. apply nullable_matches in Hmatch. rewrite Hmatch.
    destruct (exhausted (deriv c r)); [lia|].
    etransitivity; [|apply scan_re_ge]; lia.
  - destruct (exhausted (deriv c r)) eqn:He.
    + apply (exhausted_matches _ _ He) in Hmatch.
      destruct s; simpl in *; [lia | discriminate].
    + replace (n + S (S m)) with (S n + S m) by lia.
      apply IH; auto; try lia.
      destruct (nullable (deriv c r)); lia.
Qed.

Lemma longest_complete r s m :
  0 < m <= length s -> matches r (firstn m s) -> m <= longest r s.
Proof. intros Hm H. apply (scan_re_complete r s 0 0 m); auto. Qed.

(** The longest match is the longest matching prefix. *)
Lemma longest_is r s m :
  0 < m <= length s -> matches r (firstn m s) ->
  (forall k, m < k <= length s -> ~ matches r (firstn k s)) ->
  longest r s = m.
Proof.
  intros Hm Hmatch Hmax. pose proof (longest_complete r s m Hm Hmatch) as Hge.
  destruct (longest_sound r s) as [Hle Hl]; [lia|].
  destruct (Nat.eq_dec (longest r s) m) as [|Hne]; [assumption|].
  exfalso. apply (Hmax (longest r s)); [lia | exact Hl].
Qed.

Lemma longest_none r s :
  (forall k, 0 < k <= length s -> ~ matches r (firstn k s)) ->
  longest r s = 0.
Proof.
  intros Hno. destruct (Nat.eq_dec (longest r s) 0) as [|Hne]; [assumption|].
  destruct (longest_sound r s) as [Hle Hl]; [lia|].
  exfalso. apply (Hno (longest r s)); [lia | exact Hl].
Qed.

(** *** The patterns of the scanner file *)

Lemma matches_chr c s : matches (chr c) s <-> s = [c].
Proof.
  unfold chr. rewrite matches_Cls. split.
  - intros (d & -> & H). apply Ascii.eqb_eq in H. now subst.
  - intros ->. exists c. split; [reflexivity | apply Ascii.eqb_refl].
Qed.

Lemma matches_opt r s : matches (opt r) s <-> matches r s \/ s = [].
Proof. unfold opt. now rewrite matches_Alt, matches_Eps. Qed.

Lemma matches_chr_cat c r s :
  matches (Cat (chr c) r) s <-> exists t, s = c :: t /\ matches r t.
Proof.
  rewrite matches_Cat. split.
  - intros (s1 & s2 & -> & H1 & H2). apply matches_chr in H1 as ->. eauto.
  - intros (t & -> & H). exists [c], t. repeat split; auto.
    now apply matches_chr.
Qed.

Lemma matches_lit_cat w r s :
  matches (Cat (lit w) r) s <-> exists t, s = w ++ t /\ matches r t.
Proof.
  revert s. induction w as [|c w IH]; intros s; cbn [lit].
  - rewrite matches_Cat. split.
    + intros (s1 & s2 & -> & H1 & H2). apply matches_Eps in H1 as ->. eauto.
    + intros (t & -> & H). exists [], t. repeat split; auto. constructor.
  - rewrite matches_Cat. split.
    + intros (s1 & s2 & -> & H1 & H2).
      apply matches_chr_cat in H1 as (t & -> & H1).
      assert (H : matches (Cat (lit w) r) (t ++ s2)) by now constructor.
      apply IH in H as (t' & E & H). exists t'. simpl. now rewrite E.
    + intros (t & -> & H). exists (c :: w), t. repeat split; auto.
      apply matches_chr_cat. exists w. split; [reflexivity|].
      clear. induction w as [|d w IHw]; cbn [lit]; [constructor|].
      apply matches_chr_cat. eauto.
Qed.

Lemma matches_star_cls p s :
  matches (Star (Cls p)) s <-> Forall (fun c => p c = true) s.
Proof.
  split.
  - induction s as [|c s IH]; intros H; [constructor|].
    apply matches_Star_cons in H as (s1 & s2 & -> & H1 & H2).
    apply matches_Cls in H1 as (d & [= -> ->] & Hp). simpl in *. auto.
  - induction 1 as [|c s Hp _ IH]; [constructor|].
    change (c :: s) with ([c] ++ s). constructor; auto. now constructor.
Qed.

Lemma matches_lit w s : matches (lit w) s <-> s = w.
Proof.
  revert s. induction w as [|c w IH]; intros s; cbn [lit].
  - apply matches_Eps.
  - rewrite matches_chr_cat. split.
    + intros (t & -> & H). apply IH in H. now subst.
    + intros ->. exists w. split; [reflexivity | now apply IH].
Qed.

End FlexFacts.
Import FlexFacts.

(** ** The line reader *)

Module InputFacts.

Lemma memchr_some (s : list ascii) c i :
  memchr s c = Some i ->
  i < length s /\ ~ List.In c (firstn i s).
Proof.
  revert i. induction s as [|x s IH]; simpl; [discriminate|]. intros i.
  destruct (Ascii.eqb_spec x c) as [->|Hne].
  - intros [= <-]. simpl. split; [lia | tauto].
  - destruct (memchr s c) as [j|]; [|discriminate]. intros [= <-].
    destruct (IH j eq_refl) as [Hlt Hnot]. simpl. split; [lia|].
    intros [E|Hin]; [now apply Hne | now apply Hnot].
Qed.

Lemma memchr_none (s : list ascii) c : memchr s c = None -> ~ List.In c s.
Proof.
  induction s as [|x s IH]; simpl; [tauto|].
  destruct (Ascii.eqb_spec x c) as [->|Hne]; [discriminate|].
  destruct (memchr s c) eqn:Hm; [discriminate|].
  intros _ [E|Hin]; [now apply Hne | now apply IH].
Qed.

Lemma split_line_nonempty c s : fst (split_line (c :: s)) <> [].
Proof.
  simpl. destruct (Ascii.eqb c LF); [discriminate|].
  destruct (split_line s). discriminate.
Qed.

Lemma last_snoc (s : list ascii) c d : List.last (s ++ [c]) d = c.
Proof. apply List.last_last. Qed.

(** What [normal_line] yields ends in a newline and holds no NUL. *)
Lemma normal_line_ok line :
  line <> [] ->
  List.last (normal_line line) NUL = LF /\ nul_free (normal_line line)
  /\ normal_line line <> [].
Proof.
  intros Hne. unfold normal_line, nul_free.
  destruct (memchr line NUL) as [i|] eqn:Hm.
  - destruct (memchr_some _ _ _ Hm) as [_ Hnot].
    rewrite last_snoc. repeat split.
    + intros Hin. apply in_app_or in Hin as [|[E|[]]]; [auto | discriminate E].
    + destruct (firstn i line); discriminate.
  - apply memchr_none in Hm.
    destruct (Ascii.eqb_spec (List.last line NUL) LF) as [E|E].
    + repeat split; auto.
    + rewrite last_snoc. repeat split.
      * intros Hin. apply in_app_or in Hin as [|[E'|[]]];
          [auto | discriminate E'].
      * destruct line; discriminate.
Qed.

Lemma deliver_fresh max_size line sz fp :
  exists off',
    deliver max_size (length line) (mkLinebuf line sz (length line) 0 0 0) fp
    = Input (firstn max_size line)
        (mkLinebuf line sz (length line) off' 0 0) fp.
Proof.
  unfold deliver. cbn [buf size len off toke_start toke_end skipn].
  destruct (max_size <? length line) eqn:Hlt; eexists; [reflexivity|].
  apply Nat.ltb_ge in Hlt. rewrite firstn_all, firstn_all2 by lia.
  reflexivity.
Qed.

(** C8: when [sudoers_input] has to refill the line buffer and the stream
    holds another line, the call succeeds and leaves in the buffer the line
    cut at its first NUL, if it has one, with a newline put in its place,
    and else the line with a newline added if it lacked one: the buffer
    ends in a newline and holds no NUL. *)
Theorem sudoers_input_refill max_size lb fp :
  len lb - off lb = 0 ->
  f_error fp = false ->
  f_data fp <> [] ->
  exists bytes lb' fp',
    sudoers_input max_size lb fp = Input bytes lb' fp'
    /\ buf lb' = normal_line (fst (split_line (f_data fp)))
    /\ len lb' = length (buf lb')
    /\ List.last (buf lb') NUL = LF
    /\ nul_free (buf lb')
    /\ bytes = firstn max_size (buf lb')
    /\ f_data fp' = snd (split_line (f_data fp)).
Proof.
  intros Havail Herr Hdata. unfold sudoers_input, getdelim.
  rewrite Havail, Herr. cbn [Nat.eqb].
  destruct (f_data fp) as [|c s] eqn:Hd; [congruence|].
  pose proof (split_line_nonempty c s) as Hne.
  destruct (split_line (c :: s)) as [line rest] eqn:Hsplit.
  cbn [fst snd] in *. cbn [buf size].
  rewrite firstn_all.
  destruct (normal_line_ok line Hne) as (Hlast & Hnul & Hnn).
  unfold normal_line in *.
  destruct (memchr line NUL) as [i|] eqn:Hm.
  - destruct (memchr_some _ _ _ Hm) as [Hlt _].
    assert (Hi : length (firstn i line) = i)
      by (rewrite length_take; lia).
    replace (char_at (firstn i line ++ [LF]) (i + 1 - 1)) with LF.
    2:{ unfold char_at. replace (i + 1 - 1) with (length (firstn i line)) by lia.
        now rewrite nth_middle. }
    rewrite Ascii.eqb_refl. cbn [negb].
    replace (i + 1) with (length (firstn i line ++ [LF]))
      by (rewrite length_app, Hi; reflexivity).
    match goal with
    | |- context [deliver _ _ (mkLinebuf _ ?sz _ _ _ _) ?f] =>
        destruct (deliver_fresh max_size (firstn i line ++ [LF]) sz f)
          as (off' & ->)
    end.
    eexists _, _, _. split; [reflexivity|]. cbn. repeat split; auto.
  - rewrite (char_at_last line Hne).
    destruct (Ascii.eqb_spec (List.last line NUL) LF) as [E|E]; cbn [negb].
    + match goal with
      | |- context [deliver _ _ (mkLinebuf _ ?sz _ _ _ _) ?f] =>
          destruct (deliver_fresh max_size line sz f) as (off' & ->)
      end.
      eexists _, _, _. split; [reflexivity|]. cbn. repeat split; auto.
    + rewrite firstn_all.
      replace (length line + 1) with (length (line ++ [LF]))
        by (rewrite length_app; reflexivity).
      match goal with
      | |- context [deliver _ _ (mkLinebuf _ ?sz _ _ _ _) ?f] =>
          destruct (deliver_fresh max_size (line ++ [LF]) sz f) as (off' & ->)
      end.
      eexists _, _, _. split; [reflexivity|]. cbn. repeat split; auto.
Qed.

Lemma sudoers_input_refill_witness :
  exists bytes lb' fp',
    sudoers_input YY_READ_BUF_SIZE linebuf_zero
      (mkFILE (str "/etc/sudoers") (str "ab" ++ NUL :: str "cd" ++ LF :: str "xy")
         false false)
    = Input bytes lb' fp'
    /\ buf lb' = str "ab" ++ [LF]
    /\ bytes = str "ab" ++ [LF]
    /\ f_data fp' = str "xy".
Proof.
  destruct (sudoers_input_refill YY_READ_BUF_SIZE linebuf_zero
              (mkFILE (str "/etc/sudoers")
                 (str "ab" ++ NUL :: str "cd" ++ LF :: str "xy") false false))
    as (bytes & lb' & fp' & E & Hbuf & _ & _ & _ & Hbytes & Hdata).
  - reflexivity.
  - reflexivity.
  - discriminate.
  - exists bytes, lb', fp'. split; [exact E|]. split; [exact Hbuf|].
    split; [|exact Hdata]. rewrite Hbytes, Hbuf. reflexivity.
Defined.

End InputFacts.

(** ** The include stack *)

Module IncludeFacts.

Lemma unquoted_empty opath :
  unquoted opath = [] -> opath = [] \/ opath = [DQUOTE; DQUOTE].
Proof.
  destruct opath as [|q [|c rest]]; simpl; auto; try discriminate.
  destruct (Ascii.eqb q DQUOTE) eqn:Hq; simpl; try discriminate.
  destruct rest as [|d rest].
  - simpl. destruct (Ascii.eqb c DQUOTE) eqn:Hc; try discriminate.
    apply Ascii.eqb_eq in Hq, Hc. subst. auto.
  - destruct (Ascii.eqb (List.last _ _) DQUOTE); discriminate.
Qed.

(** [expand_include] changes nothing when it yields a path. *)
Lemma expand_include_some e opath l path l1 :
  expand_include e opath l = (Some path, l1) -> l1 = l.
Proof.
  unfold expand_include.
  repeat match goal with
         | |- context [if ?b then _ else _] => destruct b
         | |- context [let '(_, _) := ?x in _] => destruct x
         | |- context [match ?x with Some _ => _ | None => _ end] => destruct x
         end; congruence.
Qed.

(** C10: an include directive whose path argument is empty, or is empty once
    the double quotes around it are stripped, makes [expand_include] return
    NULL and [push_include] return false; nothing is pushed or opened and
    the lexer state is left as it was. *)
Theorem push_include_empty_path e opath isdir l :
  unquoted opath = [] ->
  expand_include e opath l = (None, l) /\
  push_include e opath isdir l = (false, l).
Proof.
  intros H. destruct (unquoted_empty _ H) as [-> | ->]; split; reflexivity.
Qed.

Lemma push_include_empty_path_witness :
  unquoted [DQUOTE; DQUOTE] = [] /\
  push_include sample_env [DQUOTE; DQUOTE] false (scanning INITIAL true [])
  = (false, scanning INITIAL true []).
Proof.
  split; [reflexivity|].
  apply (push_include_empty_path sample_env [DQUOTE; DQUOTE] false
           (scanning INITIAL true [])).
  reflexivity.
Defined.

(** *** The depth bound *)

Lemma stack_ok_init l : stack_ok (init_lexer l).
Proof. split; simpl; lia. Qed.

(** The stack-growing step of [push_include] refuses a push exactly when the
    array is full and the depth is above [MAX_SUDOERS_DEPTH]. *)
Lemma push_include_too_deep e opath isdir l path :
  expand_include e opath l = (Some path, l) ->
  istacksize l <= idepth l -> MAX_SUDOERS_DEPTH < idepth l ->
  exists l', push_include e opath isdir l = (false, l')
    /\ idepth l' = idepth l /\ nerrors l' = S (nerrors l)
    /\ (sudoers_warnings e = true ->
        warned l' = warned l ++ [WTooManyLevels path]).
Proof.
  intros He Hfull Hdeep. unfold push_include. rewrite He.
  apply Nat.leb_le in Hfull. apply Nat.ltb_lt in Hdeep.
  rewrite Hfull, Hdeep. eexists. split; [reflexivity|].
  destruct (sudoers_warnings e); simpl; repeat split; auto; discriminate.
Qed.

(** An [@include] of a file that opens is pushed whenever the depth is at
    most [MAX_SUDOERS_DEPTH]. *)
Lemma push_include_file e opath l path fp ko :
  stack_ok l ->
  expand_include e opath l = (Some path, l) ->
  idepth l <= MAX_SUDOERS_DEPTH ->
  open_sudoers e path true (keepopen l) = (Some fp, ko) ->
  exists l', push_include e opath false l = (true, l')
    /\ idepth l' = idepth l + 1 /\ sudoers l' = path /\ stack_ok l'
    /\ nerrors l' = nerrors l /\ warned l' = warned l.
Proof.
  intros [Hlen Hle] He Hroom Hopen. unfold push_include. rewrite He.
  destruct (istacksize l <=? idepth l) eqn:Hfull.
  - apply Nat.leb_le in Hfull.
    assert (Hd : (MAX_SUDOERS_DEPTH <? idepth l) = false)
      by (apply Nat.ltb_ge; lia).
    rewrite Hd. cbn [keepopen set_more set_frame set_istack set_istacksize
                       idepth istack frame_at]. simpl.
    rewrite Hopen. eexists. split; [reflexivity|].
    unfold stack_ok. simpl. rewrite !length_insert, length_app. simpl.
    unfold SUDOERS_STACK_INCREMENT. repeat split; auto; lia.
  - apply Nat.leb_gt in Hfull. simpl. rewrite Hopen.
    eexists. split; [reflexivity|].
    unfold stack_ok. simpl. rewrite !length_insert.
    repeat split; auto; lia.
Qed.


(** The 129th of 129 nested includes of files that open, pushed at depth
    128, succeeds as the 128 before it: 128 does not exceed
    [MAX_SUDOERS_DEPTH]. *)
Lemma nested_include_129_succeeds :
  let '(oks, l) :=
    nest 129 sample_env (str "/etc/sudoers.d/local")
      (init_lexer (scanning INITIAL true [])) in
  oks = replicate 129 true
  /\ idepth l = 129
  /\ nerrors l = 0
  /\ warned l = [].
Proof. vm_compute. repeat split. Qed.

(** C1 (the code departs from the specification): [push_include] compares
    the depth with [MAX_SUDOERS_DEPTH] only inside the test for a full stack
    array, and the array grows 16 slots at a time. Of 145 nested includes
    of files that open, the first 144 are pushed, those made at depths 128
    to 143 among them, and the 145th, made at depth 144, is the first to
    fail with "too many levels of includes": the bound on the depth of
    nested includes is 144, not 128. *)
Theorem nested_includes_fail_at_depth_144 :
  let '(oks, l) :=
    nest 145 sample_env (str "/etc/sudoers.d/local")
      (init_lexer (scanning INITIAL true [])) in
  firstn 144 oks = replicate 144 true
  /\ nth 144 oks true = false
  /\ idepth l = 144
  /\ nerrors l = 1
  /\ warned l = [WTooManyLevels (str "/etc/sudoers.d/local")].
Proof. vm_compute. repeat split. Qed.

(** The two ends of the depth check as the code has it: a push made when
    the stack array is full and the depth exceeds [MAX_SUDOERS_DEPTH] is a
    parse error, reported as "too many levels of includes" when warnings
    are on, and nothing is pushed; a push made at depth 128 or less of a
    file that opens succeeds and adds one to the depth. *)
Lemma include_depth_bound e opath path l :
  stack_ok l ->
  expand_include e opath l = (Some path, l) ->
  (forall isdir,
      istacksize l <= idepth l -> MAX_SUDOERS_DEPTH < idepth l ->
      exists l',
        push_include e opath isdir l = (false, l')
        /\ idepth l' = idepth l
        /\ nerrors l' = S (nerrors l)
        /\ (sudoers_warnings e = true ->
            warned l' = warned l ++ [WTooManyLevels path]))
  /\ (forall fp ko,
      idepth l <= MAX_SUDOERS_DEPTH ->
      open_sudoers e path true (keepopen l) = (Some fp, ko) ->
      exists l',
        push_include e opath false l = (true, l')
        /\ idepth l' = idepth l + 1
        /\ sudoers l' = path
        /\ stack_ok l'
        /\ nerrors l' = nerrors l
        /\ warned l' = warned l).
Proof.
  intros Hok He. split.
  - intros isdir Hfull Hdeep. now apply push_include_too_deep.
  - intros fp ko Hroom Hopen. now apply (push_include_file e opath l path fp ko).
Qed.

Lemma include_depth_bound_witness :
  (exists l',
      push_include sample_env (str "/etc/sudoers.d/local") false at_depth_144
      = (false, l')
      /\ nerrors l' = S (nerrors at_depth_144))
  /\ (exists l',
      push_include sample_env (str "/etc/sudoers.d/local") false
        (snd (nest 128 sample_env (str "/etc/sudoers.d/local")
                (init_lexer (scanning INITIAL true []))))
      = (true, l')
      /\ idepth l' = 129).
Proof.
  split.
  - destruct (include_depth_bound sample_env (str "/etc/sudoers.d/local")
                (str "/etc/sudoers.d/local") at_depth_144) as (H & _).
    + split; vm_compute; [reflexivity | lia].
    + vm_compute. reflexivity.
    + destruct (H false) as (l' & E & _ & Hn & _).
      * vm_compute. lia.
      * vm_compute. lia.
      * exists l'. split; assumption.
  - destruct (include_depth_bound sample_env (str "/etc/sudoers.d/local")
                (str "/etc/sudoers.d/local")
                (snd (nest 128 sample_env (str "/etc/sudoers.d/local")
                        (init_lexer (scanning INITIAL true [])))))
      as (_ & H).
    + split; vm_compute; [reflexivity | lia].
    + vm_compute. reflexivity.
    + destruct (H (mkFILE (str "/etc/sudoers.d/local") [] false false) false)
        as (l' & E & Hd & _).
      * vm_compute. lia.
      * vm_compute. reflexivity.
      * exists l'. split; [exact E|]. rewrite Hd. vm_compute. reflexivity.
Defined.

(** *** Include directories that are skipped *)

(** C2 (counterexample): at include depth 144 the stack array is full, and
    an [@includedir] of the group-writable /etc/sudoers.d runs into the depth
    check before the directory is looked at: [push_include] returns false
    and reports a parse error. *)
Lemma includedir_insecure_too_deep :
  fst (fst (sudo_secure_dir sample_env (str "/etc/sudoers.d") 0 0))
  = SUDO_PATH_GROUP_WRITABLE
  /\ idepth at_depth_144 = 144
  /\ fst (push_include sample_env (str "/etc/sudoers.d") true at_depth_144)
     = false
  /\ nerrors (snd (push_include sample_env (str "/etc/sudoers.d") true
                     at_depth_144))
     = S (nerrors at_depth_144).
Proof. vm_compute. repeat split. Qed.

(** C2 (amended): an [@includedir] met at include depth 128 or less, whose
    path expands and whose directory is missing or fails the security check,
    makes [push_include] return true without pushing a frame: depth, current
    source, unread input, line buffer, line number and the frames below
    are unchanged and no error is reported, so scanning goes on in the
    parent file; without verbose warnings nothing is printed. *)
Theorem includedir_insecure_skipped e opath path l status st_uid st_gid :
  stack_ok l ->
  expand_include e opath l = (Some path, l) ->
  idepth l <= MAX_SUDOERS_DEPTH ->
  sudo_secure_dir e path (sudoers_uid e) (sudoers_gid e)
  = (status, st_uid, st_gid) ->
  status <> SUDO_PATH_SECURE ->
  exists l',
    push_include e opath true l = (true, l')
    /\ idepth l' = idepth l
    /\ take (idepth l) (istack l') = take (idepth l) (istack l)
    /\ sudoers l' = sudoers l
    /\ yy_current_buffer l' = yy_current_buffer l
    /\ yy_start l' = yy_start l
    /\ sudolinebuf l' = sudolinebuf l
    /\ sudolineno l' = sudolineno l
    /\ keepopen l' = keepopen l
    /\ nerrors l' = nerrors l
    /\ closed l' = closed l
    /\ (sudoers_warnings e = false -> warned l' = warned l).
Proof.
  intros [Hlen Hle] He Hroom Hsec Hbad. unfold push_include. rewrite He.
  assert (Hgrow : exists l2,
    (if istacksize l <=? idepth l
     then if MAX_SUDOERS_DEPTH <? idepth l
          then TooDeep (sudoerserror
                 (if sudoers_warnings e
                  then sudo_warn (WTooManyLevels path) l else l))
          else Grown (set_istack
                 (istack l ++ replicate SUDOERS_STACK_INCREMENT frame_uninit)
                 (set_istacksize (istacksize l + SUDOERS_STACK_INCREMENT) l))
     else Grown l) = Grown l2
    /\ take (idepth l) (istack l2) = take (idepth l) (istack l)
    /\ idepth l2 = idepth l /\ sudoers l2 = sudoers l
    /\ yy_current_buffer l2 = yy_current_buffer l
    /\ yy_start l2 = yy_start l /\ sudolinebuf l2 = sudolinebuf l
    /\ sudolineno l2 = sudolineno l /\ keepopen l2 = keepopen l
    /\ nerrors l2 = nerrors l /\ closed l2 = closed l
    /\ warned l2 = warned l).
  { destruct (istacksize l <=? idepth l) eqn:Hfull.
    - apply Nat.leb_le in Hfull.
      assert (Hd : (MAX_SUDOERS_DEPTH <? idepth l) = false)
        by (apply Nat.ltb_ge; lia).
      rewrite Hd. eexists. split; [reflexivity|]. simpl.
      rewrite take_app_le by lia. repeat split; auto.
    - eexists. split; [reflexivity|]. repeat split; auto. }
  destruct Hgrow as (l2 & -> & Htake & Hd & Hs & Hb & Hst & Hlb & Hln & Hko
                     & Hne & Hcl & Hw).
  rewrite Hsec.
  destruct status; try congruence;
    (eexists; split; [reflexivity|]);
    destruct (sudoers_warnings e); simpl;
    rewrite take_insert_ge by lia;
    repeat split; auto; discriminate.
Qed.

Lemma includedir_insecure_skipped_witness :
  exists l',
    push_include sample_env (str "/etc/sudoers.d") true
      (init_lexer (scanning INITIAL true [])) = (true, l')
    /\ idepth l' = 0
    /\ sudoers l' = str "/etc/sudoers".
Proof.
  destruct (includedir_insecure_skipped sample_env (str "/etc/sudoers.d")
              (str "/etc/sudoers.d") (init_lexer (scanning INITIAL true []))
              SUDO_PATH_GROUP_WRITABLE 0%Z 1%Z)
    as (l' & H & Hd & _ & Hs & _).
  - apply stack_ok_init.
  - reflexivity.
  - vm_compute. lia.
  - reflexivity.
  - discriminate.
  - exists l'. repeat split; assumption.
Defined.


(** *** The order of the files of an include directory *)

Lemma has_char_false c (s : cstring) : ~ List.In c s -> has_char c s = false.
Proof.
  unfold has_char. induction s as [|x s IH]; simpl; auto. intros H.
  destruct (Ascii.eqb_spec c x) as [->|]; [exfalso; auto|]. auto.
Qed.

Lemma fold_left_push {A} (l acc : list A) :
  fold_left (fun more p => p :: more) l acc = reverse l ++ acc.
Proof.
  revert acc. induction l as [|x l IH]; intros acc; simpl; auto.
  rewrite IH, reverse_cons, <- app_assoc. reflexivity.
Qed.

Lemma nul_free_dir_path dirpath n :
  nul_free dirpath -> nul_free n -> nul_free (dir_path dirpath n).
Proof.
  unfold nul_free, dir_path. intros Hd Hn Hin.
  apply in_app_or in Hin as [|Hin]; [auto|].
  simpl in Hin. destruct Hin as [Hin|]; [discriminate | auto].
Qed.

Lemma str_le_dir_path dirpath a b :
  nul_free dirpath ->
  str_le (dir_path dirpath a) (dir_path dirpath b) <-> str_le a b.
Proof.
  intros Hd. unfold str_le, dir_path.
  rewrite strcmp_app by assumption. simpl. reflexivity.
Qed.

#[export] Instance str_le_trans : Transitive str_le.
Proof. intros a b c. apply strcmp_le_trans. Qed.

#[export] Instance str_le_total : Total str_le.
Proof. intros a b. unfold str_le. rewrite (strcmp_flip b a). lia. Qed.

Lemma str_le_antisym a b :
  nul_free a -> nul_free b -> str_le a b -> str_le b a -> a = b.
Proof.
  unfold str_le. intros Ha Hb H1 H2. apply strcmp_zero; auto.
  pose proof (strcmp_flip a b). lia.
Qed.

(** Sorted in reverse by [qsort] and pushed head first, the paths stand in
    ascending order of the names. *)
Lemma pending_ascending dirpath names :
  nul_free dirpath -> Forall nul_free names ->
  reverse (qsort pl_compare (map (dir_path dirpath) names))
  = map (dir_path dirpath) (lexical_order names).
Proof.
  intros Hd Hn.
  assert (Hperm : forall l, l ≡ₚ map (dir_path dirpath) names ->
                  forall x, x ∈ l -> nul_free x).
  { intros l Hl x Hx. rewrite Hl in Hx. apply list_elem_of_fmap in Hx.
    destruct Hx as (n & -> & Hin). apply nul_free_dir_path; auto.
    rewrite Forall_forall in Hn. auto. }
  assert (H1 : reverse (qsort pl_compare (map (dir_path dirpath) names))
               ≡ₚ map (dir_path dirpath) names).
  { rewrite reverse_Permutation. apply merge_sort_Permutation. }
  assert (H2 : map (dir_path dirpath) (lexical_order names)
               ≡ₚ map (dir_path dirpath) names).
  { apply Permutation_map, merge_sort_Permutation. }
  apply (StronglySorted_unique_strong str_le).
  - intros x1 x2 Hx1 Hx2. apply str_le_antisym; eauto.
  - apply Sorted_StronglySorted; [exact _|].
    apply (Sorted_reverse (in_order pl_compare)), Sorted_merge_sort. exact _.
  - apply StronglySorted_fmap with (R1 := str_le).
    + intros a b. now apply str_le_dir_path.
    + apply StronglySorted_merge_sort; exact _.
  - now rewrite H1, H2.
Qed.

Lemma lexical_order_perm names names' :
  Forall nul_free names -> names ≡ₚ names' ->
  lexical_order names' = lexical_order names.
Proof.
  intros Hn Hp. unfold lexical_order.
  apply (StronglySorted_unique_strong str_le).
  - intros x1 x2 Hx1 Hx2. rewrite Forall_forall in Hn.
    apply str_le_antisym; apply Hn.
    + rewrite merge_sort_Permutation in Hx1. now rewrite Hp.
    + now rewrite merge_sort_Permutation in Hx2.
  - apply StronglySorted_merge_sort; exact _.
  - apply StronglySorted_merge_sort; exact _.
  - now rewrite !merge_sort_Permutation.
Qed.

Lemma lexical_order_strict names :
  Forall nul_free names -> NoDup names ->
  StronglySorted str_lt (lexical_order names).
Proof.
  intros Hn Hnd.
  assert (Hs : StronglySorted str_le (lexical_order names))
    by (apply StronglySorted_merge_sort; exact _).
  assert (Hnd' : NoDup (lexical_order names))
    by (unfold lexical_order; now rewrite merge_sort_Permutation).
  assert (Hn' : Forall nul_free (lexical_order names))
    by (unfold lexical_order; now rewrite merge_sort_Permutation).
  induction Hs as [|x l Hs IH Hx]; constructor.
  - apply IH.
    + now apply NoDup_cons in Hnd'.
    + now apply Forall_cons in Hn'.
  - apply NoDup_cons in Hnd' as [Hnotin _].
    apply Forall_cons in Hn' as [Hnx Hnl].
    rewrite Forall_forall in *. intros y Hy.
    specialize (Hx y Hy). unfold str_le, str_lt in *.
    destruct (Z.eq_dec (strcmp x y) 0%Z) as [E|]; [|lia].
    exfalso. apply Hnotin. apply strcmp_zero in E; auto. now subst.
Qed.


Lemma frame_at_set_more i more l :
  i < length (istack l) -> is_more (frame_at (set_more i more l) i) = more.
Proof.
  intros Hi. unfold frame_at, set_more, set_frame. simpl.
  rewrite list_lookup_insert_eq by assumption. reflexivity.
Qed.

Lemma open_next_opens e p rest ko :
  opens e p ->
  exists fp ko', open_next e (p :: rest) ko = (Some (p, fp), rest, ko').
Proof.
  intros H. destruct (H ko) as (fp & ko' & E). simpl. rewrite E. eauto.
Qed.

Lemma eof_walk_S k e depth l :
  eof_walk (S k) e depth l =
  let '(ok, l1) := pop_include e l in
  if ok && (idepth l1 =? depth) then sudoers l1 :: eof_walk k e depth l1
  else [].
Proof. reflexivity. Qed.

(** [pop_include] while files of the directory are pending: the head of the
    list becomes the current source and the depth stays. *)
Lemma pop_include_next e d l p rest :
  idepth l = S d -> d < length (istack l) -> yy_current_buffer l <> None ->
  is_more (frame_at l d) = p :: rest -> opens e p ->
  exists l', pop_include e l = (true, l')
    /\ idepth l' = S d /\ sudoers l' = p
    /\ d < length (istack l') /\ yy_current_buffer l' <> None
    /\ is_more (frame_at l' d) = rest.
Proof.
  intros Hd Hlen Hbuf Hmore Hp. unfold pop_include. rewrite Hd.
  destruct (yy_current_buffer l) as [b|] eqn:Hb; [|congruence].
  remember (set_buffer None
              (if keepopen l then l else fclose (yy_input_file b) l))
    as l2 eqn:Hl2.
  assert (Hi : istack l2 = istack l) by (rewrite Hl2; now destruct (keepopen l)).
  assert (Hd2 : idepth l2 = S d) by (rewrite Hl2; now destruct (keepopen l)).
  assert (E : is_more (frame_at l2 d) = p :: rest)
    by (unfold frame_at; rewrite Hi; exact Hmore).
  rewrite E.
  destruct (open_next_opens e p rest (keepopen l2) Hp) as (fp & ko' & ->).
  eexists. split; [reflexivity|]. simpl. rewrite length_insert, Hi.
  repeat split; auto; try discriminate.
  unfold frame_at. simpl. rewrite list_lookup_insert_eq by (now rewrite Hi).
  reflexivity.
Qed.

(** [pop_include] when no file is pending: the frame is popped. *)
Lemma pop_include_last e d l :
  idepth l = S d -> yy_current_buffer l <> None ->
  is_more (frame_at l d) = [] ->
  exists l', pop_include e l = (true, l') /\ idepth l' = d.
Proof.
  intros Hd Hbuf Hmore. unfold pop_include. rewrite Hd.
  destruct (yy_current_buffer l) as [b|] eqn:Hb; [|congruence].
  remember (set_buffer None
              (if keepopen l then l else fclose (yy_input_file b) l))
    as l2 eqn:Hl2.
  assert (Hi : istack l2 = istack l) by (rewrite Hl2; now destruct (keepopen l)).
  assert (E : is_more (frame_at l2 d) = [])
    by (unfold frame_at; rewrite Hi; exact Hmore).
  rewrite E. cbn [open_next]. eexists. split; reflexivity.
Qed.

(** While a directory is read, every end of file moves on to the head of
    the pending list. *)
Lemma eof_walk_pending e d ps : forall l,
  idepth l = S d -> d < length (istack l) -> yy_current_buffer l <> None ->
  is_more (frame_at l d) = ps -> Forall (opens e) ps ->
  eof_walk (S (length ps)) e (S d) l = ps.
Proof.
  induction ps as [|p rest IH]; intros l Hd Hlen Hbuf Hmore Hopen;
    rewrite eof_walk_S.
  - destruct (pop_include_last e d l Hd Hbuf Hmore) as (l' & -> & Hd').
    rewrite Hd'.
    replace (d =? S d) with false by (symmetry; apply Nat.eqb_neq; lia).
    reflexivity.
  - apply Forall_cons in Hopen as [Hp Hrest].
    destruct (pop_include_next e d l p rest Hd Hlen Hbuf Hmore Hp)
      as (l' & -> & Hd' & Hs & Hlen' & Hbuf' & Hmore').
    rewrite Hd', Nat.eqb_refl, Hs. cbn [andb length]. f_equal.
    now apply IH.
Qed.


(** The stack-growing step of [push_include], when it lets the push pass. *)
Lemma grow_ok e path l :
  stack_ok l ->
  idepth l <= MAX_SUDOERS_DEPTH ->
  exists l2,
    (if istacksize l <=? idepth l
     then if MAX_SUDOERS_DEPTH <? idepth l
          then TooDeep (sudoerserror
                 (if sudoers_warnings e
                  then sudo_warn (WTooManyLevels path) l else l))
          else Grown (set_istack
                 (istack l ++ replicate SUDOERS_STACK_INCREMENT frame_uninit)
                 (set_istacksize (istacksize l + SUDOERS_STACK_INCREMENT) l))
     else Grown l) = Grown l2
    /\ idepth l2 = idepth l /\ idepth l < length (istack l2)
    /\ keepopen l2 = keepopen l.
Proof.
  intros [Hlen Hle] Hroom.
  destruct (istacksize l <=? idepth l) eqn:Hfull.
  - apply Nat.leb_le in Hfull.
    assert (Hd : (MAX_SUDOERS_DEPTH <? idepth l) = false)
      by (apply Nat.ltb_ge; lia).
    rewrite Hd. eexists. split; [reflexivity|]. simpl.
    rewrite length_app. simpl. repeat split; auto; lia.
  - apply Nat.leb_gt in Hfull. eexists. split; [reflexivity|].
    repeat split; auto; lia.
Qed.

(** [push_include] on a secure directory whose files open: the pending list
    is the reversed [qsort] result, its head becomes the current source. *)
Lemma push_include_dir e opath dirpath l st_uid st_gid names :
  stack_ok l ->
  expand_include e opath l = (Some dirpath, l) ->
  idepth l <= MAX_SUDOERS_DEPTH ->
  sudo_secure_dir e dirpath (sudoers_uid e) (sudoers_gid e)
  = (SUDO_PATH_SECURE, st_uid, st_gid) ->
  opendir e dirpath = DirEntries names ->
  Forall (opens e)
    (reverse (qsort pl_compare (read_dir_loop e dirpath names))) ->
  exists l',
    push_include e opath true l = (true, l')
    /\ match reverse (qsort pl_compare (read_dir_loop e dirpath names)) with
       | [] => idepth l' = idepth l
       | p :: rest =>
           idepth l' = idepth l + 1 /\ sudoers l' = p
           /\ idepth l < length (istack l')
           /\ yy_current_buffer l' <> None
           /\ is_more (frame_at l' (idepth l)) = rest
       end.
Proof.
  intros Hok He Hroom Hsec Hdir Hopen. unfold push_include. rewrite He.
  destruct (grow_ok e dirpath l Hok Hroom) as (l2 & -> & Hd2 & Hlen2 & Hko2).
  rewrite Hsec. unfold switch_dir, read_dir_files. rewrite Hdir.
  remember (read_dir_loop e dirpath names) as paths eqn:Hpaths.
  remember (set_more (idepth l2) [] l2) as l3 eqn:Hl3.
  assert (Hd3 : idepth l3 = idepth l) by (rewrite Hl3; exact Hd2).
  assert (Hlen3 : idepth l < length (istack l3)).
  { rewrite Hl3. simpl. rewrite length_insert. exact Hlen2. }
  assert (Hm3 : is_more (frame_at l3 (idepth l)) = []).
  { rewrite Hl3, Hd2. apply frame_at_set_more. exact Hlen2. }
  destruct paths as [|x paths].
  - cbn. eexists. split; [reflexivity|]. exact Hd3.
  - assert (Hc : (0 <? Z.of_nat (length (x :: paths)))%Z = true)
      by (apply Z.ltb_lt; simpl; lia).
    assert (Hc' : (Z.of_nat (length (x :: paths)) <=? 0)%Z = false)
      by (apply Z.leb_gt; simpl; lia).
    rewrite Hc. cbv zeta. rewrite Hc'.
    rewrite fold_left_push, Hd3, Hm3, app_nil_r.
    remember (reverse (qsort pl_compare (x :: paths))) as ps eqn:Hps.
    remember (set_more (idepth l) ps l3) as l4 eqn:Hl4.
    assert (Hd4 : idepth l4 = idepth l) by (rewrite Hl4; exact Hd3).
    assert (Hlen4 : idepth l < length (istack l4)).
    { rewrite Hl4. simpl. rewrite length_insert. exact Hlen3. }
    assert (Hm4 : is_more (frame_at l4 (idepth l)) = ps).
    { rewrite Hl4. apply frame_at_set_more. exact Hlen3. }
    rewrite Hd4, Hm4.
    destruct ps as [|p rest].
    + exfalso. apply (f_equal length) in Hps.
      rewrite length_reverse in Hps. unfold qsort in Hps.
      rewrite merge_sort_Permutation in Hps. discriminate.
    + apply Forall_cons in Hopen as [Hp _].
      destruct (open_next_opens e p rest (keepopen l4) Hp) as (fp & ko' & ->).
      eexists. split; [reflexivity|]. simpl. rewrite Hd4.
      rewrite !length_insert.
      repeat split; auto; try discriminate.
      unfold frame_at. simpl. rewrite !Hd4.
      rewrite list_lookup_insert_eq by (rewrite length_insert; exact Hlen4).
      simpl. unfold frame_at. simpl.
      rewrite list_lookup_insert_eq by exact Hlen4. reflexivity.
Qed.


(** An entry is a configuration file exactly when [read_dir_files] keeps
    its name and [stat] finds a regular file. *)
Lemma config_file_kept e dirpath n :
  config_file e dirpath n = true
  <-> kept_name n /\ stat_isreg e (dir_path dirpath n) = true.
Proof.
  unfold config_file, kept_name. rewrite !andb_true_iff, !negb_true_iff.
  split.
  - intros [[[Hlen Hlast] Hdot] Hreg]. split; [|exact Hreg].
    split; [|split].
    + intros ->. discriminate.
    + intros E. rewrite E in Hlast. discriminate.
    + intros Hin.
      assert (existsb (Ascii.eqb ".") n = true); [|congruence].
      apply existsb_exists. exists "."%char. split; [exact Hin|].
      apply Ascii.eqb_refl.
  - intros [(Hne & Hlast & Hdot) Hreg]. split; [|exact Hreg].
    split; [split|].
    + destruct n; [congruence | reflexivity].
    + now apply Ascii.eqb_neq.
    + apply (has_char_false "." n Hdot).
Qed.

(** [read_dir_files] collects the paths of the configuration files of the
    listing and of nothing else, in [readdir] order. *)
Lemma read_dir_loop_config_files e dirpath names :
  read_dir_loop e dirpath names
  = map (dir_path dirpath) (config_files e dirpath names).
Proof.
  unfold config_files.
  induction names as [|n names IH]; [reflexivity|].
  cbn [read_dir_loop List.filter]. unfold config_file at 1.
  change (dirpath ++ str "/" ++ n) with (dir_path dirpath n).
  destruct n as [|c n]; [exact IH|].
  rewrite (char_at_last (c :: n)) by discriminate.
  change (has_char "." (c :: n)) with (existsb (Ascii.eqb ".") (c :: n)).
  cbn [length Nat.eqb negb orb andb].
  destruct (Ascii.eqb (List.last (c :: n) NUL) "~"); cbn [negb orb andb];
    [exact IH|].
  destruct (existsb (Ascii.eqb ".") (c :: n)); cbn [negb orb andb];
    [exact IH|].
  destruct (stat_isreg e (dir_path dirpath (c :: n))); cbn [negb map];
    [now rewrite IH | exact IH].
Qed.

Lemma config_files_perm e dirpath names names' :
  names ≡ₚ names' ->
  config_files e dirpath names ≡ₚ config_files e dirpath names'.
Proof.
  unfold config_files. induction 1 as [|x l l' _ IH|x y l|l l' l'' _ IH1 _ IH2];
    cbn [List.filter].
  - reflexivity.
  - destruct (config_file e dirpath x); [now constructor | exact IH].
  - destruct (config_file e dirpath x), (config_file e dirpath y);
      try reflexivity. apply perm_swap.
  - now transitivity (List.filter (config_file e dirpath) l').
Qed.

Lemma config_files_sub e dirpath names n :
  n ∈ config_files e dirpath names -> n ∈ names.
Proof.
  unfold config_files. rewrite !list_elem_of_In, filter_In. tauto.
Qed.

Lemma config_files_NoDup e dirpath names :
  NoDup names -> NoDup (config_files e dirpath names).
Proof.
  unfold config_files. induction 1 as [|x l Hx _ IH]; cbn [List.filter];
    [constructor|].
  destruct (config_file e dirpath x); [|exact IH].
  constructor; [|exact IH]. intros Hin. apply Hx.
  now apply (config_files_sub e dirpath).
Qed.

(** C3: the configuration files of an include directory (the regular files
    with names that are not empty, do not end in '~' and hold no '.'),
    whatever else the directory holds beside them, become the current
    source in the ascending [strcmp] order of their names, whatever the
    order in which [readdir] lists the entries: [read_dir_files] leaves
    out every other entry, [switch_dir] sorts the paths in descending order
    and pushes each on the head of the pending list, which [push_include]
    and then [pop_include] take from the head. *)
Theorem includedir_files_in_lexical_order
    e opath dirpath l st_uid st_gid names :
  stack_ok l ->
  expand_include e opath l = (Some dirpath, l) ->
  nul_free dirpath ->
  idepth l <= MAX_SUDOERS_DEPTH ->
  sudo_secure_dir e dirpath (sudoers_uid e) (sudoers_gid e)
  = (SUDO_PATH_SECURE, st_uid, st_gid) ->
  opendir e dirpath = DirEntries names ->
  NoDup names ->
  Forall nul_free names ->
  Forall (fun n => opens e (dir_path dirpath n))
    (config_files e dirpath names) ->
  includedir_files e opath l
  = map (dir_path dirpath) (lexical_order (config_files e dirpath names))
  /\ StronglySorted str_lt (lexical_order (config_files e dirpath names))
  /\ lexical_order (config_files e dirpath names)
     ≡ₚ config_files e dirpath names
  /\ (forall n, n ∈ config_files e dirpath names
                <-> n ∈ names /\ kept_name n
                    /\ stat_isreg e (dir_path dirpath n) = true)
  /\ (forall names', names ≡ₚ names' ->
      lexical_order (config_files e dirpath names')
      = lexical_order (config_files e dirpath names)).
Proof.
  intros Hok He Hnd Hroom Hsec Hdir Hdup Hnul Hopen.
  assert (Hnul' : Forall nul_free (config_files e dirpath names)).
  { rewrite Forall_forall in *. intros n Hn. apply Hnul.
    now apply (config_files_sub e dirpath). }
  split; [|split; [|split; [|split]]].
  - assert (Hps : reverse (qsort pl_compare (read_dir_loop e dirpath names))
                  = map (dir_path dirpath)
                      (lexical_order (config_files e dirpath names))).
    { rewrite read_dir_loop_config_files. now apply pending_ascending. }
    assert (Hopen' : Forall (opens e)
                       (map (dir_path dirpath)
                          (lexical_order (config_files e dirpath names)))).
    { apply Forall_fmap. unfold lexical_order.
      rewrite merge_sort_Permutation. exact Hopen. }
    destruct (push_include_dir e opath dirpath l st_uid st_gid names
                Hok He Hroom Hsec Hdir) as (l' & Hpush & Hl').
    { rewrite Hps. exact Hopen'. }
    unfold includedir_files. rewrite Hpush. rewrite Hps in Hl'.
    destruct (map (dir_path dirpath)
                (lexical_order (config_files e dirpath names)))
      as [|p rest].
    + rewrite Hl'.
      replace (idepth l =? idepth l + 1) with false
        by (symmetry; apply Nat.eqb_neq; lia).
      reflexivity.
    + destruct Hl' as (Hd & Hs & Hlen & Hbuf & Hmore).
      rewrite Hd, Nat.eqb_refl, Hs, Hmore. cbn [andb]. f_equal.
      apply Forall_cons in Hopen' as [_ Hrest].
      replace (idepth l + 1) with (S (idepth l)) in * by lia.
      now apply eof_walk_pending.
  - apply lexical_order_strict; [exact Hnul'|].
    now apply config_files_NoDup.
  - apply merge_sort_Permutation.
  - intros n. unfold config_files.
    rewrite !list_elem_of_In, filter_In, config_file_kept. tauto.
  - intros names' Hp. apply lexical_order_perm; [exact Hnul'|].
    now apply config_files_perm.
Qed.

Lemma includedir_files_in_lexical_order_witness :
  includedir_files sample_mixed_env (str "/etc/sudoers.d")
    (init_lexer (scanning INITIAL true []))
  = [str "/etc/sudoers.d/alpha"; str "/etc/sudoers.d/mid";
     str "/etc/sudoers.d/zeta"].
Proof.
  pose (names := [str "."; str ".."; str "zeta"; str "local~"; str "alpha";
                  str "site.bak"; str "sub"; str "mid"]).
  destruct (includedir_files_in_lexical_order sample_mixed_env
              (str "/etc/sudoers.d") (str "/etc/sudoers.d")
              (init_lexer (scanning INITIAL true [])) 0%Z 0%Z names)
    as (H & _).
  - apply stack_ok_init.
  - reflexivity.
  - unfold nul_free. simpl. intuition discriminate.
  - vm_compute. lia.
  - reflexivity.
  - reflexivity.
  - unfold names. repeat (apply NoDup_cons; split);
      try apply NoDup_nil_2; rewrite ?elem_of_cons, ?elem_of_nil;
      vm_compute; intuition discriminate.
  - unfold names, nul_free. repeat constructor; simpl; intuition discriminate.
  - unfold names, opens.
    change (config_files sample_mixed_env (str "/etc/sudoers.d")
              [str "."; str ".."; str "zeta"; str "local~"; str "alpha";
               str "site.bak"; str "sub"; str "mid"])
      with [str "zeta"; str "alpha"; str "mid"].
    repeat constructor; intros ko; eexists _, _; reflexivity.
  - rewrite H. vm_compute. reflexivity.
Defined.

End IncludeFacts.

(** ** The scanner *)

Module TokeFacts.

(** The rule chosen depends on the rules only through the lengths of their
    matches. *)
Lemma yy_best_table sc bol s (f : rule -> nat) rs :
  Forall (fun r => match_length sc bol s r = f r) rs ->
  forall best,
    yy_best (map (fun r => (r_id r, match_length sc bol s r)) rs) best
    = yy_best (map (fun r => (r_id r, f r)) rs) best.
Proof.
  induction 1 as [|r rs' Hr _ IH]; intros best; [reflexivity|].
  cbn [map yy_best]. rewrite Hr. apply IH.
Qed.

Lemma yy_match_table sc bol s (f : rule -> nat) :
  Forall (fun r => match_length sc bol s r = f r) rules ->
  yy_match sc bol s = yy_best (map (fun r => (r_id r, f r)) rules) None.
Proof. intros H. unfold yy_match. now apply yy_best_table. Qed.

(** One step of the scanner, once the rule is known. *)
Lemma yylex_step_rule e l c s bol fp r n :
  yy_current_buffer l = Some (mkBuffer (c :: s) bol fp) ->
  yy_match (yy_start l) bol (c :: s) = Some (r, n) ->
  yylex_step e l =
  action e r (firstn n (c :: s))
    (set_toke (toke_end (sudolinebuf l)) (toke_end (sudolinebuf l) + n)
       (set_buffer
          (Some (mkBuffer (skipn n (c :: s))
                   (Ascii.eqb (char_at (firstn n (c :: s)) (n - 1)) LF) fp))
          l)).
Proof. intros Hb Hm. unfold yylex_step. now rewrite Hb, Hm. Qed.

Lemma sudoerslex_returns fuel e l t l' :
  yylex_step e l = (Some t, l') -> sudoerslex (S fuel) e l = Some (t, l').
Proof. intros H. simpl. now rewrite H. Qed.

(** *** Line breaks inside a quoted string *)

Lemma free_string_discards l s :
  lv_string (sudoerslval (free_string l)) <> SStr s.
Proof.
  unfold free_string.
  destruct (lv_string (sudoerslval l)) eqn:E; cbn; rewrite ?E; discriminate.
Qed.

Lemma newline_rule_chosen sc bol rest :
  sc = INSTR \/ sc = INITIAL ->
  yy_match sc bol (LF :: rest) = Some (R_newline, 1)
  /\ yy_match sc bol (CR :: LF :: rest) = Some (R_newline, 2).
Proof. intros [-> | ->]; destruct bol; split; vm_compute; reflexivity. Qed.

(** The newline rule in start condition INSTR. *)
Lemma newline_in_string e l yytext :
  yy_start l = INSTR ->
  exists l1,
    action e R_newline yytext l = (Some ERROR, l1)
    /\ sudoers_errstr l1 = Some (Msg "unexpected line break in string")
    /\ (forall s, lv_string (sudoerslval l1) <> SStr s)
    /\ yy_start l1 = INITIAL
    /\ yy_current_buffer l1
       = option_map
           (fun b => mkBuffer (yytext ++ yy_chars b) (yy_at_bol b)
                       (yy_input_file b))
           (yy_current_buffer l)
    /\ sudolineno l1 = sudolineno l.
Proof.
  intros Hs. cbn [action]. rewrite Hs. cbn [start_cond_eqb]. unfold error.
  eexists. split; [reflexivity|].
  split; [reflexivity|].
  split; [intros s; apply free_string_discards|].
  unfold free_string. destruct (lv_string (sudoerslval l)); repeat split.
Qed.

(** The newline rule in any other start condition. *)
Lemma newline_token e l yytext :
  yy_start l <> INSTR ->
  exists l1,
    action e R_newline yytext l = (Some (CHAR LF), l1)
    /\ yy_start l1 = INITIAL
    /\ yy_current_buffer l1 = yy_current_buffer l
    /\ sudolineno l1 = (sudolineno l + 1)%Z
    /\ continued l1 = false.
Proof.
  intros Hs. cbn [action].
  destruct (yy_start l) eqn:E; try congruence; cbn [start_cond_eqb];
    eexists; (split; [reflexivity|]); repeat split.
Qed.

(** C6: a line break (LF or CR LF) met in start condition INSTR makes
    [sudoerslex] return ERROR with "unexpected line break in string": the
    string collected so far is discarded, the line break is given back to
    the input and the start condition is INITIAL, so that the next call
    scans the line break as the newline token and scanning goes on with the
    next line. *)
Theorem line_break_in_string e l eol rest bol fp fuel :
  yy_start l = INSTR ->
  yy_current_buffer l = Some (mkBuffer (eol ++ rest) bol fp) ->
  eol = [LF] \/ eol = [CR; LF] ->
  exists l1 l2,
    sudoerslex (S fuel) e l = Some (ERROR, l1)
    /\ sudoers_errstr l1 = Some (Msg "unexpected line break in string")
    /\ (forall s, lv_string (sudoerslval l1) <> SStr s)
    /\ yy_start l1 = INITIAL
    /\ pending l1 = eol ++ rest
    /\ sudolineno l1 = sudolineno l
    /\ sudoerslex (S fuel) e l1 = Some (CHAR LF, l2)
    /\ yy_start l2 = INITIAL
    /\ pending l2 = rest
    /\ at_bol l2 = true
    /\ sudolineno l2 = (sudolineno l + 1)%Z
    /\ continued l2 = false.
Proof.
  intros Hs Hb Heol.
  assert (Hshape : exists c s n,
             eol ++ rest = c :: s /\ firstn n (c :: s) = eol
             /\ skipn n (c :: s) = rest
             /\ Ascii.eqb (char_at eol (n - 1)) LF = true
             /\ forall sc b, sc = INSTR \/ sc = INITIAL ->
                   yy_match sc b (c :: s) = Some (R_newline, n)).
  { destruct Heol as [-> | ->].
    - exists LF, rest, 1. repeat split.
      intros sc b Hsc. exact (proj1 (newline_rule_chosen sc b rest Hsc)).
    - exists CR, (LF :: rest), 2. repeat split.
      intros sc b Hsc. exact (proj2 (newline_rule_chosen sc b rest Hsc)). }
  destruct Hshape as (c & s & n & Hcs & Hfirst & Hskip & Hlast & Hm).
  rewrite Hcs in *.
  (* the first call: ERROR, and the line break is pushed back *)
  pose proof (yylex_step_rule e l c s bol fp R_newline n Hb
                (Hm _ _ (or_introl Hs))) as Hstep1.
  rewrite Hfirst, Hskip, Hlast in Hstep1.
  match type of Hstep1 with _ = action _ _ _ ?x =>
    destruct (newline_in_string e x eol Hs)
      as (l1 & Ha1 & Herr1 & Hstr1 & Hs1 & Hb1 & Hln1)
  end.
  rewrite Ha1 in Hstep1. cbn in Hb1, Hln1.
  rewrite <- Hfirst, <- Hskip, take_drop in Hb1.
  (* the second call: the newline token *)
  pose proof (yylex_step_rule e l1 c s true fp R_newline n Hb1
                (Hm _ _ (or_intror Hs1))) as Hstep2.
  rewrite Hfirst, Hskip, Hlast in Hstep2.
  match type of Hstep2 with _ = action _ _ _ ?x =>
    destruct (newline_token e x eol)
      as (l2 & Ha2 & Hs2 & Hb2 & Hln2 & Hc2);
      [cbn; rewrite Hs1; discriminate|]
  end.
  rewrite Ha2 in Hstep2. cbn in Hb2, Hln2.
  exists l1, l2. unfold pending, at_bol. rewrite Hb1, Hb2, Hln2, Hln1.
  rewrite (sudoerslex_returns fuel e l _ _ Hstep1).
  rewrite (sudoerslex_returns fuel e l1 _ _ Hstep2).
  cbn. repeat split; auto.
Qed.

Lemma line_break_in_string_witness :
  exists l1 l2,
    sudoerslex 1 sample_env
      (set_string (SStr (str "ab"))
         (scanning INSTR false (LF :: str "root ALL = ALL")))
    = Some (ERROR, l1)
    /\ sudoers_errstr l1 = Some (Msg "unexpected line break in string")
    /\ yy_start l1 = INITIAL
    /\ pending l1 = LF :: str "root ALL = ALL"
    /\ sudoerslex 1 sample_env l1 = Some (CHAR LF, l2)
    /\ pending l2 = str "root ALL = ALL"
    /\ at_bol l2 = true.
Proof.
  destruct (line_break_in_string sample_env
              (set_string (SStr (str "ab"))
                 (scanning INSTR false (LF :: str "root ALL = ALL")))
              [LF] (str "root ALL = ALL") false
              (mkFILE (str "/etc/sudoers") [] false false) 0)
    as (l1 & l2 & E1 & Herr & _ & Hs1 & Hp1 & _ & E2 & _ & Hp2 & Hbol & _).
  - reflexivity.
  - reflexivity.
  - now left.
  - exists l1, l2. repeat split; assumption.
Defined.


(** *** The closing quote of a string *)

Lemma endstr_rule_chosen bol rest :
  yy_match INSTR bol (DQUOTE :: rest) = Some (R_instr_endstr, 1).
Proof. destruct bol; vm_compute; reflexivity. Qed.

Ltac endstr_case :=
  cbn [cstring_eqb str list_ascii_of_string nth];
  repeat match goal with
         | H : Ascii.eqb _ _ = _ |- _ => rewrite H
         end;
  rewrite ?Ascii.eqb_refl; cbn [andb orb fst snd];
  unfold error, free_string; cbn [sudoerslval lv_string set_yy_start BEGIN];
  repeat match goal with
         | H : lv_string _ = _ |- _ => rewrite H
         end;
  (eexists; split; [reflexivity|]); repeat split.

(** The action of the closing quote, against the wording of the
    specification. *)
Lemma endstr_action e l yytext acc :
  accumulated (lv_string (sudoerslval l)) acc ->
  exists l',
    action e R_instr_endstr yytext l
    = (Some (fst (closed_string (prev_state l) acc)), l')
    /\ sudoers_errstr l'
       = match snd (closed_string (prev_state l) acc) with
         | Some m => Some (Msg m)
         | None => sudoers_errstr l
         end
    /\ yy_start l' = prev_state l
    /\ yy_current_buffer l' = yy_current_buffer l.
Proof.
  unfold accumulated. intros Hacc. cbn [action].
  cbn [sudoerslval BEGIN set_yy_start prev_state].
  destruct (lv_string (sudoerslval l)) as [|s|] eqn:Hstr;
    destruct acc as [acc|]; try contradiction.
  - unfold error. eexists; split; [reflexivity|]; repeat split.
  - destruct Hacc as (<- & Hne & Hnul). unfold closed_string.
    destruct (start_cond_eqb (prev_state l) INITIAL
              || start_cond_eqb (prev_state l) GOTDEFS);
      [|eexists; split; [reflexivity|]; repeat split].
    assert (Hc : forall c, List.In c s -> Ascii.eqb c NUL = false).
    { intros c Hin. apply Ascii.eqb_neq. intros ->. now apply Hnul. }
    destruct s as [|c0 s]; [congruence|]. cbn [begins_with char_at nth].
    destruct (Ascii.eqb c0 "%") eqn:E0; [|destruct (Ascii.eqb c0 "+") eqn:E1].
    + destruct s as [|c1 s]; [endstr_case|].
      cbn [nth]. rewrite (Hc c1) by (right; left; reflexivity).
      destruct (Ascii.eqb c1 ":") eqn:E2; [|endstr_case].
      destruct s as [|c2 s]; [endstr_case|].
      cbn [nth]. rewrite (Hc c2) by (right; right; left; reflexivity).
      endstr_case.
    + destruct s as [|c1 s]; [endstr_case|].
      cbn [nth]. rewrite (Hc c1) by (right; left; reflexivity).
      endstr_case.
    + endstr_case.
Qed.

(** C5: a double quote scanned in start condition INSTR closes the string
    and goes back to the saved start condition. With nothing accumulated the
    token is ERROR ("empty string"). When the saved start condition is
    INITIAL or GOTDEFS, a string that begins with '%' is a USERGROUP unless it
    is "%" or "%:" (ERROR, "empty group"), and one that begins with '+' is a
    NETGROUP unless it is "+" (ERROR, "empty netgroup"). Every other string,
    and every string closed in another saved start condition, is a WORD. *)
Theorem closing_quote e l rest bol fp fuel acc :
  yy_start l = INSTR ->
  yy_current_buffer l = Some (mkBuffer (DQUOTE :: rest) bol fp) ->
  accumulated (lv_string (sudoerslval l)) acc ->
  exists l',
    sudoerslex (S fuel) e l
    = Some (fst (closed_string (prev_state l) acc), l')
    /\ sudoers_errstr l'
       = match snd (closed_string (prev_state l) acc) with
         | Some m => Some (Msg m)
         | None => sudoers_errstr l
         end
    /\ yy_start l' = prev_state l
    /\ pending l' = rest.
Proof.
  intros Hs Hb Hacc.
  pose proof (yylex_step_rule e l DQUOTE rest bol fp R_instr_endstr 1 Hb)
    as Hstep.
  rewrite Hs in Hstep. specialize (Hstep (endstr_rule_chosen bol rest)).
  match type of Hstep with _ = action _ _ ?t ?x =>
    destruct (endstr_action e x t acc Hacc) as (l' & Ha & Herr & Hst & Hbuf)
  end.
  rewrite Ha in Hstep. exists l'.
  rewrite (sudoerslex_returns fuel e l _ _ Hstep).
  unfold pending. rewrite Herr, Hst, Hbuf. cbn. repeat split.
Qed.

Lemma closing_quote_witness :
  exists l',
    sudoerslex 1 sample_env
      (set_string (SStr (str "%wheel"))
         (scanning INSTR false (DQUOTE :: str " ALL = ALL")))
    = Some (USERGROUP, l')
    /\ yy_start l' = INITIAL
    /\ pending l' = str " ALL = ALL".
Proof.
  destruct (closing_quote sample_env
              (set_string (SStr (str "%wheel"))
                 (scanning INSTR false (DQUOTE :: str " ALL = ALL")))
              (str " ALL = ALL") false
              (mkFILE (str "/etc/sudoers") [] false false) 0
              (Some (str "%wheel")))
    as (l' & E & _ & Hs & Hp).
  - reflexivity.
  - reflexivity.
  - split; [reflexivity|]. split; [discriminate|].
    intros H. cbn in H. repeat (destruct H as [H | H]; [discriminate H|]).
    exact H.
  - exists l'. repeat split; assumption.
Defined.


(** *** Digests *)

(** [sudoersless(sudoersleng)] keeps the whole match: nothing goes back to
    the input. *)
Lemma sudoersless_all yytext l :
  yy_current_buffer (sudoersless (length yytext) yytext l)
  = yy_current_buffer l.
Proof.
  unfold sudoersless, map_buffer. cbn.
  destruct (yy_current_buffer l) as [[chars bol fp]|]; [|reflexivity].
  cbn. now rewrite drop_all.
Qed.

(** The hex rule returns DIGEST exactly for twice the digest length. *)
Lemma wantdigest_hex_digest e l yytext :
  fst (action e R_wantdigest_hex yytext l) = Some DIGEST
  <-> length yytext = 2 * sudo_digest_getlen e (digest_type l).
Proof.
  cbn [action].
  destruct (Nat.eqb_spec (length yytext)
              (sudo_digest_getlen e (digest_type l) * 2)) as [E|E]; cbn.
  - split; [lia | reflexivity].
  - split; [discriminate | lia].
Qed.

(** [ceil_div a b] is the least [k] with [a <= k * b]. *)
Lemma ceil_div_least a b :
  0 < b ->
  a <= ceil_div a b * b /\ forall k, a <= k * b -> ceil_div a b <= k.
Proof.
  intros Hb. unfold ceil_div. split.
  - pose proof (Nat.div_mod_eq (a + b - 1) b).
    pose proof (Nat.mod_upper_bound (a + b - 1) b ltac:(lia)). nia.
  - intros k Hk.
    assert ((a + b - 1) / b < S k); [|lia].
    apply Nat.Div0.div_lt_upper_bound. nia.
Qed.

(** The base64 rule returns DIGEST exactly for [4 * ceil(n / 3)] characters
    when the text ends in '=', and for [ceil(4 * n / 3)] when it does not. *)
Lemma wantdigest_base64_digest e l yytext :
  yytext <> [] ->
  let n := sudo_digest_getlen e (digest_type l) in
  fst (action e R_wantdigest_base64 yytext l) = Some DIGEST
  <-> length yytext
      = if Ascii.eqb (List.last yytext NUL) "="
        then 4 * ceil_div n 3 else ceil_div (4 * n) 3.
Proof.
  intros Hne. cbn [action]. cbv zeta. unfold ceil_div.
  replace (sudo_digest_getlen e (digest_type l) + 3 - 1)
    with (sudo_digest_getlen e (digest_type l) + 2) by lia.
  replace (4 * sudo_digest_getlen e (digest_type l) + 3 - 1)
    with (4 * sudo_digest_getlen e (digest_type l) + 2) by lia.
  rewrite (char_at_last yytext Hne).
  destruct (Ascii.eqb (List.last yytext NUL) "=");
    match goal with
    | |- context [length ?x =? ?y] => destruct (Nat.eqb_spec (length x) y)
    end; cbn [fst]; split; congruence.
Qed.

(** On a mismatch either rule returns nothing, leaves INITIAL as the start
    condition and gives nothing back to the input. *)
Lemma wantdigest_mismatch e l yytext r :
  r = R_wantdigest_hex \/ r = R_wantdigest_base64 ->
  fst (action e r yytext l) <> Some DIGEST ->
  exists l', action e r yytext l = (None, l')
    /\ yy_start l' = INITIAL
    /\ yy_current_buffer l' = yy_current_buffer l
    /\ sudoerslval l' = sudoerslval l.
Proof.
  intros [-> | ->]; cbn [action]; cbv zeta;
    match goal with
    | |- context [length ?x =? ?y] => destruct (Nat.eqb_spec (length x) y)
    end; cbn [fst]; try congruence; intros _;
    (eexists; split; [reflexivity|]);
    (split; [reflexivity|]); (split; [|reflexivity]);
    apply (sudoersless_all yytext (BEGIN INITIAL l)).
Qed.

(** C4 (the code departs from the specification): after "sha224:" the run "abc" of
    three hex digits is not a SHA-224 digest, which takes 56. The hex rule
    sets the start condition to INITIAL and calls
    [sudoersless(sudoersleng)], which keeps all three characters: the run
    is neither given back to the input nor scanned again, no token is
    returned for it, and the scanner goes on behind it. The line
    "sha224:abc /bin/ls" yields SHA224_TOK, ':', COMMAND and the newline,
    without a WORD for "abc". *)
Theorem wantdigest_wrong_length_is_dropped :
  let l := scanning WANTDIGEST false (str "abc /bin/ls" ++ [LF]) in
  let l' := snd (yylex_step sample_env
                   (set_digest_type (Some SUDO_DIGEST_SHA224) l)) in
  yy_match WANTDIGEST false (str "abc /bin/ls" ++ [LF])
  = Some (R_wantdigest_hex, 3)
  /\ fst (yylex_step sample_env
            (set_digest_type (Some SUDO_DIGEST_SHA224) l)) = None
  /\ yy_start l' = INITIAL
  /\ pending l' = str " /bin/ls" ++ [LF]
  /\ tokens 8 sample_env
       (scanning INITIAL true (str "sha224:abc /bin/ls" ++ [LF]))
     = [SHA224_TOK; CHAR ":"; COMMAND; CHAR LF].
Proof. vm_compute. repeat split. Qed.

(** *** Command arguments *)

(** The text matched by the line continuation pattern. *)
Lemma matches_continuation s :
  matches continuation_re s ->
  exists blanks, Forall (fun c => isblank c = true) blanks
    /\ (s = BSLASH :: blanks ++ [LF] \/ s = BSLASH :: blanks ++ [CR; LF]).
Proof.
  unfold continuation_re, backslash. intros H.
  apply matches_chr_cat in H as (t & -> & H).
  apply matches_Cat in H as (bl & t2 & -> & Hbl & H).
  apply matches_star_cls in Hbl. exists bl. split; [exact Hbl|].
  apply matches_Cat in H as (o & t3 & -> & Ho & H3).
  apply matches_chr in H3 as ->.
  apply matches_opt in Ho as [Ho | ->].
  - apply matches_chr in Ho as ->. now right.
  - now left.
Qed.

Lemma line_continues_blank c rest :
  isblank c = true -> line_continues (c :: rest) -> line_continues rest.
Proof.
  intros Hc (bl & tail & Hbl & E).
  destruct bl as [|b bl].
  - exfalso. destruct E as [E | E]; injection E as -> _; discriminate Hc.
  - inversion Hbl; subst. exists bl, tail. split; [assumption|].
    destruct E as [E | E]; injection E as _ ->; auto.
Qed.

Lemma continuation_none t :
  ~ line_continues t -> longest continuation_re (BSLASH :: t) = 0.
Proof.
  intros Hno. apply longest_none. intros k Hk Hm. apply Hno.
  apply matches_continuation in Hm as (bl & Hbl & E).
  destruct k as [|k]; [lia|]. cbn [firstn] in E.
  rewrite <- (firstn_skipn k t).
  destruct E as [E | E]; injection E as ->.
  - exists bl, (skipn k t). split; [assumption|]. left.
    now rewrite <- app_assoc.
  - exists bl, (skipn k t). split; [assumption|]. right.
    now rewrite <- app_assoc.
Qed.

Lemma gotcmnd_glob_chosen bol c rest :
  glob_char c ->
  yy_match GOTCMND bol (BSLASH :: c :: rest) = Some (R_gotcmnd_glob, 2).
Proof.
  intros H. unfold glob_char in H. cbn in H.
  repeat (destruct H as [<- | H]; [destruct bol; vm_compute; reflexivity|]).
  contradiction.
Qed.

Lemma gotcmnd_special_chosen bol c rest :
  special_char c -> (isblank c = true -> ~ line_continues rest) ->
  yy_match GOTCMND bol (BSLASH :: c :: rest) = Some (R_gotcmnd_special, 2).
Proof.
  intros H Hcont.
  assert (Hblank : isblank c = true ->
            yy_match GOTCMND bol (BSLASH :: c :: rest)
            = Some (R_gotcmnd_special, 2)).
  { intros Hc.
    assert (Hl : longest continuation_re (BSLASH :: c :: rest) = 0).
    { apply continuation_none. intros Hlc. apply (Hcont Hc).
      now apply (line_continues_blank c). }
    rewrite (yy_match_table _ _ _
               (fun r => match r_id r with
                         | R_gotcmnd_special => 2
                         | R_nomatch => 1
                         | _ => 0
                         end)); [reflexivity|].
    unfold isblank in Hc. apply orb_true_iff in Hc.
    destruct Hc as [Hc | Hc]; apply Ascii.eqb_eq in Hc; subst c;
      repeat constructor;
      first [ exact Hl
            | cbn [r_id r_scope r_bol r_pat match_length active]; exact Hl
            | destruct bol; vm_compute; reflexivity ]. }
  unfold special_char in H. cbn in H.
  repeat (destruct H as [<- | H];
          [first [ destruct bol; vm_compute; reflexivity
                 | apply Hblank; reflexivity ]|]).
  contradiction.
Qed.

Lemma gotcmnd_end_chosen bol c rest :
  ends_arguments c rest ->
  yy_match GOTCMND bol (c :: rest) = Some (R_gotcmnd_end, 1).
Proof.
  intros [H | [[-> H] | [-> H]]].
  - cbn in H.
    repeat (destruct H as [<- | H]; [destruct bol; vm_compute; reflexivity|]).
    contradiction.
  - destruct rest as [|d rest]; [destruct bol; vm_compute; reflexivity|].
    unfold not_arg_char in H. cbn in H.
    repeat (destruct H as [<- | H]; [destruct bol; vm_compute; reflexivity|]).
    contradiction.
  - destruct rest as [|d rest]; [destruct bol; vm_compute; reflexivity|].
    destruct d as [[] [] [] [] [] [] [] []];
      try (exfalso; apply H; reflexivity);
      destruct bol; vm_compute; reflexivity.
Qed.

(** The action that ends the arguments gives the whole match back. *)
Lemma gotcmnd_end_action e l yytext :
  exists l1,
    action e R_gotcmnd_end yytext l = (Some COMMAND, l1)
    /\ yy_start l1 = INITIAL
    /\ yy_current_buffer l1
       = option_map
           (fun b => mkBuffer (yytext ++ yy_chars b) false (yy_input_file b))
           (yy_current_buffer l)
    /\ sudoerslval l1 = sudoerslval l.
Proof.
  eexists. split; [reflexivity|]. repeat split.
  cbn. now destruct (yy_current_buffer l).
Qed.

Lemma fill_args_plus l s n space :
  lv_args (sudoerslval (set_sawspace false (fill_args s n space l)))
  = args_plus (lv_args (sudoerslval l)) space (firstn n s).
Proof. cbn. unfold args_plus. now destruct (lv_args (sudoerslval l)). Qed.

(** An equals sign inside a run of argument characters belongs to the
    argument: scanning the arguments a=b up to the line break returns
    COMMAND only at the line break, with a=b as the argument text. *)
Lemma gotcmnd_equals_inside_argument :
  exists l1 l2,
    yylex_step sample_env (scanning GOTCMND false (str "a=b" ++ [LF]))
    = (None, l1)
    /\ yy_start l1 = GOTCMND
    /\ pending l1 = [LF]
    /\ lv_args (sudoerslval l1) = Some (str "a=b")
    /\ sudoerslex 2 sample_env (scanning GOTCMND false (str "a=b" ++ [LF]))
       = Some (COMMAND, l2)
    /\ pending l2 = [LF]
    /\ lv_args (sudoerslval l2) = Some (str "a=b").
Proof. do 2 eexists. vm_compute. repeat split. Qed.

(** On a carriage return and line feed the newline rule of every start
    condition, which matches both characters, beats the rule that ends
    the arguments, which matches one. *)
Lemma gotcmnd_crlf_newline bol rest :
  yy_match GOTCMND bol (CR :: LF :: rest) = Some (R_newline, 2).
Proof. destruct bol; vm_compute; reflexivity. Qed.

(** A backslash, blanks and a line break in the arguments are a line
    continuation, not an escaped blank. *)
Lemma gotcmnd_backslash_blank_continuation bol rest :
  yy_match GOTCMND bol (BSLASH :: SP :: LF :: rest) = Some (R_continuation, 3).
Proof. destruct bol; vm_compute; reflexivity. Qed.

(** What the rules of GOTCMND do apart from a CR LF line break: in start
    condition GOTCMND, a backslash followed by a
    glob character (one of * ? [ ] ! ^) is added to the argument text as
    it stands, backslash included; a backslash followed by a special
    character (one of : \ , = space tab #) is added without the backslash,
    unless the character is a blank and only blanks separate it from the
    line break, which makes a line continuation; and a # : , or LF, an =
    that is not followed by an argument character, or a CR that is not
    followed by LF, met where a run of the arguments would start, ends the
    arguments: COMMAND is returned with the command and arguments
    collected so far, the character is given back to the input and the
    start condition is INITIAL. *)
Lemma gotcmnd_arguments e l bol fp :
  yy_start l = GOTCMND ->
  (forall c rest,
      glob_char c ->
      yy_current_buffer l = Some (mkBuffer (BSLASH :: c :: rest) bol fp) ->
      exists l1,
        yylex_step e l = (None, l1)
        /\ lv_args (sudoerslval l1)
           = args_plus (lv_args (sudoerslval l)) (sawspace l) [BSLASH; c]
        /\ lv_cmnd (sudoerslval l1) = lv_cmnd (sudoerslval l)
        /\ yy_start l1 = GOTCMND
        /\ pending l1 = rest
        /\ sawspace l1 = false)
  /\ (forall c rest,
      special_char c ->
      (isblank c = true -> ~ line_continues rest) ->
      yy_current_buffer l = Some (mkBuffer (BSLASH :: c :: rest) bol fp) ->
      exists l1,
        yylex_step e l = (None, l1)
        /\ lv_args (sudoerslval l1)
           = args_plus (lv_args (sudoerslval l)) (sawspace l) [c]
        /\ lv_cmnd (sudoerslval l1) = lv_cmnd (sudoerslval l)
        /\ yy_start l1 = GOTCMND
        /\ pending l1 = rest
        /\ sawspace l1 = false)
  /\ (forall c rest fuel,
      ends_arguments c rest ->
      yy_current_buffer l = Some (mkBuffer (c :: rest) bol fp) ->
      exists l1,
        sudoerslex (S fuel) e l = Some (COMMAND, l1)
        /\ sudoerslval l1 = sudoerslval l
        /\ yy_start l1 = INITIAL
        /\ pending l1 = c :: rest
        /\ at_bol l1 = false).
Proof.
  intros Hs. split; [|split].
  - intros c rest Hc Hb.
    pose proof (gotcmnd_glob_chosen bol c rest Hc) as Hm. rewrite <- Hs in Hm.
    rewrite (yylex_step_rule e l _ _ _ _ _ _ Hb Hm).
    change (firstn 2 (BSLASH :: c :: rest)) with [BSLASH; c].
    change (skipn 2 (BSLASH :: c :: rest)) with rest.
    cbn [action]. eexists. split; [reflexivity|].
    split; [rewrite fill_args_plus; reflexivity|].
    repeat split; assumption.
  - intros c rest Hc Hcont Hb.
    pose proof (gotcmnd_special_chosen bol c rest Hc Hcont) as Hm.
    rewrite <- Hs in Hm.
    rewrite (yylex_step_rule e l _ _ _ _ _ _ Hb Hm).
    change (firstn 2 (BSLASH :: c :: rest)) with [BSLASH; c].
    change (skipn 2 (BSLASH :: c :: rest)) with rest.
    cbn [action]. eexists. split; [reflexivity|].
    split; [rewrite fill_args_plus; reflexivity|].
    repeat split; assumption.
  - intros c rest fuel Hc Hb.
    pose proof (gotcmnd_end_chosen bol c rest Hc) as Hm. rewrite <- Hs in Hm.
    pose proof (yylex_step_rule e l _ _ _ _ _ _ Hb Hm) as Hstep.
    change (firstn 1 (c :: rest)) with [c] in Hstep.
    change (skipn 1 (c :: rest)) with rest in Hstep.
    match type of Hstep with _ = action _ _ _ ?x =>
      destruct (gotcmnd_end_action e x [c]) as (l1 & Ha & Hs1 & Hb1 & Hv1)
    end.
    rewrite Ha in Hstep. exists l1.
    split; [now apply sudoerslex_returns|].
    cbn in Hb1, Hv1. unfold pending, at_bol. rewrite Hb1.
    repeat split; assumption.
Qed.

Lemma gotcmnd_arguments_witness :
  (exists l1,
      yylex_step sample_env (scanning GOTCMND false (BSLASH :: str "*.c" ++ [LF]))
      = (None, l1)
      /\ lv_args (sudoerslval l1) = Some (BSLASH :: str "*")
      /\ pending l1 = str ".c" ++ [LF])
  /\ (exists l1,
      yylex_step sample_env (scanning GOTCMND false (BSLASH :: str "=x" ++ [LF]))
      = (None, l1)
      /\ lv_args (sudoerslval l1) = Some (str "=")
      /\ pending l1 = str "x" ++ [LF])
  /\ (exists l1,
      sudoerslex 1 sample_env (scanning GOTCMND false (str ", /bin/cat" ++ [LF]))
      = Some (COMMAND, l1)
      /\ yy_start l1 = INITIAL
      /\ pending l1 = str ", /bin/cat" ++ [LF]).
Proof.
  split; [|split].
  - destruct (gotcmnd_arguments sample_env
                (scanning GOTCMND false (BSLASH :: str "*.c" ++ [LF]))
                false (mkFILE (str "/etc/sudoers") [] false false) eq_refl)
      as (H & _ & _).
    destruct (H "*"%char (str ".c" ++ [LF])) as (l1 & E & Ha & _ & _ & Hp & _);
      [left; reflexivity | reflexivity|].
    exists l1. repeat split; assumption.
  - destruct (gotcmnd_arguments sample_env
                (scanning GOTCMND false (BSLASH :: str "=x" ++ [LF]))
                false (mkFILE (str "/etc/sudoers") [] false false) eq_refl)
      as (_ & H & _).
    destruct (H "="%char (str "x" ++ [LF])) as (l1 & E & Ha & _ & _ & Hp & _);
      [vm_compute; tauto | discriminate | reflexivity|].
    exists l1. repeat split; assumption.
  - destruct (gotcmnd_arguments sample_env
                (scanning GOTCMND false (str ", /bin/cat" ++ [LF]))
                false (mkFILE (str "/etc/sudoers") [] false false) eq_refl)
      as (_ & _ & H).
    destruct (H ","%char (str " /bin/cat" ++ [LF]) 0)
      as (l1 & E & _ & Hs & Hp & _);
      [left; vm_compute; tauto | reflexivity|].
    exists l1. repeat split; assumption.
Defined.

(** C7 (the code departs from the specification): the rule that ends the
    arguments names CR among the characters that end them, but in start
    condition GOTCMND a CR followed by LF never reaches it: the newline
    rule of every start condition matches both characters and flex takes
    the longer match. The scanner returns the newline token with INITIAL
    as the start condition, and COMMAND is not returned for the command
    and the arguments collected so far. The line "root ALL = /bin/ls -l"
    gives WORD, ALL, '=', COMMAND and the newline when it ends in LF, and
    WORD, ALL, '=' and the newline, without COMMAND, when it ends in
    CR LF. *)
Theorem gotcmnd_crlf_drops_command :
  (forall e l bol fp rest fuel,
      yy_start l = GOTCMND ->
      yy_current_buffer l = Some (mkBuffer (CR :: LF :: rest) bol fp) ->
      exists l',
        sudoerslex (S fuel) e l = Some (CHAR LF, l')
        /\ yy_start l' = INITIAL
        /\ pending l' = rest)
  /\ tokens 12 sample_env
       (scanning INITIAL true (str "root ALL = /bin/ls -l" ++ [LF]))
     = [WORD; ALL; CHAR "="; COMMAND; CHAR LF]
  /\ tokens 12 sample_env
       (scanning INITIAL true (str "root ALL = /bin/ls -l" ++ [CR; LF]))
     = [WORD; ALL; CHAR "="; CHAR LF].
Proof.
  split; [|split; vm_compute; reflexivity].
  intros e l bol fp rest fuel Hs Hb.
  pose proof (yylex_step_rule e l CR (LF :: rest) bol fp R_newline 2 Hb)
    as Hstep.
  rewrite Hs in Hstep. specialize (Hstep (gotcmnd_crlf_newline bol rest)).
  match type of Hstep with _ = action _ _ ?t ?x =>
    destruct (newline_token e x t) as (l' & Ha & Hst & Hbuf & _)
  end.
  { cbn. rewrite Hs. discriminate. }
  rewrite Ha in Hstep. exists l'.
  rewrite (sudoerslex_returns fuel e l _ _ Hstep).
  split; [reflexivity|]. split; [exact Hst|].
  unfold pending. rewrite Hbuf. reflexivity.
Qed.

(** *** Comments *)

Lemma in_body_not_lf body rest w u :
  Forall (fun c => c <> LF) w ->
  body ++ LF :: rest = w ++ u -> exists t, body = w ++ t.
Proof.
  intros Hw. revert body. induction Hw as [|c w Hc _ IH]; intros body E.
  - now exists body.
  - destruct body as [|c' body]; simpl in E.
    + exfalso. apply Hc. now injection E.
    + injection E as -> E. destruct (IH _ E) as (t & ->). now exists t.
Qed.

Lemma matches_eol e : matches (opt eol) e -> e = [] \/ e = [LF] \/ e = [CR; LF].
Proof.
  intros H. apply matches_opt in H as [H | ->]; [|now left].
  unfold eol in H. apply matches_Alt in H as [H | H].
  - apply matches_lit in H. auto.
  - apply matches_chr in H. auto.
Qed.

Lemma dot_not_lf b :
  Forall (fun c => negb (Ascii.eqb c LF) = true) b ->
  Forall (fun c => c <> LF) b.
Proof.
  intros H. eapply Forall_impl; [exact H|]. intros c Hc ->. discriminate Hc.
Qed.

Lemma not_lf_dot b :
  Forall (fun c => c <> LF) b -> matches (Star dot) b.
Proof.
  intros H. apply matches_star_cls. eapply Forall_impl; [exact H|].
  intros c Hc. cbn beta. apply negb_true_iff, Ascii.eqb_neq, Hc.
Qed.

(** The text matched by the comment pattern. *)
Lemma matches_comment_inv s :
  matches comment_re s ->
  exists b e, s = "#"%char :: b ++ e /\ Forall (fun c => c <> LF) b
    /\ comment_body b = true /\ (e = [] \/ e = [LF] \/ e = [CR; LF]).
Proof.
  unfold comment_re. intros H.
  apply matches_chr_cat in H as (t & -> & H).
  apply matches_Cat in H as (b & e & -> & Hb & He).
  exists b, e. split; [reflexivity|].
  apply matches_eol in He.
  apply matches_opt in Hb as [Hb | ->]; [|repeat split; auto].
  apply matches_Alt in Hb as [Hb | Hb].
  - apply matches_chr_cat in Hb as (t & -> & Hb).
    apply matches_Cat in Hb as (d & t' & -> & Hd & Ht).
    apply matches_Cls in Hd as (d' & -> & Hd).
    apply matches_star_cls, dot_not_lf in Ht.
    repeat split; auto.
    constructor; [discriminate|]. constructor; [|exact Ht].
    intros ->. discriminate Hd.
  - apply matches_Cat in Hb as (d & t' & -> & Hd & Ht).
    apply matches_Cls in Hd as (d' & -> & Hd).
    apply matches_star_cls, dot_not_lf in Ht.
    assert (Hdash : Ascii.eqb d' "-" = false).
    { apply Ascii.eqb_neq. intros ->. discriminate Hd. }
    repeat split; auto.
    + constructor; [|exact Ht]. intros ->. discriminate Hd.
    + cbn. now rewrite Hdash.
Qed.

Lemma matches_comment_body b :
  Forall (fun c => c <> LF) b -> comment_body b = true ->
  matches
    (opt (Alt (Cat (chr "-") (Cat (Cls comment_dash_next) (Star dot)))
            (Cat (Cls comment_start) (Star dot)))) b.
Proof.
  intros Hlf Hb. apply matches_opt.
  destruct b as [|c b]; [now right|]. left. cbn in Hb.
  inversion Hlf as [|? ? _ Hlf']; subst.
  destruct (Ascii.eqb c "-") eqn:Hc.
  - apply Ascii.eqb_eq in Hc as ->. destruct b as [|d b]; [discriminate|].
    inversion Hlf' as [|? ? _ Hlf'']; subst.
    apply matches_Alt. left. apply matches_chr_cat. eexists. split; eauto.
    change (d :: b) with ([d] ++ b). constructor; [now constructor|].
    now apply not_lf_dot.
  - apply matches_Alt. right.
    change (c :: b) with ([c] ++ b). constructor; [now constructor|].
    now apply not_lf_dot.
Qed.

Lemma matches_comment_line body :
  comment_text body -> matches comment_re ("#"%char :: body ++ [LF]).
Proof.
  intros [Hlf [Hb | ->]]; unfold comment_re; apply matches_chr_cat;
    eexists; (split; [reflexivity|]).
  - constructor; [now apply matches_comment_body|].
    apply matches_opt. left. apply matches_Alt. right. now apply matches_chr.
  - change ([CR] ++ [LF]) with ([] ++ [CR; LF]).
    constructor; [apply matches_opt; now right|].
    apply matches_opt. left. apply matches_Alt. left. now apply matches_lit.
Qed.

(** No match of the comment pattern goes past the line break. *)
Lemma comment_stops body rest b e w :
  body ++ LF :: rest = b ++ e ++ w ->
  Forall (fun c => c <> LF) b ->
  e = [] \/ e = [LF] \/ e = [CR; LF] ->
  length body + 2 <= length b + length e -> False.
Proof.
  revert b. induction body as [|a body IH]; intros b E Hb He Hlen.
  - destruct b as [|c b].
    + destruct He as [-> | [-> | ->]]; simpl in *; try lia. discriminate E.
    + inversion Hb; subst. simpl in E. injection E as E _. congruence.
  - destruct b as [|c b].
    + destruct He as [-> | [-> | ->]]; simpl in *; lia.
    + inversion Hb; subst. simpl in E. injection E as _ E.
      apply (IH b); auto. simpl in Hlen. lia.
Qed.

(** A comment is matched up to its line break and no further. *)
Lemma longest_comment body rest :
  comment_text body ->
  longest comment_re ("#"%char :: body ++ LF :: rest) = S (S (length body)).
Proof.
  intros Hc. set (s := "#"%char :: body ++ LF :: rest).
  assert (Hlen : length s = S (length body + S (length rest))).
  { unfold s. simpl. now rewrite length_app. }
  apply longest_is.
  - lia.
  - unfold s. cbn [firstn].
    replace (S (length body)) with (length body + 1) by lia.
    rewrite List.firstn_app_2. now apply matches_comment_line.
  - intros k Hk Hm.
    apply matches_comment_inv in Hm as (b & e & E & Hb & _ & He).
    pose proof (firstn_skipn k s) as Hs. rewrite E in Hs.
    assert (Hk' : length (firstn k s) = k) by (apply List.firstn_length_le; lia).
    rewrite E in Hk'. simpl in Hk'. rewrite length_app in Hk'.
    unfold s in Hs. simpl in Hs. injection Hs as Hs.
    rewrite <- app_assoc in Hs. symmetry in Hs.
    apply (comment_stops _ _ _ _ _ Hs Hb He). lia.
Qed.

(** What follows the '#' of a match of the ID or WORD patterns. *)
Lemma matches_word_hash t :
  matches (Alt ID WORD_re) ("#"%char :: t) -> id_text t.
Proof.
  intros H. apply matches_Alt in H as [H | H].
  - unfold ID in H. apply matches_chr_cat in H as (t' & [= <-] & H).
    apply matches_Cat in H as (o & ds & -> & Ho & Hds).
    unfold plus in Hds. apply matches_Cat in Hds as (d1 & ds' & -> & Hd & _).
    apply matches_Cls in Hd as (d & -> & Hd).
    exists d, ds'. split; [exact Hd|].
    apply matches_opt in Ho as [Ho | ->]; [|now left].
    apply matches_chr in Ho as ->. now right.
  - apply deriv_matches in H. exfalso. exact (matches_Empty _ H).
Qed.

Lemma id_text_prefix k t : id_text (firstn k t) -> id_text t.
Proof.
  intros (d & rest & Hd & E). rewrite <- (firstn_skipn k t).
  exists d. destruct E as [-> | ->]; eexists; (split; [exact Hd|]);
    [left | right]; reflexivity.
Qed.

Lemma comment_not_id t b e w :
  t = b ++ e ++ w -> id_text t -> comment_body b = true ->
  e = [] \/ e = [LF] \/ e = [CR; LF] ->
  1 <= length b + length e -> False.
Proof.
  intros E (d & rest & Hd & Ht) Hb He Hlen.
  assert (Hdash : Ascii.eqb d "-" = false).
  { apply Ascii.eqb_neq. intros ->. discriminate Hd. }
  destruct b as [|c b].
  - destruct He as [-> | [-> | ->]]; simpl in *; [lia| |];
      (destruct Ht as [-> | ->];
       [injection E as -> _; discriminate Hd | discriminate E]).
  - simpl in E. destruct Ht as [-> | ->]; injection E as <- E; cbn in Hb.
    + rewrite Hdash in Hb. unfold comment_start in Hb.
      rewrite Hd, orb_true_r in Hb. discriminate.
    + destruct b as [|d' b]; [discriminate|]. simpl in E. injection E as <- _.
      unfold comment_dash_next in Hb. rewrite Hd, orb_true_r in Hb.
      discriminate.
Qed.

Lemma longest_word_comment body rest :
  comment_text body ->
  longest (Alt ID WORD_re) ("#"%char :: body ++ LF :: rest) = 0.
Proof.
  intros [Hlf Hb]. apply longest_none. intros k Hk Hm.
  destruct k as [|k]; [lia|]. cbn [firstn] in Hm.
  apply matches_word_hash, id_text_prefix in Hm.
  destruct Hb as [Hb | ->].
  - apply (comment_not_id (body ++ LF :: rest) body [LF] rest); auto.
    simpl. lia.
  - apply (comment_not_id ([CR] ++ LF :: rest) [] [CR; LF] rest); auto.
    simpl. lia.
Qed.

(** The text matched by the pattern of an include directive. *)
Lemma matches_hash_directive w s :
  matches (hash_directive_re w) s ->
  exists b u, isblank b = true /\ s = str w ++ b :: u.
Proof.
  unfold hash_directive_re, plus, blank. intros H.
  apply matches_lit_cat in H as (t & -> & H).
  apply matches_Cat in H as (bl & t2 & -> & Hbl & _).
  apply matches_Cat in Hbl as (b1 & bs & -> & Hb & _).
  apply matches_Cls in Hb as (b & -> & Hb).
  exists b, (bs ++ t2). split; [exact Hb|]. now rewrite <- app_assoc.
Qed.

Lemma longest_hash_directive_none w s :
  ~ (exists b u, isblank b = true /\ s = str w ++ b :: u) ->
  longest (hash_directive_re w) s = 0.
Proof.
  intros Hno. apply longest_none. intros k _ Hm. apply Hno.
  apply matches_hash_directive in Hm as (b & u & Hb & E).
  exists b, (u ++ skipn k s). split; [exact Hb|].
  rewrite <- (firstn_skipn k s) at 1. rewrite E.
  rewrite <- app_assoc. reflexivity.
Qed.

Lemma hash_directive_comment w' body rest :
  ~ (exists b t, isblank b = true /\ body = w' ++ b :: t) ->
  Forall (fun c => c <> LF) w' ->
  ~ (exists b u, isblank b = true
       /\ "#"%char :: body ++ LF :: rest = ("#"%char :: w') ++ b :: u).
Proof.
  intros Hno Hw (b & u & Hb & E). apply Hno. simpl in E. injection E as E.
  change (w' ++ b :: u) with (w' ++ [b] ++ u) in E. rewrite app_assoc in E.
  apply in_body_not_lf in E as (t & ->).
  - exists b, t. split; [exact Hb|]. now rewrite <- app_assoc.
  - apply Forall_app. split; [exact Hw|]. constructor; [|constructor].
    intros ->. discriminate Hb.
Qed.

Lemma hash_directive_id c w' t :
  id_text t -> isdigit c = false -> c <> "-"%char ->
  ~ (exists b u, isblank b = true
       /\ "#"%char :: t = ("#"%char :: c :: w') ++ b :: u).
Proof.
  intros (d & rest & Hd & Ht) Hc Hdash (b & u & Hb & E).
  simpl in E. injection E as E.
  destruct Ht as [-> | ->]; injection E as <- _; congruence.
Qed.

(** The rule of a '#' and comment text in the start conditions of the
    comment rule. *)
Lemma comment_rule_chosen sc bol body rest :
  sc = INITIAL \/ sc = STARTDEFS \/ sc = INDEFS ->
  comment_text body ->
  (sc = INITIAL -> bol = true -> ~ include_directive body) ->
  yy_match sc bol ("#"%char :: body ++ LF :: rest)
  = Some (R_comment, S (S (length body))).
Proof.
  intros Hsc Hc Hinc.
  pose proof (longest_comment body rest Hc) as Hlc.
  pose proof (longest_word_comment body rest Hc) as Hlw.
  assert (Hli : sc = INITIAL -> bol = true ->
            longest (hash_directive_re "#include")
              ("#"%char :: body ++ LF :: rest) = 0
            /\ longest (hash_directive_re "#includedir")
                 ("#"%char :: body ++ LF :: rest) = 0).
  { intros Hi Hb. specialize (Hinc Hi Hb).
    split; apply longest_hash_directive_none;
      [apply (hash_directive_comment (str "include"))
      |apply (hash_directive_comment (str "includedir"))];
      try (repeat constructor; discriminate);
      intros (b & t & Hbl & E); apply Hinc; exists b, t; auto. }
  rewrite (yy_match_table _ _ _
             (fun r => match r_id r with
                       | R_comment => S (S (length body))
                       | R_nomatch => 1
                       | _ => 0
                       end)).
  - reflexivity.
  - destruct Hsc as [-> | [-> | ->]]; destruct bol;
      try (destruct Hli as [Hli1 Hli2]; [reflexivity | reflexivity|]);
      repeat constructor;
      first [ exact Hlc | exact Hlw | exact Hli1 | exact Hli2
            | vm_compute; reflexivity ].
Qed.

(** The rule of a '#' and the text of a user or group ID. *)
Lemma id_rule_chosen bol t :
  id_text t ->
  exists m, yy_match INITIAL bol ("#"%char :: t) = Some (R_word, S (S m)).
Proof.
  intros Hid.
  assert (Hlw : 2 <= longest (Alt ID WORD_re) ("#"%char :: t)).
  { assert (Hdigits : forall d, isdigit d = true -> matches (plus digit) [d]).
    { intros d Hd. apply (MCat _ _ [d] []); now constructor. }
    destruct Hid as (d & rest & Hd & [-> | ->]).
    - apply (longest_complete _ _ 2); [simpl; lia|].
      change (matches (Alt ID WORD_re) ["#"%char; d]).
      apply MAltL, matches_chr_cat. eexists. split; [reflexivity|].
      apply (MCat _ _ [] [d]); [apply matches_opt; now right | auto].
    - etransitivity; [|apply (longest_complete _ _ 3); [simpl; lia|]]; [lia|].
      change (matches (Alt ID WORD_re) ["#"%char; "-"%char; d]).
      apply MAltL, matches_chr_cat. eexists. split; [reflexivity|].
      apply (MCat _ _ ["-"%char] [d]); [|auto].
      apply matches_opt. left. now apply matches_chr. }
  assert (Hlc : longest comment_re ("#"%char :: t) = 1).
  { apply (longest_is _ _ 1).
    - simpl. lia.
    - change (matches comment_re ["#"%char]). apply matches_chr_cat.
      exists []. split; [reflexivity|].
      apply (MCat _ _ [] []); apply matches_opt; now right.
    - intros k Hk Hm.
      apply matches_comment_inv in Hm as (b & e & E & _ & Hb & He).
      pose proof (firstn_skipn k ("#"%char :: t)) as Hs. rewrite E in Hs.
      assert (Hk' : length (firstn k ("#"%char :: t)) = k)
        by (apply List.firstn_length_le; lia).
      rewrite E in Hk'. simpl in Hk'. rewrite length_app in Hk'.
      simpl in Hs. injection Hs as Hs. rewrite <- app_assoc in Hs.
      symmetry in Hs. apply (comment_not_id _ _ _ _ Hs Hid Hb He). lia. }
  assert (Hli : longest (hash_directive_re "#include") ("#"%char :: t) = 0
                /\ longest (hash_directive_re "#includedir") ("#"%char :: t)
                   = 0).
  { split; apply longest_hash_directive_none;
      [apply (hash_directive_id "i" (str "nclude"))
      |apply (hash_directive_id "i" (str "ncludedir"))];
      auto; discriminate. }
  destruct Hli as [Hli1 Hli2].
  destruct (longest (Alt ID WORD_re) ("#"%char :: t)) as [|[|m]] eqn:Hm;
    [lia | lia |].
  exists m.
  rewrite (yy_match_table _ _ _
             (fun r => match r_id r with
                       | R_word => S (S m)
                       | R_comment | R_nomatch => 1
                       | _ => 0
                       end)).
  - reflexivity.
  - destruct bol; repeat constructor;
      first [ exact Hm | exact Hlc | exact Hli1 | exact Hli2
            | vm_compute; reflexivity ].
Qed.

(** The action of the comment rule on a comment that ends in LF. *)
Lemma comment_action e l yytext :
  exists l1,
    action e R_comment (yytext ++ [LF]) l = (Some (CHAR LF), l1)
    /\ yy_start l1 = INITIAL
    /\ yy_current_buffer l1 = yy_current_buffer l
    /\ sudolineno l1 = (sudolineno l + 1)%Z
    /\ continued l1 = false
    /\ sudoerslval l1 = sudoerslval l.
Proof.
  cbn [action]. rewrite char_at_last by (now destruct yytext).
  rewrite List.last_last, Ascii.eqb_refl.
  eexists. split; [reflexivity|]. repeat split.
Qed.

(** A '#' after other tokens of a line begins a comment as well: the
    comment that follows ALL below is scanned as the newline token, and so
    is a comment met away from a line start. *)
Lemma comment_after_tokens :
  tokens 10 sample_env
    (scanning INITIAL true (str "root ALL = ALL # trailing" ++ [LF]))
  = [WORD; ALL; CHAR "="; ALL; CHAR LF]
  /\ yy_match INITIAL false (str "# trailing" ++ LF :: str "next")
     = Some (R_comment, 11)
  /\ exists l1,
      sudoerslex 1 sample_env
        (scanning INITIAL false (str "# trailing" ++ LF :: str "next"))
      = Some (CHAR LF, l1)
      /\ pending l1 = str "next".
Proof.
  split; [vm_compute; reflexivity|]. split; [vm_compute; reflexivity|].
  eexists. vm_compute. split; reflexivity.
Qed.

(** The comments that the comment rule takes whole: in the start
    conditions INITIAL, STARTDEFS and INDEFS a
    '#' begins a comment wherever it is met, at a line start or after
    other tokens of the line, when the text up to the line break is empty
    (or a lone CR), or begins with a character that is not CR, a digit or
    '-', or begins with '-' and a character that is not CR or a digit, and,
    in INITIAL at a line start, is not include or includedir and a blank:
    the comment is consumed through the LF that ends the line and the
    newline token is returned, with the next line to be scanned in INITIAL.
    In INITIAL a '#' followed by a digit, or by '-' and a digit, is not a
    comment: it is scanned as a WORD of at least two characters. *)
Lemma comment_from_hash e l bol fp :
  (forall body rest fuel,
      yy_start l = INITIAL \/ yy_start l = STARTDEFS \/ yy_start l = INDEFS ->
      comment_text body ->
      (yy_start l = INITIAL -> bol = true -> ~ include_directive body) ->
      yy_current_buffer l
      = Some (mkBuffer ("#"%char :: body ++ LF :: rest) bol fp) ->
      exists l1,
        sudoerslex (S fuel) e l = Some (CHAR LF, l1)
        /\ yy_start l1 = INITIAL
        /\ pending l1 = rest
        /\ at_bol l1 = true
        /\ sudolineno l1 = (sudolineno l + 1)%Z
        /\ sudoerslval l1 = sudoerslval l)
  /\ (forall t fuel,
      yy_start l = INITIAL ->
      id_text t ->
      yy_current_buffer l = Some (mkBuffer ("#"%char :: t) bol fp) ->
      exists n l1,
        2 <= n
        /\ sudoerslex (S fuel) e l = Some (WORD, l1)
        /\ lv_string (sudoerslval l1)
           = SStr (fill_text e (firstn n ("#"%char :: t)))
        /\ yy_start l1 = INITIAL
        /\ pending l1 = skipn n ("#"%char :: t)).
Proof.
  split.
  - intros body rest fuel Hsc Hc Hinc Hb.
    pose proof (comment_rule_chosen (yy_start l) bol body rest Hsc Hc Hinc)
      as Hm.
    pose proof (yylex_step_rule e l _ _ _ _ _ _ Hb Hm) as Hstep.
    assert (Hf : firstn (S (S (length body))) ("#"%char :: body ++ LF :: rest)
                 = ("#"%char :: body) ++ [LF]).
    { cbn [firstn]. replace (S (length body)) with (length body + 1) by lia.
      now rewrite List.firstn_app_2. }
    assert (Hk : skipn (S (S (length body))) ("#"%char :: body ++ LF :: rest)
                 = rest).
    { cbn [skipn]. replace (S (length body)) with (length body + 1) by lia.
      now rewrite drop_app_add. }
    rewrite Hf, Hk in Hstep.
    replace (S (S (length body)) - 1)
      with (length (("#"%char :: body) ++ [LF]) - 1) in Hstep
      by (rewrite length_app; simpl; lia).
    rewrite char_at_last, List.last_last, Ascii.eqb_refl in Hstep
      by discriminate.
    match type of Hstep with _ = action _ _ _ ?x =>
      destruct (comment_action e x ("#"%char :: body))
        as (l1 & Ha & Hs1 & Hb1 & Hl1 & _ & Hv1)
    end.
    rewrite Ha in Hstep. exists l1.
    split; [now apply sudoerslex_returns|].
    cbn in Hb1, Hl1, Hv1. unfold pending, at_bol. rewrite Hb1.
    repeat split; assumption.
  - intros t fuel Hsc Hid Hb.
    destruct (id_rule_chosen bol t Hid) as (m & Hm). rewrite <- Hsc in Hm.
    pose proof (yylex_step_rule e l _ _ _ _ _ _ Hb Hm) as Hstep.
    cbn [action] in Hstep. exists (S (S m)). eexists.
    split; [lia|]. split; [apply sudoerslex_returns; exact Hstep|].
    repeat split. exact Hsc.
Qed.

Lemma comment_from_hash_witness :
  (exists l1,
      sudoerslex 1 sample_env
        (scanning INITIAL true (str "# a comment" ++ LF :: str "root"))
      = Some (CHAR LF, l1)
      /\ pending l1 = str "root")
  /\ (exists n l1,
      2 <= n
      /\ sudoerslex 1 sample_env (scanning INITIAL true (str "#1000 ALL"))
         = Some (WORD, l1)
      /\ pending l1 = skipn n (str "#1000 ALL")).
Proof.
  split.
  - destruct (comment_from_hash sample_env
                (scanning INITIAL true (str "# a comment" ++ LF :: str "root"))
                true (mkFILE (str "/etc/sudoers") [] false false))
      as (H & _).
    destruct (H (str " a comment") (str "root") 0)
      as (l1 & E & _ & Hp & _).
    + left. reflexivity.
    + split; [repeat constructor; discriminate | left; reflexivity].
    + intros _ _ (b & t & _ & [E | E]); discriminate E.
    + reflexivity.
    + exists l1. split; assumption.
  - destruct (comment_from_hash sample_env
                (scanning INITIAL true (str "#1000 ALL"))
                true (mkFILE (str "/etc/sudoers") [] false false))
      as (_ & H).
    destruct (H (str "1000 ALL") 0) as (n & l1 & Hn & E & _ & _ & Hp).
    + reflexivity.
    + exists "1"%char, (str "000 ALL"). split; [reflexivity | now left].
    + reflexivity.
    + exists n, l1. repeat split; assumption.
Defined.

(** C9 (the code departs from the specification): the pattern of the
    comment rule leaves its body optional, so that a '#' in front of a text
    that the body does not match is taken by the rule alone, as a comment
    of one character; its last character is no newline, the input is not
    at its end, and the action returns ERROR with the text of [errno] as
    the message instead of a newline token. This happens to "#-" in front
    of the line break, which is no uid, to '#' and a CR that no LF follows,
    and, in STARTDEFS and INDEFS, to a '#' and a digit. The rest of the
    line is then scanned as if no comment had begun. A comment that the
    body matches is taken through the line break, also when it begins
    after other tokens of the line. *)
Theorem comment_lone_hash_is_error :
  (forall bol rest,
      yy_match INITIAL bol (str "#-" ++ LF :: rest) = Some (R_comment, 1))
  /\ (exists l',
        sudoerslex 1 sample_env (scanning INITIAL true (str "#-" ++ [LF]))
        = Some (ERROR, l')
        /\ sudoers_errstr l' = Some Strerror
        /\ yy_start l' = INITIAL
        /\ pending l' = str "-" ++ [LF])
  /\ tokens 12 sample_env (scanning INITIAL true (str "#-" ++ [LF]))
     = [ERROR; WORD; CHAR LF]
  /\ tokens 12 sample_env
       (scanning INITIAL true (str "#" ++ [CR] ++ str "x" ++ [LF]))
     = [ERROR; NOMATCH; WORD; CHAR LF]
  /\ tokens 12 sample_env (scanning STARTDEFS false (str "#1" ++ [LF]))
     = [ERROR; NOMATCH; CHAR LF]
  /\ tokens 12 sample_env (scanning INITIAL true (str "# a comment" ++ [LF]))
     = [CHAR LF]
  /\ tokens 12 sample_env
       (scanning INITIAL true (str "root ALL = ALL # all" ++ [LF]))
     = [WORD; ALL; CHAR "="; ALL; CHAR LF].
Proof.
  split; [intros [|] rest; vm_compute; reflexivity|].
  split; [eexists; vm_compute; repeat split|].
  repeat split; vm_compute; reflexivity.
Qed.

End TokeFacts.

(** ** The line reader, further properties *)

Module InputProps.
Import InputFacts.

Lemma last_app_ne (l1 l2 : list ascii) d :
  l2 <> [] -> List.last (l1 ++ l2) d = List.last l2 d.
Proof.
  intros Hne. induction l1 as [|x l1 IH]; [reflexivity|].
  simpl. destruct (l1 ++ l2) eqn:E; [|exact IH].
  apply app_eq_nil in E as [_ E]. congruence.
Qed.

Lemma split_line_length s :
  length (fst (split_line s)) + length (snd (split_line s)) = length s.
Proof.
  induction s as [|c s IH]; [reflexivity|]. simpl.
  destruct (Ascii.eqb c LF); [reflexivity|].
  destruct (split_line s). simpl in *. lia.
Qed.

Lemma split_line_rest_shorter c s :
  length (snd (split_line (c :: s))) <= length s.
Proof.
  pose proof (split_line_length (c :: s)) as Hlen.
  pose proof (split_line_nonempty c s) as Hne.
  destruct (fst (split_line (c :: s))); [congruence|].
  cbn [length] in Hlen. lia.
Qed.

Lemma normal_lines_fuel k1 : forall k2 data,
  length data <= k1 -> length data <= k2 ->
  normal_lines k1 data = normal_lines k2 data.
Proof.
  induction k1 as [|k1 IH]; intros k2 data H1 H2.
  - destruct data; [now destruct k2 | simpl in H1; lia].
  - destruct data as [|c s]; [now destruct k2|].
    destruct k2 as [|k2]; [simpl in H2; lia|].
    cbn [normal_lines].
    pose proof (split_line_rest_shorter c s) as Hr.
    destruct (split_line (c :: s)) as [line rest]. cbn [snd] in Hr.
    simpl in H1, H2. f_equal. apply IH; lia.
Qed.

Lemma normalized_cons c s :
  normalized (c :: s)
  = normal_line (fst (split_line (c :: s)))
    ++ normalized (snd (split_line (c :: s))).
Proof.
  unfold normalized at 1. cbn [length normal_lines].
  pose proof (split_line_rest_shorter c s) as Hr.
  destruct (split_line (c :: s)) as [line rest]. cbn [fst snd] in *.
  f_equal. apply normal_lines_fuel; lia.
Qed.

(** Every line of the normalized text ends in a newline and holds no NUL. *)
Lemma normalized_ok data :
  nul_free (normalized data)
  /\ (data <> [] -> List.last (normalized data) NUL = LF)
  /\ (data <> [] -> normalized data <> []).
Proof.
  remember (length data) as n eqn:Hn. revert data Hn.
  induction n as [n IH] using lt_wf_ind. intros data Hn.
  destruct data as [|c s].
  - split; [intros []|]. split; congruence.
  - rewrite normalized_cons.
    pose proof (split_line_rest_shorter c s) as Hr.
    destruct (normal_line_ok _ (split_line_nonempty c s))
      as (Hlast & Hnul & Hne).
    destruct (IH (length (snd (split_line (c :: s))))
                ltac:(subst n; cbn [length]; lia) _ eq_refl) as (Hn1 & Hl1 & Hne1).
    split; [|split].
    + intros Hin. apply in_app_or in Hin as [Hin | Hin]; auto.
    + intros _. destruct (snd (split_line (c :: s))) as [|d t] eqn:E.
      * change (normalized []) with (@nil ascii). now rewrite app_nil_r.
      * rewrite last_app_ne by (apply Hne1; discriminate).
        apply Hl1. discriminate.
    + intros _ E. apply app_eq_nil in E as [E _]. now apply Hne.
Qed.

(** A line that is followed by more text ends in a newline. *)
Lemma split_line_lf s :
  snd (split_line s) <> [] ->
  Ascii.eqb (List.last (fst (split_line s)) NUL) LF = true.
Proof.
  induction s as [|c s IH]; [simpl; congruence|].
  cbn [split_line].
  destruct (Ascii.eqb c LF) eqn:Hc; [intros _; exact Hc|].
  destruct (split_line s) as [l r] eqn:Hs. cbn [fst snd] in *.
  intros Hr. specialize (IH Hr). destruct l as [|x l]; [|exact IH].
  destruct s as [|y s]; [simpl in Hs; congruence|].
  exfalso. simpl in Hs. destruct (Ascii.eqb y LF); [discriminate Hs|].
  destruct (split_line s). discriminate Hs.
Qed.

Lemma normal_line_length line :
  length (normal_line line)
  <= if Ascii.eqb (List.last line NUL) LF
     then length line else length line + 1.
Proof.
  unfold normal_line. destruct (memchr line NUL) as [i|] eqn:Hm.
  - destruct (memchr_some _ _ _ Hm) as [Hlt _].
    rewrite length_app, length_take. simpl.
    destruct (Ascii.eqb (List.last line NUL) LF); lia.
  - destruct (Ascii.eqb (List.last line NUL) LF);
      rewrite ?length_app; simpl; lia.
Qed.

Lemma normalized_length data : length (normalized data) <= length data + 1.
Proof.
  remember (length data) as n eqn:Hn. revert data Hn.
  induction n as [n IH] using lt_wf_ind. intros data Hn.
  destruct data as [|c s]; [simpl; lia|].
  rewrite normalized_cons, length_app.
  pose proof (split_line_rest_shorter c s) as Hr.
  pose proof (split_line_length (c :: s)) as Hlen.
  pose proof (split_line_lf (c :: s)) as Hlf.
  pose proof (normal_line_length (fst (split_line (c :: s)))) as Hnl.
  pose proof (IH (length (snd (split_line (c :: s))))
                ltac:(subst n; cbn [length]; lia) _ eq_refl) as IHr.
  destruct (snd (split_line (c :: s))) as [|d t].
  - change (normalized []) with (@nil ascii). cbn [length] in *.
    destruct (Ascii.eqb (List.last (fst (split_line (c :: s))) NUL) LF);
      subst n; lia.
  - rewrite Hlf in Hnl by discriminate. subst n. cbn [length] in *. lia.
Qed.

(** The copy to flex of a buffer that holds [avail > 0] unread bytes. *)
Lemma deliver_chunk max_size lb fp :
  len lb = length (buf lb) -> off lb < len lb -> 0 < max_size ->
  exists k,
    0 < k <= len lb - off lb
    /\ k <= max_size
    /\ deliver max_size (len lb - off lb) lb fp
       = Input (firstn k (skipn (off lb) (buf lb)))
           (mkLinebuf (buf lb) (size lb) (len lb) (off lb + k)
              (toke_start lb) (toke_end lb)) fp
    /\ firstn k (skipn (off lb) (buf lb)) <> [].
Proof.
  intros Hlen Hoff Hmax. unfold deliver.
  set (k := if max_size <? len lb - off lb then max_size else len lb - off lb).
  assert (Hk : 0 < k <= len lb - off lb /\ k <= max_size).
  { unfold k. destruct (Nat.ltb_spec max_size (len lb - off lb)); lia. }
  exists k. repeat split; try lia.
  intros E. apply (f_equal (@length ascii)) in E.
  rewrite length_take, length_drop in E. simpl in E. lia.
Qed.

(** A refill puts the next line of the stream, normalized, into the line
    buffer and copies its start to flex. *)
Lemma refill_state max_size lb fp :
  len lb - off lb = 0 -> f_error fp = false -> f_data fp <> [] ->
  let nl := normal_line (fst (split_line (f_data fp))) in
  exists sz fp1,
    sudoers_input max_size lb fp
    = deliver max_size (length nl - 0) (mkLinebuf nl sz (length nl) 0 0 0) fp1
    /\ f_data fp1 = snd (split_line (f_data fp))
    /\ f_error fp1 = false.
Proof.
  intros Havail Herr Hdata. unfold sudoers_input, getdelim.
  rewrite Havail, Herr. cbn [Nat.eqb].
  destruct (f_data fp) as [|c s] eqn:Hd; [congruence|].
  pose proof (split_line_nonempty c s) as Hne.
  destruct (split_line (c :: s)) as [line rest] eqn:Hsplit.
  cbn [fst snd] in *. cbn [buf size]. rewrite firstn_all, Nat.sub_0_r.
  unfold normal_line.
  destruct (memchr line NUL) as [i|] eqn:Hm.
  - destruct (memchr_some _ _ _ Hm) as [Hlt _].
    assert (Hi : length (firstn i line) = i) by (rewrite length_take; lia).
    replace (char_at (firstn i line ++ [LF]) (i + 1 - 1)) with LF.
    2:{ unfold char_at. replace (i + 1 - 1) with (length (firstn i line)) by lia.
        now rewrite nth_middle. }
    rewrite Ascii.eqb_refl. cbn [negb].
    replace (i + 1) with (length (firstn i line ++ [LF]))
      by (rewrite length_app, Hi; reflexivity).
    eexists _, _. split; [reflexivity|]. split; reflexivity.
  - rewrite (char_at_last line Hne).
    destruct (Ascii.eqb_spec (List.last line NUL) LF) as [E|E]; cbn [negb].
    + eexists _, _. split; [reflexivity|]. split; reflexivity.
    + rewrite firstn_all.
      replace (length line + 1) with (length (line ++ [LF]))
        by (rewrite length_app; reflexivity).
      eexists _, _. split; [reflexivity|]. split; reflexivity.
Qed.

(** With fuel for every call, the calls of [sudoers_input] hand flex the
    unread rest of the line buffer and then the normalized text of the
    stream. *)
Lemma slurp_drain max_size :
  0 < max_size ->
  forall fuel lb fp,
    len lb = length (buf lb) -> off lb <= len lb -> f_error fp = false ->
    (len lb - off lb) + length (normalized (f_data fp)) + 1 <= fuel ->
    slurp fuel max_size lb fp
    = skipn (off lb) (buf lb) ++ normalized (f_data fp).
Proof.
  intros Hmax. induction fuel as [|fuel IH]; intros lb fp Hlen Hoff Herr Hfuel;
    [lia|].
  cbn [slurp].
  destruct (Nat.eq_dec (len lb - off lb) 0) as [Hz | Hnz].
  - (* nothing buffered: end of file, or a refill *)
    rewrite drop_ge by lia. cbn [app].
    destruct (f_data fp) as [|c s] eqn:Hd.
    + unfold sudoers_input. now rewrite Hz, Herr, Hd.
    + destruct (refill_state max_size lb fp Hz Herr ltac:(congruence))
        as (sz & fp1 & -> & Hd1 & He1).
      rewrite Hd in *. cbv zeta.
      set (nl := normal_line (fst (split_line (c :: s)))) in *.
      destruct (normal_line_ok _ (split_line_nonempty c s)) as (_ & _ & Hne).
      fold nl in Hne.
      destruct (deliver_chunk max_size (mkLinebuf nl sz (length nl) 0 0 0) fp1)
        as (k & Hk & Hkm & Hdel & Hbytes); cbn [len buf off]; auto.
      { destruct nl; [congruence | simpl; lia]. }
      cbn [buf off size len toke_start toke_end] in Hdel, Hk, Hbytes.
      rewrite drop_0 in Hdel, Hbytes.
      rewrite Hdel. rewrite Nat.sub_0_r in Hk.
      destruct (firstn k nl) as [|b bs] eqn:Hf; [congruence|].
      rewrite IH; cbn [buf off len]; auto; try lia.
      * rewrite Hd1, normalized_cons. fold nl.
        rewrite app_assoc, <- Hf, firstn_skipn. reflexivity.
      * rewrite Hd1. rewrite normalized_cons, length_app in Hfuel.
        fold nl in Hfuel. lia.
  - (* bytes left in the line buffer *)
    assert (E : sudoers_input max_size lb fp
                = deliver max_size (len lb - off lb) lb fp).
    { unfold sudoers_input. destruct (len lb - off lb =? 0) eqn:Ez;
        [apply Nat.eqb_eq in Ez; lia | reflexivity]. }
    rewrite E.
    destruct (deliver_chunk max_size lb fp) as (k & Hk & Hkm & -> & Hbytes);
      auto; [lia|].
    destruct (firstn k (skipn (off lb) (buf lb))) as [|b bs] eqn:Hf;
      [congruence|].
    rewrite IH; cbn [buf off len]; auto; try lia.
    rewrite app_assoc, <- Hf, <- drop_drop, firstn_skipn. reflexivity.
Qed.

(** X1: whatever the size of the reads flex asks for, the text it gets from
    a stream without read errors is the text of the stream with every line
    normalized: it holds no NUL and, unless the stream is empty, ends in a
    newline. *)
Theorem slurp_normalized fuel max_size fp :
  0 < max_size ->
  f_error fp = false ->
  length (f_data fp) + 2 <= fuel ->
  slurp fuel max_size linebuf_zero fp = normalized (f_data fp)
  /\ nul_free (slurp fuel max_size linebuf_zero fp)
  /\ (f_data fp <> [] ->
      List.last (slurp fuel max_size linebuf_zero fp) NUL = LF).
Proof.
  intros Hmax Herr Hfuel.
  assert (E : slurp fuel max_size linebuf_zero fp = normalized (f_data fp)).
  { rewrite (slurp_drain max_size Hmax); auto.
    cbn. pose proof (normalized_length (f_data fp)). lia. }
  rewrite E. destruct (normalized_ok (f_data fp)) as (Hn & Hl & _).
  repeat split; auto.
Qed.

Lemma slurp_normalized_witness :
  slurp 12 3 linebuf_zero
    (mkFILE (str "/etc/sudoers") (str "ab" ++ NUL :: str "cd" ++ LF :: str "xy")
       false false)
  = str "ab" ++ LF :: str "xy" ++ [LF].
Proof.
  destruct (slurp_normalized 12 3
              (mkFILE (str "/etc/sudoers")
                 (str "ab" ++ NUL :: str "cd" ++ LF :: str "xy") false false))
    as (E & _).
  - lia.
  - reflexivity.
  - vm_compute. lia.
  - rewrite E. reflexivity.
Defined.

(** X2: [sudoers_input] never hands flex more than [max_size] bytes. *)
Theorem sudoers_input_bounded max_size lb fp :
  match sudoers_input max_size lb fp with
  | Input bytes _ _ => length bytes <= max_size
  | FatalError _ => True
  end.
Proof.
  assert (Hd : forall avail lb' fp',
             match deliver max_size avail lb' fp' with
             | Input bytes _ _ => length bytes <= max_size
             | FatalError _ => True
             end).
  { intros avail lb' fp'. unfold deliver. rewrite length_take.
    destruct (Nat.ltb_spec max_size avail); lia. }
  unfold sudoers_input.
  destruct (len lb - off lb =? 0); [|apply Hd].
  destruct (f_error fp); [exact I|].
  destruct (f_data fp) as [|c s] eqn:Hdata; [simpl; lia|].
  destruct (getdelim lb fp) as [[[n|] lb1] fp1].
  - destruct (memchr (firstn n (buf lb1)) NUL) as [i|];
      match goal with
      | |- context [if ?b then _ else _] => destruct b
      end; apply Hd.
  - destruct (f_eof fp1); [simpl; lia | exact I].
Qed.

(** The buffer [sudoers_create_buffer] makes for a stream without read
    errors holds the normalized text of the stream: no NUL reaches the
    scanner, and the last line ends in a newline. *)
Theorem create_buffer_normalized fp :
  f_error fp = false ->
  yy_chars (sudoers_create_buffer fp) = normalized (f_data fp)
  /\ nul_free (yy_chars (sudoers_create_buffer fp))
  /\ yy_at_bol (sudoers_create_buffer fp) = true.
Proof.
  intros Herr. unfold sudoers_create_buffer, stream_chars. cbn [yy_chars yy_at_bol].
  assert (E : slurp (length (f_data fp) + 2) YY_READ_BUF_SIZE linebuf_zero fp
              = normalized (f_data fp)).
  { rewrite (slurp_drain YY_READ_BUF_SIZE); auto.
    - unfold YY_READ_BUF_SIZE. lia.
    - cbn. pose proof (normalized_length (f_data fp)). lia. }
  rewrite E. destruct (normalized_ok (f_data fp)) as (Hn & _).
  repeat split; auto.
Qed.

Lemma create_buffer_normalized_witness :
  yy_chars (sudoers_create_buffer
              (mkFILE (str "/etc/sudoers") (str "root ALL = ALL") false false))
  = str "root ALL = ALL" ++ [LF].
Proof.
  destruct (create_buffer_normalized
              (mkFILE (str "/etc/sudoers") (str "root ALL = ALL") false false))
    as (E & _); [reflexivity|].
  rewrite E. reflexivity.
Defined.

End InputProps.

(** ** The include stack, further properties *)

Module IncludeProps.
Import IncludeFacts.

(** The stack-growing step of [push_include] below the depth limit: it
    touches the stack array only. *)
Lemma grow_fields e path l :
  stack_ok l ->
  idepth l <= MAX_SUDOERS_DEPTH ->
  exists l2,
    (if istacksize l <=? idepth l
     then if MAX_SUDOERS_DEPTH <? idepth l
          then TooDeep (sudoerserror
                 (if sudoers_warnings e
                  then sudo_warn (WTooManyLevels path) l else l))
          else Grown (set_istack
                 (istack l ++ replicate SUDOERS_STACK_INCREMENT frame_uninit)
                 (set_istacksize (istacksize l + SUDOERS_STACK_INCREMENT) l))
     else Grown l) = Grown l2
    /\ idepth l2 = idepth l /\ idepth l < length (istack l2)
    /\ keepopen l2 = keepopen l /\ sudolinebuf l2 = sudolinebuf l
    /\ yy_current_buffer l2 = yy_current_buffer l
    /\ sudoers l2 = sudoers l /\ sudolineno l2 = sudolineno l
    /\ closed l2 = closed l /\ nerrors l2 = nerrors l
    /\ warned l2 = warned l /\ yy_start l2 = yy_start l.
Proof.
  intros [Hlen Hle] Hd.
  destruct (istacksize l <=? idepth l) eqn:Hfull.
  - apply Nat.leb_le in Hfull.
    assert (Hm : (MAX_SUDOERS_DEPTH <? idepth l) = false)
      by (apply Nat.ltb_ge; lia).
    rewrite Hm. eexists. split; [reflexivity|]. cbn.
    rewrite length_app. cbn. repeat split; auto. lia.
  - apply Nat.leb_gt in Hfull. eexists. split; [reflexivity|].
    repeat split; auto. lia.
Qed.

(** What [push_frame] saves in the slot of the old depth. *)
Lemma push_frame_saved path fp l :
  idepth l < length (istack l) ->
  frame_at (push_frame path fp l) (idepth l)
  = mkFrame (sudolinebuf l) (yy_current_buffer l) (sudoers l)
      (is_more (frame_at l (idepth l))) (sudolineno l) (keepopen l).
Proof.
  intros Hlt. unfold push_frame, frame_at. cbn.
  now rewrite list_lookup_insert_eq.
Qed.

(** X3: an [@include] of a file that opens, undone by [pop_include] at the
    end of that file, whatever was scanned in between: the parent file is
    the current source again, with its path, line number, line buffer, flex
    buffer and depth as they were at the push; the stream of the included
    file is closed unless it is kept open; [keepopen] is what
    [open_sudoers] left at the push. *)
Theorem push_pop_round_trip e opath path l fp ko :
  stack_ok l ->
  idepth l <= MAX_SUDOERS_DEPTH ->
  expand_include e opath l = (Some path, l) ->
  open_sudoers e path true (keepopen l) = (Some fp, ko) ->
  exists l1,
    push_include e opath false l = (true, l1)
    /\ yy_current_buffer l1 = Some (sudoers_create_buffer fp)
    /\ sudolineno l1 = 1%Z
    /\ forall l2 b,
        istack l2 = istack l1 -> idepth l2 = idepth l1 ->
        yy_current_buffer l2 = Some b ->
        exists l3,
          pop_include e l2 = (true, l3)
          /\ idepth l3 = idepth l
          /\ sudoers l3 = sudoers l
          /\ sudolineno l3 = sudolineno l
          /\ sudolinebuf l3 = sudolinebuf l
          /\ yy_current_buffer l3 = yy_current_buffer l
          /\ keepopen l3 = ko
          /\ closed l3
             = if keepopen l2 then closed l2
               else closed l2 ++ [yy_input_file b].
Proof.
  intros Hok Hdepth He Hopen.
  destruct (grow_fields e path l Hok Hdepth)
    as (l2 & Hgrow & Hd2 & Hlen2 & Hko2 & Hlb2 & Hb2 & Hs2 & Hln2 & _).
  unfold push_include. rewrite He, Hgrow.
  change (keepopen (set_more (idepth l2) [] l2)) with (keepopen l2).
  rewrite Hko2, Hopen.
  remember (set_keepopen ko (set_more (idepth l2) [] l2)) as lx eqn:Hlx.
  assert (Hdx : idepth lx = idepth l) by (subst lx; exact Hd2).
  assert (Hlenx : idepth lx < length (istack lx)).
  { subst lx. cbn. rewrite length_insert. lia. }
  assert (Hmore : is_more (frame_at lx (idepth lx)) = []).
  { subst lx. apply (frame_at_set_more (idepth l2) [] l2). lia. }
  pose proof (push_frame_saved path fp lx Hlenx) as Hsaved.
  rewrite Hmore in Hsaved.
  assert (Hfields : sudolinebuf lx = sudolinebuf l
                    /\ yy_current_buffer lx = yy_current_buffer l
                    /\ sudoers lx = sudoers l /\ sudolineno lx = sudolineno l
                    /\ keepopen lx = ko).
  { subst lx. cbn. auto. }
  destruct Hfields as (Hlbx & Hbx & Hsx & Hlnx & Hkox).
  rewrite Hlbx, Hbx, Hsx, Hlnx, Hkox, Hdx in Hsaved.
  exists (push_frame path fp lx).
  split; [reflexivity|]. split; [reflexivity|]. split; [reflexivity|].
  intros l3 b Hst Hdp Hb. unfold pop_include. rewrite Hdp, Hb.
  change (idepth (push_frame path fp lx)) with (idepth lx + 1).
  rewrite Hdx. replace (idepth l + 1) with (S (idepth l)) by lia.
  assert (Hf3 : forall l4, istack l4 = istack l3 ->
                  frame_at l4 (idepth l)
                  = mkFrame (sudolinebuf l) (yy_current_buffer l) (sudoers l)
                      [] (sudolineno l) ko).
  { intros l4 E. unfold frame_at in *. now rewrite E, Hst. }
  rewrite Hf3 by (destruct (keepopen l3); reflexivity).
  cbn [is_more open_next].
  eexists. split; [reflexivity|].
  cbn [idepth set_keepopen set_sudolineno set_sudoers set_sudolinebuf
         set_buffer set_idepth sudoers sudolineno sudolinebuf
         yy_current_buffer keepopen closed].
  assert (Hf4 : forall l4, istack l4 = <[idepth l :=
                  mkFrame (sudolinebuf l) (yy_current_buffer l) (sudoers l)
                    [] (sudolineno l) ko]> (istack l3) ->
                  frame_at l4 (idepth l)
                  = mkFrame (sudolinebuf l) (yy_current_buffer l) (sudoers l)
                      [] (sudolineno l) ko).
  { intros l4 E. unfold frame_at. rewrite E.
    rewrite list_lookup_insert_eq; [reflexivity|].
    rewrite Hst. cbn. rewrite length_insert. lia. }
  rewrite Hf4.
  2:{ unfold set_more. rewrite Hf3 by (destruct (keepopen l3); reflexivity).
      destruct (keepopen l3); reflexivity. }
  cbn. repeat split; auto. destruct (keepopen l3); reflexivity.
Qed.

Lemma push_pop_round_trip_witness :
  exists l1 l3,
    push_include sample_env (str "/etc/sudoers.local") false
      (init_lexer (scanning INITIAL true (str "root ALL = ALL")))
    = (true, l1)
    /\ sudolineno l1 = 1%Z
    /\ pop_include sample_env l1 = (true, l3)
    /\ sudoers l3 = str "/etc/sudoers"
    /\ pending l3 = str "root ALL = ALL"
    /\ idepth l3 = 0.
Proof.
  destruct (push_pop_round_trip sample_env (str "/etc/sudoers.local")
              (str "/etc/sudoers.local")
              (init_lexer (scanning INITIAL true (str "root ALL = ALL")))
              (mkFILE (str "/etc/sudoers.local") [] false false) false)
    as (l1 & Hpush & Hb1 & Hln & Hpop).
  - apply stack_ok_init.
  - vm_compute. lia.
  - reflexivity.
  - reflexivity.
  - destruct (Hpop l1 _ eq_refl eq_refl Hb1)
      as (l3 & E & Hd & Hs & _ & _ & Hb & _).
    exists l1, l3. split; [exact Hpush|].
    split; [exact Hln|].
    split; [exact E|]. split; [exact Hs|].
    split; [unfold pending; rewrite Hb; reflexivity | exact Hd].
Defined.

(** X4: an [@include] of a file that [open_sudoers] cannot open fails: a
    parse error is counted and nothing is pushed; depth, current source,
    flex buffer, line buffer and line number stay as they were. *)
Theorem push_include_unopened e opath path l ko :
  stack_ok l ->
  idepth l <= MAX_SUDOERS_DEPTH ->
  expand_include e opath l = (Some path, l) ->
  open_sudoers e path true (keepopen l) = (None, ko) ->
  exists l1,
    push_include e opath false l = (false, l1)
    /\ nerrors l1 = S (nerrors l)
    /\ idepth l1 = idepth l
    /\ sudoers l1 = sudoers l
    /\ yy_current_buffer l1 = yy_current_buffer l
    /\ sudolinebuf l1 = sudolinebuf l
    /\ sudolineno l1 = sudolineno l
    /\ closed l1 = closed l
    /\ keepopen l1 = ko.
Proof.
  intros Hok Hdepth He Hopen.
  destruct (grow_fields e path l Hok Hdepth)
    as (l2 & Hgrow & Hd2 & Hlen2 & Hko2 & Hlb2 & Hb2 & Hs2 & Hln2 & Hc2 & Hn2
        & _).
  unfold push_include. rewrite He, Hgrow.
  change (keepopen (set_more (idepth l2) [] l2)) with (keepopen l2).
  rewrite Hko2, Hopen. eexists. split; [reflexivity|]. cbn.
  repeat split; auto.
Qed.

Lemma push_include_unopened_witness :
  exists l1,
    push_include sample_closed_env (str "/etc/sudoers.local") false
      (init_lexer (scanning INITIAL true (str "root ALL = ALL")))
    = (false, l1)
    /\ nerrors l1 = 1
    /\ idepth l1 = 0.
Proof.
  destruct (push_include_unopened sample_closed_env (str "/etc/sudoers.local")
              (str "/etc/sudoers.local")
              (init_lexer (scanning INITIAL true (str "root ALL = ALL")))
              false)
    as (l1 & E & Hn & Hd & _).
  - apply stack_ok_init.
  - vm_compute. lia.
  - reflexivity.
  - reflexivity.
  - exists l1. repeat split; assumption.
Defined.

(** X5: the paths [read_dir_files] collects are those of the entries whose
    name is not empty, does not end in '~' and holds no '.', and that
    [stat] finds to be regular files; they are counted, and nothing else
    changes. *)
Theorem read_dir_files_eligible e dirpath l names :
  opendir e dirpath = DirEntries names ->
  exists paths,
    read_dir_files e dirpath l = (Z.of_nat (length paths), paths, l)
    /\ forall p,
        List.In p paths
        <-> exists n, List.In n names /\ p = dir_path dirpath n
                      /\ kept_name n /\ stat_isreg e p = true.
Proof.
  intros Hdir. unfold read_dir_files. rewrite Hdir.
  eexists. split; [reflexivity|]. clear Hdir.
  induction names as [|n names IH]; intros p; cbn [read_dir_loop].
  - split; [intros [] | intros (n & [] & _)].
  - assert (Hkeep : (length n =? 0)
                    || Ascii.eqb (char_at n (length n - 1)) "~"
                    || has_char "." n = false <-> kept_name n).
    { unfold kept_name. destruct n as [|c n'].
      - cbn. split; [discriminate | intros (H & _); congruence].
      - rewrite (char_at_last (c :: n')) by discriminate.
        change (length (c :: n') =? 0) with false. cbn [orb].
        destruct (Ascii.eqb_spec (List.last (c :: n') NUL) "~") as [E|E];
          cbn [orb].
        + split; [discriminate | intros (_ & H & _); congruence].
        + unfold has_char. split.
          * intros H. repeat split; [discriminate | exact E |].
            intros Hin.
            assert (Hex : existsb (Ascii.eqb ".") (c :: n') = true).
            { apply existsb_exists. exists "."%char.
              split; [exact Hin | apply Ascii.eqb_refl]. }
            congruence.
          * intros (_ & _ & H). destruct (existsb _ _) eqn:Hex; [|reflexivity].
            exfalso. apply H. apply existsb_exists in Hex as (x & Hin & Hx).
            apply Ascii.eqb_eq in Hx. now subst. }
    destruct ((length n =? 0) || Ascii.eqb (char_at n (length n - 1)) "~"
              || has_char "." n) eqn:Hskip.
    + rewrite IH. split.
      * intros (m & Hin & Hrest). exists m. split; [now right | exact Hrest].
      * intros (m & [-> | Hin] & Hp & Hk & Hreg); [|eauto].
        apply Hkeep in Hk. discriminate Hk.
    + fold (dir_path dirpath n).
      destruct (stat_isreg e (dir_path dirpath n)) eqn:Hreg; cbn [negb].
      * split.
        -- intros [<- | Hin].
           ++ exists n. split; [now left|]. split; [reflexivity|].
              split; [now apply Hkeep | exact Hreg].
           ++ apply IH in Hin as (m & Hin & Hrest). exists m.
              split; [now right | exact Hrest].
        -- intros (m & [-> | Hin] & Hp & Hk & Hr); [now left|].
           right. apply IH. eauto.
      * rewrite IH. split.
        -- intros (m & Hin & Hrest). exists m. split; [now right | exact Hrest].
        -- intros (m & [-> | Hin] & -> & Hk & Hr); [congruence | eauto].
Qed.

Lemma read_dir_files_eligible_witness :
  fst (fst (read_dir_files sample_closed_env (str "/etc/sudoers.d")
              (scanning INITIAL true [])))
  = 2%Z
  /\ List.In (str "/etc/sudoers.d/zeta")
       (snd (fst (read_dir_files sample_closed_env (str "/etc/sudoers.d")
                    (scanning INITIAL true []))))
  /\ ~ List.In (str "/etc/sudoers.d/local~")
       (snd (fst (read_dir_files sample_closed_env (str "/etc/sudoers.d")
                    (scanning INITIAL true [])))).
Proof.
  destruct (read_dir_files_eligible sample_closed_env (str "/etc/sudoers.d")
              (scanning INITIAL true [])
              [str "local~"; str "site.bak"; str "zeta"; str "alpha"]
              eq_refl) as (paths & E & Hin).
  rewrite E. cbn [fst snd]. injection E as E. subst paths.
  split; [reflexivity|]. split.
  - apply Hin. exists (str "zeta"). split; [cbn; tauto|].
    split; [reflexivity|]. split; [|reflexivity].
    repeat split; [discriminate | discriminate|].
    cbn. intuition discriminate.
  - intros H. apply Hin in H as (n & _ & Hp & (_ & Hk & _) & _).
    apply Hk. cbn in Hp. injection Hp as <-. reflexivity.
Defined.

Lemma open_next_unopened e more : forall ko,
  Forall (unopened e) more ->
  exists ko', open_next e more ko = (None, [], ko').
Proof.
  induction more as [|p more IH]; intros ko Hall; cbn [open_next].
  - now exists ko.
  - inversion Hall as [|? ? Hp Hrest]; subst.
    specialize (Hp ko). destruct (open_sudoers e p false ko) as [[fp|] ko'];
      [discriminate Hp|]. apply IH, Hrest.
Qed.

(** X6: an [@includedir] of a secure directory that is gone when it is
    opened, or that holds no eligible file that [open_sudoers] opens, is
    not an error: [push_include] returns true and pushes nothing; depth,
    current source, flex buffer, line buffer, line number, error count and
    warnings stay as they were, and no path is left pending. *)
Theorem includedir_nothing_opens e opath path l st_uid st_gid :
  stack_ok l ->
  idepth l <= MAX_SUDOERS_DEPTH ->
  expand_include e opath l = (Some path, l) ->
  sudo_secure_dir e path (sudoers_uid e) (sudoers_gid e)
  = (SUDO_PATH_SECURE, st_uid, st_gid) ->
  opendir e path = DirENOENT
  \/ (exists names, opendir e path = DirEntries names
                    /\ Forall (unopened e) (read_dir_loop e path names)) ->
  exists l1,
    push_include e opath true l = (true, l1)
    /\ idepth l1 = idepth l
    /\ is_more (frame_at l1 (idepth l)) = []
    /\ sudoers l1 = sudoers l
    /\ yy_current_buffer l1 = yy_current_buffer l
    /\ sudolinebuf l1 = sudolinebuf l
    /\ sudolineno l1 = sudolineno l
    /\ nerrors l1 = nerrors l
    /\ warned l1 = warned l
    /\ closed l1 = closed l.
Proof.
  intros Hok Hdepth He Hsec Hdir.
  destruct (grow_fields e path l Hok Hdepth)
    as (l2 & Hgrow & Hd2 & Hlen2 & Hko2 & Hlb2 & Hb2 & Hs2 & Hln2 & Hc2 & Hn2
        & Hw2 & _).
  unfold push_include. rewrite He, Hgrow, Hsec.
  remember (set_more (idepth l2) [] l2) as l3 eqn:Hl3.
  assert (Hd3 : idepth l3 = idepth l) by (subst l3; exact Hd2).
  assert (Hlen3 : idepth l < length (istack l3)).
  { subst l3. cbn. rewrite length_insert. lia. }
  assert (Hm3 : is_more (frame_at l3 (idepth l)) = []).
  { subst l3. rewrite <- Hd2. apply frame_at_set_more. lia. }
  assert (Hf3 : sudoers l3 = sudoers l
                /\ yy_current_buffer l3 = yy_current_buffer l
                /\ sudolinebuf l3 = sudolinebuf l
                /\ sudolineno l3 = sudolineno l /\ nerrors l3 = nerrors l
                /\ warned l3 = warned l /\ closed l3 = closed l).
  { subst l3. cbn. auto 10. }
  destruct Hf3 as (Hs3 & Hb3 & Hlb3 & Hln3 & Hn3 & Hw3 & Hc3).
  unfold switch_dir, read_dir_files. rewrite Hd3.
  destruct Hdir as [-> | (names & -> & Hall)].
  - cbn. exists l3. repeat split; auto.
  - destruct (read_dir_loop e path names) as [|p ps] eqn:Hpaths.
    + cbn. exists l3. repeat split; auto.
    + rewrite <- Hpaths in *.
      assert (Hpos : (0 <? Z.of_nat (length (read_dir_loop e path names)))%Z
                     = true).
      { rewrite Hpaths. cbn [length]. apply Z.ltb_lt. lia. }
      rewrite Hpos.
      assert (Hle : (Z.of_nat (length (read_dir_loop e path names)) <=? 0)%Z
                    = false).
      { apply Z.leb_gt. apply Z.ltb_lt in Hpos. exact Hpos. }
      rewrite Hle. rewrite Hm3, fold_left_push, app_nil_r.
      set (more := reverse (qsort pl_compare (read_dir_loop e path names))).
      assert (Hmore : Forall (unopened e) more).
      { unfold more, qsort. rewrite reverse_Permutation.
        now rewrite merge_sort_Permutation. }
      change (idepth (set_more (idepth l) more l3)) with (idepth l3).
      rewrite Hd3.
      rewrite (frame_at_set_more (idepth l) more l3 Hlen3).
      change (keepopen (set_more (idepth l) more l3)) with (keepopen l3).
      destruct (open_next_unopened e more (keepopen l3) Hmore) as (ko' & ->).
      eexists. split; [reflexivity|].
      cbn [idepth set_keepopen set_more set_frame set_istack sudoers
             yy_current_buffer sudolinebuf sudolineno nerrors warned closed].
      split; [exact Hd3|]. split.
      { apply (frame_at_set_more (idepth l) []
                 (set_keepopen ko' (set_more (idepth l) more l3))).
        cbn. rewrite length_insert. exact Hlen3. }
      repeat split; auto.
Qed.

Lemma includedir_nothing_opens_witness :
  exists l1,
    push_include sample_closed_env (str "/etc/sudoers.d") true
      (init_lexer (scanning INITIAL true (str "root ALL = ALL")))
    = (true, l1)
    /\ idepth l1 = 0
    /\ nerrors l1 = 0.
Proof.
  destruct (includedir_nothing_opens sample_closed_env (str "/etc/sudoers.d")
              (str "/etc/sudoers.d")
              (init_lexer (scanning INITIAL true (str "root ALL = ALL")))
              0%Z 0%Z)
    as (l1 & E & Hd & _ & _ & _ & _ & _ & Hn & _).
  - apply stack_ok_init.
  - vm_compute. lia.
  - reflexivity.
  - reflexivity.
  - right. eexists. split; [reflexivity|].
    vm_compute. repeat constructor.
  - exists l1. repeat split; assumption.
Defined.

(** X7: when [opendir] fails on a secure include directory for another
    reason than a missing directory, [push_include] fails: the directory is
    reported by [sudo_warn], whether or not warnings are enabled, a parse
    error is counted, and nothing is pushed. *)
Theorem includedir_opendir_fails e opath path l st_uid st_gid :
  stack_ok l ->
  idepth l <= MAX_SUDOERS_DEPTH ->
  expand_include e opath l = (Some path, l) ->
  sudo_secure_dir e path (sudoers_uid e) (sudoers_gid e)
  = (SUDO_PATH_SECURE, st_uid, st_gid) ->
  opendir e path = DirFailure ->
  exists l1,
    push_include e opath true l = (false, l1)
    /\ warned l1 = warned l ++ [WOpendir path]
    /\ nerrors l1 = S (nerrors l)
    /\ idepth l1 = idepth l
    /\ sudoers l1 = sudoers l
    /\ yy_current_buffer l1 = yy_current_buffer l.
Proof.
  intros Hok Hdepth He Hsec Hdir.
  destruct (grow_fields e path l Hok Hdepth)
    as (l2 & Hgrow & Hd2 & Hlen2 & Hko2 & Hlb2 & Hb2 & Hs2 & Hln2 & Hc2 & Hn2
        & Hw2 & _).
  unfold push_include. rewrite He, Hgrow, Hsec.
  unfold switch_dir, read_dir_files. rewrite Hdir. cbn.
  eexists. split; [reflexivity|]. cbn.
  rewrite Hw2, Hn2. repeat split; auto.
Qed.

Lemma includedir_opendir_fails_witness :
  exists l1,
    push_include sample_nodir_env (str "/etc/sudoers.d") true
      (init_lexer (scanning INITIAL true (str "root ALL = ALL")))
    = (false, l1)
    /\ warned l1 = [WOpendir (str "/etc/sudoers.d")]
    /\ nerrors l1 = 1.
Proof.
  destruct (includedir_opendir_fails sample_nodir_env (str "/etc/sudoers.d")
              (str "/etc/sudoers.d")
              (init_lexer (scanning INITIAL true (str "root ALL = ALL")))
              0%Z 0%Z)
    as (l1 & E & Hw & Hn & _).
  - apply stack_ok_init.
  - vm_compute. lia.
  - reflexivity.
  - reflexivity.
  - reflexivity.
  - exists l1. repeat split; assumption.
Defined.

Lemma saved_stream_set_more l d d' more k :
  d' <> d ->
  saved_stream (set_more d more (set_idepth k l)) d' = saved_stream l d'.
Proof.
  intros Hne. unfold saved_stream, frame_at, set_more, set_frame. cbn.
  now rewrite list_lookup_insert_ne by congruence.
Qed.

Lemma saved_stream_fclose l fp d : saved_stream (fclose fp l) d = saved_stream l d.
Proof. reflexivity. Qed.

Lemma omap_ext_in {A B} (f g : A -> option B) (xs : list A) :
  (forall x, List.In x xs -> f x = g x) -> omap f xs = omap g xs.
Proof.
  induction xs as [|x xs IH]; intros H; [reflexivity|]. cbn.
  rewrite (H x) by now left. rewrite IH; [reflexivity|].
  intros y Hy. apply H. now right.
Qed.

Lemma omap_cons_list {A B} (f : A -> option B) x (xs : list A) :
  omap f (x :: xs) = option_list (f x) ++ omap f xs.
Proof. cbn. now destruct (f x). Qed.

Lemma init_lexer_loop_closed n : forall l,
  idepth l = n ->
  let l' := init_lexer_loop n l in
  closed l' = closed l ++ omap (saved_stream l) (reverse (seq 1 (n - 1)))
  /\ idepth l' = 0
  /\ yy_current_buffer l' = yy_current_buffer l
  /\ sudoers l' = sudoers l
  /\ sudoers_errstr l' = sudoers_errstr l
  /\ sudoerslval l' = sudoerslval l
  /\ warned l' = warned l
  /\ nerrors l' = nerrors l.
Proof.
  induction n as [|d IH]; intros l Hn; cbv zeta.
  - cbn. rewrite Hn, app_nil_r. auto 10.
  - cbn [init_lexer_loop]. rewrite Hn.
    set (l1 := set_more d [] (set_idepth d l)).
    set (l2 := match is_bs (frame_at l d) with
               | Some b =>
                   if (0 <? d) && negb (is_keepopen (frame_at l d))
                   then fclose (yy_input_file b) l1 else l1
               | None => l1
               end).
    assert (Hd2 : idepth l2 = d).
    { unfold l2. destruct (is_bs (frame_at l d)); [|reflexivity].
      destruct ((0 <? d) && negb (is_keepopen (frame_at l d))); reflexivity. }
    assert (Hs2 : forall d', d' <> d -> saved_stream l2 d' = saved_stream l d').
    { intros d' Hne. unfold l2.
      destruct (is_bs (frame_at l d)); [|now apply saved_stream_set_more].
      destruct ((0 <? d) && negb (is_keepopen (frame_at l d)));
        [rewrite saved_stream_fclose|]; now apply saved_stream_set_more. }
    assert (Hc2 : closed l2
                  = closed l ++ (if 0 <? d
                                 then option_list (saved_stream l d) else [])
                  /\ yy_current_buffer l2 = yy_current_buffer l
                  /\ sudoers l2 = sudoers l
                  /\ sudoers_errstr l2 = sudoers_errstr l
                  /\ sudoerslval l2 = sudoerslval l
                  /\ warned l2 = warned l /\ nerrors l2 = nerrors l).
    { unfold l2, saved_stream.
      destruct (is_bs (frame_at l d)) as [b|], (0 <? d),
        (is_keepopen (frame_at l d)); cbn; rewrite ?app_nil_r; auto 10. }
    destruct Hc2 as (Hc2 & Hb2 & Hsu2 & He2 & Hv2 & Hw2 & Hn2).
    destruct (IH l2 Hd2) as (Hc & Hd & Hb & Hsu & He & Hv & Hw & Hne).
    rewrite Hc, Hc2, Hb, Hb2, Hsu, Hsu2, He, He2, Hv, Hv2, Hw, Hw2, Hne, Hn2.
    repeat split; auto. rewrite <- app_assoc. f_equal.
    replace (S d - 1) with d by lia.
    rewrite (omap_ext_in (saved_stream l2) (saved_stream l)).
    2:{ intros x Hx. apply Hs2. apply list_elem_of_In in Hx.
        rewrite elem_of_reverse in Hx. apply list_elem_of_In, in_seq in Hx.
        lia. }
    destruct d as [|d0]; [reflexivity|].
    replace (S d0 - 1) with d0 by lia.
    rewrite (seq_S d0 1), reverse_snoc, omap_cons_list. reflexivity.
Qed.

(** X8: [init_lexer] empties the include stack and closes the streams saved
    in it, from the deepest slot down to slot 1, leaving out those marked to
    be kept open: the stream saved in slot 0, that of the sudoers file the
    parse began with, is never closed. Running it twice is the same as
    running it once. *)
Theorem init_lexer_closes l :
  closed (init_lexer l)
  = closed l ++ omap (saved_stream l) (reverse (seq 1 (idepth l - 1)))
  /\ idepth (init_lexer l) = 0
  /\ istack (init_lexer l) = []
  /\ yy_current_buffer (init_lexer l) = yy_current_buffer l
  /\ init_lexer (init_lexer l) = init_lexer l.
Proof.
  destruct (init_lexer_loop_closed (idepth l) l eq_refl)
    as (Hc & Hd & Hb & Hsu & He & Hv & Hw & Hn).
  unfold init_lexer at 1 2 3 4. cbn [closed idepth istack yy_current_buffer].
  repeat split; auto.
Qed.

End IncludeProps.

(** ** Expanding the path of an include directive *)

Module ExpandProps.
Import IncludeFacts.

Lemma host_expand_cons host c d t :
  host_expand host (c :: d :: t)
  = if Ascii.eqb c "%" && Ascii.eqb d "h"
    then host ++ host_expand host t
    else c :: host_expand host (d :: t).
Proof. reflexivity. Qed.

Lemma host_escapes_cons c d t :
  host_escapes (c :: d :: t)
  = if Ascii.eqb c "%" && Ascii.eqb d "h"
    then S (host_escapes t)
    else host_escapes (d :: t).
Proof. reflexivity. Qed.

Lemma host_expand_length host t :
  length (host_expand host t) + 2 * host_escapes t
  = length t + host_escapes t * length host.
Proof.
  remember (length t) as n eqn:Hn. revert t Hn.
  induction n as [n IH] using lt_wf_ind. intros t Hn.
  destruct t as [|c [|d t]]; subst n; [reflexivity | reflexivity|].
  rewrite host_expand_cons, host_escapes_cons.
  destruct (Ascii.eqb c "%" && Ascii.eqb d "h").
  - rewrite length_app. cbn [length].
    pose proof (IH (length t) ltac:(cbn [length]; lia) t eq_refl).
    lia.
  - cbn [length].
    pose proof (IH (length (d :: t)) ltac:(cbn [length]; lia)
                  (d :: t) eq_refl) as H.
    cbn [length] in H. lia.
Qed.

Section Loops.
Variables (e : env) (opath post : cstring) (ep : nat).
Hypothesis Hpost : forall c rest, post = c :: rest -> c <> "h"%char.

Lemma window_tail cp c t :
  window opath post ep cp (c :: t) -> window opath post ep (cp + 1) t.
Proof.
  intros [Hep Hat]. split; [cbn [length] in Hep; lia|].
  intros i. replace (cp + 1 + i) with (cp + S i) by lia. now rewrite Hat.
Qed.

Lemma window_escape cp c t :
  window opath post ep cp (c :: t) ->
  Ascii.eqb (char_at opath cp) "%" && Ascii.eqb (char_at opath (cp + 1)) "h"
  = match t with
    | d :: _ => Ascii.eqb c "%" && Ascii.eqb d "h"
    | [] => false
    end.
Proof.
  intros [Hep Hat].
  pose proof (Hat 0) as H0. pose proof (Hat 1) as H1.
  rewrite Nat.add_0_r in H0. rewrite H0, H1. cbn [nth app].
  destruct t as [|d t]; [|reflexivity].
  cbn [app nth]. destruct post as [|p post'] eqn:E.
  - cbn. now rewrite andb_false_r.
  - cbn. destruct (Ascii.eqb_spec p "h") as [->|_];
      [now elim (Hpost _ _ eq_refl) | now rewrite andb_false_r].
Qed.

Lemma scan_host_escapes_spec fuel : forall cp t subst len,
  window opath post ep cp t -> length t <= fuel ->
  scan_host_escapes fuel e opath cp ep subst len
  = (subst || (0 <? host_escapes t),
     len + host_escapes t * length (user_shost e)).
Proof.
  induction fuel as [|fuel IH]; intros cp t subst len Hw Hfuel.
  - destruct t; [|simpl in Hfuel; lia]. cbn.
    now rewrite orb_false_r, Nat.add_0_r.
  - cbn [scan_host_escapes]. destruct t as [|c t].
    + destruct Hw as [Hep _]. cbn [length] in Hep.
      replace (cp <? ep) with false by (symmetry; apply Nat.ltb_ge; lia).
      cbn. now rewrite orb_false_r, Nat.add_0_r.
    + pose proof Hw as [Hep _]. cbn [length] in Hep, Hfuel.
      replace (cp <? ep) with true by (symmetry; apply Nat.ltb_lt; lia).
      rewrite (window_escape cp c t Hw).
      pose proof (window_tail cp c t Hw) as Hw1.
      destruct t as [|d t].
      * rewrite (IH (cp + 1) [] subst len Hw1) by (simpl; lia). reflexivity.
      * rewrite host_escapes_cons.
        destruct (Ascii.eqb c "%" && Ascii.eqb d "h").
        -- pose proof (window_tail (cp + 1) d t Hw1) as Hw2.
           replace (cp + 1 + 1) with (cp + 2) in Hw2 by lia.
           rewrite (IH (cp + 2) t true _ Hw2) by (cbn [length] in Hfuel; lia).
           cbn [orb]. rewrite orb_true_r. f_equal. lia.
        -- now rewrite (IH (cp + 1) (d :: t) subst len Hw1) by lia.
Qed.

Lemma subst_host_escapes_spec fuel : forall cp t pp len,
  window opath post ep cp t -> length t <= fuel ->
  length (host_expand (user_shost e) t) <= len ->
  subst_host_escapes fuel e opath cp ep pp len
  = Some (pp ++ host_expand (user_shost e) t).
Proof.
  induction fuel as [|fuel IH]; intros cp t pp len Hw Hfuel Hlen.
  - destruct t; [|simpl in Hfuel; lia]. cbn. now rewrite app_nil_r.
  - cbn [subst_host_escapes]. destruct t as [|c t].
    + destruct Hw as [Hep _]. cbn [length] in Hep.
      replace (cp <? ep) with false by (symmetry; apply Nat.ltb_ge; lia).
      cbn. now rewrite app_nil_r.
    + pose proof Hw as [Hep Hat]. cbn [length] in Hep, Hfuel.
      replace (cp <? ep) with true by (symmetry; apply Nat.ltb_lt; lia).
      rewrite (window_escape cp c t Hw).
      pose proof (window_tail cp c t Hw) as Hw1.
      pose proof (Hat 0) as H0. rewrite Nat.add_0_r in H0. cbn in H0.
      destruct t as [|d t].
      * cbn [host_expand length] in Hlen |- *.
        replace (len <? 1) with false by (symmetry; apply Nat.ltb_ge; lia).
        rewrite (IH (cp + 1) [] _ _ Hw1) by (simpl; lia).
        rewrite H0. cbn. now rewrite app_nil_r.
      * rewrite host_expand_cons in Hlen |- *.
        destruct (Ascii.eqb c "%" && Ascii.eqb d "h").
        -- rewrite length_app in Hlen.
           replace (len + 1 <=? length (user_shost e)) with false
             by (symmetry; apply Nat.leb_gt; lia).
           pose proof (window_tail (cp + 1) d t Hw1) as Hw2.
           replace (cp + 1 + 1) with (cp + 2) in Hw2 by lia.
           rewrite (IH (cp + 2) t _ _ Hw2) by (cbn [length] in Hfuel; lia).
           now rewrite app_assoc.
        -- cbn [length] in Hlen.
           replace (len <? 1) with false by (symmetry; apply Nat.ltb_ge; lia).
           rewrite (IH (cp + 1) (d :: t) _ _ Hw1) by lia.
           rewrite H0, <- app_assoc. reflexivity.
Qed.

End Loops.

Lemma host_expand_plain host t : host_escapes t = 0 -> host_expand host t = t.
Proof.
  remember (length t) as n eqn:Hn. revert t Hn.
  induction n as [n IH] using lt_wf_ind. intros t Hn.
  destruct t as [|c [|d t]]; [reflexivity | reflexivity|].
  rewrite host_expand_cons, host_escapes_cons.
  destruct (Ascii.eqb c "%" && Ascii.eqb d "h"); [discriminate|].
  intros H. f_equal.
  apply (IH (length (d :: t)) ltac:(subst n; cbn [length]; lia)); auto.
Qed.

(** The argument of an include directive is the text between its double
    quotes, if it has them. *)
Lemma unquoted_window opath :
  let olen := length opath in
  let quoted := (1 <? olen) && Ascii.eqb (char_at opath 0) DQUOTE
                && Ascii.eqb (char_at opath (olen - 1)) DQUOTE in
  exists pre post,
    opath = pre ++ unquoted opath ++ post
    /\ length pre = (if quoted then 1 else 0)
    /\ length (unquoted opath) = (if quoted then olen - 2 else olen)
    /\ (post = [] \/ post = [DQUOTE]).
Proof.
  destruct opath as [|q rest]; [exists [], []; cbn; auto|].
  destruct rest as [|r rest].
  - exists [], []. cbn. auto.
  - cbv zeta.
    assert (H1 : (1 <? length (q :: r :: rest)) = true) by reflexivity.
    assert (H2 : char_at (q :: r :: rest) (length (q :: r :: rest) - 1)
                 = List.last (r :: rest) NUL).
    { now rewrite (char_at_last (q :: r :: rest)) by discriminate. }
    rewrite H1, H2. change (char_at (q :: r :: rest) 0) with q.
    cbn [andb unquoted].
    destruct (Ascii.eqb_spec q DQUOTE) as [->|Hq]; cbn [andb].
    + destruct (Ascii.eqb_spec (List.last (r :: rest) NUL) DQUOTE) as [E|E].
      * pose proof (app_removelast_last NUL (l := r :: rest)
                      ltac:(discriminate)) as H.
        exists [DQUOTE], [DQUOTE]. split.
        { cbn [app]. f_equal. rewrite <- E. exact H. }
        split; [reflexivity|]. split; [|now right].
        apply (f_equal (@length ascii)) in H. rewrite length_app in H.
        cbn [length] in H |- *. lia.
      * exists [], []. rewrite app_nil_r. cbn. auto.
    + exists [], []. rewrite app_nil_r. cbn. auto.
Qed.

(** X9: [expand_include] of an argument that is not empty between its double
    quotes always yields a path, and leaves the scanner as it was: the
    argument without the quotes, with every "%h" replaced by the short host
    name, a relative path being put in the directory of the current sudoers
    file. The overflow exit of the function is never taken. *)
Theorem expand_include_path e opath l :
  unquoted opath <> [] ->
  expand_include e opath l
  = (Some ((if begins_with "/" (unquoted opath) then []
            else sudoers_dir (sudoers l))
           ++ host_expand (user_shost e) (unquoted opath)), l).
Proof.
  intros Hne. unfold expand_include.
  destruct (unquoted_window opath) as (pre & post & Hop & Hpre & Hlen & Hpost).
  cbv zeta in Hpre, Hlen.
  set (quoted := (1 <? length opath) && Ascii.eqb (char_at opath 0) DQUOTE
                 && Ascii.eqb (char_at opath (length opath - 1)) DQUOTE) in *.
  set (start := if quoted then 1 else 0) in *.
  set (olen := if quoted then length opath - 2 else length opath) in *.
  set (u := unquoted opath) in *.
  assert (Hu : 0 < length u) by (destruct u; [congruence | simpl; lia]).
  replace (olen =? 0) with false by (symmetry; apply Nat.eqb_neq; lia).
  assert (Hw : window opath post (start + olen) start u).
  { split; [lia|]. intros i. unfold char_at. rewrite Hop at 1.
    rewrite <- Hpre. rewrite app_nth2 by lia. f_equal. lia. }
  assert (Hp : forall c rest, post = c :: rest -> c <> "h"%char).
  { intros c rest E. destruct Hpost as [-> | ->]; [discriminate|].
    injection E as <- _. discriminate. }
  rewrite (scan_host_escapes_spec e opath post (start + olen) Hp olen start u)
    by (auto; lia).
  cbn [orb].
  assert (Hhead : char_at opath start = nth 0 u NUL).
  { destruct Hw as [_ Hat]. specialize (Hat 0).
    rewrite Nat.add_0_r in Hat. rewrite Hat.
    destruct u; [simpl in Hu; lia | reflexivity]. }
  assert (Hdir :
    firstn (if negb (Ascii.eqb (char_at opath start) "/")
            then match strrchr (sudoers l) "/" with
                 | Some dirend => dirend + 1
                 | None => 0
                 end
            else 0) (sudoers l)
    = if begins_with "/" u then [] else sudoers_dir (sudoers l)).
  { rewrite Hhead. unfold begins_with, sudoers_dir.
    destruct u as [|c u']; [simpl in Hu; lia|]. cbn [nth].
    destruct (Ascii.eqb c "/"); cbn [negb]; [apply take_0|].
    destruct (strrchr (sudoers l) "/"); [reflexivity | apply take_0]. }
  rewrite Hdir.
  destruct (0 <? host_escapes u) eqn:Hesc.
  - rewrite (subst_host_escapes_spec e opath post (start + olen) Hp olen
               start u); auto; try lia.
    pose proof (host_expand_length (user_shost e) u). lia.
  - apply Nat.ltb_ge in Hesc.
    assert (Hz : host_escapes u = 0) by lia.
    rewrite Hz, Nat.mul_0_l, Nat.add_0_r.
    rewrite (host_expand_plain _ _ Hz).
    do 3 f_equal. rewrite Hop at 1. rewrite <- Hpre.
    rewrite drop_app_length. rewrite <- Hlen. now rewrite take_app_length.
Qed.

Lemma expand_include_path_witness :
  expand_include sample_env (DQUOTE :: str "sudoers.d/%h.conf" ++ [DQUOTE])
    (scanning INITIAL true [])
  = (Some (str "/etc/sudoers.d/host.conf"), scanning INITIAL true []).
Proof.
  rewrite expand_include_path; [reflexivity | discriminate].
Defined.

End ExpandProps.

(** ** The scanner, further properties *)

Module TokeProps.
Import TokeFacts.

(** *** How flex chooses *)

Lemma yy_best_keeps cands : forall r n,
  Forall (fun c => snd c <= n) cands ->
  yy_best cands (Some (r, n)) = Some (r, n).
Proof.
  induction cands as [|[id m] cands IH]; intros r n Hall; [reflexivity|].
  inversion Hall as [|? ? Hm Hrest]; subst. cbn [yy_best snd] in *.
  replace (n <? m) with false by (symmetry; apply Nat.ltb_ge; lia).
  rewrite andb_false_r. now apply IH.
Qed.

Lemma yy_best_winner len k n rs : forall best,
  0 < n ->
  match best with None => True | Some (_, m) => m < n end ->
  winner_at len k n rs ->
  yy_best (map (fun r => (r_id r, len r)) rs) best
  = Some (r_id (nth k rs (mkRule R_nomatch Everywhere false Empty)), n).
Proof.
  revert k. induction rs as [|r rs IH]; intros k best Hn Hbest Hw;
    [destruct k; contradiction|].
  destruct k as [|k]; cbn [winner_at] in Hw; cbn [map yy_best nth].
  - destruct Hw as [-> Hrest].
    replace (0 <? n) with true by (symmetry; apply Nat.ltb_lt; lia).
    assert (Hb : match best with
                 | Some (_, m) => m <? n
                 | None => true
                 end = true).
    { destruct best as [[? m]|]; [apply Nat.ltb_lt; exact Hbest | reflexivity]. }
    rewrite Hb. cbn [andb]. apply yy_best_keeps.
    apply Forall_map. exact Hrest.
  - destruct Hw as [Hlt Hw]. apply IH; auto.
    destruct ((0 <? len r) && _); [exact Hlt | exact Hbest].
Qed.

(** The rule that flex runs: rule number [k], when it matches [n > 0] bytes,
    every rule before it matches less and no rule after it matches more. *)
Lemma yy_match_winner sc bol s k n :
  0 < n ->
  winner_at (match_length sc bol s) k n rules ->
  yy_match sc bol s
  = Some (r_id (nth k rules (mkRule R_nomatch Everywhere false Empty)), n).
Proof. intros Hn Hw. unfold yy_match. now apply yy_best_winner. Qed.

Lemma yy_best_some cands : forall best r n,
  yy_best cands best = Some (r, n) ->
  best = Some (r, n) \/ (List.In (r, n) cands /\ 0 < n).
Proof.
  induction cands as [|[id m] cands IH]; intros best r n H; [now left|].
  cbn [yy_best] in H. apply IH in H as [H | [H Hn]].
  - destruct (0 <? m) eqn:Hm; cbn [andb] in H.
    + destruct (match best with Some (_, m0) => m0 <? m | None => true end);
        [|now left].
      injection H as -> ->. right. split; [now left|]. now apply Nat.ltb_lt.
    + now left.
  - right. split; [now right | exact Hn].
Qed.

Lemma yy_best_grows cands : forall best,
  match yy_best cands best with
  | Some (_, n) =>
      Forall (fun c => snd c <= n) cands
      /\ match best with Some (_, m) => m <= n | None => True end
  | None => Forall (fun c => snd c = 0) cands /\ best = None
  end.
Proof.
  induction cands as [|[id m] cands IH]; intros best; cbn [yy_best].
  - destruct best as [[? n]|]; split; auto.
  - specialize (IH (if (0 <? m) && match best with
                                   | Some (_, m0) => m0 <? m
                                   | None => true
                                   end
                    then Some (id, m) else best)).
    destruct (yy_best cands _) as [[r n]|].
    + destruct IH as [Hall Hb]. destruct (0 <? m) eqn:Hm; cbn [andb] in Hb.
      * destruct best as [[? m0]|].
        -- destruct (Nat.ltb_spec m0 m); split;
             try (constructor; [cbn; lia | exact Hall]); lia.
        -- split; [constructor; [cbn; lia | exact Hall] | exact I].
      * apply Nat.ltb_ge in Hm. split; [|exact Hb].
        constructor; [cbn; lia | exact Hall].
    + destruct IH as [Hall Hb]. destruct (0 <? m) eqn:Hm; cbn [andb] in Hb.
      * destruct best as [[? m0]|]; [|discriminate Hb].
        destruct (m0 <? m); discriminate Hb.
      * apply Nat.ltb_ge in Hm. split; [|exact Hb].
        constructor; [cbn; lia | exact Hall].
Qed.

Lemma match_length_le sc bol s r : match_length sc bol s r <= length s.
Proof.
  unfold match_length. destruct (_ && _); [|lia].
  destruct (Nat.eq_dec (longest (r_pat r) s) 0) as [->|Hne]; [lia|].
  apply longest_sound. lia.
Qed.

Lemma longest_cls p c s : longest (Cls p) (c :: s) = if p c then 1 else 0.
Proof. unfold longest. cbn. now destruct (p c). Qed.

(** Some rule of the file matches every input that is not empty, and
    the rule chosen matches as much as any. *)
Lemma yy_match_rule sc bol c s :
  exists r' n,
    List.In r' rules /\ 0 < n
    /\ match_length sc bol (c :: s) r' = n
    /\ yy_match sc bol (c :: s) = Some (r_id r', n)
    /\ Forall (fun r => match_length sc bol (c :: s) r <= n) rules.
Proof.
  unfold yy_match.
  pose proof (yy_best_grows
                (map (fun r => (r_id r, match_length sc bol (c :: s) r)) rules)
                None) as Hg.
  destruct (yy_best _ None) as [[r n]|] eqn:Hbest.
  - destruct Hg as [Hall _].
    apply yy_best_some in Hbest as [Hbest | [Hin Hn]]; [discriminate|].
    apply in_map_iff in Hin as (r' & [= <- <-] & Hin).
    exists r', (match_length sc bol (c :: s) r').
    repeat (split; [auto|]). apply Forall_map in Hall. exact Hall.
  - exfalso. destruct Hg as [Hall _]. apply Forall_map in Hall.
    destruct (Ascii.eqb_spec c LF) as [->|Hc].
    + pose proof (Forall_lookup_1 _ _ 83 _ Hall eq_refl) as Hin.
      destruct bol; vm_compute in Hin; discriminate.
    + pose proof (Forall_lookup_1 _ _ 87 _ Hall eq_refl) as Hin.
      unfold match_length in Hin. cbn [r_scope r_bol r_pat active negb orb andb]
        in Hin.
      unfold dot in Hin. rewrite longest_cls in Hin.
      apply Ascii.eqb_neq in Hc. rewrite Hc in Hin. discriminate.
Qed.

(** X10: the scanner never jams and never runs past its input. On every
    input that is not empty, in every start condition, some rule of the
    file matches, so that the default rule of flex, which would copy a
    byte to the output, is never used; the rule chosen matches at least one
    byte, no more bytes than there are, and no other rule matches more. *)
Theorem yy_match_total sc bol c s :
  exists r n,
    yy_match sc bol (c :: s) = Some (r, n)
    /\ 0 < n <= length (c :: s)
    /\ Forall (fun r' => match_length sc bol (c :: s) r' <= n) rules
    /\ exists r', List.In r' rules /\ r_id r' = r
                  /\ match_length sc bol (c :: s) r' = n.
Proof.
  destruct (yy_match_rule sc bol c s)
    as (r' & n & Hin & Hn & Hlen & Hm & Hall).
  exists (r_id r'), n. split; [exact Hm|].
  split; [split; [exact Hn | rewrite <- Hlen; apply match_length_le]|].
  split; [exact Hall | eauto].
Qed.

(** *** The end of the input *)



(** *** Matching a run of bytes *)

Lemma deriv_Empty_longest r c s : deriv c r = Empty -> longest r (c :: s) = 0.
Proof. intros H. unfold longest. cbn. now rewrite H. Qed.

Lemma scan_star_cls p s : forall n,
  scan_re (Star (Cls p)) s n n = n + span p s.
Proof.
  induction s as [|c s IH]; intros n; cbn; [lia|].
  destruct (p c); cbn; [rewrite IH; lia | lia].
Qed.

(** A rule [[class]+] matches the longest run of bytes of the class. *)
Lemma longest_plus_cls p s : longest (plus (Cls p)) s = span p s.
Proof.
  unfold longest, plus. destruct s as [|c s]; [reflexivity|]. cbn.
  destruct (p c); cbn; [|reflexivity]. apply (scan_star_cls p s 1).
Qed.

Lemma span_app p a rest :
  forallb p a = true -> p (char_at rest 0) = false ->
  span p (a ++ rest) = length a.
Proof.
  intros Ha Hr. induction a as [|c a IH].
  - destruct rest as [|d rest]; [reflexivity|]. cbn in *. now rewrite Hr.
  - cbn in *. apply andb_true_iff in Ha as [Hc Ha]. rewrite Hc. f_equal.
    now apply IH.
Qed.

Lemma span_le p s : span p s <= length s.
Proof. induction s as [|c s IH]; cbn; [lia|]. destruct (p c); lia. Qed.

Lemma span_mono p q s :
  (forall c, p c = true -> q c = true) -> span p s <= span q s.
Proof.
  intros H. induction s as [|c s IH]; cbn; [lia|].
  destruct (p c) eqn:Hp; [rewrite (H c Hp); lia | lia].
Qed.

Lemma inactive_lt sc bol s r n :
  active sc (r_scope r) = false -> 0 < n -> match_length sc bol s r < n.
Proof. intros H Hn. unfold match_length. now rewrite H. Qed.

Lemma inactive_le sc bol s r n :
  active sc (r_scope r) = false -> match_length sc bol s r <= n.
Proof. intros H. unfold match_length. rewrite H. cbn. lia. Qed.

Lemma dead_lt sc bol c s r n :
  deriv c (r_pat r) = Empty -> 0 < n -> match_length sc bol (c :: s) r < n.
Proof.
  intros H Hn. unfold match_length. rewrite (deriv_Empty_longest _ _ _ H).
  now destruct (_ && _).
Qed.

Lemma dead_le sc bol c s r n :
  deriv c (r_pat r) = Empty -> match_length sc bol (c :: s) r <= n.
Proof.
  intros H. unfold match_length. rewrite (deriv_Empty_longest _ _ _ H).
  destruct (_ && _); lia.
Qed.

Lemma match_length_longest sc bol s r :
  match_length sc bol s r <= longest (r_pat r) s.
Proof. unfold match_length. destruct (_ && _); lia. Qed.

Lemma cls_le sc bol s r p n :
  r_pat r = Cls p -> 1 <= n -> match_length sc bol s r <= n.
Proof.
  intros Hp Hn. etransitivity; [apply match_length_longest|]. rewrite Hp.
  destruct s as [|c s]; [cbn; lia|]. rewrite longest_cls.
  destruct (p c); lia.
Qed.

(** The rules that are not active in a start condition drop out. *)
Ltac inactive :=
  first [ apply inactive_lt; [reflexivity | lia]
        | apply inactive_le; reflexivity ].

(** *** Command arguments and the blanks between them *)

Lemma arg_char_head a rest :
  arg_run a rest ->
  exists c a', a = c :: a' /\ arg_char c = true
               /\ c <> "="%char /\ c <> "^"%char.
Proof.
  intros (Hne & Hall & Hhead & _). destruct a as [|c a']; [congruence|].
  cbn in Hall, Hhead. apply andb_true_iff in Hall as [Hc _].
  exists c, a'. repeat split; auto; intros ->; discriminate.
Qed.

Ltac char_facts c H :=
  repeat match goal with
         | |- context [Ascii.eqb ?x c] =>
             lazymatch x with
             | c => fail
             | _ => replace (Ascii.eqb x c) with false
                 by (symmetry; apply Ascii.eqb_neq; intros <-; discriminate H)
             end
         | |- context [Ascii.eqb c ?x] =>
             lazymatch x with
             | c => fail
             | _ => replace (Ascii.eqb c x) with false
                 by (symmetry; apply Ascii.eqb_neq; intros ->; discriminate H)
             end
         end.

Lemma arg_rule_chosen bol a rest :
  arg_run a rest ->
  yy_match GOTCMND bol (a ++ rest) = Some (R_gotcmnd_arg, length a).
Proof.
  intros Hrun.
  destruct (arg_char_head a rest Hrun) as (c & a' & -> & Hc & Heq & _).
  destruct Hrun as (_ & Hall & _ & Hrest).
  assert (Hn : 0 < length (c :: a')) by (simpl; lia).
  assert (Harg : longest (plus (Cls arg_char)) ((c :: a') ++ rest)
                 = length (c :: a')).
  { rewrite longest_plus_cls. now apply span_app. }
  rewrite (yy_match_winner GOTCMND bol _ 16 (length (c :: a')) Hn);
    [reflexivity|].
  unfold rules, tag_rule, keyword. cbn [winner_at].
  repeat (split; [try inactive|]).
  - (* the escaped glob character *)
    apply dead_lt; [|exact Hn]. cbn. char_facts c Hc. reflexivity.
  - apply dead_lt; [|exact Hn]. cbn. char_facts c Hc. reflexivity.
  - (* the end of the arguments *)
    apply dead_lt; [|exact Hn]. cbn.
    apply Ascii.eqb_neq in Heq. rewrite Heq. char_facts c Hc. reflexivity.
  - destruct bol; exact Harg.
  - repeat (apply Forall_cons; split; [try inactive|]); [| | | | |constructor].
    + (* exclamation marks are argument characters *)
      etransitivity; [apply match_length_longest|].
      cbn [r_pat]. unfold chr. rewrite longest_plus_cls.
      change (plus (Cls arg_char)) with (plus (Cls arg_char)) in Harg.
      rewrite longest_plus_cls in Harg. rewrite <- Harg.
      apply span_mono. intros x Hx. apply Ascii.eqb_eq in Hx. now subst.
    + apply dead_le. cbn. char_facts c Hc. reflexivity.
    + apply dead_le. cbn. unfold isblank. char_facts c Hc. reflexivity.
    + apply dead_le. cbn. char_facts c Hc. reflexivity.
    + eapply cls_le; [reflexivity | lia].
Qed.

(** A rule whose pattern cannot begin with the byte at hand drops out. *)
Ltac dead :=
  first [ apply dead_lt; [reflexivity | lia]
        | apply dead_le; reflexivity ].

Lemma blank_rule_chosen bol b rest :
  b <> [] -> forallb isblank b = true -> isblank (char_at rest 0) = false ->
  yy_match GOTCMND bol (b ++ rest) = Some (R_blank, length b).
Proof.
  intros Hne Hall Hrest. destruct b as [|c b']; [congruence|].
  assert (Hn : 0 < length (c :: b')) by (simpl; lia).
  assert (Hb : longest (plus blank) ((c :: b') ++ rest) = length (c :: b')).
  { unfold blank. rewrite longest_plus_cls. now apply span_app. }
  assert (Hc : c = SP \/ c = TAB).
  { cbn in Hall. apply andb_true_iff in Hall as [Hc _]. unfold isblank in Hc.
    apply orb_true_iff in Hc as [Hc | Hc]; apply Ascii.eqb_eq in Hc; auto. }
  rewrite (yy_match_winner GOTCMND bol _ 84 (length (c :: b')) Hn);
    [reflexivity|].
  unfold rules, tag_rule, keyword. cbn [winner_at].
  destruct Hc as [-> | ->];
    repeat (split; [first [inactive | dead | idtac]|]);
    try (destruct bol; exact Hb);
    repeat (apply Forall_cons; split; [first [inactive | dead | idtac]|]);
    try apply Forall_nil_2;
    (eapply cls_le; [reflexivity | simpl; lia]).
Qed.

Lemma firstn_app_length {A} (a rest : list A) : firstn (length a) (a ++ rest) = a.
Proof. apply take_app_length. Qed.

Lemma skipn_app_length {A} (a rest : list A) : skipn (length a) (a ++ rest) = rest.
Proof. apply drop_app_length. Qed.

(** One run of argument characters is added to the argument text. *)
Lemma arg_step e l bol fp a rest :
  yy_start l = GOTCMND ->
  yy_current_buffer l = Some (mkBuffer (a ++ rest) bol fp) ->
  arg_run a rest ->
  exists l1 bol1,
    yylex_step e l = (None, l1)
    /\ yy_start l1 = GOTCMND
    /\ yy_current_buffer l1 = Some (mkBuffer rest bol1 fp)
    /\ lv_args (sudoerslval l1)
       = args_plus (lv_args (sudoerslval l)) (sawspace l) a
    /\ lv_cmnd (sudoerslval l1) = lv_cmnd (sudoerslval l)
    /\ sawspace l1 = false.
Proof.
  intros Hs Hb Hrun.
  pose proof (arg_rule_chosen bol a rest Hrun) as Hm. rewrite <- Hs in Hm.
  destruct (arg_char_head a rest Hrun) as (c & a' & Ha & _ & _ & Hcaret).
  assert (Hbuf : yy_current_buffer l
                 = Some (mkBuffer (c :: a' ++ rest) bol fp))
    by (rewrite Hb, Ha; reflexivity).
  assert (Hm' : yy_match (yy_start l) bol (c :: a' ++ rest)
                = Some (R_gotcmnd_arg, length a))
    by (rewrite <- Hm, Ha; reflexivity).
  rewrite (yylex_step_rule e l _ _ _ _ _ _ Hbuf Hm').
  change (c :: a' ++ rest) with ((c :: a') ++ rest). rewrite <- Ha.
  rewrite firstn_app_length, skipn_app_length.
  cbn [action].
  assert (Hex : Ascii.eqb (char_at a 0) "^" = false).
  { rewrite Ha. cbn. now apply Ascii.eqb_neq. }
  rewrite Hex.
  assert (Hres :
    forall l0, lv_args
                 (sudoerslval
                    (set_sawspace false
                       (fill_args a (length a) (sawspace l0) l0)))
               = args_plus (lv_args (sudoerslval l0)) (sawspace l0) a).
  { intros l0. rewrite fill_args_plus. now rewrite firstn_all. }
  destruct (lv_args (sudoerslval (set_toke _ _ _))) eqn:Hargs;
    (eexists _, _; split; [reflexivity|]); rewrite Hres;
    repeat split; try assumption; reflexivity.
Qed.

(** A run of blanks is dropped and remembered. *)
Lemma blank_step e l bol fp b rest :
  yy_start l = GOTCMND ->
  yy_current_buffer l = Some (mkBuffer (b ++ rest) bol fp) ->
  b <> [] -> forallb isblank b = true -> isblank (char_at rest 0) = false ->
  exists l1 bol1,
    yylex_step e l = (None, l1)
    /\ yy_start l1 = GOTCMND
    /\ yy_current_buffer l1 = Some (mkBuffer rest bol1 fp)
    /\ sudoerslval l1 = sudoerslval l
    /\ sawspace l1 = true.
Proof.
  intros Hs Hb Hne Hall Hrest.
  pose proof (blank_rule_chosen bol b rest Hne Hall Hrest) as Hm.
  rewrite <- Hs in Hm.
  assert (Hcons : exists c b', b = c :: b')
    by (destruct b as [|c b']; [congruence | eauto]).
  destruct Hcons as (c & b' & Hcons).
  assert (Hbuf : yy_current_buffer l
                 = Some (mkBuffer (c :: b' ++ rest) bol fp))
    by (rewrite Hb, Hcons; reflexivity).
  assert (Hm' : yy_match (yy_start l) bol (c :: b' ++ rest)
                = Some (R_blank, length b))
    by (rewrite <- Hm, Hcons; reflexivity).
  rewrite (yylex_step_rule e l _ _ _ _ _ _ Hbuf Hm').
  change (c :: b' ++ rest) with ((c :: b') ++ rest). rewrite <- Hcons.
  rewrite firstn_app_length, skipn_app_length. cbn [action].
  eexists _, _. split; [reflexivity|]. repeat split; assumption.
Qed.

Lemma sudoerslex_skip fuel e l l1 :
  yylex_step e l = (None, l1) ->
  sudoerslex (S fuel) e l = sudoerslex fuel e l1.
Proof. intros H. cbn [sudoerslex]. now rewrite H. Qed.

Lemma arg_run_app a b more :
  arg_run a b -> b <> [] -> arg_run a (b ++ more).
Proof.
  intros (H1 & H2 & H3 & H4) Hb. repeat split; auto.
  destruct b; [congruence | exact H4].
Qed.

(** X12: blanks between the arguments of a command. In start condition
    GOTCMND, with no argument yet, a run of argument characters that does
    not begin with '=' or '^', a run of spaces and tabs, a second such run
    and a line feed are scanned in four steps: the blank rule throws the
    blanks away and sets [sawspace], each run goes to [fill_args] of
    toke_util.c with [sawspace] as it stands, and the line feed ends the
    arguments. [sudoerslex] returns COMMAND with the two runs as the
    argument text and one space between them, however many blanks there
    were; the line feed is left to be scanned in INITIAL. *)
Theorem arguments_joined_by_one_space e l bol fp a1 b a2 rest fuel :
  yy_start l = GOTCMND ->
  lv_args (sudoerslval l) = None ->
  yy_current_buffer l = Some (mkBuffer (a1 ++ b ++ a2 ++ LF :: rest) bol fp) ->
  arg_run a1 b -> b <> [] -> forallb isblank b = true -> arg_run a2 [LF] ->
  exists l',
    sudoerslex (4 + fuel) e l = Some (COMMAND, l')
    /\ lv_args (sudoerslval l') = Some (a1 ++ SP :: a2)
    /\ lv_cmnd (sudoerslval l') = lv_cmnd (sudoerslval l)
    /\ yy_start l' = INITIAL
    /\ pending l' = LF :: rest.
Proof.
  intros Hs Hargs Hb Hr1 Hbne Hblank Hr2.
  destruct (arg_step e l bol fp a1 (b ++ a2 ++ LF :: rest) Hs Hb
              (arg_run_app _ _ _ Hr1 Hbne))
    as (l1 & bol1 & E1 & Hs1 & Hb1 & Ha1 & Hc1 & _).
  assert (Ha2head : isblank (char_at (a2 ++ LF :: rest) 0) = false).
  { destruct (arg_char_head a2 [LF] Hr2) as (c & a' & -> & Hc & _).
    cbn. unfold isblank.
    destruct (Ascii.eqb_spec c SP) as [->|_]; [discriminate Hc|].
    destruct (Ascii.eqb_spec c TAB) as [->|_]; [discriminate Hc|].
    reflexivity. }
  destruct (blank_step e l1 bol1 fp b (a2 ++ LF :: rest) Hs1 Hb1 Hbne Hblank
              Ha2head)
    as (l2 & bol2 & E2 & Hs2 & Hb2 & Hv2 & Hsp2).
  destruct (arg_step e l2 bol2 fp a2 (LF :: rest) Hs2 Hb2
              (arg_run_app a2 [LF] rest Hr2 ltac:(discriminate)))
    as (l3 & bol3 & E3 & Hs3 & Hb3 & Ha3 & Hc3 & _).
  pose proof (gotcmnd_end_chosen bol3 LF rest
                ltac:(left; cbn; tauto)) as Hm.
  rewrite <- Hs3 in Hm.
  pose proof (yylex_step_rule e l3 _ _ _ _ _ _ Hb3 Hm) as E4.
  change (firstn 1 (LF :: rest)) with [LF] in E4.
  change (skipn 1 (LF :: rest)) with rest in E4.
  match type of E4 with _ = action _ _ _ ?x =>
    destruct (gotcmnd_end_action e x [LF]) as (l4 & Ha & Hs4 & Hb4 & Hv4)
  end.
  rewrite Ha in E4. exists l4.
  change (4 + fuel) with (S (S (S (S fuel)))).
  rewrite (sudoerslex_skip _ _ _ _ E1), (sudoerslex_skip _ _ _ _ E2),
    (sudoerslex_skip _ _ _ _ E3), (sudoerslex_returns _ _ _ _ _ E4).
  split; [reflexivity|]. cbn in Hb4, Hv4. rewrite Hv4.
  unfold pending. rewrite Hb4, Ha3, Hc3, Hv2, Ha1, Hc1, Hsp2, Hargs.
  repeat split; auto.
Qed.

Lemma arguments_joined_by_one_space_witness :
  exists l',
    sudoerslex 4 sample_env
      (scanning GOTCMND false
         (str "-l" ++ [SP; TAB; SP] ++ str "/tmp" ++ LF :: str "next"))
    = Some (COMMAND, l')
    /\ lv_args (sudoerslval l') = Some (str "-l /tmp")
    /\ pending l' = LF :: str "next".
Proof.
  destruct (arguments_joined_by_one_space sample_env
              (scanning GOTCMND false
                 (str "-l" ++ [SP; TAB; SP] ++ str "/tmp" ++ LF :: str "next"))
              false (mkFILE (str "/etc/sudoers") [] false false)
              (str "-l") [SP; TAB; SP] (str "/tmp") (str "next") 0)
    as (l' & E & Ha & _ & _ & Hp).
  - reflexivity.
  - reflexivity.
  - reflexivity.
  - repeat split; discriminate.
  - discriminate.
  - reflexivity.
  - repeat split; discriminate.
  - exists l'. split; [exact E|]. split; [exact Ha | exact Hp].
Defined.

(** *** Exclamation marks *)

Lemma bang_rule_chosen sc bol n rest :
  List.In sc bang_states ->
  Ascii.eqb "!" (char_at rest 0) = false ->
  yy_match sc bol (replicate (S n) "!"%char ++ rest) = Some (R_bang, S n).
Proof.
  intros Hsc Hrest.
  assert (Hb : longest (plus (chr "!")) (replicate (S n) "!"%char ++ rest)
               = S n).
  { unfold chr. rewrite longest_plus_cls.
    rewrite span_app; [apply length_replicate | | exact Hrest].
    clear. induction (S n) as [|k IH]; [reflexivity | exact IH]. }
  rewrite (yy_match_winner sc bol _ 82 (S n)); [reflexivity | lia|].
  cbn [replicate app] in *.
  unfold rules, tag_rule, keyword. cbn [winner_at].
  unfold bang_states in Hsc. cbn [List.In] in Hsc.
  repeat (destruct Hsc as [<- | Hsc];
          [repeat (split; [first [inactive | dead | idtac]|]);
           [destruct bol; exact Hb|];
           repeat (apply Forall_cons; split; [first [inactive | dead | idtac]|]);
           [eapply cls_le; [reflexivity | lia] | apply Forall_nil_2]|]).
  contradiction.
Qed.

(** X13: a run of exclamation marks is one negation or none. In the start
    conditions INITIAL, GOTDEFS, STARTDEFS, INDEFS, WANTDIGEST and
    EXPECTPATH a run of [n] exclamation marks is scanned as a whole: an odd
    [n] returns the token '!', an even [n] returns nothing and the scanner
    goes on behind the run. *)
Theorem bang_parity e l bol fp n rest :
  List.In (yy_start l) bang_states ->
  yy_current_buffer l
  = Some (mkBuffer (replicate (S n) "!"%char ++ rest) bol fp) ->
  Ascii.eqb "!" (char_at rest 0) = false ->
  exists l1,
    yylex_step e l
    = (if Nat.odd (S n) then Some (CHAR "!") else None, l1)
    /\ pending l1 = rest
    /\ yy_start l1 = yy_start l
    /\ sudoerslval l1 = sudoerslval l.
Proof.
  intros Hsc Hb Hrest.
  pose proof (bang_rule_chosen (yy_start l) bol n rest Hsc Hrest) as Hm.
  assert (Hf : firstn (S n) (replicate (S n) "!"%char ++ rest)
               = replicate (S n) "!"%char).
  { rewrite <- (length_replicate (S n) "!"%char) at 1.
    apply firstn_app_length. }
  assert (Hk : skipn (S n) (replicate (S n) "!"%char ++ rest) = rest).
  { rewrite <- (length_replicate (S n) "!"%char) at 1.
    apply skipn_app_length. }
  cbn [replicate app] in Hb, Hm, Hf, Hk.
  rewrite (yylex_step_rule e l _ _ _ _ _ _ Hb Hm), Hf, Hk.
  cbn [action length]. rewrite length_replicate.
  destruct (Nat.odd (S n)); eexists; (split; [reflexivity|]);
    repeat split.
Qed.

Lemma bang_parity_witness :
  (exists l1,
      yylex_step sample_env (scanning INITIAL false (str "!!!root"))
      = (Some (CHAR "!"), l1) /\ pending l1 = str "root")
  /\ (exists l1,
      yylex_step sample_env (scanning INITIAL false (str "!!root"))
      = (None, l1) /\ pending l1 = str "root").
Proof.
  split.
  - destruct (bang_parity sample_env (scanning INITIAL false (str "!!!root"))
                false (mkFILE (str "/etc/sudoers") [] false false) 2
                (str "root"))
      as (l1 & E & Hp & _).
    + cbn. tauto.
    + reflexivity.
    + reflexivity.
    + exists l1. split; [exact E | exact Hp].
  - destruct (bang_parity sample_env (scanning INITIAL false (str "!!root"))
                false (mkFILE (str "/etc/sudoers") [] false false) 1
                (str "root"))
      as (l1 & E & Hp & _).
    + cbn. tauto.
    + reflexivity.
    + reflexivity.
    + exists l1. split; [exact E | exact Hp].
Defined.

(** *** Line continuations *)

Lemma isblank_cases b : isblank b = true -> b = SP \/ b = TAB.
Proof.
  unfold isblank. intros H.
  apply orb_true_iff in H as [H | H]; apply Ascii.eqb_eq in H; auto.
Qed.

Lemma scan_continuation_tail blanks eol rest : forall n best,
  forallb isblank blanks = true ->
  eol = [LF] \/ eol = [CR; LF] ->
  scan_re (Cat (Star blank) (Cat (opt (chr CR)) (chr LF)))
    (blanks ++ eol ++ rest) n best
  = n + length blanks + length eol.
Proof.
  induction blanks as [|b blanks IH]; intros n best Hall Heol.
  - destruct Heol as [-> | ->]; cbn [app scan_re length].
    + replace (deriv LF (Cat (Star blank) (Cat (opt (chr CR)) (chr LF))))
        with Eps by reflexivity.
      cbn [nullable exhausted]. lia.
    + set (r := deriv CR (Cat (Star blank) (Cat (opt (chr CR)) (chr LF)))).
      replace (exhausted r) with false by reflexivity.
      replace (nullable r) with false by reflexivity.
      replace (deriv LF r) with Eps by reflexivity.
      cbn [nullable exhausted]. lia.
  - cbn [forallb] in Hall. apply andb_true_iff in Hall as [Hb Hall].
    rewrite <- app_comm_cons. cbn [scan_re].
    assert (Hd : deriv b (Cat (Star blank) (Cat (opt (chr CR)) (chr LF)))
                 = Cat (Star blank) (Cat (opt (chr CR)) (chr LF))).
    { destruct (isblank_cases b Hb) as [-> | ->]; reflexivity. }
    rewrite Hd. cbn [nullable exhausted andb]. rewrite IH by assumption.
    cbn [length]. lia.
Qed.

Lemma longest_continuation blanks eol rest :
  forallb isblank blanks = true ->
  eol = [LF] \/ eol = [CR; LF] ->
  longest continuation_re (BSLASH :: blanks ++ eol ++ rest)
  = S (length blanks + length eol).
Proof.
  intros Hall Heol. unfold longest. cbn [scan_re].
  change (deriv BSLASH continuation_re)
    with (Cat (Star blank) (Cat (opt (chr CR)) (chr LF))).
  cbn [nullable exhausted andb]. now rewrite scan_continuation_tail.
Qed.

(** The lengths of the matches of the rules that can begin with a
    backslash, on the start of a line continuation. *)
Ltac vm_length :=
  match goal with
  | |- match_length ?sc ?bol ?s ?r < _ =>
      let v := eval vm_compute in (match_length sc bol s r) in
      replace (match_length sc bol s r) with v by (vm_compute; reflexivity)
  | |- match_length ?sc ?bol ?s ?r <= _ =>
      let v := eval vm_compute in (match_length sc bol s r) in
      replace (match_length sc bol s r) with v by (vm_compute; reflexivity)
  end.

Lemma continuation_rule_chosen sc bol blanks eol rest :
  List.In sc continuation_states ->
  forallb isblank blanks = true ->
  eol = [LF] \/ eol = [CR; LF] ->
  yy_match sc bol (BSLASH :: blanks ++ eol ++ rest)
  = Some (R_continuation, S (length blanks + length eol)).
Proof.
  intros Hsc Hall Heol.
  pose proof (longest_continuation blanks eol rest Hall Heol) as Hl.
  rewrite (yy_match_winner sc bol _ 85 (S (length blanks + length eol)));
    [reflexivity | lia|].
  assert (Hshape :
    (blanks = [] /\ eol = [LF]) \/ (blanks = [] /\ eol = [CR; LF])
    \/ exists b t, blanks = b :: t /\ (b = SP \/ b = TAB)
         /\ (t ++ eol ++ rest = LF :: rest
             \/ t ++ eol ++ rest = CR :: LF :: rest
             \/ exists b2 u, t ++ eol ++ rest = b2 :: u
                             /\ (b2 = SP \/ b2 = TAB))).
  { destruct blanks as [|b t]; [destruct Heol; auto|].
    right. right. exists b, t. cbn [forallb] in Hall.
    apply andb_true_iff in Hall as [Hb Ht].
    split; [reflexivity|]. split; [now apply isblank_cases|].
    destruct t as [|b2 u]; [destruct Heol as [-> | ->]; auto|].
    right. right. exists b2, (u ++ eol ++ rest). split; [reflexivity|].
    cbn [forallb] in Ht. apply andb_true_iff in Ht as [Hb2 _].
    now apply isblank_cases. }
  assert (Hn : 2 <= S (length blanks + length eol)).
  { destruct Heol as [-> | ->]; simpl; lia. }
  assert (Hn3 : blanks <> [] -> 3 <= S (length blanks + length eol)).
  { intros Hne. destruct blanks; [congruence|].
    destruct Heol as [-> | ->]; simpl; lia. }
  unfold continuation_states in Hsc. cbn [List.In] in Hsc.
  unfold rules, tag_rule, keyword. cbn [winner_at].
  repeat (destruct Hsc as [<- | Hsc];
    [repeat (split; [first [inactive | dead | idtac]|]);
     try (destruct bol; exact Hl);
     try (repeat (apply Forall_cons; split; [first [inactive | dead | idtac]|]);
          [eapply cls_le; [reflexivity | lia] | apply Forall_nil_2]);
     (destruct Hshape as [[-> ->] | [[-> ->] | (b & t & -> & Hb & Ht)]];
      [cbn [app]; vm_length; simpl; lia
      |cbn [app]; vm_length; simpl; lia
      |specialize (Hn3 ltac:(discriminate)); rewrite <- app_comm_cons;
       destruct Hb as [-> | ->];
       destruct Ht as [-> | [-> | (b2 & u & -> & [-> | ->])]];
       vm_length; lia])|]).
  contradiction.
Qed.

(** X14: line continuation. In every start condition but INSTR, a backslash
    followed by any number of blanks and a line break (LF or CR LF) is taken
    as a whole and thrown away: no token is returned, the line counter goes
    up by one, [continued] and [sawspace] are set, the start condition and
    the value being built are kept, and scanning resumes at the start of
    the next line. *)
Theorem line_continuation e l bol fp blanks eol rest :
  List.In (yy_start l) continuation_states ->
  yy_current_buffer l
  = Some (mkBuffer (BSLASH :: blanks ++ eol ++ rest) bol fp) ->
  forallb isblank blanks = true ->
  eol = [LF] \/ eol = [CR; LF] ->
  exists l1,
    yylex_step e l = (None, l1)
    /\ pending l1 = rest
    /\ at_bol l1 = true
    /\ yy_start l1 = yy_start l
    /\ sudolineno l1 = (sudolineno l + 1)%Z
    /\ continued l1 = true
    /\ sawspace l1 = true
    /\ sudoerslval l1 = sudoerslval l.
Proof.
  intros Hsc Hb Hall Heol.
  pose proof (continuation_rule_chosen (yy_start l) bol blanks eol rest
                Hsc Hall Heol) as Hm.
  rewrite (yylex_step_rule e l _ _ _ _ _ _ Hb Hm).
  assert (Hlen : S (length blanks + length eol)
                 = length (BSLASH :: blanks ++ eol)).
  { cbn [length]. now rewrite length_app. }
  assert (Hf : firstn (S (length blanks + length eol))
                 (BSLASH :: blanks ++ eol ++ rest)
               = BSLASH :: blanks ++ eol).
  { rewrite Hlen.
    change (BSLASH :: blanks ++ eol ++ rest)
      with ((BSLASH :: blanks) ++ eol ++ rest).
    rewrite app_assoc. apply firstn_app_length. }
  assert (Hk : skipn (S (length blanks + length eol))
                 (BSLASH :: blanks ++ eol ++ rest) = rest).
  { rewrite Hlen.
    change (BSLASH :: blanks ++ eol ++ rest)
      with ((BSLASH :: blanks) ++ eol ++ rest).
    rewrite app_assoc. apply skipn_app_length. }
  assert (Hlast : char_at (BSLASH :: blanks ++ eol)
                    (S (length blanks + length eol) - 1) = LF).
  { change (BSLASH :: blanks ++ eol) with ((BSLASH :: blanks) ++ eol).
    replace (S (length blanks + length eol) - 1)
      with (length (BSLASH :: blanks) + (length eol - 1))
      by (destruct Heol as [-> | ->]; cbn [length]; lia).
    unfold char_at. rewrite app_nth2_plus.
    destruct Heol as [-> | ->]; reflexivity. }
  rewrite Hf, Hk, Hlast. cbn [action]. eexists. split; [reflexivity|].
  repeat split.
Qed.

Lemma line_continuation_witness :
  exists l1,
    yylex_step sample_env
      (scanning GOTCMND false (BSLASH :: str " " ++ [CR; LF] ++ str "-l"))
    = (None, l1)
    /\ pending l1 = str "-l" /\ continued l1 = true.
Proof.
  destruct (line_continuation sample_env
              (scanning GOTCMND false
                 (BSLASH :: str " " ++ [CR; LF] ++ str "-l"))
              false (mkFILE (str "/etc/sudoers") [] false false)
              (str " ") [CR; LF] (str "-l"))
    as (l1 & E & Hp & _ & _ & _ & Hc & _).
  - cbn. tauto.
  - reflexivity.
  - reflexivity.
  - now right.
  - exists l1. repeat split; assumption.
Defined.

(** *** Quoted strings *)

Lemma beginstr_rule_chosen sc bol rest :
  sc = INITIAL \/ sc = GOTDEFS ->
  yy_match sc bol (DQUOTE :: rest) = Some (R_beginstr, 1).
Proof. intros [-> | ->]; destruct bol; vm_compute; reflexivity. Qed.

Lemma plain_char_facts c :
  plain_char c = true ->
  c <> DQUOTE /\ c <> CR /\ c <> LF /\ c <> BSLASH.
Proof. intros H. repeat split; intros ->; discriminate H. Qed.

Lemma deriv_plain c :
  plain_char c = true ->
  deriv c (Alt (not_of [DQUOTE; CR; LF; BSLASH]) (Cat backslash (chr DQUOTE)))
  = Eps.
Proof.
  intros H. cbn [deriv not_of backslash chr nullable].
  change (none_of [DQUOTE; CR; LF; BSLASH] c) with (plain_char c). rewrite H.
  destruct (plain_char_facts c H) as (_ & _ & _ & Hb).
  replace (Ascii.eqb BSLASH c) with false
    by (symmetry; apply Ascii.eqb_neq; congruence).
  reflexivity.
Qed.

Lemma scan_string_body a rest : forall n,
  forallb plain_char a = true ->
  scan_re (Star (Alt (not_of [DQUOTE; CR; LF; BSLASH])
                   (Cat backslash (chr DQUOTE))))
    (a ++ DQUOTE :: rest) n n
  = n + length a.
Proof.
  induction a as [|c a IH]; intros n Hall.
  - cbn [app scan_re length].
    match goal with
    | |- context [deriv DQUOTE ?r] =>
        replace (deriv DQUOTE r) with Empty by reflexivity
    end.
    cbn [nullable exhausted]. lia.
  - cbn [forallb] in Hall. apply andb_true_iff in Hall as [Hc Hall].
    rewrite <- app_comm_cons. cbn [scan_re].
    match goal with
    | |- context [deriv c (Star ?x)] =>
        change (deriv c (Star x)) with (cat (deriv c x) (Star x))
    end.
    rewrite (deriv_plain c Hc). cbn [cat nullable exhausted].
    rewrite IH by assumption. cbn [length]. lia.
Qed.

Lemma longest_string_body c a rest :
  forallb plain_char (c :: a) = true ->
  longest (plus (Alt (not_of [DQUOTE; CR; LF; BSLASH])
                   (Cat backslash (chr DQUOTE))))
    ((c :: a) ++ DQUOTE :: rest)
  = length (c :: a).
Proof.
  intros Hall. cbn [forallb] in Hall. apply andb_true_iff in Hall as [Hc Hall].
  unfold longest, plus. rewrite <- app_comm_cons. cbn [scan_re].
  match goal with
  | |- context [deriv c (Cat ?x (Star ?x))] =>
      change (deriv c (Cat x (Star x))) with (cat (deriv c x) (Star x))
  end.
  rewrite (deriv_plain c Hc). cbn [cat nullable exhausted andb].
  rewrite scan_string_body by assumption. cbn [length]. lia.
Qed.

Lemma body_rule_chosen bol c a rest :
  forallb plain_char (c :: a) = true ->
  yy_match INSTR bol ((c :: a) ++ DQUOTE :: rest)
  = Some (R_instr_body, length (c :: a)).
Proof.
  intros Hall.
  pose proof (longest_string_body c a rest Hall) as Hl.
  assert (Hc : plain_char c = true).
  { cbn [forallb] in Hall. now apply andb_true_iff in Hall as [Hc _]. }
  assert (Hn : 0 < length (c :: a)) by (simpl; lia).
  assert (Hspan : span plain_char ((c :: a) ++ DQUOTE :: rest)
                  = length (c :: a)).
  { apply span_app; [exact Hall | reflexivity]. }
  rewrite (yy_match_winner INSTR bol _ 12 (length (c :: a)) Hn);
    [reflexivity|].
  unfold rules, tag_rule, keyword. cbn [winner_at].
  repeat (split; [try inactive|]).
  - apply dead_lt; [|exact Hn]. cbn. char_facts c Hc. reflexivity.
  - apply dead_lt; [|exact Hn]. cbn. char_facts c Hc. reflexivity.
  - apply dead_lt; [|exact Hn]. cbn. char_facts c Hc. reflexivity.
  - destruct bol; exact Hl.
  - repeat (apply Forall_cons; split; [try inactive|]); [| | | | |constructor].
    + etransitivity; [apply match_length_longest|].
      cbn [r_pat]. unfold chr. rewrite longest_plus_cls. rewrite <- Hspan.
      apply span_mono. intros x Hx. apply Ascii.eqb_eq in Hx. now subst.
    + apply dead_le. cbn. char_facts c Hc. reflexivity.
    + etransitivity; [apply match_length_longest|].
      cbn [r_pat]. unfold blank. rewrite longest_plus_cls. rewrite <- Hspan.
      apply span_mono. intros x Hx.
      destruct (isblank_cases x Hx) as [-> | ->]; reflexivity.
    + apply dead_le. cbn. char_facts c Hc. reflexivity.
    + eapply cls_le; [reflexivity | lia].
Qed.

(** A closing quote that does not return ERROR leaves the text alone. *)
Lemma endstr_keeps e l yytext s :
  lv_string (sudoerslval l) = SStr s ->
  fst (action e R_instr_endstr yytext l) <> Some ERROR ->
  lv_string (sudoerslval (snd (action e R_instr_endstr yytext l))) = SStr s.
Proof.
  intros H. cbn [action]. cbn [sudoerslval BEGIN set_yy_start]. rewrite H.
  unfold error.
  repeat match goal with
         | |- context [if ?b then _ else _] => destruct b
         end; cbn [fst snd]; intros Hok;
    first [congruence | exact H].
Qed.

(** X15: a quoted string. In start condition INITIAL or GOTDEFS, a double
    quote, a non-empty run of bytes other than the double quote, CR, LF and
    the backslash, and a closing double quote are scanned in three steps
    (the opening quote, the body, the closing quote) and give one token,
    the one that [closed_string] names for the text of the body; no token
    is returned in between, the scanner is back in the start condition it
    came from and the input goes on behind the closing quote. *)
Theorem quoted_string e l bol fp body rest fuel :
  yy_start l = INITIAL \/ yy_start l = GOTDEFS ->
  yy_current_buffer l
  = Some (mkBuffer (DQUOTE :: body ++ DQUOTE :: rest) bol fp) ->
  body <> [] ->
  forallb plain_char body = true ->
  fill_text e body <> [] ->
  nul_free (fill_text e body) ->
  exists l',
    sudoerslex (3 + fuel) e l
    = Some (fst (closed_string (yy_start l) (Some (fill_text e body))), l')
    /\ yy_start l' = yy_start l
    /\ pending l' = rest
    /\ (fst (closed_string (yy_start l) (Some (fill_text e body))) <> ERROR ->
        lv_string (sudoerslval l') = SStr (fill_text e body)).
Proof.
  intros Hsc Hb Hne Hall Hfne Hfnul.
  destruct body as [|c a]; [congruence|].
  (* the opening quote *)
  pose proof (yylex_step_rule e l _ _ _ _ _ _ Hb
                (beginstr_rule_chosen (yy_start l) bol _ Hsc)) as H1.
  change (firstn 1 (DQUOTE :: (c :: a) ++ DQUOTE :: rest)) with [DQUOTE] in H1.
  change (skipn 1 (DQUOTE :: (c :: a) ++ DQUOTE :: rest))
    with ((c :: a) ++ DQUOTE :: rest) in H1.
  cbn [action] in H1.
  change (3 + fuel) with (S (S (S fuel))).
  rewrite (sudoerslex_skip _ e l _ H1).
  match type of H1 with _ = (None, ?x) => set (l1 := x) in * end.
  (* the body *)
  assert (Hb1 : yy_current_buffer l1
                = Some (mkBuffer ((c :: a) ++ DQUOTE :: rest) false fp))
    by reflexivity.
  assert (Hs1 : yy_start l1 = INSTR) by reflexivity.
  pose proof (body_rule_chosen false c a rest Hall) as Hm.
  rewrite <- Hs1 in Hm. rewrite <- app_comm_cons in Hb1, Hm.
  pose proof (yylex_step_rule e l1 _ _ _ _ _ _ Hb1 Hm) as H2.
  rewrite app_comm_cons in H2.
  rewrite firstn_app_length, skipn_app_length in H2.
  cbn [action] in H2.
  rewrite (sudoerslex_skip _ e l1 _ H2).
  match type of H2 with _ = (None, ?x) => set (l2 := x) in * end.
  (* the closing quote *)
  assert (Hb2 : exists bol2,
             yy_current_buffer l2 = Some (mkBuffer (DQUOTE :: rest) bol2 fp)).
  { eexists. reflexivity. }
  destruct Hb2 as (bol2 & Hb2).
  assert (Hs2 : yy_start l2 = INSTR) by reflexivity.
  assert (Hp2 : prev_state l2 = yy_start l) by reflexivity.
  assert (Hacc : accumulated (lv_string (sudoerslval l2))
                   (Some (fill_text e (c :: a)))).
  { cbn. auto. }
  pose proof (yylex_step_rule e l2 DQUOTE rest bol2 fp R_instr_endstr 1 Hb2)
    as H3.
  rewrite Hs2 in H3. specialize (H3 (endstr_rule_chosen bol2 rest)).
  match type of H3 with _ = action _ _ ?t ?x =>
    destruct (endstr_action e x t _ Hacc) as (l' & Ha & Herr & Hst & Hbuf)
  end.
  rewrite Ha in H3.
  change (prev_state _) with (yy_start l) in H3, Hst.
  exists l'. rewrite (sudoerslex_returns fuel e l2 _ _ H3).
  split; [reflexivity|]. split; [exact Hst|].
  split; [unfold pending; rewrite Hbuf; reflexivity|].
  intros Hok.
  match type of Ha with action _ _ ?t ?x = _ =>
    pose proof (endstr_keeps e x t (fill_text e (c :: a)) eq_refl) as Hk
  end.
  rewrite Ha in Hk. apply Hk. cbn [fst]. intros E. apply Hok.
  injection E as E. exact E.
Qed.

Lemma quoted_string_witness :
  exists l',
    sudoerslex 3 sample_env
      (scanning INITIAL false (DQUOTE :: str "%wheel" ++ DQUOTE :: str " ALL"))
    = Some (USERGROUP, l')
    /\ yy_start l' = INITIAL
    /\ pending l' = str " ALL".
Proof.
  destruct (quoted_string sample_env
              (scanning INITIAL false
                 (DQUOTE :: str "%wheel" ++ DQUOTE :: str " ALL"))
              false (mkFILE (str "/etc/sudoers") [] false false)
              (str "%wheel") (str " ALL") 0)
    as (l' & E & Hs & Hp & _).
  - now left.
  - reflexivity.
  - discriminate.
  - reflexivity.
  - discriminate.
  - intros H. cbn in H. repeat (destruct H as [H | H]; [discriminate H|]).
    exact H.
  - exists l'. repeat split; assumption.
Defined.

(** *** Hex digests *)

Lemma forallb_weaken (p q : ascii -> bool) s :
  (forall x, p x = true -> q x = true) ->
  forallb p s = true -> forallb q s = true.
Proof.
  intros Hpq. induction s as [|c s IH]; cbn; [reflexivity|].
  intros H. apply andb_true_iff in H as [Hc Hs].
  now rewrite (Hpq c Hc), IH.
Qed.

Lemma matches_alphabet r s : matches r s -> forallb (alphabet r) s = true.
Proof.
  induction 1; cbn [alphabet forallb]; auto.
  - now rewrite H.
  - rewrite forallb_app. apply andb_true_iff. split.
    + apply (forallb_weaken (alphabet r1)); [|assumption].
      intros x Hx. now rewrite Hx.
    + apply (forallb_weaken (alphabet r2)); [|assumption].
      intros x Hx. rewrite Hx. apply orb_true_r.
  - apply (forallb_weaken (alphabet r1)); [|assumption].
    intros x Hx. now rewrite Hx.
  - apply (forallb_weaken (alphabet r2)); [|assumption].
    intros x Hx. rewrite Hx. apply orb_true_r.
  - rewrite forallb_app. apply andb_true_iff. split; assumption.
Qed.

Lemma prefix_span p : forall s n,
  n <= length s -> forallb p (firstn n s) = true -> n <= span p s.
Proof.
  induction s as [|c s IH]; intros n Hn Hall; cbn in *; [lia|].
  destruct n as [|n]; [lia|]. cbn in Hall.
  apply andb_true_iff in Hall as [Hc Hall]. rewrite Hc.
  apply le_n_S, IH; [lia | exact Hall].
Qed.

(** A match is no longer than the run of bytes of the pattern's alphabet. *)
Lemma longest_alphabet r s : longest r s <= span (alphabet r) s.
Proof.
  destruct (Nat.eq_dec (longest r s) 0) as [E | E]; [lia|].
  destruct (longest_sound r s) as [Hle Hm]; [lia|].
  apply prefix_span; [exact Hle|]. now apply matches_alphabet.
Qed.

Lemma span_stops p a rest :
  p (char_at rest 0) = false -> rest <> [] -> span p (a ++ rest) <= length a.
Proof.
  intros Hp Hne. induction a as [|c a IH].
  - destruct rest as [|d rest]; [congruence|]. cbn in *. rewrite Hp. lia.
  - cbn. destruct (p c); lia.
Qed.

Lemma alphabet_le sc bol a rest r :
  alphabet (r_pat r) (char_at rest 0) = false -> rest <> [] ->
  match_length sc bol (a ++ rest) r <= length a.
Proof.
  intros Hp Hne. etransitivity; [apply match_length_longest|].
  etransitivity; [apply longest_alphabet|]. now apply span_stops.
Qed.

(** A rule whose pattern cannot go on with the second byte drops out. *)
Lemma dead2_le sc bol c x s r n :
  nullable (deriv c (r_pat r)) = false ->
  deriv x (deriv c (r_pat r)) = Empty ->
  match_length sc bol (c :: x :: s) r <= n.
Proof.
  intros H1 H2. unfold match_length. destruct (_ && _); [|lia].
  unfold longest. cbn [scan_re]. rewrite H1, H2.
  destruct (exhausted (deriv c (r_pat r))); cbn; lia.
Qed.

Ltac split_on c :=
  match goal with
  | |- context [Ascii.eqb ?k c] => destruct (Ascii.eqb k c)
  end.

Lemma hex_rule_chosen bol c a d rest :
  forallb isxdigit (c :: a) = true -> isblank d = true ->
  yy_match WANTDIGEST bol ((c :: a) ++ d :: rest)
  = Some (R_wantdigest_hex, length (c :: a)).
Proof.
  intros Hall Hd.
  assert (Hc : isxdigit c = true).
  { cbn [forallb] in Hall. now apply andb_true_iff in Hall as [Hc _]. }
  assert (Hn : 0 < length (c :: a)) by (simpl; lia).
  assert (Hne : d :: rest <> []) by discriminate.
  assert (Hx : exists x t, a ++ d :: rest = x :: t
                           /\ (isxdigit x || isblank x = true)).
  { destruct a as [|x a'].
    - exists d, rest. split; [reflexivity|]. rewrite Hd. apply orb_true_r.
    - exists x, (a' ++ d :: rest). split; [reflexivity|].
      cbn [forallb] in Hall. apply andb_true_iff in Hall as [_ Hall].
      apply andb_true_iff in Hall as [Hx _]. now rewrite Hx. }
  assert (Hl : longest (plus (Cls isxdigit)) ((c :: a) ++ d :: rest)
               = length (c :: a)).
  { rewrite longest_plus_cls. apply span_app; [exact Hall|].
    destruct (isblank_cases d Hd) as [-> | ->]; reflexivity. }
  rewrite (yy_match_winner WANTDIGEST bol _ 21 (length (c :: a)) Hn);
    [reflexivity|].
  unfold rules, tag_rule, keyword. cbn [winner_at].
  repeat (split; [try inactive|]).
  - destruct bol; exact Hl.
  - destruct (isblank_cases d Hd) as [-> | ->];
    repeat (apply Forall_cons; split;
      [first [ inactive
             | apply alphabet_le; [reflexivity | exact Hne]
             | apply dead_le; cbn -[Ascii.eqb]; unfold isblank;
               char_facts c Hc; reflexivity
             | eapply cls_le; [reflexivity | lia]
             | idtac ]|]);
    try apply Forall_nil_2.
    all: destruct Hx as (x & t & Ex & Hx); rewrite <- app_comm_cons, Ex.
    all: apply dead2_le; cbn -[Ascii.eqb]; split_on c; cbn -[Ascii.eqb];
      try char_facts x Hx; reflexivity.
Qed.

(** X16: hex digests. In start condition WANTDIGEST a run of hex digits
    followed by a blank is taken by the hex rule as a whole. When the run
    is twice as long as a digest of the current type, DIGEST is returned
    with the run as its text; a run of any other length is consumed
    without a token and without a change of the value. Either way the
    start condition becomes INITIAL and the input goes on at the blank. *)
Theorem hex_digest e l bol fp h d rest :
  yy_start l = WANTDIGEST ->
  yy_current_buffer l = Some (mkBuffer (h ++ d :: rest) bol fp) ->
  h <> [] ->
  forallb isxdigit h = true ->
  isblank d = true ->
  let right := length h =? 2 * sudo_digest_getlen e (digest_type l) in
  exists l1,
    yylex_step e l = (if right then Some DIGEST else None, l1)
    /\ yy_start l1 = INITIAL
    /\ pending l1 = d :: rest
    /\ lv_string (sudoerslval l1)
       = if right then SStr (fill_text e h) else lv_string (sudoerslval l).
Proof.
  intros Hs Hb Hne Hall Hd right. subst right.
  destruct h as [|c a]; [congruence|].
  pose proof (hex_rule_chosen bol c a d rest Hall Hd) as Hm.
  rewrite <- Hs in Hm. rewrite <- app_comm_cons in Hb, Hm.
  rewrite (yylex_step_rule e l _ _ _ _ _ _ Hb Hm).
  rewrite app_comm_cons, firstn_app_length, skipn_app_length.
  cbn [action].
  match goal with
  | |- context [sudo_digest_getlen e (digest_type ?x) * 2] =>
      replace (sudo_digest_getlen e (digest_type x) * 2)
        with (2 * sudo_digest_getlen e (digest_type l))
        by (change (digest_type x) with (digest_type l); lia)
  end.
  destruct (length (c :: a) =? 2 * sudo_digest_getlen e (digest_type l));
    (eexists; split; [reflexivity|]).
  - repeat split.
  - split; [reflexivity|]. split; [|reflexivity].
    unfold pending. rewrite sudoersless_all. reflexivity.
Qed.

Lemma hex_digest_witness :
  (exists l1,
      yylex_step sample_env
        (set_digest_type (Some SUDO_DIGEST_SHA224)
           (scanning WANTDIGEST false (str "abc /bin/ls")))
      = (None, l1)
      /\ yy_start l1 = INITIAL /\ pending l1 = str " /bin/ls")
  /\ sudo_digest_getlen sample_env (Some SUDO_DIGEST_SHA224) = 28.
Proof.
  split; [|reflexivity].
  destruct (hex_digest sample_env
              (set_digest_type (Some SUDO_DIGEST_SHA224)
                 (scanning WANTDIGEST false (str "abc /bin/ls")))
              false (mkFILE (str "/etc/sudoers") [] false false)
              (str "abc") " "%char (str "/bin/ls"))
    as (l1 & E & Hs & Hp & _).
  - reflexivity.
  - reflexivity.
  - discriminate.
  - reflexivity.
  - reflexivity.
  - exists l1. repeat split; assumption.
Defined.

End TokeProps.

(** ** Authentication: check.c *)

Module CheckProps.
Import Check CheckSpec.
Local Open Scope check_scope.

(** *** Traces only grow *)

Lemma emits_ret {A} P (a : A) : emits P (ret a).
Proof. intros t. exists []. split; [now rewrite app_nil_r | constructor]. Qed.

Lemma emits_call {A} (P : event -> Prop) ev (f : trace -> A) :
  P ev -> emits P (call ev f).
Proof. intros H t. exists [ev]. split; [reflexivity | now constructor]. Qed.

Lemma emits_emit (P : event -> Prop) ev : P ev -> emits P (emit ev).
Proof. apply emits_call. Qed.

Lemma emits_bind {A B} P (m : M A) (f : A -> M B) :
  emits P m -> (forall a, emits P (f a)) -> emits P (bind m f).
Proof.
  intros Hm Hf t. unfold bind. destruct (Hm t) as (mid1 & E1 & H1).
  destruct (m t) as [a t1] eqn:Em. cbn in E1. subst t1.
  destruct (Hf a (t ++ mid1)) as (mid2 & E2 & H2).
  exists (mid1 ++ mid2). rewrite E2, app_assoc. split; [reflexivity|].
  now apply Forall_app.
Qed.

Lemma emits_weaken {A} (P Q : event -> Prop) (m : M A) :
  (forall ev, P ev -> Q ev) -> emits P m -> emits Q m.
Proof.
  intros HPQ Hm t. destruct (Hm t) as (mid & E & H). exists mid.
  split; [exact E|]. eapply Forall_impl; [exact H | exact HPQ].
Qed.

(** The events of a sequence are those of its parts, in order. *)
Lemma bind_trace {A B} P Q (m : M A) (f : A -> M B) t :
  emits P m -> (forall a, emits Q (f a)) ->
  exists mid1 mid2,
    snd (m t) = t ++ mid1 /\ Forall P mid1
    /\ bind m f t = f (fst (m t)) (t ++ mid1)
    /\ snd (bind m f t) = t ++ mid1 ++ mid2 /\ Forall Q mid2.
Proof.
  intros Hm Hf. destruct (Hm t) as (mid1 & E1 & H1).
  unfold bind. destruct (m t) as [a t1] eqn:Em. cbn [fst snd] in *. subst t1.
  destruct (Hf a (t ++ mid1)) as (mid2 & E2 & H2).
  exists mid1, mid2. rewrite E2, app_assoc. auto.
Qed.

Ltac emits :=
  repeat first
    [ apply emits_ret
    | apply emits_emit; exact I
    | apply emits_call; exact I
    | apply emits_bind; [|intros ?]
    | match goal with
      | |- emits _ (match ?x with _ => _ end) => destruct x
      | |- emits _ (if ?x then _ else _) => destruct x
      end ].

(** *** The login shell *)

Lemma shell_listed_iff shells sh :
  shell_listed shells sh = true
  <-> exists shell, List.In shell shells /\ strcmp shell sh = 0%Z.
Proof.
  induction shells as [|s shells IH]; cbn [shell_listed List.In].
  - split; [discriminate | intros (x & [] & _)].
  - destruct (Z.eqb_spec (strcmp s sh) 0) as [E | E].
    + split; [|reflexivity]. intros _. exists s. auto.
    + rewrite IH. split.
      * intros (x & Hin & Hx). exists x. auto.
      * intros (x & [-> | Hin] & Hx); [contradiction|]. exists x. auto.
Qed.

(** X17: [check_user_shell] returns true exactly when the check is switched
    off or some entry of /etc/shells compares equal to the shell of the
    passwd entry. The list of shells is opened only when the check is on,
    and closed ([endusershell]) only when no entry matched. *)
Theorem check_user_shell_listed e pw t :
  (fst (check_user_shell e pw t) = true
   <-> def_runas_check_shell e = false
       \/ exists shell, List.In shell (usershells e)
                        /\ strcmp shell (pw_shell pw) = 0%Z)
  /\ snd (check_user_shell e pw t)
     = t ++ (if def_runas_check_shell e
             then E_setusershell
                  :: (if fst (check_user_shell e pw t) then []
                      else [E_endusershell])
             else []).
Proof.
  unfold check_user_shell.
  destruct (def_runas_check_shell e); cbn [negb].
  - unfold bind, emit, call, ret. cbn [fst snd].
    destruct (shell_listed (usershells e) (pw_shell pw)) eqn:E; cbn [fst snd].
    + split; [|reflexivity]. split; [|reflexivity]. intros _. right.
      now apply shell_listed_iff.
    + split; [|now rewrite <- app_assoc]. split; [discriminate|].
      intros [H | H]; [discriminate|]. apply shell_listed_iff in H. congruence.
  - cbn. rewrite app_nil_r. split; [|reflexivity]. split; auto.
Qed.

(** *** The passwd entry to authenticate as *)

Lemma ISSET_lor t a b : ISSET t (Z.lor a b) = ISSET t a || ISSET t b.
Proof.
  unfold ISSET. rewrite Z.land_lor_distr_r.
  destruct (Z.eqb_spec (Z.land t a) 0) as [Ea | Ea];
    destruct (Z.eqb_spec (Z.land t b) 0) as [Eb | Eb];
    destruct (Z.eqb_spec (Z.lor (Z.land t a) (Z.land t b)) 0) as [E | E];
    try reflexivity; exfalso.
  - apply E. apply Z.lor_eq_0_iff. auto.
  - apply Z.lor_eq_0_iff in E. tauto.
  - apply Z.lor_eq_0_iff in E. tauto.
  - apply Z.lor_eq_0_iff in E. tauto.
Qed.

Lemma get_authpw_emits e mode : emits authpw_event (get_authpw e mode).
Proof. unfold get_authpw. emits. Qed.

(** X18: [get_authpw] in list mode and in check mode returns the entry of the
    invoking user, whatever [rootpw], [runaspw] and [targetpw] say. It
    returns NULL only outside these modes, and then after exactly one
    warning; when it returns an entry, it has logged nothing and has taken
    at most one reference, on the entry it returns. *)
Theorem get_authpw_result e mode t :
  (ISSET mode MODE_CHECK || ISSET mode MODE_LIST = true ->
   get_authpw e mode t
   = (Some (sudo_user_pw e), t ++ [E_sudo_pw_addref (sudo_user_pw e)]))
  /\ match fst (get_authpw e mode t) with
     | Some pw =>
         snd (get_authpw e mode t) = t
         \/ snd (get_authpw e mode t) = t ++ [E_sudo_pw_addref pw]
     | None =>
         (exists msg, snd (get_authpw e mode t) = t ++ [E_log_warning msg])
         /\ ISSET mode MODE_CHECK = false /\ ISSET mode MODE_LIST = false
     end.
Proof.
  unfold get_authpw. rewrite ISSET_lor.
  destruct (ISSET mode MODE_CHECK || ISSET mode MODE_LIST) eqn:Em.
  - split; [reflexivity|]. cbn. auto.
  - apply orb_false_iff in Em as [Ec El]. split; [discriminate|].
    destruct (def_rootpw e);
      [destruct (sudo_getpwuid e ROOT_UID)
      |destruct (def_runaspw e);
       [destruct (sudo_getpwnam e (def_runas_default e))
       |destruct (def_targetpw e);
        [destruct (pw_name (runas_pw e))|]]];
      unfold bind, emit, call, ret; cbn [fst snd]; eauto.
Qed.

Lemma get_authpw_result_witness :
  get_authpw sample_auth_env MODE_LIST []
  = (Some alice, [E_sudo_pw_addref alice]).
Proof.
  apply (proj1 (get_authpw_result sample_auth_env MODE_LIST [])).
  reflexivity.
Defined.

(** *** The closure keeps its passwd entry *)

Lemma getpass_suspend_auth_pw e signo cl t :
  auth_pw (snd (fst (getpass_suspend e signo cl t))) = auth_pw cl.
Proof. reflexivity. Qed.

Lemma getpass_resume_auth_pw e signo cl t :
  auth_pw (snd (fst (getpass_resume e signo cl t))) = auth_pw cl.
Proof.
  unfold getpass_resume, bind, call, ret. cbn [fst snd].
  destruct (timestamp_open e t (user_name e) (user_sid e)); [|reflexivity].
  match goal with |- context [negb ?b] => destruct b end; reflexivity.
Qed.

Lemma show_chunks_value chunks t : fst (show_chunks chunks t) = tt.
Proof. now destruct (fst (show_chunks chunks t)). Qed.

Lemma display_lecture_closure e cl t :
  exists cl',
    fst (display_lecture e (Some (mkCallback (Some cl))) t)
    = Some (mkCallback (Some cl'))
    /\ auth_pw cl' = auth_pw cl /\ cookie cl' = cookie cl
    /\ tstat cl' = tstat cl.
Proof.
  unfold display_lecture. cbn [cb_closure].
  destruct (lectured cl); [exists cl; auto|].
  match goal with |- context [if ?b then _ else _] => destruct b end;
    [exists cl; auto|].
  exists (set_lectured_flag true cl). split; [|auto].
  destruct (def_lecture_file e) as [path|]; [|reflexivity].
  unfold bind at 1. cbn [emit call].
  destruct (read_lecture_file e path) as [| | |chunks to_end];
    try reflexivity.
  unfold bind at 1. destruct (show_chunks chunks _) as [[] t1].
  destruct to_end; reflexivity.
Qed.

Lemma run_callback_auth_pw e c cl t :
  auth_pw (fst (run_callback e c cl t)) = auth_pw cl.
Proof.
  destruct c as [signo|signo|]; unfold run_callback.
  - reflexivity.
  - unfold bind, ret.
    pose proof (getpass_resume_auth_pw e signo cl t) as H.
    destruct (getpass_resume e signo cl t) as [[r cl'] t']. exact H.
  - unfold bind, ret.
    destruct (display_lecture_closure e cl t) as (cl' & E & H & _).
    destruct (display_lecture e _ t) as [cb t']. cbn [fst] in E. subst cb.
    exact H.
Qed.

Lemma run_callbacks_auth_pw e cs : forall cl t,
  auth_pw (fst (run_callbacks e cs cl t)) = auth_pw cl.
Proof.
  induction cs as [|c cs IH]; intros cl t; [reflexivity|].
  cbn [run_callbacks]. unfold bind.
  pose proof (run_callback_auth_pw e c cl t) as H.
  destruct (run_callback e c cl t) as [cl1 t1]. cbn [fst] in H.
  now rewrite IH.
Qed.

Lemma open_ticket_auth_pw e m cl t :
  auth_pw (fst (open_ticket e m cl t)) = auth_pw cl.
Proof.
  unfold open_ticket.
  destruct (negb (ISSET m MODE_IGNORE_TICKET)); [|reflexivity].
  unfold bind, call, ret. cbn [fst snd].
  destruct (timestamp_open e t (user_name e) (user_sid e)); [|reflexivity].
  cbn [auth_pw set_cookie].
  match goal with |- context [if ?b then _ else _] => destruct b end;
    reflexivity.
Qed.

Lemma prompt_user_auth_pw e v m cl t :
  auth_pw (snd (fst (prompt_user e v m cl t))) = auth_pw cl.
Proof.
  unfold prompt_user.
  match goal with |- context [if ?b then _ else _] => destruct b end;
    [reflexivity|].
  destruct (auth_pw cl) as [pw|] eqn:Epw; [|exact Epw].
  destruct (expand_prompt e _ (pw_name pw)) as [prompt|]; [|exact Epw].
  unfold bind at 1. cbn [call]. unfold bind at 1.
  pose proof (run_callbacks_auth_pw e
                (fst (verify_user e t pw prompt v)) cl
                (t ++ [E_verify_user pw prompt v])) as H.
  destruct (run_callbacks e _ cl _) as [cl2 t2]. cbn [fst] in H.
  unfold bind.
  match goal with |- context [if ?b then _ else _] => destruct b end;
    cbn; congruence.
Qed.

Lemma check_user_interactive_auth_pw e v m cl t :
  auth_pw (snd (fst (check_user_interactive e v m cl t))) = auth_pw cl.
Proof.
  unfold check_user_interactive. unfold bind.
  pose proof (open_ticket_auth_pw e m cl t) as H.
  destruct (open_ticket e m cl t) as [cl1 t1]. cbn [fst] in H.
  destruct (tstat cl1); try (rewrite prompt_user_auth_pw; exact H);
    [|exact H].
  destruct (negb (ISSET v FLAG_CHECK_USER));
    [exact H | rewrite prompt_user_auth_pw; exact H].
Qed.

(** *** What the prompt can do *)

Lemma show_chunks_emits chunks : emits prompt_event (show_chunks chunks).
Proof. induction chunks; cbn [show_chunks]; emits. exact IHchunks. Qed.

Lemma display_lecture_emits e cb : emits prompt_event (display_lecture e cb).
Proof.
  unfold display_lecture. emits; try apply show_chunks_emits; emits.
Qed.

Lemma getpass_suspend_emits e signo cl :
  emits prompt_event (getpass_suspend e signo cl).
Proof. unfold getpass_suspend. emits. Qed.

Lemma getpass_resume_emits e signo cl :
  emits prompt_event (getpass_resume e signo cl).
Proof. unfold getpass_resume. emits. Qed.

Lemma run_callback_emits e c cl : emits prompt_event (run_callback e c cl).
Proof.
  destruct c; unfold run_callback.
  - apply emits_bind; [apply getpass_suspend_emits | intros; emits].
  - apply emits_bind; [apply getpass_resume_emits | intros; emits].
  - apply emits_bind; [apply display_lecture_emits | intros; emits].
Qed.

Lemma run_callbacks_emits e cs : forall cl,
  emits prompt_event (run_callbacks e cs cl).
Proof.
  induction cs as [|c cs IH]; intros cl; cbn [run_callbacks]; [emits|].
  apply emits_bind; [apply run_callback_emits | intros; apply IH].
Qed.

Lemma open_ticket_emits e m cl : emits prompt_event (open_ticket e m cl).
Proof. unfold open_ticket. emits. Qed.

Lemma prompt_user_emits e v m cl : emits prompt_event (prompt_user e v m cl).
Proof.
  unfold prompt_user. emits. apply run_callbacks_emits.
Qed.

Lemma check_user_interactive_emits e v m cl :
  emits prompt_event (check_user_interactive e v m cl).
Proof.
  unfold check_user_interactive.
  apply emits_bind; [apply open_ticket_emits|].
  intros cl1. emits; apply prompt_user_emits.
Qed.

Lemma prompt_before_done ev : prompt_event ev -> before_done ev.
Proof. destruct ev; cbn; tauto. Qed.

Lemma authpw_before_done ev : authpw_event ev -> before_done ev.
Proof. destruct ev; cbn; tauto. Qed.

(** *** From the label [done] on *)

Lemma check_user_done_spec e v m r ex cl t :
  check_user_done e v m r ex cl t
  = (if (r =? TRUE)%Z then sudo_auth_approval e t (auth_pw cl) v ex else r,
     t ++ done_events (auth_pw cl) (cookie cl) v ex (r =? TRUE)%Z
            ((r =? TRUE)%Z
             && (sudo_auth_approval e t (auth_pw cl) v ex =? TRUE)%Z
             && ISSET v VALIDATE_SUCCESS && ISSET m MODE_UPDATE_TICKET
             && negb (ts_status_eqb (tstat cl) TS_ERROR))).
Proof.
  unfold check_user_done, done_events.
  destruct (r =? TRUE)%Z; cbn [andb].
  - unfold bind at 1. unfold bind at 1. cbn [call].
    destruct ((sudo_auth_approval e t (auth_pw cl) v ex =? TRUE)%Z
              && ISSET v VALIDATE_SUCCESS && ISSET m MODE_UPDATE_TICKET
              && negb (ts_status_eqb (tstat cl) TS_ERROR));
      unfold bind, emit, call, ret; cbn [fst snd];
      destruct (auth_pw cl); cbn [app]; rewrite <- ?app_assoc; reflexivity.
  - unfold bind, emit, call, ret. cbn [fst snd].
    destruct (auth_pw cl); cbn [app]; rewrite <- ?app_assoc; reflexivity.
Qed.

(** The shape of every run of [check_user] past the intercept shortcut. *)
Lemma check_user_shape e v m t :
  intercept_shortcut e = false ->
  exists mid r ex cl,
    Forall before_done mid
    /\ auth_pw cl = fst (get_authpw e m t)
    /\ check_user e v m t = check_user_done e v m r ex cl (t ++ mid).
Proof.
  intros Hs. unfold check_user. unfold intercept_shortcut in Hs. rewrite Hs.
  unfold bind at 1.
  destruct (get_authpw_emits e m t) as (mid0 & E0 & H0).
  destruct (get_authpw e m t) as [pw t0]. cbn [fst snd] in *. subst t0.
  assert (H0' : Forall before_done mid0).
  { eapply Forall_impl; [exact H0 | exact authpw_before_done]. }
  destruct pw as [auth|].
  - unfold bind at 1. cbn [call].
    set (t1 := (t ++ mid0) ++ [E_sudo_auth_init auth m]).
    assert (Ht1 : t1 = t ++ (mid0 ++ [E_sudo_auth_init auth m])).
    { unfold t1. now rewrite app_assoc. }
    assert (H1 : Forall before_done (mid0 ++ [E_sudo_auth_init auth m])).
    { apply Forall_app. split; [exact H0'|]. repeat constructor. }
    destruct (sudo_auth_init e (t ++ mid0) auth m =? -1)%Z.
    { eexists _, _, _, _. split; [exact H1|]. split; [|now rewrite Ht1].
      reflexivity. }
    destruct (negb (def_authenticate e) || user_is_exempt e).
    { eexists _, _, _, _. split; [exact H1|]. split; [|now rewrite Ht1].
      reflexivity. }
    destruct (running_as_self e).
    { eexists _, _, _, _. split; [exact H1|]. split; [|now rewrite Ht1].
      reflexivity. }
    unfold bind.
    destruct (check_user_interactive_emits e v m
                (mkClosure TS_ERROR false None (Some auth)) t1)
      as (mid2 & E2 & H2).
    pose proof (check_user_interactive_auth_pw e v m
                  (mkClosure TS_ERROR false None (Some auth)) t1) as Hpw.
    destruct (check_user_interactive e v m _ t1) as [[r cl] t2].
    cbn [fst snd] in *. subst t2.
    exists ((mid0 ++ [E_sudo_auth_init auth m]) ++ mid2), r, false, cl.
    split; [|split; [exact Hpw|]].
    + apply Forall_app. split; [exact H1|].
      eapply Forall_impl; [exact H2 | exact prompt_before_done].
    + rewrite Ht1, <- app_assoc. reflexivity.
  - eexists _, _, _, _. split; [exact H0'|]. split; [|reflexivity].
    reflexivity.
Qed.

(** X19: every run of [check_user] past the intercept shortcut ends the same
    way: the time stamp cookie is closed, the authentication back end is
    cleaned up (told of a failure exactly when VALIDATE_SUCCESS is not
    set) and the passwd entry that [get_authpw] returned is released, in
    this order and whatever went wrong before. In the intercept shortcut
    the answer is true and nothing is called at all. *)
Theorem check_user_cleans_up e v m t :
  if intercept_shortcut e then check_user e v m t = (TRUE, t)
  else
    exists mid ck,
      snd (check_user e v m t)
      = t ++ mid
          ++ [E_timestamp_close ck;
              E_sudo_auth_cleanup (fst (get_authpw e m t))
                (negb (ISSET v VALIDATE_SUCCESS))]
          ++ match fst (get_authpw e m t) with
             | Some pw => [E_sudo_pw_delref pw]
             | None => []
             end.
Proof.
  destruct (intercept_shortcut e) eqn:Hs.
  - unfold check_user. unfold intercept_shortcut in Hs. now rewrite Hs.
  - destruct (check_user_shape e v m t Hs) as (mid & r & ex & cl & _ & Hpw & E).
    rewrite E, check_user_done_spec. cbn [snd]. unfold done_events.
    rewrite Hpw.
    match goal with
    | |- context [(t ++ mid) ++ ?A ++ ?B ++ _] =>
        exists (mid ++ A ++ B), (cookie cl)
    end.
    rewrite <- !app_assoc. reflexivity.
Qed.

(** X20: past the intercept shortcut [check_user] returns true only if
    [sudo_auth_approval] was called and returned true, and that call is
    the only one of its kind. The time stamp is updated at most once, and
    only when [check_user] returns true with VALIDATE_SUCCESS in
    [validated] and MODE_UPDATE_TICKET in [mode]. *)
Theorem check_user_approval e v m t :
  intercept_shortcut e = false ->
  exists mid pw ck ex approve update,
    snd (check_user e v m t)
    = t ++ mid ++ done_events pw ck v ex approve update
    /\ Forall before_done mid
    /\ (fst (check_user e v m t) = TRUE ->
        approve = true /\ sudo_auth_approval e (t ++ mid) pw v ex = TRUE)
    /\ (update = true ->
        fst (check_user e v m t) = TRUE
        /\ ISSET v VALIDATE_SUCCESS = true
        /\ ISSET m MODE_UPDATE_TICKET = true).
Proof.
  intros Hs.
  destruct (check_user_shape e v m t Hs) as (mid & r & ex & cl & Hmid & _ & E).
  rewrite E, check_user_done_spec. cbn [fst snd].
  eexists mid, _, _, _, _, _. split; [now rewrite <- app_assoc|].
  split; [exact Hmid|]. split.
  - destruct (Z.eqb_spec r TRUE) as [Er | Er]; [auto | congruence].
  - intros Hu. repeat (apply andb_true_iff in Hu as [Hu ?]).
    rewrite Hu. apply Z.eqb_eq in H2. auto.
Qed.

Lemma check_user_approval_witness :
  exists mid pw ck ex approve update,
    snd (check_user sample_auth_env VALIDATE_SUCCESS MODE_UPDATE_TICKET [])
    = [] ++ mid ++ done_events pw ck VALIDATE_SUCCESS ex approve update
    /\ Forall before_done mid
    /\ (fst (check_user sample_auth_env VALIDATE_SUCCESS MODE_UPDATE_TICKET [])
        = TRUE ->
        approve = true
        /\ sudo_auth_approval sample_auth_env ([] ++ mid) pw VALIDATE_SUCCESS
             ex = TRUE)
    /\ (update = true ->
        fst (check_user sample_auth_env VALIDATE_SUCCESS MODE_UPDATE_TICKET [])
        = TRUE
        /\ ISSET VALIDATE_SUCCESS VALIDATE_SUCCESS = true
        /\ ISSET MODE_UPDATE_TICKET MODE_UPDATE_TICKET = true).
Proof.
  apply (check_user_approval sample_auth_env VALIDATE_SUCCESS
           MODE_UPDATE_TICKET []).
  reflexivity.
Defined.

(** *** No password asked *)

(** X21: a user who need not authenticate is not prompted and leaves the
    time stamp file alone. When [get_authpw] and [sudo_auth_init] succeed
    and authentication is switched off, the user is in the exempt group or
    the command runs as the user themself, [check_user] returns what
    [sudo_auth_approval] returns and does nothing else but the approval,
    the close of a NULL cookie, the cleanup and the release of the passwd
    entry: no time stamp is opened or updated, even with
    MODE_UPDATE_TICKET. The approval is told that the user is exempt
    exactly when authentication is off or the user is in the exempt
    group. *)
Theorem check_user_without_password e v m t auth :
  intercept_shortcut e = false ->
  fst (get_authpw e m t) = Some auth ->
  sudo_auth_init e (snd (get_authpw e m t)) auth m <> (-1)%Z ->
  negb (def_authenticate e) || user_is_exempt e || running_as_self e = true ->
  let t1 := snd (get_authpw e m t) ++ [E_sudo_auth_init auth m] in
  let exempt := negb (def_authenticate e) || user_is_exempt e in
  check_user e v m t
  = (sudo_auth_approval e t1 (Some auth) v exempt,
     t1 ++ [E_sudo_auth_approval (Some auth) v exempt;
            E_timestamp_close None;
            E_sudo_auth_cleanup (Some auth) (negb (ISSET v VALIDATE_SUCCESS));
            E_sudo_pw_delref auth]).
Proof.
  intros Hs Hpw Hinit Hwhy t1 exempt. subst t1 exempt.
  unfold check_user. unfold intercept_shortcut in Hs. rewrite Hs.
  unfold bind at 1. destruct (get_authpw e m t) as [pw t0].
  cbn [fst snd] in *. subst pw. unfold bind at 1. cbn [call].
  apply Z.eqb_neq in Hinit. rewrite Hinit.
  destruct (negb (def_authenticate e) || user_is_exempt e) eqn:Ex.
  - rewrite check_user_done_spec. cbn [auth_pw cookie tstat].
    unfold done_events. cbn [Z.eqb TRUE Pos.eqb ts_status_eqb negb andb].
    rewrite !andb_false_r. reflexivity.
  - cbn [orb] in Hwhy. rewrite Hwhy.
    rewrite check_user_done_spec. cbn [auth_pw cookie tstat].
    unfold done_events. cbn [Z.eqb TRUE Pos.eqb ts_status_eqb negb andb].
    rewrite !andb_false_r. reflexivity.
Qed.

Lemma check_user_without_password_witness :
  check_user sample_exempt_env VALIDATE_SUCCESS MODE_UPDATE_TICKET []
  = (TRUE,
     [E_sudo_pw_addref alice; E_sudo_auth_init alice MODE_UPDATE_TICKET;
      E_sudo_auth_approval (Some alice) VALIDATE_SUCCESS true;
      E_timestamp_close None;
      E_sudo_auth_cleanup (Some alice) false;
      E_sudo_pw_delref alice]).
Proof.
  apply (check_user_without_password sample_exempt_env VALIDATE_SUCCESS
           MODE_UPDATE_TICKET [] alice).
  - reflexivity.
  - reflexivity.
  - discriminate.
  - reflexivity.
Defined.

(** *** Why [check_user] says yes *)

(** The time stamp file as [check_user] reads it: what [open_ticket] does
    with the closure [check_user] hands over. *)
Lemma open_ticket_first e m auth t0 :
  let cl0 := mkClosure TS_ERROR false None (Some auth) in
  let ev_open := E_timestamp_open (user_name e) (user_sid e) in
  auth_pw (fst (open_ticket e m cl0 t0)) = Some auth
  /\ (exists mid, snd (open_ticket e m cl0 t0) = t0 ++ mid)
  /\ (tstat (fst (open_ticket e m cl0 t0)) = TS_ERROR
      \/ (ISSET m MODE_IGNORE_TICKET = false
          /\ exists ck,
               timestamp_open e t0 (user_name e) (user_sid e) = Some ck
               /\ timestamp_lock e (t0 ++ [ev_open]) ck (Some auth) = true
               /\ tstat (fst (open_ticket e m cl0 t0))
                  = timestamp_status e
                      (t0 ++ [ev_open; E_timestamp_lock ck (Some auth)])
                      ck (Some auth)
               /\ snd (open_ticket e m cl0 t0)
                  = t0 ++ [ev_open; E_timestamp_lock ck (Some auth);
                           E_timestamp_status ck (Some auth)])).
Proof.
  cbv zeta. unfold open_ticket.
  destruct (ISSET m MODE_IGNORE_TICKET) eqn:Ei; cbn [negb].
  { split; [reflexivity|]. split; [exists []; cbn; now rewrite app_nil_r|].
    now left. }
  unfold bind, call, ret. cbn [fst snd].
  destruct (timestamp_open e t0 (user_name e) (user_sid e)) as [ck|] eqn:Eo.
  2:{ split; [reflexivity|]. split; [eexists; reflexivity | now left]. }
  cbn [auth_pw set_cookie].
  destruct (timestamp_lock e _ ck (Some auth)) eqn:El; cbn [fst snd].
  2:{ split; [reflexivity|].
      split; [eexists; rewrite <- app_assoc; reflexivity | now left]. }
  split; [reflexivity|].
  split; [eexists; rewrite <- !app_assoc; reflexivity|].
  right. split; [reflexivity|]. exists ck.
  split; [reflexivity|]. split; [exact El|].
  rewrite <- !app_assoc. cbn [app tstat set_tstat]. auto.
Qed.

(** The prompt says yes only if [verify_user] does. *)
Lemma prompt_user_true e v m cl t auth :
  auth_pw cl = Some auth ->
  fst (fst (prompt_user e v m cl t)) = TRUE ->
  ISSET m MODE_NONINTERACTIVE && negb (def_noninteractive_auth e) = false
  /\ exists prompt rest,
       expand_prompt e
         (match user_prompt e with
          | Some p => p
          | None => def_passprompt e
          end) (pw_name auth) = Some prompt
       /\ snd (verify_user e t auth prompt v) = TRUE
       /\ snd (prompt_user e v m cl t)
          = t ++ E_verify_user auth prompt v :: rest.
Proof.
  intros Hpw. unfold prompt_user. rewrite Hpw.
  destruct (ISSET m MODE_NONINTERACTIVE && negb (def_noninteractive_auth e));
    [discriminate|].
  destruct (expand_prompt e _ (pw_name auth)) as [prompt|] eqn:Ep;
    [|discriminate].
  unfold bind, call. cbn [fst snd].
  destruct (run_callbacks_emits e (fst (verify_user e t auth prompt v)) cl
              (t ++ [E_verify_user auth prompt v])) as (mid & Em & _).
  destruct (run_callbacks e _ cl _) as [cl2 t2]. cbn [snd] in Em. subst t2.
  intros H. split; [reflexivity|]. exists prompt.
  destruct (_ && lectured cl2); unfold emit, call, ret in *; cbn [fst snd] in *.
  - exists (mid ++ [E_set_lectured]).
    split; [reflexivity|]. split; [exact H|].
    now rewrite <- !app_assoc.
  - exists mid. split; [reflexivity|]. split; [exact H|].
    now rewrite <- !app_assoc.
Qed.

(** X22: [check_user] never returns true without a reason. When it returns
    true, either the command is intercepted and [intercept_authenticate]
    is off, or [get_authpw] returned an entry, [sudo_auth_init] did not
    fail for it, and one of these holds: authentication is off; the user
    is in the exempt group; the user runs the command as themself; the
    time stamp file was used (no MODE_IGNORE_TICKET), [timestamp_open]
    returned a cookie, [timestamp_lock] locked it and [timestamp_status]
    found it current, for this cookie and this entry and right after
    [sudo_auth_init], with FLAG_CHECK_USER not set; or the session may
    prompt and [verify_user] was called in this run, for this entry, with
    the expanded prompt and [validated], and returned true. *)
Theorem check_user_true_reasons e v m t :
  fst (check_user e v m t) = TRUE ->
  intercept_shortcut e = true
  \/ exists auth,
       let t0 := snd (get_authpw e m t) ++ [E_sudo_auth_init auth m] in
       let ev_open := E_timestamp_open (user_name e) (user_sid e) in
       fst (get_authpw e m t) = Some auth
       /\ sudo_auth_init e (snd (get_authpw e m t)) auth m <> (-1)%Z
       /\ (def_authenticate e = false
           \/ user_is_exempt e = true
           \/ running_as_self e = true
           \/ (ISSET m MODE_IGNORE_TICKET = false
               /\ ISSET v FLAG_CHECK_USER = false
               /\ exists ck,
                    timestamp_open e t0 (user_name e) (user_sid e) = Some ck
                    /\ timestamp_lock e (t0 ++ [ev_open]) ck (Some auth)
                       = true
                    /\ timestamp_status e
                         (t0 ++ [ev_open; E_timestamp_lock ck (Some auth)])
                         ck (Some auth) = TS_CURRENT)
           \/ (ISSET m MODE_NONINTERACTIVE
               && negb (def_noninteractive_auth e) = false
               /\ exists t1 prompt rest,
                    snd (check_user e v m t)
                    = t0 ++ t1 ++ E_verify_user auth prompt v :: rest
                    /\ expand_prompt e
                         (match user_prompt e with
                          | Some p => p
                          | None => def_passprompt e
                          end) (pw_name auth) = Some prompt
                    /\ snd (verify_user e (t0 ++ t1) auth prompt v) = TRUE)).
Proof.
  intros Htrue.
  destruct (intercept_shortcut e) eqn:Hs; [now left|]. right.
  unfold intercept_shortcut in Hs.
  destruct (get_authpw e m t) as [[auth|] tg] eqn:Eg.
  2:{ exfalso. revert Htrue. unfold check_user. rewrite Hs.
      unfold bind at 1. rewrite Eg. rewrite check_user_done_spec.
      cbn. discriminate. }
  exists auth. cbv zeta. cbn [fst snd]. split; [reflexivity|].
  destruct (Z.eqb_spec (sudo_auth_init e tg auth m) (-1)) as [Ei | Ei].
  { exfalso. revert Htrue. unfold check_user. rewrite Hs.
    unfold bind at 1. rewrite Eg. unfold bind at 1. cbn [call].
    rewrite Ei, Z.eqb_refl. rewrite check_user_done_spec. cbn. discriminate. }
  split; [exact Ei|].
  destruct (def_authenticate e) eqn:Ha; [|now left]. right.
  destruct (user_is_exempt e) eqn:Hx; [now left|]. right.
  destruct (running_as_self e) eqn:Hself; [now left|]. right.
  set (t0 := tg ++ [E_sudo_auth_init auth m]).
  set (cl0 := mkClosure TS_ERROR false None (Some auth)).
  assert (Hcu : check_user e v m t
                = check_user_done e v m
                    (fst (fst (check_user_interactive e v m cl0 t0))) false
                    (snd (fst (check_user_interactive e v m cl0 t0)))
                    (snd (check_user_interactive e v m cl0 t0))).
  { unfold check_user. rewrite Hs. unfold bind at 1. rewrite Eg.
    unfold bind at 1. cbn [call].
    apply Z.eqb_neq in Ei. rewrite Ei, Ha, Hx, Hself. cbn [negb orb].
    unfold bind. fold t0 cl0.
    now destruct (check_user_interactive e v m cl0 t0) as [[r cl] t2]. }
  rewrite Hcu in Htrue. rewrite Hcu. clear Hcu.
  destruct (check_user_interactive e v m cl0 t0) as [[r cl] t2] eqn:Eint.
  cbn [fst snd] in *.
  rewrite check_user_done_spec in Htrue. rewrite check_user_done_spec.
  cbn [fst snd] in *.
  destruct (Z.eqb_spec r TRUE) as [-> | Hr]; [|congruence]. clear Htrue.
  set (de := done_events _ _ _ _ _ _).
  revert Eint. unfold check_user_interactive. unfold bind.
  destruct (open_ticket_first e m auth t0) as (Hpw & (mid1 & Et1) & Hst).
  cbv zeta in Hpw, Et1, Hst. fold cl0 in Hpw, Et1, Hst.
  destruct (open_ticket e m cl0 t0) as [cl1 t1].
  cbn [fst snd] in Hpw, Et1, Hst. subst t1.
  assert (Hp : prompt_user e v m cl1 (t0 ++ mid1) = (TRUE, cl, t2) ->
    ISSET m MODE_NONINTERACTIVE && negb (def_noninteractive_auth e) = false
    /\ exists t1 prompt rest,
         t2 ++ de = t0 ++ t1 ++ E_verify_user auth prompt v :: rest
         /\ expand_prompt e
              (match user_prompt e with
               | Some p => p
               | None => def_passprompt e
               end) (pw_name auth) = Some prompt
         /\ snd (verify_user e (t0 ++ t1) auth prompt v) = TRUE).
  { intros E.
    destruct (prompt_user_true e v m cl1 (t0 ++ mid1) auth Hpw)
      as (Hn & prompt & rest & Hex & Hv & Htr); [now rewrite E|].
    rewrite E in Htr. cbn [snd] in Htr. split; [exact Hn|].
    exists mid1, prompt, (rest ++ de).
    split; [|split; [exact Hex | exact Hv]].
    rewrite Htr. rewrite <- !app_assoc. cbn [app]. reflexivity. }
  destruct (tstat cl1) eqn:Ets;
    try (intros E; right; exact (Hp E)).
  - destruct (ISSET v FLAG_CHECK_USER) eqn:Ef; cbn [negb];
      [intros E; right; exact (Hp E)|].
    intros _. left.
    destruct Hst as [Hst | (Hi & ck & Ho & Hl & Hstat & _)];
      [discriminate|].
    split; [exact Hi|]. split; [reflexivity|]. exists ck.
    split; [exact Ho|]. split; [exact Hl|]. now rewrite <- Hstat.
  - discriminate.
Qed.

Lemma check_user_true_reasons_witness :
  intercept_shortcut sample_auth_env = true
  \/ exists auth,
       let t0 := snd (get_authpw sample_auth_env 0 [])
                 ++ [E_sudo_auth_init auth 0] in
       let ev_open :=
         E_timestamp_open (user_name sample_auth_env)
           (user_sid sample_auth_env) in
       fst (get_authpw sample_auth_env 0 []) = Some auth
       /\ sudo_auth_init sample_auth_env
            (snd (get_authpw sample_auth_env 0 [])) auth 0 <> (-1)%Z
       /\ (def_authenticate sample_auth_env = false
           \/ user_is_exempt sample_auth_env = true
           \/ running_as_self sample_auth_env = true
           \/ (ISSET 0 MODE_IGNORE_TICKET = false
               /\ ISSET VALIDATE_SUCCESS FLAG_CHECK_USER = false
               /\ exists ck,
                    timestamp_open sample_auth_env t0
                      (user_name sample_auth_env) (user_sid sample_auth_env)
                    = Some ck
                    /\ timestamp_lock sample_auth_env (t0 ++ [ev_open]) ck
                         (Some auth) = true
                    /\ timestamp_status sample_auth_env
                         (t0 ++ [ev_open; E_timestamp_lock ck (Some auth)])
                         ck (Some auth) = TS_CURRENT)
           \/ (ISSET 0 MODE_NONINTERACTIVE
               && negb (def_noninteractive_auth sample_auth_env) = false
               /\ exists t1 prompt rest,
                    snd (check_user sample_auth_env VALIDATE_SUCCESS 0 [])
                    = t0 ++ t1 ++ E_verify_user auth prompt VALIDATE_SUCCESS
                                   :: rest
                    /\ expand_prompt sample_auth_env
                         (match user_prompt sample_auth_env with
                          | Some p => p
                          | None => def_passprompt sample_auth_env
                          end) (pw_name auth) = Some prompt
                    /\ snd (verify_user sample_auth_env (t0 ++ t1) auth
                              prompt VALIDATE_SUCCESS) = TRUE)).
Proof.
  apply (check_user_true_reasons sample_auth_env VALIDATE_SUCCESS 0 []).
  reflexivity.
Defined.

(** *** Sessions that may not prompt *)

Lemma ISSET_lor_self v f : f <> 0%Z -> ISSET (Z.lor v f) f = true.
Proof.
  intros Hf. unfold ISSET. rewrite Z.land_comm, Z.land_lor_distr_r.
  rewrite Z.land_diag.
  destruct (Z.eqb_spec (Z.lor (Z.land f v) f) 0) as [E | E]; [|reflexivity].
  apply Z.lor_eq_0_iff in E. tauto.
Qed.

Lemma open_ticket_silent e m cl : emits silent (open_ticket e m cl).
Proof. unfold open_ticket. emits. Qed.

(** X23: a session that may not prompt is never prompted. With
    MODE_NONINTERACTIVE set and [noninteractive_auth] off,
    [check_user_interactive] never calls [verify_user], prints nothing and
    does not mark the user as lectured. It returns true only on a current
    time stamp without FLAG_CHECK_USER; otherwise it returns -1, and
    unless the time stamp status is TS_FATAL its last act is to log the
    failure with FLAG_NO_USER_INPUT added to [validated]. *)
Theorem noninteractive_never_prompts e v m cl t :
  ISSET m MODE_NONINTERACTIVE = true ->
  def_noninteractive_auth e = false ->
  exists mid r cl',
    check_user_interactive e v m cl t = (r, cl', t ++ mid)
    /\ Forall silent mid
    /\ ((r = TRUE /\ tstat cl' = TS_CURRENT
         /\ ISSET v FLAG_CHECK_USER = false)
        \/ (r = (-1)%Z /\ tstat cl' = TS_FATAL)
        \/ (r = (-1)%Z
            /\ exists mid',
                 mid = mid'
                       ++ [E_log_auth_failure (Z.lor v FLAG_NO_USER_INPUT) 0]
                 /\ ISSET (Z.lor v FLAG_NO_USER_INPUT) FLAG_NO_USER_INPUT
                    = true)).
Proof.
  intros Hm Hd. unfold check_user_interactive. unfold bind.
  destruct (open_ticket_silent e m cl t) as (mid1 & E1 & H1).
  destruct (open_ticket e m cl t) as [cl1 t1]. cbn [snd] in E1. subst t1.
  assert (Hp : prompt_user e v m cl1 (t ++ mid1)
               = ((-1)%Z, cl1,
                  t ++ mid1
                    ++ [E_log_auth_failure (Z.lor v FLAG_NO_USER_INPUT) 0])).
  { unfold prompt_user. rewrite Hm, Hd. cbn [negb andb].
    unfold bind, emit, call, ret. now rewrite <- app_assoc. }
  assert (Hlog : Forall silent
                   (mid1
                    ++ [E_log_auth_failure (Z.lor v FLAG_NO_USER_INPUT) 0])).
  { apply Forall_app. split; [exact H1|]. repeat constructor. }
  assert (Hbit : ISSET (Z.lor v FLAG_NO_USER_INPUT) FLAG_NO_USER_INPUT = true).
  { now apply ISSET_lor_self. }
  destruct (tstat cl1) eqn:Ets;
    try (rewrite Hp; eexists _, _, _; split; [reflexivity|];
         split; [exact Hlog|]; right; right; split; [reflexivity|];
         eexists; split; [reflexivity | exact Hbit]).
  - destruct (ISSET v FLAG_CHECK_USER) eqn:Ef; cbn [negb].
    + rewrite Hp. eexists _, _, _. split; [reflexivity|].
      split; [exact Hlog|]. right. right. split; [reflexivity|].
      eexists. split; [reflexivity | exact Hbit].
    + exists mid1, TRUE, cl1. split; [reflexivity|]. split; [exact H1|].
      left. auto.
  - exists mid1, (-1)%Z, cl1. split; [reflexivity|]. split; [exact H1|].
    right. left. auto.
Qed.

Lemma noninteractive_never_prompts_witness :
  exists mid r cl',
    check_user_interactive sample_auth_env VALIDATE_SUCCESS
      MODE_NONINTERACTIVE (mkClosure TS_ERROR false None (Some alice)) []
    = (r, cl', [] ++ mid)
    /\ Forall silent mid
    /\ ((r = TRUE /\ tstat cl' = TS_CURRENT
         /\ ISSET VALIDATE_SUCCESS FLAG_CHECK_USER = false)
        \/ (r = (-1)%Z /\ tstat cl' = TS_FATAL)
        \/ (r = (-1)%Z
            /\ exists mid',
                 mid = mid'
                       ++ [E_log_auth_failure
                             (Z.lor VALIDATE_SUCCESS FLAG_NO_USER_INPUT) 0]
                 /\ ISSET (Z.lor VALIDATE_SUCCESS FLAG_NO_USER_INPUT)
                      FLAG_NO_USER_INPUT = true)).
Proof.
  apply (noninteractive_never_prompts sample_auth_env VALIDATE_SUCCESS
           MODE_NONINTERACTIVE (mkClosure TS_ERROR false None (Some alice))
           []); reflexivity.
Defined.

(** *** The lecture *)

Lemma show_chunks_trace chunks : forall t,
  show_chunks chunks t = (tt, t ++ map E_sudo_conv chunks).
Proof.
  induction chunks as [|c chunks IH]; intros t; cbn [show_chunks map].
  - unfold ret. now rewrite app_nil_r.
  - unfold bind, emit, call. rewrite IH, <- app_assoc. reflexivity.
Qed.

Lemma display_lecture_not_due e cl t :
  lecture_due e cl = false ->
  display_lecture e (Some (mkCallback (Some cl))) t
  = (Some (mkCallback (Some cl)), t).
Proof.
  unfold lecture_due, display_lecture. cbn [cb_closure].
  destruct (lectured cl); [reflexivity|]. cbn [negb andb].
  destruct (def_lecture e); [reflexivity| |discriminate].
  destruct (already_lectured e); [reflexivity | discriminate].
Qed.

Lemma display_lecture_due e cl t :
  lecture_due e cl = true ->
  exists mid,
    display_lecture e (Some (mkCallback (Some cl))) t
    = (Some (mkCallback (Some (set_lectured_flag true cl))), t ++ mid)
    /\ match def_lecture_file e with
       | Some path =>
           match read_lecture_file e path with
           | Regular chunks true =>
               mid = E_open path :: map E_sudo_conv chunks ++ [E_close]
           | _ => exists mid', mid = mid' ++ [E_sudo_conv default_lecture]
           end
       | None => mid = [E_sudo_conv default_lecture]
       end.
Proof.
  unfold lecture_due, display_lecture. cbn [cb_closure].
  destruct (lectured cl); [discriminate|]. cbn [negb andb]. intros Hdue.
  replace (match def_lecture e with
           | never => true
           | once => already_lectured e
           | always => false
           end) with false
    by (destruct (def_lecture e); [discriminate| |reflexivity];
        now destruct (already_lectured e)).
  destruct (def_lecture_file e) as [path|].
  - unfold bind at 1. cbn [emit call].
    destruct (read_lecture_file e path) as [| | |chunks to_end].
    + unfold bind, emit, call, ret. rewrite <- !app_assoc.
      eexists. split; [reflexivity|].
      now exists [E_open path; E_log_warning "unable to open %s"].
    + unfold bind, emit, call, ret. rewrite <- !app_assoc.
      eexists. split; [reflexivity|].
      now exists [E_open path; E_log_warning "unable to open %s"; E_close].
    + unfold bind, emit, call, ret. rewrite <- !app_assoc.
      eexists. split; [reflexivity|].
      now exists [E_open path;
                  E_log_warning "ignoring lecture file %s: not a regular file";
                  E_close].
    + unfold bind at 1. rewrite show_chunks_trace.
      destruct to_end; unfold bind, emit, call, ret; rewrite <- !app_assoc;
        (eexists; split; [reflexivity|]).
      * reflexivity.
      * exists (E_open path :: map E_sudo_conv chunks
                ++ [E_log_warning "error reading lecture file %s";
                    E_close]).
        cbn [app]. now rewrite <- app_assoc.
  - unfold bind, emit, call, ret. eauto.
Qed.

(** X24: the lecture is given at most once through a closure. A second call
    of [display_lecture] with the callback as the first call left it does
    and changes nothing. When the lecture is due (not yet given through
    this closure, and [lecture] is [always], or [once] for a user not yet
    lectured), the closure is marked as lectured; a lecture file that is a
    regular file and is read to its end is shown in its chunks and
    replaces the standard lecture, and in every other case the standard
    lecture is the last thing shown. When the lecture is not due nothing
    happens. *)
Theorem display_lecture_once e cl t :
  let cb := Some (mkCallback (Some cl)) in
  display_lecture e (fst (display_lecture e cb t))
    (snd (display_lecture e cb t))
  = display_lecture e cb t
  /\ if lecture_due e cl then
       exists mid,
         display_lecture e cb t
         = (Some (mkCallback (Some (set_lectured_flag true cl))), t ++ mid)
         /\ match def_lecture_file e with
            | Some path =>
                match read_lecture_file e path with
                | Regular chunks true =>
                    mid = E_open path :: map E_sudo_conv chunks ++ [E_close]
                | _ =>
                    exists mid', mid = mid' ++ [E_sudo_conv default_lecture]
                end
            | None => mid = [E_sudo_conv default_lecture]
            end
     else display_lecture e cb t = (cb, t).
Proof.
  cbv zeta. destruct (lecture_due e cl) eqn:Hdue.
  - destruct (display_lecture_due e cl t Hdue) as (mid & E & Hmid).
    split; [|eauto]. rewrite E. cbn [fst snd].
    apply display_lecture_not_due. unfold lecture_due. reflexivity.
  - rewrite (display_lecture_not_due e cl t Hdue). cbn [fst snd].
    split; [|reflexivity]. now apply display_lecture_not_due.
Qed.

(** *** Time stamp cookies *)

Lemma open_cookies_app e a : forall t b held,
  open_cookies e t (a ++ b) held
  = open_cookies e (t ++ a) b (open_cookies e t a held).
Proof.
  induction a as [|ev a IH]; intros t b held; cbn [app open_cookies].
  - now rewrite app_nil_r.
  - rewrite IH. now rewrite <- app_assoc.
Qed.

Lemma open_cookies_keeps e evs : forall t held,
  Forall keeps_cookies evs -> open_cookies e t evs held = held.
Proof.
  induction evs as [|ev evs IH]; intros t held H; [reflexivity|].
  inversion H as [|? ? Hev Hevs]; subst. cbn [open_cookies].
  rewrite IH by assumption. destruct ev; cbn in Hev; tauto.
Qed.

Lemma display_lecture_keeps e cb : emits keeps_cookies (display_lecture e cb).
Proof.
  unfold display_lecture. emits.
  all: try (match goal with
            | |- emits _ (show_chunks ?c) =>
                induction c; cbn [show_chunks]; emits; assumption
            end).
Qed.

(** The cookie of the closure that a callback returns is the one cookie
    open after it, when the cookie of the closure it got was the one open
    before. *)
Lemma getpass_suspend_tracks e signo cl t :
  exists mid,
    snd (getpass_suspend e signo cl t) = t ++ mid
    /\ open_cookies e t mid (held_of cl)
       = held_of (snd (fst (getpass_suspend e signo cl t)))
    /\ cookie (snd (fst (getpass_suspend e signo cl t))) = None.
Proof.
  exists [E_timestamp_close (cookie cl)]. split; [reflexivity|].
  split; [|reflexivity]. unfold held_of. cbn.
  destruct (cookie cl) as [ck|]; [|reflexivity]. cbn.
  now destruct (Nat.eq_dec ck ck).
Qed.

Lemma getpass_resume_tracks e signo cl t :
  cookie cl = None ->
  exists mid,
    snd (getpass_resume e signo cl t) = t ++ mid
    /\ open_cookies e t mid (held_of cl)
       = held_of (snd (fst (getpass_resume e signo cl t))).
Proof.
  intros Hc. unfold getpass_resume, bind, call, ret. cbn [fst snd].
  unfold held_of at 1. rewrite Hc.
  destruct (timestamp_open e t (user_name e) (user_sid e)) as [ck|] eqn:Eo.
  - match goal with |- context [negb ?b] => destruct b end; cbn [negb];
      rewrite <- app_assoc; eexists; (split; [reflexivity|]);
      cbn [app open_cookies]; rewrite Eo; reflexivity.
  - eexists. split; [reflexivity|]. cbn [open_cookies]. now rewrite Eo.
Qed.

Lemma run_callbacks_tracks e cs : forall cl suspended t,
  resumes_suspended suspended cs = true ->
  (suspended = true -> cookie cl = None) ->
  exists mid,
    snd (run_callbacks e cs cl t) = t ++ mid
    /\ open_cookies e t mid (held_of cl)
       = held_of (fst (run_callbacks e cs cl t)).
Proof.
  induction cs as [|c cs IH]; intros cl suspended t Hwf Hs.
  - exists []. split; [cbn; now rewrite app_nil_r | reflexivity].
  - cbn [run_callbacks].
    destruct c as [signo|signo|]; cbn [resumes_suspended] in Hwf;
      unfold run_callback; unfold bind.
    + (* suspended *)
      destruct (getpass_suspend_tracks e signo cl t) as (mid1 & E1 & H1 & Hn).
      destruct (getpass_suspend e signo cl t) as [[r cl1] t1].
      cbn [fst snd ret] in *. subst t1.
      destruct (IH cl1 true (t ++ mid1) Hwf (fun _ => Hn)) as (mid2 & E2 & H2).
      exists (mid1 ++ mid2). rewrite E2, app_assoc. split; [reflexivity|].
      now rewrite open_cookies_app, H1.
    + (* resumed *)
      apply andb_true_iff in Hwf as [-> Hwf].
      destruct (getpass_resume_tracks e signo cl t (Hs eq_refl))
        as (mid1 & E1 & H1).
      destruct (getpass_resume e signo cl t) as [[r cl1] t1].
      cbn [fst snd ret] in *. subst t1.
      destruct (IH cl1 false (t ++ mid1) Hwf ltac:(discriminate))
        as (mid2 & E2 & H2).
      exists (mid1 ++ mid2). rewrite E2, app_assoc. split; [reflexivity|].
      now rewrite open_cookies_app, H1.
    + (* the lecture *)
      destruct (display_lecture_keeps e (Some (mkCallback (Some cl))) t)
        as (mid1 & E1 & H1).
      destruct (display_lecture_closure e cl t) as (cl1 & Ecl & _ & Hck & _).
      destruct (display_lecture e _ t) as [cb t1]. cbn [fst snd ret] in *.
      subst t1 cb. unfold ret. cbn.
      destruct (IH cl1 suspended (t ++ mid1) Hwf) as (mid2 & E2 & H2).
      { intros Hsus. rewrite Hck. auto. }
      exists (mid1 ++ mid2). rewrite E2, app_assoc. split; [reflexivity|].
      rewrite open_cookies_app, (open_cookies_keeps e mid1 _ _ H1).
      unfold held_of at 1. rewrite <- Hck. exact H2.
Qed.

Lemma open_ticket_tracks e m cl t :
  cookie cl = None ->
  exists mid,
    snd (open_ticket e m cl t) = t ++ mid
    /\ open_cookies e t mid [] = held_of (fst (open_ticket e m cl t)).
Proof.
  intros Hc. unfold open_ticket.
  destruct (negb (ISSET m MODE_IGNORE_TICKET)).
  2:{ exists []. cbn. rewrite app_nil_r. unfold held_of. now rewrite Hc. }
  unfold bind, call, ret. cbn [fst snd].
  destruct (timestamp_open e t (user_name e) (user_sid e)) as [ck|] eqn:Eo.
  - match goal with |- context [if ?b then _ else _] => destruct b end;
      cbn [fst snd]; rewrite <- ?app_assoc; eexists;
      (split; [reflexivity|]); cbn [app open_cookies]; rewrite Eo;
      reflexivity.
  - eexists. split; [reflexivity|]. cbn [open_cookies]. now rewrite Eo.
Qed.

Lemma prompt_user_tracks e v m cl t :
  (forall t pw prompt,
      resumes_suspended false (fst (verify_user e t pw prompt v)) = true) ->
  exists mid,
    snd (prompt_user e v m cl t) = t ++ mid
    /\ open_cookies e t mid (held_of cl)
       = held_of (snd (fst (prompt_user e v m cl t))).
Proof.
  intros Hwf. unfold prompt_user.
  match goal with |- context [if ?b then _ else _] => destruct b end.
  { eexists. split; [reflexivity|]. reflexivity. }
  destruct (auth_pw cl) as [pw|].
  2:{ exists []. cbn. now rewrite app_nil_r. }
  destruct (expand_prompt e _ (pw_name pw)) as [prompt|].
  2:{ exists []. cbn. now rewrite app_nil_r. }
  unfold bind, call. cbn [fst snd].
  destruct (run_callbacks_tracks e (fst (verify_user e t pw prompt v)) cl
              false (t ++ [E_verify_user pw prompt v]) (Hwf t pw prompt)
              ltac:(discriminate)) as (mid2 & E2 & H2).
  destruct (run_callbacks e _ cl _) as [cl2 t2]. cbn [fst snd] in E2, H2.
  subst t2.
  match goal with |- context [if ?b then _ else _] => destruct b end;
    unfold emit, call, ret; cbn [fst snd]; rewrite <- ?app_assoc;
    eexists; (split; [reflexivity|]).
  - cbn [app open_cookies]. rewrite open_cookies_app.
    cbn [open_cookies]. exact H2.
  - cbn [app open_cookies]. exact H2.
Qed.

Lemma check_user_interactive_tracks e v m cl t :
  (forall t pw prompt,
      resumes_suspended false (fst (verify_user e t pw prompt v)) = true) ->
  cookie cl = None ->
  exists mid,
    snd (check_user_interactive e v m cl t) = t ++ mid
    /\ open_cookies e t mid []
       = held_of (snd (fst (check_user_interactive e v m cl t))).
Proof.
  intros Hwf Hc. unfold check_user_interactive. unfold bind.
  destruct (open_ticket_tracks e m cl t Hc) as (mid1 & E1 & H1).
  destruct (open_ticket e m cl t) as [cl1 t1]. cbn [fst snd] in E1, H1.
  subst t1.
  assert (Hp : exists mid,
    snd (prompt_user e v m cl1 (t ++ mid1)) = t ++ mid
    /\ open_cookies e t mid []
       = held_of (snd (fst (prompt_user e v m cl1 (t ++ mid1))))).
  { destruct (prompt_user_tracks e v m cl1 (t ++ mid1) Hwf) as (mid2 & E2 & H2).
    exists (mid1 ++ mid2). rewrite E2, app_assoc. split; [reflexivity|].
    now rewrite open_cookies_app, H1. }
  assert (Hr : forall r : Z, exists mid,
    snd (ret (r, cl1) (t ++ mid1)) = t ++ mid
    /\ open_cookies e t mid [] = held_of (snd (fst (ret (r, cl1) (t ++ mid1))))).
  { intros r. exists mid1. auto. }
  destruct (tstat cl1); try exact Hp; [|apply Hr].
  destruct (negb (ISSET v FLAG_CHECK_USER)); [apply Hr | exact Hp].
Qed.

Lemma done_events_close e t pw ck v ex approve update held :
  open_cookies e t (done_events pw ck v ex approve update) held
  = match ck with
    | Some c => List.remove Nat.eq_dec c held
    | None => held
    end.
Proof.
  unfold done_events.
  rewrite !open_cookies_app.
  rewrite (open_cookies_keeps e (if approve then _ else _))
    by (destruct approve; repeat constructor).
  rewrite (open_cookies_keeps e (if update then _ else _))
    by (destruct update; repeat constructor).
  rewrite (open_cookies_keeps e (match pw with Some _ => _ | None => _ end))
    by (destruct pw; repeat constructor).
  cbn [open_cookies]. now destruct ck.
Qed.

(** X25: no time stamp cookie stays open. If the password prompt resumes
    only after it was suspended, then every cookie that [check_user] or
    its resume callback got from [timestamp_open] has been handed to
    [timestamp_close] by the time [check_user] returns, whatever the
    outcome. *)
Theorem check_user_closes_cookies e v m t :
  (forall t pw prompt,
      resumes_suspended false (fst (verify_user e t pw prompt v)) = true) ->
  exists mid,
    snd (check_user e v m t) = t ++ mid
    /\ open_cookies e t mid [] = [].
Proof.
  intros Hwf. unfold check_user.
  match goal with |- context [if ?b then _ else _] => destruct b end.
  { exists []. cbn. now rewrite app_nil_r. }
  unfold bind at 1.
  destruct (get_authpw_emits e m t) as (mid0 & E0 & H0).
  destruct (get_authpw e m t) as [pw t0]. cbn [fst snd] in *. subst t0.
  assert (H0' : forall held, open_cookies e t mid0 held = held).
  { intros held. apply open_cookies_keeps.
    eapply Forall_impl; [exact H0|]. intros ev; destruct ev; cbn; tauto. }
  assert (Hdone : forall r ex mid cl,
    open_cookies e t mid [] = held_of cl ->
    exists mid',
      snd (check_user_done e v m r ex cl (t ++ mid)) = t ++ mid'
      /\ open_cookies e t mid' [] = []).
  { intros r ex mid cl Hcl. rewrite check_user_done_spec. cbn [snd].
    eexists. rewrite <- app_assoc. split; [reflexivity|].
    rewrite open_cookies_app, done_events_close, Hcl. unfold held_of.
    destruct (cookie cl) as [ck|]; [|reflexivity]. cbn.
    now destruct (Nat.eq_dec ck ck). }
  destruct pw as [auth|]; [|apply Hdone; rewrite H0'; reflexivity].
  unfold bind at 1. cbn [call].
  assert (H1 : open_cookies e t (mid0 ++ [E_sudo_auth_init auth m]) [] = []).
  { rewrite open_cookies_app, H0'. reflexivity. }
  rewrite <- app_assoc.
  destruct (_ =? -1)%Z; [apply Hdone; exact H1|].
  destruct (negb (def_authenticate e) || user_is_exempt e);
    [apply Hdone; exact H1|].
  destruct (running_as_self e); [apply Hdone; exact H1|].
  unfold bind.
  destruct (check_user_interactive_tracks e v m
              (mkClosure TS_ERROR false None (Some auth))
              (t ++ mid0 ++ [E_sudo_auth_init auth m]) Hwf eq_refl)
    as (mid2 & E2 & H2).
  destruct (check_user_interactive e v m _ _) as [[r cl] t2].
  cbn [fst snd] in *. subst t2. rewrite <- app_assoc.
  apply Hdone. rewrite open_cookies_app, H1. exact H2.
Qed.

Lemma check_user_closes_cookies_witness :
  exists mid,
    snd (check_user sample_suspend_env VALIDATE_SUCCESS MODE_UPDATE_TICKET [])
    = [] ++ mid
    /\ open_cookies sample_suspend_env [] mid [] = [].
Proof.
  apply (check_user_closes_cookies sample_suspend_env VALIDATE_SUCCESS
           MODE_UPDATE_TICKET []).
  intros t pw prompt. reflexivity.
Defined.

End CheckProps.
